(** * LwJSON: a shallow embedding of lwjson.c and the properties of its
      scanner, tree-building parser, token arena and path search.

    The C text is a NUL-terminated buffer; a [const char*] into it is an
    offset ([nat]).  Reading at or past the end yields the terminator.
    Token references are arena indices: [FirstToken] is [&lw->first_token],
    [Tok i] is [&lw->tokens[i]], and [None] is [NULL]. *)

From Stdlib Require Import ZArith Ascii String Floats Lia.
From stdpp Require Import base option list.

Local Open Scope nat_scope.

(** ** Characters and text *)

Definition text := list ascii.

Definition NUL : ascii := "000"%char.

(** [*s] for a cursor [s] into the buffer [txt]. *)
Definition peek (txt : text) (s : nat) : ascii := default NUL (txt !! s).

Definition is_nul (c : ascii) : bool := Ascii.eqb c NUL.

(** [*s == ' ' || *s == '\t' || *s == '\r' || *s == '\n' || *s == '\f'] *)
Definition is_blank (c : ascii) : bool :=
  (Ascii.eqb c " " || Ascii.eqb c "009" || Ascii.eqb c "013"
   || Ascii.eqb c "010" || Ascii.eqb c "012")%char.

(** [*s >= '0' && *s <= '9'] *)
Definition is_digit (c : ascii) : bool :=
  (48 <=? nat_of_ascii c) && (nat_of_ascii c <=? 57).

(** [*s - '0'] *)
Definition digit_val (c : ascii) : Z := Z.of_nat (nat_of_ascii c) - 48.

(** ** Enumerations of lwjson.h *)

Inductive lwjson_type_t :=
  | LWJSON_TYPE_STRING
  | LWJSON_TYPE_NUM_INT
  | LWJSON_TYPE_NUM_REAL
  | LWJSON_TYPE_OBJECT
  | LWJSON_TYPE_ARRAY
  | LWJSON_TYPE_TRUE
  | LWJSON_TYPE_FALSE
  | LWJSON_TYPE_NULL.

Inductive lwjsonr_t :=
  | lwjsonOK
  | lwjsonERR
  | lwjsonERRJSON
  | lwjsonERRMEM.

Global Instance lwjson_type_eq_dec : EqDecision lwjson_type_t.
Proof. solve_decision. Defined.

Global Instance lwjsonr_eq_dec : EqDecision lwjsonr_t.
Proof. solve_decision. Defined.

(** ** Scanner primitives over the text

    The cursors handed to the scanners by [lwjson_parse] are never [NULL]
    (a null text is refused before the loop), so a cursor is an offset and
    the [s != NULL] tests of the source are not represented. *)

Definition dq : ascii := "034"%char.        (* the double quote *)
Definition backslash : ascii := "092"%char.

(** Number of blank characters at the head of [l]: the [++s] steps of the
    loop of [prv_skip_blank]. *)
Fixpoint blank_run (l : text) : nat :=
  match l with
  | c :: r => if is_blank c then S (blank_run r) else 0
  | [] => 0
  end.

(** [prv_skip_blank]: the cursor is stored back only when a character that
    is neither blank nor the terminator is found; when the blanks run up to
    the terminator the function returns [lwjsonOK] and leaves [*p] as it
    was. *)
Definition prv_skip_blank (txt : text) (p : nat) : lwjsonr_t * nat :=
  let s := p + blank_run (drop p txt) in
  if is_nul (peek txt s) then (lwjsonOK, p) else (lwjsonOK, s).

(** The [for (char prev_ch = '\0';; ++s, ++len)] loop of
    [prv_parse_string] run on the text after the opening quote: [Some len]
    when it breaks at a quote whose previous character is not a backslash,
    [None] when it meets the terminator. *)
Fixpoint string_run (prev_ch : ascii) (l : text) : option nat :=
  match l with
  | [] => None
  | c :: r =>
      if is_nul c then None
      else if Ascii.eqb c dq && negb (Ascii.eqb prev_ch backslash) then Some 0
      else S <$> string_run c r
  end.

(** Result of [prv_parse_string]: on failure the status and, when the
    opening quote had been passed, the start already stored in [*pout];
    on success [*pout], [*poutlen] and the new cursor. *)
Inductive string_result :=
  | StrErr (res : lwjsonr_t) (pout : option nat)
  | StrOk (pout : nat) (poutlen : nat) (p : nat).

Definition prv_parse_string (txt : text) (p : nat) : string_result :=
  match prv_skip_blank txt p with
  | (lwjsonOK, p) =>
      if negb (Ascii.eqb (peek txt p) dq) then StrErr lwjsonERRJSON None
      else
        let pout := S p in
        match string_run NUL (drop pout txt) with
        | None => StrErr lwjsonERRJSON (Some pout)
        | Some len =>
            let s := pout + len + 1 in
            let s := if Ascii.eqb (peek txt s) dq then S s else s in
            match prv_skip_blank txt s with
            | (lwjsonOK, s) => StrOk pout len s
            | (res, _) => StrErr res (Some pout)
            end
        end
  | (res, _) => StrErr res None
  end.

(** [strncmp(a + ia, b + ib, n) == 0] *)
Fixpoint strncmp_eq (a : text) (ia : nat) (b : text) (ib : nat) (n : nat) : bool :=
  match n with
  | 0 => true
  | S n' =>
      if negb (Ascii.eqb (peek a ia) (peek b ib)) then false
      else if is_nul (peek a ia) then true
      else strncmp_eq a (S ia) b (S ib) n'
  end.

(** Texts are written as Rocq strings in which a single quote stands for
    the double quote of JSON. *)
Definition json (s : string) : text :=
  (fun c => if Ascii.eqb c "'"%char then dq else c) <$> list_ascii_of_string s.

(** ** The configured number types

    [lwjson_real_t] and [lwjson_int_t] are typedefs of the macros
    LWJSON_CFG_REAL_TYPE and LWJSON_CFG_INT_TYPE of lwjson_opt.h, which is
    not part of the sources at hand.  The real type and the arithmetic the
    number parser performs on it are therefore taken as a parameter; the
    integer type is read as [Z] (the cast of an out-of-range real is
    undefined in C and is left to [int_of_real]). *)

Class RealType (lwjson_real_t : Type) := {
  real_of_int : Z -> lwjson_real_t;
  real_add : lwjson_real_t -> lwjson_real_t -> lwjson_real_t;
  real_mul : lwjson_real_t -> lwjson_real_t -> lwjson_real_t;
  real_div : lwjson_real_t -> lwjson_real_t -> lwjson_real_t;
  real_neg : lwjson_real_t -> lwjson_real_t;
  int_of_real : lwjson_real_t -> Z
}.

(** The configuration LWJSON_CFG_REAL_TYPE = double: IEEE binary64 with the
    C cast to an integer truncating toward zero. *)
Definition float_trunc (f : float) : Z :=
  match Prim2SF f with
  | S754_finite s m e =>
      let mag := match e with
                 | Zneg k => Z.shiftr (Zpos m) (Zpos k)
                 | _ => Z.shiftl (Zpos m) e
                 end in
      if s then Z.opp mag else mag
  | _ => 0%Z
  end.

Global Instance binary64 : RealType float := {|
  real_of_int := fun z =>
    match z with
    | Zneg p => PrimFloat.opp (PrimFloat.of_uint63 (Uint63.of_Z (Zpos p)))
    | _ => PrimFloat.of_uint63 (Uint63.of_Z z)
    end;
  real_add := PrimFloat.add;
  real_mul := PrimFloat.mul;
  real_div := PrimFloat.div;
  real_neg := PrimFloat.opp;
  int_of_real := float_trunc
|}.

(** ** Tokens and the parser instance *)

Inductive tokref :=
  | FirstToken
  | Tok (i : nat).

Global Instance tokref_eq_dec : EqDecision tokref.
Proof. solve_decision. Defined.

Section WithReal.
Context {lwjson_real_t : Type} {RT : RealType lwjson_real_t}.

(** The union [u] of a token.  [U_zero] is the all-zero content a fresh
    slot has after [memset]; reading [first_child] from it gives [NULL]. *)
Inductive u_t :=
  | U_zero
  | U_str (token_value : nat) (token_value_len : nat)
  | U_num_real (num_real : lwjson_real_t)
  | U_num_int (num_int : Z)
  | U_first_child (first_child : tokref).

Record lwjson_token_t := mk_token {
  next : option tokref;
  parent : option tokref;
  type : lwjson_type_t;
  token_name : option nat;
  token_name_len : nat;
  u : u_t
}.

(** [memset(&token, 0x00, sizeof(token))] *)
Definition zero_token : lwjson_token_t :=
  mk_token None None LWJSON_TYPE_STRING None 0 U_zero.

Definition u_first_child (t : lwjson_token_t) : option tokref :=
  match u t with
  | U_first_child c => Some c
  | _ => None
  end.

Definition set_next (v : option tokref) (t : lwjson_token_t) :=
  mk_token v (parent t) (type t) (token_name t) (token_name_len t) (u t).
Definition set_type (v : lwjson_type_t) (t : lwjson_token_t) :=
  mk_token (next t) (parent t) v (token_name t) (token_name_len t) (u t).
Definition set_token_name (v : option nat) (t : lwjson_token_t) :=
  mk_token (next t) (parent t) (type t) v (token_name_len t) (u t).
Definition set_token_name_len (v : nat) (t : lwjson_token_t) :=
  mk_token (next t) (parent t) (type t) (token_name t) v (u t).
Definition set_u (v : u_t) (t : lwjson_token_t) :=
  mk_token (next t) (parent t) (type t) (token_name t) (token_name_len t) v.

(** The instance.  [tokens] is the caller's array; its size [tokens_len]
    is the length of the list. *)
Record lwjson_t := mk_lwjson {
  tokens : list lwjson_token_t;
  next_free_token_pos : nat;
  first_token : lwjson_token_t;
  flags_parsed : bool
}.

Definition tokens_len (lw : lwjson_t) : nat := length (tokens lw).

Definition set_tokens (v : list lwjson_token_t) (lw : lwjson_t) :=
  mk_lwjson v (next_free_token_pos lw) (first_token lw) (flags_parsed lw).
Definition set_next_free_token_pos (v : nat) (lw : lwjson_t) :=
  mk_lwjson (tokens lw) v (first_token lw) (flags_parsed lw).
Definition set_first_token (v : lwjson_token_t) (lw : lwjson_t) :=
  mk_lwjson (tokens lw) (next_free_token_pos lw) v (flags_parsed lw).
Definition set_flags_parsed (v : bool) (lw : lwjson_t) :=
  mk_lwjson (tokens lw) (next_free_token_pos lw) (first_token lw) v.

(** Dereferencing and writing through a token reference. *)
Definition get_token (lw : lwjson_t) (r : tokref) : lwjson_token_t :=
  match r with
  | FirstToken => first_token lw
  | Tok i => default zero_token (tokens lw !! i)
  end.

Definition put_token (r : tokref) (t : lwjson_token_t) (lw : lwjson_t) : lwjson_t :=
  match r with
  | FirstToken => set_first_token t lw
  | Tok i => set_tokens (<[i := t]> (tokens lw)) lw
  end.

Definition upd_token (r : tokref) (f : lwjson_token_t -> lwjson_token_t)
    (lw : lwjson_t) : lwjson_t :=
  put_token r (f (get_token lw r)) lw.

(** ** Token arena *)

(** [prv_alloc_token]: the slot at the cursor, zeroed, and the cursor
    advanced; [None] is the [NULL] returned when the arena is full. *)
Definition prv_alloc_token (lw : lwjson_t) : option (nat * lwjson_t) :=
  if next_free_token_pos lw <? tokens_len lw then
    let i := next_free_token_pos lw in
    Some (i, set_next_free_token_pos (S i) (put_token (Tok i) zero_token lw))
  else None.

(** [lwjson_init] *)
Definition lwjson_init (toks : list lwjson_token_t) : lwjsonr_t * lwjson_t :=
  (lwjsonOK,
   mk_lwjson (replicate (length toks) zero_token) 0 (set_type LWJSON_TYPE_OBJECT zero_token) false).

(** [lwjson_reset]: one [memset] over the array, nothing else. *)
Definition lwjson_reset (lw : lwjson_t) : lwjsonr_t * lwjson_t :=
  (lwjsonOK, set_tokens (replicate (tokens_len lw) zero_token) lw).

(** [lwjson_get_tokens_used], [lwjson_get_first_token] for a non-null
    instance. *)
Definition lwjson_get_tokens_used (lw : lwjson_t) : nat := next_free_token_pos lw + 1.
Definition lwjson_get_first_token (lw : lwjson_t) : tokref := FirstToken.

(** ** Property names and numbers *)

(** [prv_parse_property_name]: the status, the cursor and the token with
    the name fields written so far. *)
Definition prv_parse_property_name (txt : text) (p : nat) (t : lwjson_token_t)
    : lwjsonr_t * nat * lwjson_token_t :=
  match prv_parse_string txt p with
  | StrErr res None => (res, p, t)
  | StrErr res (Some pout) => (res, p, set_token_name (Some pout) t)
  | StrOk pout len p =>
      let t := set_token_name_len len (set_token_name (Some pout) t) in
      if negb (Ascii.eqb (peek txt p) ":"%char) then (lwjsonERRJSON, p, t)
      else (lwjsonOK, snd (prv_skip_blank txt (S p)), t)
  end.

Definition real_ten : lwjson_real_t := real_of_int 10.

(** [for (...; *s >= '0' && *s <= '9'; ++s) num = num * 10 + ( *s - '0');]
    the final accumulator and the number of digits passed. *)
Fixpoint digits_real (num : lwjson_real_t) (l : text) : lwjson_real_t * nat :=
  match l with
  | c :: r =>
      if is_digit c then
        let '(num, k) :=
          digits_real (real_add (real_mul num real_ten) (real_of_int (digit_val c))) r in
        (num, S k)
      else (num, 0)
  | [] => (num, 0)
  end.

(** [for (exp = 1, dec_num = 0; ...; ++s, exp *= 10) dec_num = dec_num * 10 + ( *s - '0');] *)
Fixpoint frac_digits (exp dec_num : lwjson_real_t) (l : text)
    : lwjson_real_t * lwjson_real_t * nat :=
  match l with
  | c :: r =>
      if is_digit c then
        let '(exp, dec_num, k) :=
          frac_digits (real_mul exp real_ten)
            (real_add (real_mul dec_num real_ten) (real_of_int (digit_val c))) r in
        (exp, dec_num, S k)
      else (exp, dec_num, 0)
  | [] => (exp, dec_num, 0)
  end.

(** [for (exp_cnt = 0; ...; ++s) exp_cnt = exp_cnt * 10 + ( *s - '0');]
    ([exp_cnt] is an [int]; its overflow is undefined in C and the count is
    kept exact here). *)
Fixpoint digits_int (exp_cnt : Z) (l : text) : Z * nat :=
  match l with
  | c :: r =>
      if is_digit c then
        let '(e, k) := digits_int (exp_cnt * 10 + digit_val c)%Z r in (e, S k)
      else (exp_cnt, 0)
  | [] => (exp_cnt, 0)
  end.

(** Result of [prv_parse_number]: the status, or the type written to
    [*tout], the value written to [*iout] or [*fout], and the cursor. *)
Inductive number_result :=
  | NumErr (res : lwjsonr_t)
  | NumOk (tout : lwjson_type_t) (val : u_t) (p : nat).

(** The fractional part, when the cursor is at a dot. *)
Definition number_fraction (txt : text) (num : lwjson_real_t) (s : nat)
    : option (lwjson_type_t * lwjson_real_t * nat) :=
  if Ascii.eqb (peek txt s) "."%char then
    let s := S s in
    if negb (is_digit (peek txt s)) then None
    else
      let '(exp, dec_num, k) := frac_digits (real_of_int 1) (real_of_int 0) (drop s txt) in
      Some (LWJSON_TYPE_NUM_REAL, real_add num (real_div dec_num exp), s + k)
  else Some (LWJSON_TYPE_NUM_INT, num, s).

(** The exponent part, when the cursor is at [e] or [E]. *)
Definition number_exponent (txt : text) (type : lwjson_type_t)
    (num : lwjson_real_t) (s : nat) : option (lwjson_type_t * lwjson_real_t * nat) :=
  if Ascii.eqb (peek txt s) "e"%char || Ascii.eqb (peek txt s) "E"%char then
    let s := S s in
    let is_minus_exp := Ascii.eqb (peek txt s) "-"%char in
    let s := if is_minus_exp then S s else s in
    let s := if Ascii.eqb (peek txt s) "+"%char then S s else s in
    if negb (is_digit (peek txt s)) then None
    else
      let '(exp_cnt, k) := digits_int 0%Z (drop s txt) in
      let num :=
        Nat.iter (Z.to_nat exp_cnt)
          (fun num => if is_minus_exp then real_div num real_ten
                      else real_mul num real_ten) num in
      Some (LWJSON_TYPE_NUM_REAL, num, s + k)
  else Some (type, num, s).

Definition prv_parse_number (txt : text) (p : nat) : number_result :=
  match prv_skip_blank txt p with
  | (lwjsonOK, p) =>
      let s := p in
      if is_nul (peek txt s) then NumErr lwjsonERRJSON
      else
        let is_minus := Ascii.eqb (peek txt s) "-"%char in
        let s := if is_minus then S s else s in
        let c := nat_of_ascii (peek txt s) in
        let c1 := nat_of_ascii (peek txt (S s)) in
        if is_nul (peek txt s)
           || (c <? 48) || (57 <? c)
           || ((c =? 48) && ((c1 <? 48) && (57 <? c1)))
        then NumErr lwjsonERRJSON
        else
          let '(num, k) := digits_real (real_of_int 0) (drop s txt) in
          match number_fraction txt num (s + k) with
          | None => NumErr lwjsonERRJSON
          | Some (type, num, s) =>
              match number_exponent txt type num s with
              | None => NumErr lwjsonERRJSON
              | Some (type, num, s) =>
                  let num := if is_minus then real_neg num else num in
                  match type with
                  | LWJSON_TYPE_NUM_INT => NumOk type (U_num_int (int_of_real num)) s
                  | _ => NumOk type (U_num_real num) s
                  end
              end
          end
  | (res, _) => NumErr res
  end.

(** ** Tree-building parser *)

(** The locals of [lwjson_parse] that live across iterations of its loop.
    [to] is never [NULL] inside the loop: the iteration that pops the root
    returns. *)
Record pstate := mk_pstate {
  st_lw : lwjson_t;
  st_p : nat;
  st_to : tokref;
  st_first_check : bool;
  st_res : lwjsonr_t
}.

(** One iteration either reaches [continue] or the end of the body
    ([Next]) or jumps to [ret] ([Ret]). *)
Inductive iter_result :=
  | Next (st : pstate)
  | Ret (res : lwjsonr_t) (lw : lwjson_t).

(** [(to->type == LWJSON_TYPE_OBJECT ? '}' : ']')] *)
Definition close_delim (ty : lwjson_type_t) : ascii :=
  if decide (ty = LWJSON_TYPE_OBJECT) then "}"%char else "]"%char.

(** [for (c = to->u.first_child; c->next != NULL; c = c->next) {}]
    started at [c]; [None] when the walk does not end within [fuel]
    steps. *)
Fixpoint last_sibling (lw : lwjson_t) (fuel : nat) (c : tokref) : option tokref :=
  match next (get_token lw c) with
  | None => Some c
  | Some n =>
      match fuel with
      | 0 => None
      | S fuel => last_sibling lw fuel n
      end
  end.

(** "Add element to linked list": first child of [to], or next of the last
    sibling.  The walk is given as many steps as tokens are allocated. *)
Definition link_child (to t : tokref) (lw : lwjson_t) : option lwjson_t :=
  match u_first_child (get_token lw to) with
  | None => Some (upd_token to (set_u (U_first_child t)) lw)
  | Some c0 =>
      c ← last_sibling lw (next_free_token_pos lw) c0;
      Some (upd_token c (set_next (Some t)) lw)
  end.

(** The [switch ( *p)] on the first character of a value.  [ValOpen]: a
    container is opened; [ValScalar]: type and, for strings and numbers,
    the payload of [t], and the cursor after the value; [ValErr]: the
    status, and the payload a failing string scan had already written. *)
Inductive value_result :=
  | ValOpen (ty : lwjson_type_t) (p : nat)
  | ValScalar (ty : lwjson_type_t) (val : option u_t) (p : nat)
  | ValErr (res : lwjsonr_t) (val : option u_t).

Definition is_char (c : ascii) (s : string) : bool :=
  match s with
  | String c' EmptyString => Ascii.eqb c c'
  | _ => false
  end.

Definition parse_value (txt : text) (p : nat) : value_result :=
  let c := peek txt p in
  if is_char c "{" then ValOpen LWJSON_TYPE_OBJECT (S p)
  else if is_char c "[" then ValOpen LWJSON_TYPE_ARRAY (S p)
  else if Ascii.eqb c dq then
    match prv_parse_string txt p with
    | StrOk pout len p => ValScalar LWJSON_TYPE_STRING (Some (U_str pout len)) p
    | StrErr res None => ValErr res None
    | StrErr res (Some pout) => ValErr res (Some (U_str pout 0))
    end
  else if is_char c "t" then
    if strncmp_eq txt p (list_ascii_of_string "true") 0 4
    then ValScalar LWJSON_TYPE_TRUE None (p + 4)
    else ValErr lwjsonERRJSON None
  else if is_char c "f" then
    if strncmp_eq txt p (list_ascii_of_string "false") 0 5
    then ValScalar LWJSON_TYPE_FALSE None (p + 5)
    else ValErr lwjsonERRJSON None
  else if is_char c "n" then
    if strncmp_eq txt p (list_ascii_of_string "null") 0 4
    then ValScalar LWJSON_TYPE_NULL None (p + 4)
    else ValErr lwjsonERRJSON None
  else if is_char c "-" || is_digit c then
    match prv_parse_number txt p with
    | NumOk ty val p => ValScalar ty (Some val) p
    | NumErr _ => ValErr lwjsonERRJSON None
    end
  else ValErr lwjsonERRJSON None.

Definition write_val (val : option u_t) (t : lwjson_token_t) : lwjson_token_t :=
  match val with
  | Some v => set_u v t
  | None => t
  end.

(** [if (to->type != LWJSON_TYPE_ARRAY) { ... }]: the property name of
    the new token [t] when the container is not an array. *)
Definition parse_member_name (txt : text) (p : nat) (to t : tokref)
    (lw : lwjson_t) : lwjsonr_t * nat * lwjson_t :=
  if decide (type (get_token lw to) = LWJSON_TYPE_ARRAY) then (lwjsonOK, p, lw)
  else if negb (Ascii.eqb (peek txt p) dq) then (lwjsonERRJSON, p, lw)
  else
    let '(res, p, tk) := prv_parse_property_name txt p (get_token lw t) in
    (res, p, put_token t tk lw).

(** "Check what are values after the token value": a comma, a closing
    delimiter, or a format error; the comma is passed at once. *)
Definition check_after_value (txt : text) (p : nat) (to : tokref)
    (lw : lwjson_t) : iter_result :=
  match prv_skip_blank txt p with
  | (lwjsonOK, p) =>
      let c := peek txt p in
      if is_nul c || (negb (is_char c ",") && negb (is_char c "]")
                      && negb (is_char c "}"))
      then Ret lwjsonERRJSON lw
      else if is_char c ","
      then Next (mk_pstate lw (S p) to false lwjsonOK)
      else Next (mk_pstate lw p to false lwjsonOK)
  | (res, _) => Ret res lw
  end.

(** The part of the loop body after the token [t = &lw->tokens[i]] is
    allocated.  A token whose type is a container type reaches [continue];
    a scalar goes through the check of what follows it. *)
Definition parse_token (txt : text) (p : nat) (to : tokref) (i : nat)
    (lw : lwjson_t) : option iter_result :=
  let t := Tok i in
  let '(res, p, lw) := parse_member_name txt p to t lw in
  if negb (bool_decide (res = lwjsonOK)) then Some (Ret res lw)
  else
    lw ← link_child to t lw;
    Some
      match parse_value txt p with
      | ValOpen ty p =>
          Next (mk_pstate
                  (upd_token t (fun tk => set_next (Some to) (set_type ty tk)) lw)
                  p t false res)
      | ValErr res val => Ret res (upd_token t (write_val val) lw)
      | ValScalar ty val p =>
          check_after_value txt p to
            (upd_token t (fun tk => set_type ty (write_val val tk)) lw)
      end.

(** The body of [while (p != NULL && *p != '\0')].  [None]: the sibling
    walk of [link_child] never ends. *)
Definition parse_iter (txt : text) (st : pstate) : option iter_result :=
  let lw := st_lw st in
  let to := st_to st in
  match prv_skip_blank txt (st_p st) with
  | (lwjsonOK, p) =>
      let c := peek txt p in
      if st_first_check st then
        if is_char c "{" then
          Some (Next (mk_pstate (upd_token to (set_type LWJSON_TYPE_OBJECT) lw)
                        (S p) to false lwjsonOK))
        else if is_char c "[" then
          Some (Next (mk_pstate (upd_token to (set_type LWJSON_TYPE_ARRAY) lw)
                        (S p) to false lwjsonOK))
        else Some (Ret lwjsonERRMEM lw)
      else if is_char c "," then Some (Next (mk_pstate lw (S p) to false lwjsonOK))
      else if Ascii.eqb c (close_delim (type (get_token lw to))) then
        let parent := next (get_token lw to) in
        let lw := upd_token to (set_next None) lw in
        match parent with
        | Some to => Some (Next (mk_pstate lw (S p) to false lwjsonOK))
        | None =>
            let p := snd (prv_skip_blank txt (S p)) in
            Some (Ret (if is_nul (peek txt p) then lwjsonOK else lwjsonERR) lw)
        end
      else
        match prv_alloc_token lw with
        | None => Some (Ret lwjsonERRMEM lw)
        | Some (i, lw) => parse_token txt p to i lw
        end
  | (res, _) => Some (Ret res lw)
  end.

(** After the loop: [if (to != NULL) { to->token_name = NULL;
    to->token_name_len = 0; }], with the status the last iteration left in
    [res]. *)
Definition loop_exit (st : pstate) : lwjsonr_t * lwjson_t :=
  (st_res st,
   upd_token (st_to st) (fun tk => set_token_name_len 0 (set_token_name None tk))
     (st_lw st)).

(** The loop, given [fuel] iterations; [None] when they do not suffice or
    an iteration does not end. *)
Fixpoint parse_loop (txt : text) (fuel : nat) (st : pstate)
    : option (lwjsonr_t * lwjson_t) :=
  if is_nul (peek txt (st_p st)) then Some (loop_exit st)
  else
    match fuel with
    | 0 => None
    | S fuel =>
        match parse_iter txt st with
        | None => None
        | Some (Ret res lw) => Some (res, lw)
        | Some (Next st) => parse_loop txt fuel st
        end
    end.

(** The label [ret]. *)
Definition parse_ret (r : lwjsonr_t * lwjson_t) : lwjsonr_t * lwjson_t :=
  let '(res, lw) := r in
  (res, if decide (res = lwjsonOK) then set_flags_parsed true lw else lw).

(** [lwjson_parse]; [json_str = None] is the null text.  Every iteration
    moves the cursor forward, so the loop is given one iteration per
    character of the text (see [lwjson_parse_total]). *)
Definition lwjson_parse (lw : lwjson_t) (json_str : option text)
    : option (lwjsonr_t * lwjson_t) :=
  let lw :=
    set_first_token zero_token
      (set_next_free_token_pos 0 (set_flags_parsed false lw)) in
  match json_str with
  | None => Some (lwjsonERRJSON, lw)
  | Some txt =>
      if is_nul (peek txt 0) then Some (lwjsonERRJSON, lw)
      else
        parse_ret <$>
          parse_loop txt (length txt) (mk_pstate lw 0 FirstToken true lwjsonOK)
  end.

(** ** Path search *)

(** [for ( *olen = 0; *s != '\0' && *s != '.'; ++( *olen), ++s) {}] *)
Fixpoint segment_run (l : text) : nat :=
  match l with
  | c :: r => if is_nul c || is_char c "." then 0 else S (segment_run r)
  | [] => 0
  end.

(** [prv_create_path_segment] on the path text [ptxt] with cursor [p]:
    [None] for the return value 0, else the new cursor, the segment start,
    its length and [is_last].  In the wildcard branch [s] is not advanced,
    so the final test [*s == '\0'] reads the [#] itself. *)
Definition prv_create_path_segment (ptxt : text) (p : nat)
    : option (nat * nat * nat * bool) :=
  let s := p in
  if is_nul (peek ptxt s) then None
  else if is_char (peek ptxt s) "#" then
    if negb (is_char (peek ptxt (S s)) ".") then None
    else Some (s + 1 + 1, s, 1, is_nul (peek ptxt s))
  else
    let olen := segment_run (drop s ptxt) in
    let s := s + olen in
    Some (S s, p, olen, is_nul (peek ptxt s)).

(** [for (t = first; t != NULL; t = t->next) body]: the body returns a
    token ([Some (Some r)]), falls through to the next sibling
    ([Some None]) or does not end ([None]); [fuel] bounds the number of
    siblings visited. *)
Fixpoint for_siblings (lw : lwjson_t) (fuel : nat) (t : option tokref)
    (body : tokref -> option (option tokref)) : option (option tokref) :=
  match t with
  | None => Some None
  | Some t =>
      match fuel with
      | 0 => None
      | S fuel =>
          match body t with
          | None => None
          | Some (Some r) => Some (Some r)
          | Some None => for_siblings lw fuel (next (get_token lw t)) body
          end
      end
  end.

(** [t->token_name_len == segment_len &&
     !strncmp(t->token_name, segment, segment_len)]; token names point into
    the parsed text [txt], segments into the path [ptxt]. *)
Definition name_matches (txt ptxt : text) (t : lwjson_token_t)
    (segment segment_len : nat) : bool :=
  (token_name_len t =? segment_len)
  && match token_name t with
     | Some name => strncmp_eq txt name ptxt segment segment_len
     | None => segment_len =? 0
     end.

(** [prv_find]; [depth] bounds the recursion (one level per segment) and
    [fuel] each sibling loop.  [Some None] is the [NULL] result. *)
Fixpoint prv_find (txt ptxt : text) (lw : lwjson_t) (fuel depth : nat)
    (parent : tokref) (path : nat) : option (option tokref) :=
  match depth with
  | 0 => None
  | S depth =>
      match prv_create_path_segment ptxt path with
      | None => Some None
      | Some (path, segment, segment_len, is_last) =>
          if is_char (peek ptxt segment) "#" && (segment_len =? 1) then
            if negb (bool_decide (type (get_token lw parent) = LWJSON_TYPE_ARRAY))
            then Some None
            else
              for_siblings lw fuel (u_first_child (get_token lw parent))
                (fun t => prv_find txt ptxt lw fuel depth t path)
          else
            if negb (bool_decide (type (get_token lw parent) = LWJSON_TYPE_OBJECT))
            then Some None
            else
              for_siblings lw fuel (u_first_child (get_token lw parent))
                (fun t =>
                   if name_matches txt ptxt (get_token lw t) segment segment_len
                   then if is_last then Some (Some t)
                        else prv_find txt ptxt lw fuel depth t path
                   else Some None)
      end
  end.

(** [lwjson_find] on a non-null instance; [path = None] is the null path.
    A path has at most one segment per character, and a sibling chain
    without a cycle at most one token per allocated slot besides the root. *)
Definition lwjson_find (txt : text) (lw : lwjson_t) (path : option text)
    : option (option tokref) :=
  match path with
  | None => Some None
  | Some ptxt =>
      if negb (flags_parsed lw) then Some None
      else
        prv_find txt ptxt lw (S (next_free_token_pos lw)) (S (length ptxt))
          (lwjson_get_first_token lw) 0
  end.

(** [lwjson_get_val_int] on a token reference. *)
Definition lwjson_get_val_int (lw : lwjson_t) (token : option tokref) : Z :=
  match token with
  | Some r =>
      match type (get_token lw r), u (get_token lw r) with
      | LWJSON_TYPE_NUM_INT, U_num_int z => z
      | _, _ => 0%Z
      end
  | None => 0%Z
  end.

(** [lwjson_get_val_real] on a token reference. *)
Definition lwjson_get_val_real (lw : lwjson_t) (token : option tokref) : lwjson_real_t :=
  match token with
  | Some r =>
      match type (get_token lw r), u (get_token lw r) with
      | LWJSON_TYPE_NUM_REAL, U_num_real x => x
      | _, _ => real_of_int 0
      end
  | None => real_of_int 0
  end.

(** [lwjson_get_val_string] called with a non-null [str_len]: [None] when
    it returns [NULL] for a null token or a token that is no string,
    otherwise the pointer returned ([None] for the null pointer of a slot
    whose payload was never written) and the length stored. *)
Definition lwjson_get_val_string (lw : lwjson_t) (token : option tokref)
    : option (option nat * nat) :=
  match token with
  | Some r =>
      if decide (type (get_token lw r) = LWJSON_TYPE_STRING) then
        match u (get_token lw r) with
        | U_str v l => Some (Some v, l)
        | _ => Some (None, 0)
        end
      else None
  | None => None
  end.

(** ** Sibling chains as lists *)

(** The tokens a sibling loop started at [t] visits, in order; [None] when
    the chain does not end within [fuel] tokens. *)
Fixpoint siblings (lw : lwjson_t) (fuel : nat) (t : option tokref)
    : option (list tokref) :=
  match t with
  | None => Some []
  | Some t =>
      match fuel with
      | 0 => None
      | S fuel => cons t <$> siblings lw fuel (next (get_token lw t))
      end
  end.

(** The first result of a sequence of loop bodies. *)
Fixpoint first_result (rs : list (option (option tokref))) : option (option tokref) :=
  match rs with
  | [] => Some None
  | None :: _ => None
  | Some (Some r) :: _ => Some (Some r)
  | Some None :: rs => first_result rs
  end.

(** The literal-segment step of the search read off the specification's
    words: take the first child whose name matches; if the segment is the
    last one return that child, otherwise the result is the search of the
    rest of the path inside that child; not-found when no child matches. *)
Definition literal_step_spec (txt ptxt : text) (lw : lwjson_t) (fuel depth : nat)
    (parent : tokref) (path : nat) : option (option tokref) :=
  match prv_create_path_segment ptxt path with
  | None => Some None
  | Some (path, segment, segment_len, is_last) =>
      if negb (bool_decide (type (get_token lw parent) = LWJSON_TYPE_OBJECT))
      then Some None
      else
        cs ← siblings lw fuel (u_first_child (get_token lw parent));
        match List.find (fun t => name_matches txt ptxt (get_token lw t)
                                     segment segment_len) cs with
        | None => Some None
        | Some t => if is_last then Some (Some t)
                    else prv_find txt ptxt lw fuel depth t path
        end
  end.

(** ** Invariants of the loop *)

(** A reference is valid for a cursor [n] when it is the root or a slot
    below the cursor. *)
Definition valid_ref (n : nat) (r : tokref) : Prop :=
  match r with
  | FirstToken => True
  | Tok i => i < n
  end.

Definition valid_opt (n : nat) (o : option tokref) : Prop :=
  match o with
  | Some r => valid_ref n r
  | None => True
  end.

(** The cursor is within the arena and the links of every allocated token
    stay among the allocated tokens. *)
Definition closed_heap (lw : lwjson_t) : Prop :=
  next_free_token_pos lw <= tokens_len lw
  /\ forall r, valid_ref (next_free_token_pos lw) r ->
       valid_opt (next_free_token_pos lw) (next (get_token lw r))
       /\ valid_opt (next_free_token_pos lw) (u_first_child (get_token lw r)).

Definition closed_state (st : pstate) : Prop :=
  closed_heap (st_lw st)
  /\ valid_ref (next_free_token_pos (st_lw st)) (st_to st).

(** Two instances that agree on everything a parse can read: the cursor,
    the root, the flag and the allocated slots; the second one has
    capacity [c]. *)
Definition same_upto (c : nat) (A B : lwjson_t) : Prop :=
  next_free_token_pos A = next_free_token_pos B
  /\ first_token A = first_token B
  /\ flags_parsed A = flags_parsed B
  /\ tokens_len B = c
  /\ next_free_token_pos B <= c
  /\ next_free_token_pos A <= tokens_len A
  /\ forall i, i < next_free_token_pos A -> tokens A !! i = tokens B !! i.

Definition same_state (c : nat) (a b : pstate) : Prop :=
  same_upto c (st_lw a) (st_lw b)
  /\ st_p a = st_p b
  /\ st_to a = st_to b
  /\ st_first_check a = st_first_check b
  /\ st_res a = st_res b.

(** The bundle the steps of an iteration preserve. *)
Definition pair_ok (c n : nat) (A B : lwjson_t) : Prop :=
  closed_heap A /\ same_upto c A B /\ next_free_token_pos A = n.

(** Writes through token references leave the cursor, the capacity and the
    flag alone. *)
Definition same_frame (lw lw' : lwjson_t) : Prop :=
  next_free_token_pos lw' = next_free_token_pos lw
  /\ tokens_len lw' = tokens_len lw
  /\ flags_parsed lw' = flags_parsed lw.

(** The frame of an iteration result against the instance at its start. *)
Definition result_frame (lw : lwjson_t) (r : option iter_result) : Prop :=
  match r with
  | Some (Next a) => same_frame lw (st_lw a)
  | Some (Ret _ la) => same_frame lw la
  | None => True
  end.

(** An iteration never lowers the cursor and never changes the capacity
    or the flag. *)
Definition grows (lw lw' : lwjson_t) : Prop :=
  next_free_token_pos lw <= next_free_token_pos lw'
  /\ tokens_len lw' = tokens_len lw
  /\ flags_parsed lw' = flags_parsed lw.

(** Rank of a reference: the root comes first, then the slots in
    allocation order. *)
Definition rk (r : tokref) : nat :=
  match r with
  | FirstToken => 0
  | Tok i => S i
  end.

(** A link that is absent or points to a slot of rank above [lb] among the
    first [m] slots. *)
Definition above (m lb : nat) (o : option tokref) : Prop :=
  match o with
  | None => True
  | Some r => lb < rk r /\ rk r <= m
  end.

(** The open containers: [r] and then [rest], each linked by its [next]
    field to its parent, down to the root. *)
Fixpoint open_chain (lw : lwjson_t) (r : tokref) (rest : list tokref) : Prop :=
  match rest with
  | [] => r = FirstToken /\ next (get_token lw r) = None
  | r' :: rest' =>
      next (get_token lw r) = Some r' /\ rk r' < rk r /\ open_chain lw r' rest'
  end.

(** Among the root and the first [m] slots: [to] and [rest] are the open
    containers; every other token's [next] and every token's first child
    point forward in allocation order. *)
Definition heap_inv (m : nat) (lw : lwjson_t) (to : tokref)
    (rest : list tokref) : Prop :=
  rk to <= m
  /\ m <= tokens_len lw
  /\ open_chain lw to rest
  /\ (forall r, rk r <= m -> r <> to -> r ∉ rest ->
        above m (rk r) (next (get_token lw r)))
  /\ (forall r, rk r <= m -> above m (rk r) (u_first_child (get_token lw r))).

(** The invariant of the loop of [lwjson_parse]. *)
Definition loop_inv (st : pstate) : Prop :=
  exists rest, heap_inv (next_free_token_pos (st_lw st)) (st_lw st) (st_to st) rest.

(** The instance right after the slot [n] has been handed out: the
    invariant of the first [n] slots, and a slot [n] without links. *)
Definition fresh_inv (n : nat) (lw : lwjson_t) (to : tokref)
    (rest : list tokref) : Prop :=
  heap_inv n lw to rest
  /\ n < tokens_len lw
  /\ next_free_token_pos lw = S n
  /\ next (get_token lw (Tok n)) = None
  /\ u_first_child (get_token lw (Tok n)) = None.

(** The state in which [lwjson_parse] enters its loop. *)
Definition parse_entry (lw : lwjson_t) : pstate :=
  mk_pstate
    (set_first_token zero_token (set_next_free_token_pos 0 (set_flags_parsed false lw)))
    0 FirstToken true lwjsonOK.

(** The states the loop goes through: from [st], iterations that end in
    [continue] or at the end of the body, each entered with the cursor
    before the terminator. *)
Inductive loop_reaches (txt : text) : pstate -> pstate -> Prop :=
  | reaches_here st : loop_reaches txt st st
  | reaches_next st st' st'' :
      is_nul (peek txt (st_p st)) = false ->
      parse_iter txt st = Some (Next st') ->
      loop_reaches txt st' st'' ->
      loop_reaches txt st st''.

(** Every [next] field and every first-child field is absent or refers to
    a token allocated after the one that holds it. *)
Definition all_forward (lw : lwjson_t) : Prop :=
  forall r, rk r <= next_free_token_pos lw ->
    above (next_free_token_pos lw) (rk r) (next (get_token lw r))
    /\ above (next_free_token_pos lw) (rk r) (u_first_child (get_token lw r)).

(** ** What a parse keeps true of the tokens *)

(** [LWJSON_TYPE_OBJECT] or [LWJSON_TYPE_ARRAY] *)
Definition is_container (ty : lwjson_type_t) : bool :=
  match ty with
  | LWJSON_TYPE_OBJECT | LWJSON_TYPE_ARRAY => true
  | _ => false
  end.

(** A slice [(start, len)] of the text that starts inside it (or at its
    end) and holds no terminator: its [len] characters can be read. *)
Definition slice_ok (txt : text) (start len : nat) : Prop :=
  start <= length txt
  /\ forall k, start <= k < start + len -> is_nul (peek txt k) = false.

(** The name fields of a token: a readable slice, or no name and length
    zero. *)
Definition name_ok (txt : text) (x : lwjson_token_t) : Prop :=
  match token_name x with
  | Some nm => slice_ok txt nm (token_name_len x)
  | None => token_name_len x = 0
  end.

(** The member of the union that was written last is the one the type of
    the token selects, and a string payload is a readable slice. *)
Definition payload_ok (txt : text) (x : lwjson_token_t) : Prop :=
  match type x, u x with
  | LWJSON_TYPE_STRING, U_zero => True
  | LWJSON_TYPE_STRING, U_str v l => slice_ok txt v l
  | LWJSON_TYPE_NUM_INT, U_num_int _ => True
  | LWJSON_TYPE_NUM_REAL, U_num_real _ => True
  | (LWJSON_TYPE_OBJECT | LWJSON_TYPE_ARRAY), (U_zero | U_first_child _) => True
  | (LWJSON_TYPE_TRUE | LWJSON_TYPE_FALSE | LWJSON_TYPE_NULL), U_zero => True
  | _, _ => False
  end.

Definition tok_ok (txt : text) (x : lwjson_token_t) : Prop :=
  name_ok txt x /\ payload_ok txt x.

(** A [next] field that points back in allocation order is the link of an
    open container to its parent: it points to a container. *)
Definition parents_ok (lw : lwjson_t) : Prop :=
  forall r r', valid_ref (next_free_token_pos lw) r ->
    next (get_token lw r) = Some r' -> rk r' < rk r ->
    is_container (type (get_token lw r')) = true.

(** The slots at and above the cursor are as they were in [lw0]. *)
Definition untouched (lw0 lw : lwjson_t) : Prop :=
  tokens_len lw = tokens_len lw0
  /\ forall i, next_free_token_pos lw <= i -> tokens lw !! i = tokens lw0 !! i.

(** What holds of the instance all along a parse of [txt] started on
    [lw0]. *)
Definition arena_inv (txt : text) (lw0 lw : lwjson_t) : Prop :=
  closed_heap lw
  /\ (forall r, valid_ref (next_free_token_pos lw) r -> tok_ok txt (get_token lw r))
  /\ parents_ok lw
  /\ untouched lw0 lw.

(** The type the first significant character of the text gives the
    root. *)
Definition root_type_ok (txt : text) (lw : lwjson_t) : Prop :=
  let c := peek txt (prv_skip_blank txt 0).2 in
  (type (first_token lw) = LWJSON_TYPE_OBJECT /\ c = "{"%char)
  \/ (type (first_token lw) = LWJSON_TYPE_ARRAY /\ c = "["%char).

Definition safe_state (txt : text) (lw0 : lwjson_t) (st : pstate) : Prop :=
  loop_inv st
  /\ arena_inv txt lw0 (st_lw st)
  /\ st_res st = lwjsonOK
  /\ if st_first_check st
     then st_to st = FirstToken /\ st_p st = 0
          /\ u (first_token (st_lw st)) = U_zero
          /\ is_nul (peek txt 0) = false
     else is_container (type (get_token (st_lw st) (st_to st))) = true
          /\ root_type_ok txt (st_lw st).

Definition safe_result (txt : text) (lw0 : lwjson_t) (res : lwjsonr_t)
    (lw : lwjson_t) : Prop :=
  arena_inv txt lw0 lw /\ (res = lwjsonOK -> root_type_ok txt lw).

(** The facts about the token just allocated that the rest of the
    iteration relies on. *)
Definition blank_tok (lw : lwjson_t) (t : tokref) : Prop :=
  next (get_token lw t) = None
  /\ u (get_token lw t) = U_zero
  /\ type (get_token lw t) = LWJSON_TYPE_STRING.

(** What an iteration hands on, besides the order of the links. *)
Definition safe_next (txt : text) (lw0 : lwjson_t) (r : iter_result) : Prop :=
  match r with
  | Next st' =>
      arena_inv txt lw0 (st_lw st') /\ st_res st' = lwjsonOK
      /\ st_first_check st' = false
      /\ is_container (type (get_token (st_lw st') (st_to st'))) = true
      /\ root_type_ok txt (st_lw st')
  | Ret res lw' => safe_result txt lw0 res lw'
  end.

(** How one iteration on [A] compares with the same iteration on [B]. *)
Definition iter_sim (c : nat) (ra rb : option iter_result) : Prop :=
  match ra, rb with
  | None, None => True
  | Some (Next a), Some (Next b) => closed_state a /\ same_state c a b
  | Some (Ret r la), Some (Ret r' lb) => r = r' /\ same_upto c la lb
  | _, _ => False
  end.

(** The iteration allocated beyond [c] slots. *)
Definition used_more (c : nat) (ra : option iter_result) : Prop :=
  match ra with
  | Some (Next a) => c < next_free_token_pos (st_lw a)
  | Some (Ret _ la) => c < next_free_token_pos la
  | None => True
  end.

End WithReal.

Arguments lwjson_token_t : clear implicits.
Arguments lwjson_t : clear implicits.
Arguments pstate : clear implicits.
Arguments iter_result : clear implicits.

(** ** Runs on concrete texts *)

(** An instance bound to [n] token slots by [lwjson_init]. *)
Definition arena {real : Type} (n : nat) : lwjson_t real :=
  snd (lwjson_init (replicate n zero_token)).

(** The instance left by parsing [s] (single quotes standing for double
    quotes) with [n] slots of the binary64 configuration. *)
Definition parsed (n : nat) (s : string) : option (lwjson_t float) :=
  snd <$> lwjson_parse (arena n) (Some (json s)).

Definition status_of {real : Type} (r : option (lwjsonr_t * lwjson_t real))
    : option lwjsonr_t := fst <$> r.

Definition parsed_flag_of {real : Type} (r : option (lwjsonr_t * lwjson_t real))
    : option bool := (fun x => flags_parsed (snd x)) <$> r.

(** The same instance, for texts whose parse is known to return. *)
Definition tree_of (n : nat) (s : string) : lwjson_t float :=
  default (arena 0) (parsed n s).

(** The document of the search scenarios. *)
Definition scenario : string := "{'a':{'b':1},'c':[10,20,{'d':30}]}".

(** [lwjson_find] on the tree parsed from [s], with the integer value of
    the token found. *)
Definition find_in (s : string) (path : string) : option (option tokref * Z) :=
  lw ← parsed 10 s;
  r ← lwjson_find (json s) lw (Some (json path));
  Some (r, lwjson_get_val_int lw r).

(** ** Documents *)

(** A text of blanks. *)
Definition all_blank (ws : text) : bool := forallb is_blank ws.

(** The blanks around the name of a member: before the opening quote and
    between the closing quote and the colon. *)
Record jname := mk_jname {
  jn_pre : text;
  jn_key : text;
  jn_mid : text
}.

(** How an item of a container is laid out: its name (members of objects
    only), the blanks before its value and the blanks after it. *)
Record jlayout := mk_jlayout {
  jl_name : option jname;
  jl_lead : text;
  jl_post : text
}.

(** A document as it is written: strings and numbers by their characters,
    containers by their items and the blanks before the closing
    delimiter. *)
#[warnings="-register-all"]
Inductive jvalue :=
  | JString (s : text)
  | JNumber (lit : text)
  | JTrue
  | JFalse
  | JNull
  | JContainer (ty : lwjson_type_t) (items : list (jlayout * jvalue)) (inner : text).

Definition open_delim (ty : lwjson_type_t) : ascii :=
  if decide (ty = LWJSON_TYPE_OBJECT) then "{"%char else "["%char.

Definition print_name (nm : option jname) : text :=
  match nm with
  | None => []
  | Some n => jn_pre n ++ dq :: jn_key n ++ dq :: jn_mid n ++ [":"%char]
  end.

Definition print_item (l : jlayout) (body : text) : text :=
  print_name (jl_name l) ++ jl_lead l ++ body ++ jl_post l.

(** The items, separated by commas. *)
Fixpoint join_items (ts : list text) : text :=
  match ts with
  | [] => []
  | t :: ts' =>
      match ts' with
      | [] => t
      | _ => t ++ ","%char :: join_items ts'
      end
  end.

Fixpoint print (v : jvalue) : text :=
  match v with
  | JString s => dq :: s ++ [dq]
  | JNumber lit => lit
  | JTrue => list_ascii_of_string "true"
  | JFalse => list_ascii_of_string "false"
  | JNull => list_ascii_of_string "null"
  | JContainer ty items inner =>
      open_delim ty
        :: join_items (map (fun it => let '(l, v) := it in print_item l (print v)) items)
        ++ inner ++ [close_delim ty]
  end.

(** Number of tokens a value takes. *)
Fixpoint count (v : jvalue) : nat :=
  match v with
  | JContainer _ items _ =>
      S (list_sum (map (fun it => let '(_, v) := it in count v) items))
  | _ => 1
  end.

(** A string payload the scan ends right after: it holds no terminator,
    every quote in it follows a backslash and it does not end in one. *)
Definition str_ok (s : text) : bool :=
  bool_decide (string_run NUL (s ++ [dq]) = Some (length s)).

Section DocDefs.
Context {real : Type} {RT : RealType real}.

(** A number literal: it starts with a minus sign or a digit and the
    number scan passes it entirely. *)
Definition num_ok (lit : text) : bool :=
  (is_char (peek lit 0) "-" || is_digit (peek lit 0))
  && match prv_parse_number lit 0 with
     | NumOk _ _ p => p =? length lit
     | NumErr _ => false
     end.

Definition layout_ok (ty : lwjson_type_t) (l : jlayout) : bool :=
  all_blank (jl_lead l) && all_blank (jl_post l)
  && match jl_name l with
     | Some n =>
         bool_decide (ty = LWJSON_TYPE_OBJECT)
         && all_blank (jn_pre n) && all_blank (jn_mid n) && str_ok (jn_key n)
     | None => bool_decide (ty = LWJSON_TYPE_ARRAY)
     end.

(** Well-formed documents: objects hold named members, arrays unnamed
    elements. *)
Fixpoint wf (v : jvalue) : bool :=
  match v with
  | JString s => str_ok s
  | JNumber lit => num_ok lit
  | JTrue | JFalse | JNull => true
  | JContainer ty items inner =>
      is_container ty && all_blank inner
      && forallb (fun it => let '(l, v) := it in layout_ok ty l && wf v) items
  end.

(** What a token tree holds, read by following the first-child and next
    links. *)
Inductive rpayload :=
  | PNone
  | PStr (s : text)
  | PInt (z : Z)
  | PReal (x : real).

#[warnings="-register-all"]
Inductive rtree :=
  | RNode (name : option text) (ty : lwjson_type_t) (val : rpayload)
          (children : list rtree).

(** The characters of a slice. *)
Definition slice (txt : text) (start len : nat) : text := take len (drop start txt).

Definition payload_of (txt : text) (x : lwjson_token_t real) : rpayload :=
  match u x with
  | U_str v l => PStr (slice txt v l)
  | U_num_int z => PInt z
  | U_num_real r => PReal r
  | _ => PNone
  end.

Definition name_of (txt : text) (x : lwjson_token_t real) : option text :=
  (fun nm => slice txt nm (token_name_len x)) <$> token_name x.

(** The tree below the token [r]; [None] when [fuel] levels or the
    sibling walks do not suffice. *)
Fixpoint read_tree (txt : text) (lw : lwjson_t real) (fuel : nat) (r : tokref)
    : option rtree :=
  match fuel with
  | 0 => None
  | S fuel =>
      let x := get_token lw r in
      cs ← siblings lw (next_free_token_pos lw) (u_first_child x);
      ts ← mapM (read_tree txt lw fuel) cs;
      Some (RNode (name_of txt x) (type x) (payload_of txt x) ts)
  end.

(** The type and payload the number scan gives a literal. *)
Definition number_payload (lit : text) : lwjson_type_t * rpayload :=
  match prv_parse_number lit 0 with
  | NumOk ty (U_num_int z) _ => (ty, PInt z)
  | NumOk ty (U_num_real x) _ => (ty, PReal x)
  | _ => (LWJSON_TYPE_NUM_INT, PNone)
  end.

(** The tree a document stands for. *)
Fixpoint eval (name : option text) (v : jvalue) : rtree :=
  match v with
  | JString s => RNode name LWJSON_TYPE_STRING (PStr s) []
  | JNumber lit => RNode name (number_payload lit).1 (number_payload lit).2 []
  | JTrue => RNode name LWJSON_TYPE_TRUE PNone []
  | JFalse => RNode name LWJSON_TYPE_FALSE PNone []
  | JNull => RNode name LWJSON_TYPE_NULL PNone []
  | JContainer ty items _ =>
      RNode name ty PNone
        (map (fun it => let '(l, v) := it in eval (jn_key <$> jl_name l) v) items)
  end.

Fixpoint tsize (t : rtree) : nat :=
  match t with
  | RNode _ _ _ cs => S (list_sum (map tsize cs))
  end.

(** The token of rank [k]. *)
Definition ref_of (k : nat) : tokref :=
  match k with
  | 0 => FirstToken
  | S i => Tok i
  end.

(** The tokens from rank [k] on hold the tree [t] in the order of the
    text: a token is followed by its children, each child by its own, and
    the children are chained by their [next] fields. *)
Fixpoint tree_at (txt : text) (lw : lwjson_t real) (k : nat) (t : rtree) {struct t} : Prop :=
  match t with
  | RNode name ty val cs =>
      let x := get_token lw (ref_of k) in
      type x = ty
      /\ name_of txt x = name
      /\ payload_of txt x = val
      /\ u_first_child x = match cs with [] => None | _ => Some (ref_of (S k)) end
      /\ (fix forest (k : nat) (cs : list rtree) : Prop :=
            match cs with
            | [] => True
            | c :: cs' =>
                tree_at txt lw k c
                /\ next (get_token lw (ref_of k))
                   = match cs' with [] => None | _ => Some (ref_of (k + tsize c)) end
                /\ forest (k + tsize c) cs'
            end) (S k) cs
  end.

(** The trees [cs], one after the other from rank [k] on, chained by
    their [next] fields; the [next] field of the last one is [last]. *)
Fixpoint forest_at (txt : text) (lw : lwjson_t real) (k : nat) (cs : list rtree)
    (last : option tokref) : Prop :=
  match cs with
  | [] => True
  | c :: cs' =>
      tree_at txt lw k c
      /\ next (get_token lw (ref_of k))
         = match cs' with [] => last | _ => Some (ref_of (k + tsize c)) end
      /\ forest_at txt lw (k + tsize c) cs' last
  end.

Definition fsize (cs : list rtree) : nat := list_sum (map tsize cs).

End DocDefs.

Arguments rpayload : clear implicits.
Arguments rtree : clear implicits.

(** A character at which the number scan stops whatever came before. *)
Definition stopper (c : ascii) : bool :=
  negb (is_digit c) && negb (is_char c ".") && negb (is_char c "e")
  && negb (is_char c "E") && negb (is_char c "-") && negb (is_char c "+").

(** Two cursors at which the same [L] characters follow, and then a
    character that stops the number scan. *)
Definition agree (txt1 : text) (p1 : nat) (txt2 : text) (p2 : nat) (L : nat) : Prop :=
  (forall j, j < L -> peek txt1 (p1 + j) = peek txt2 (p2 + j))
  /\ stopper (peek txt1 (p1 + L)) = true
  /\ stopper (peek txt2 (p2 + L)) = true.

(** Rank of the last of the trees [cs] laid out from rank [k] on. *)
Fixpoint last_rank {real : Type} (k : nat) (cs : list (rtree real)) : nat :=
  match cs with
  | [] => k
  | c :: cs' =>
      match cs' with
      | [] => k
      | _ => last_rank (k + tsize c) cs'
      end
  end.

(** Two tokens that differ in their [next] field at most. *)
Definition same_but_next {real : Type} (x y : lwjson_token_t real) : Prop :=
  type x = type y /\ token_name x = token_name y
  /\ token_name_len x = token_name_len y /\ u x = u y.

(** The first character of a value. *)
Definition value_start (c : ascii) : bool :=
  Ascii.eqb c dq || is_char c "-" || is_digit c || is_char c "t" || is_char c "f"
  || is_char c "n" || is_char c "{" || is_char c "[".

Section CtxDefs.
Context {real : Type} {RT : RealType real}.

(** The container of rank [k] is open, of type [ty], and [done] are the
    children it has so far: they take all the tokens allocated after it. *)
Definition ctx (txt : text) (lw : lwjson_t real) (k : nat) (ty : lwjson_type_t)
    (done : list (rtree real)) : Prop :=
  k + fsize done = next_free_token_pos lw
  /\ type (get_token lw (ref_of k)) = ty
  /\ is_container ty = true
  /\ u_first_child (get_token lw (ref_of k))
     = match done with [] => None | _ => Some (ref_of (S k)) end
  /\ payload_of txt (get_token lw (ref_of k)) = PNone
  /\ forest_at txt lw (S k) done None.

(** What the work inside the container of rank [k] leaves alone: the
    tokens allocated before it, and its own [next] field and name. *)
Definition older_same (k : nat) (lw lw' : lwjson_t real) : Prop :=
  tokens_len lw' = tokens_len lw
  /\ (forall j, j < k -> get_token lw' (ref_of j) = get_token lw (ref_of j))
  /\ next (get_token lw' (ref_of k)) = next (get_token lw (ref_of k))
  /\ token_name (get_token lw' (ref_of k)) = token_name (get_token lw (ref_of k))
  /\ token_name_len (get_token lw' (ref_of k)) = token_name_len (get_token lw (ref_of k)).

(** The instance once a token for the next child of the container of rank
    [k] has been allocated, named [name] and linked in. *)
Definition opened (txt : text) (lw lw3 : lwjson_t real) (k : nat) (ty : lwjson_type_t)
    (done : list (rtree real)) (name : option text) : Prop :=
  let n := next_free_token_pos lw in
  next_free_token_pos lw3 = S n
  /\ older_same k lw lw3
  /\ type (get_token lw3 (ref_of k)) = ty
  /\ u (get_token lw3 (ref_of k)) = U_first_child (ref_of (S k))
  /\ forest_at txt lw3 (S k) done (Some (Tok n))
  /\ type (get_token lw3 (Tok n)) = LWJSON_TYPE_STRING
  /\ u (get_token lw3 (Tok n)) = U_zero
  /\ next (get_token lw3 (Tok n)) = None
  /\ name_of txt (get_token lw3 (Tok n)) = name.

(** What the loop does with one item of the container of rank [k], the
    cursor standing before the item and the item being followed by blanks
    and a comma or a closing delimiter: it comes back to the container with
    the tree of the item added to its children, after the comma if there is
    one and else before the closing delimiter. *)
Definition item_spec (txt : text) (v : jvalue) : Prop :=
  forall (lw : lwjson_t real) p k ty done l (ws : text) c (rest : text),
    ctx txt lw k ty done -> layout_ok ty l = true ->
    drop p txt = print_item l (print v) ++ ws ++ c :: rest ->
    all_blank ws = true ->
    c = ","%char \/ c = "]"%char \/ c = "}"%char ->
    next_free_token_pos lw + count v <= tokens_len lw ->
    exists lw' p',
      loop_reaches txt (mk_pstate lw p (ref_of k) false lwjsonOK)
                       (mk_pstate lw' p' (ref_of k) false lwjsonOK)
      /\ ctx txt lw' k ty (done ++ [eval (jn_key <$> jl_name l) v])
      /\ older_same k lw lw'
      /\ if is_char c ","
         then drop p' txt = rest
         else exists ws', all_blank ws' = true /\ drop p' txt = ws' ++ c :: rest.

End CtxDefs.

(** The first tokens of the trees [cs] laid out from rank [k] on. *)
Fixpoint roots {real : Type} (k : nat) (cs : list (rtree real)) : list tokref :=
  match cs with
  | [] => []
  | c :: cs' => ref_of k :: roots (k + tsize c) cs'
  end.

(** A document with blanks, nested containers, an escaped quote, numbers
    and literals, on an array with exactly one slot per value. *)
Definition sample_doc : jvalue :=
  JContainer LWJSON_TYPE_OBJECT
    [ (mk_jlayout (Some (mk_jname (json " ") (json "a") [])) (json " ") [],
       JContainer LWJSON_TYPE_ARRAY
         [ (mk_jlayout None [] [], JNumber (json "1"));
           (mk_jlayout None (json " ") (json " "), JNumber (json "-2.5e3"));
           (mk_jlayout None [] [], JString (json "x\'y")) ]
         []);
      (mk_jlayout (Some (mk_jname (json " ") (json "b") (json " "))) [] [],
       JContainer LWJSON_TYPE_OBJECT
         [ (mk_jlayout (Some (mk_jname [] (json "c") [])) [] [], JTrue);
           (mk_jlayout (Some (mk_jname [] (json "d") [])) [] [], JNull) ]
         (json " ")) ]
    (json " ").

(** ** Paths *)

(** A segment of a path: the name of a member of an object, or the
    wildcard [#] that stands for any element of an array. *)
Inductive jseg :=
  | SKey (key : text)
  | SAny.

Definition print_seg (s : jseg) : text :=
  match s with
  | SKey key => key
  | SAny => ["#"%char]
  end.

(** The segments, separated by dots. *)
Fixpoint print_path (segs : list jseg) : text :=
  match segs with
  | [] => []
  | s :: rest =>
      match rest with
      | [] => print_seg s
      | _ => print_seg s ++ "."%char :: print_path rest
      end
  end.

(** A name that can be written as a segment: it is not empty, does not
    start with [#] and holds neither a dot nor the terminator. *)
Definition key_ok (key : text) : bool :=
  match key with
  | [] => false
  | c :: _ =>
      negb (is_char c "#")
      && forallb (fun c => negb (is_nul c) && negb (is_char c ".")) key
  end.

Definition path_ok (segs : list jseg) : bool :=
  forallb (fun s => match s with SKey key => key_ok key | SAny => true end) segs.

#[global] Instance ascii_eq_dec : EqDecision ascii := Ascii.ascii_dec.

Fixpoint first_some {A : Type} (l : list (option A)) : option A :=
  match l with
  | [] => None
  | Some a :: _ => Some a
  | None :: l => first_some l
  end.

Section PathDefs.
Context {real : Type}.

Definition rt_name (t : rtree real) : option text :=
  match t with RNode name _ _ _ => name end.

Definition rt_type (t : rtree real) : lwjson_type_t :=
  match t with RNode _ ty _ _ => ty end.

Definition rt_children (t : rtree real) : list (rtree real) :=
  match t with RNode _ _ _ cs => cs end.

(** The trees [cs] laid out from rank [k] on, each with its rank. *)
Fixpoint ranked (k : nat) (cs : list (rtree real)) : list (nat * rtree real) :=
  match cs with
  | [] => []
  | c :: cs' => (k, c) :: ranked (k + tsize c) cs'
  end.

(** What a path finds in the tree [t] of rank [k]: the rank of a node and
    the node.  A name selects the members of that name of an object, the
    wildcard every element of an array; the last segment must be a name
    and gives the first member of that name; before it, the members or
    elements selected are tried in order and the first in which the rest
    of the path finds something decides. *)
Fixpoint locate (segs : list jseg) (k : nat) (t : rtree real)
    : option (nat * rtree real) :=
  match segs with
  | [] => None
  | SKey key :: rest =>
      if decide (rt_type t = LWJSON_TYPE_OBJECT) then
        first_some
          (map (fun kc : nat * rtree real =>
                  if decide (rt_name kc.2 = Some key) then
                    match rest with
                    | [] => Some kc
                    | _ => locate rest kc.1 kc.2
                    end
                  else None)
               (ranked (S k) (rt_children t)))
      else None
  | SAny :: rest =>
      if decide (rt_type t = LWJSON_TYPE_ARRAY) then
        first_some
          (map (fun kc : nat * rtree real => locate rest kc.1 kc.2)
               (ranked (S k) (rt_children t)))
      else None
  end.

(** The token found, if any. *)
Definition found (o : option (nat * rtree real)) : option tokref :=
  (fun kc => ref_of kc.1) <$> o.

End PathDefs.

(** ** Sibling walks *)

(** What is left of a sibling walk at the token [c]: the tokens allocated
    from [c] on and the open containers [opens]. *)
Definition walk_weight (m : nat) (opens : list tokref) (c : tokref) : nat :=
  length (filter (fun r => rk c <= rk r \/ r ∈ opens) (ref_of <$> seq 0 (S m))).

(** ** Chains of siblings *)

(** The token [t] is on the chain of [next] fields that starts at [o]. *)
Inductive on_chain {real : Type} (lw : lwjson_t real) : option tokref -> tokref -> Prop :=
  | chain_here c : on_chain lw (Some c) c
  | chain_next c t :
      on_chain lw (next (get_token lw c)) t -> on_chain lw (Some c) t.

(** The slice [(seg, len)] of the path is its last segment and a name:
    it starts the path or follows a dot, it is not empty, it holds neither
    a dot nor the terminator, it does not start with [#], and the path
    ends after it. *)
Definition last_name (ptxt : text) (seg len : nat) : Prop :=
  (seg = 0 \/ exists j, seg = S j /\ peek ptxt j = "."%char)
  /\ 0 < len
  /\ is_char (peek ptxt seg) "#" = false
  /\ (forall k, k < len ->
        is_nul (peek ptxt (seg + k)) = false /\ is_char (peek ptxt (seg + k)) "." = false)
  /\ is_nul (peek ptxt (seg + len)) = true.

(** ** Content of the tokens *)

Section ScannedDefs.
Context {real : Type} {RT : RealType real}.

(** The slice [(start, len)] is the payload of a string of the text: a
    double quote precedes it, and the string scan started after that
    quote passes [len] characters before it meets the closing quote. *)
Definition quoted (txt : text) (start len : nat) : Prop :=
  exists q, start = S q /\ peek txt q = dq
            /\ string_run NUL (drop start txt) = Some len.

(** The word [w] stands somewhere in the text. *)
Definition word_at (txt : text) (w : string) : Prop :=
  exists p, forall k, k < String.length w ->
    peek txt (p + k) = peek (list_ascii_of_string w) k.

(** The payload [v] of type [ty] is what the number scan gives for a
    literal of the text. *)
Definition number_at (txt : text) (ty : lwjson_type_t) (v : @u_t real) : Prop :=
  exists p p',
    is_char (peek txt p) "-" || is_digit (peek txt p) = true
    /\ prv_parse_number txt p = NumOk ty v p'.

(** A slice handed out by the string scan: the payload of a string of
    the text or, when the parse has failed ([strict = false]), the empty
    slice at the start of a string that does not end. *)
Definition string_slice (txt : text) (strict : bool) (start len : nat) : Prop :=
  (strict = false /\ len = 0) \/ quoted txt start len.

(** The name of a token is absent or a slice of the string scan. *)
Definition scanned_name (txt : text) (strict : bool) (x : lwjson_token_t real) : Prop :=
  match token_name x with
  | Some nm => string_slice txt strict nm (token_name_len x)
  | None => token_name_len x = 0
  end.

(** What the type of a token and its payload say about the text. *)
Definition scanned_value (txt : text) (strict : bool) (x : lwjson_token_t real) : Prop :=
  match type x with
  | LWJSON_TYPE_STRING =>
      match u x with
      | U_str v l => string_slice txt strict v l
      | _ => True
      end
  | LWJSON_TYPE_NUM_INT | LWJSON_TYPE_NUM_REAL =>
      match u x with
      | U_num_int _ | U_num_real _ => number_at txt (type x) (u x)
      | _ => True
      end
  | LWJSON_TYPE_OBJECT => exists p, peek txt p = "{"%char
  | LWJSON_TYPE_ARRAY => exists p, peek txt p = "["%char
  | LWJSON_TYPE_TRUE => word_at txt "true"
  | LWJSON_TYPE_FALSE => word_at txt "false"
  | LWJSON_TYPE_NULL => word_at txt "null"
  end.

Definition scanned (txt : text) (strict : bool) (x : lwjson_token_t real) : Prop :=
  scanned_name txt strict x /\ scanned_value txt strict x.

(** Every token in use holds content of the text. *)
Definition all_scanned (txt : text) (strict : bool) (lw : lwjson_t real) : Prop :=
  forall r, valid_ref (next_free_token_pos lw) r -> scanned txt strict (get_token lw r).

(** What an iteration hands on: every token scanned, strictly unless it
    returns an error. *)
Definition scanned_next (txt : text) (r : option (iter_result real)) : Prop :=
  match r with
  | Some (Next st') => all_scanned txt true (st_lw st')
  | Some (Ret res lw') => all_scanned txt (bool_decide (res = lwjsonOK)) lw'
  | None => True
  end.

(** What a token in use holds after a parse: a name that is absent or a
    slice of the string scan; and, by its type, a string payload that is
    such a slice (or none yet), the number the number scan gives for a
    literal of the text, or nothing but the type, for which the text holds
    an opening brace or bracket or the word of the literal. *)
Definition from_text (txt : text) (strict : bool) (x : lwjson_token_t real) : Prop :=
  match token_name x with
  | Some nm => string_slice txt strict nm (token_name_len x)
  | None => token_name_len x = 0
  end
  /\ match type x with
     | LWJSON_TYPE_STRING =>
         u x = U_zero
         \/ exists v l, u x = U_str v l /\ string_slice txt strict v l
     | LWJSON_TYPE_NUM_INT =>
         exists z, u x = U_num_int z
                   /\ number_at txt LWJSON_TYPE_NUM_INT (U_num_int z)
     | LWJSON_TYPE_NUM_REAL =>
         exists y, u x = U_num_real y
                   /\ number_at txt LWJSON_TYPE_NUM_REAL (U_num_real y)
     | LWJSON_TYPE_OBJECT => exists p, peek txt p = "{"%char
     | LWJSON_TYPE_ARRAY => exists p, peek txt p = "["%char
     | LWJSON_TYPE_TRUE => word_at txt "true"
     | LWJSON_TYPE_FALSE => word_at txt "false"
     | LWJSON_TYPE_NULL => word_at txt "null"
     end.

End ScannedDefs.

(** ** Integer literals *)

(** The number the decimal digits [ds] write. *)
Definition decimal (ds : text) : Z :=
  fold_left (fun a c => (a * 10 + digit_val c)%Z) ds 0%Z.

(** The text of an integer literal. *)
Definition print_int (neg : bool) (ds : text) : text :=
  (if neg then ["-"%char] else []) ++ ds.

(** * Properties *)

(** ** Premature end of the text *)

Section Generic.
Context {real : Type} {RT : RealType real}.

(** C1 (the code departs from it): the text "{" never closes its root, yet
    the loop leaves through its condition with [res] still [lwjsonOK]: the
    parse returns [lwjsonOK] and sets the parsed flag, whatever the
    instance. *)
Theorem lwjson_parse_unclosed_root_ok (lw : lwjson_t real) :
  status_of (lwjson_parse lw (Some (json "{"))) = Some lwjsonOK
  /\ parsed_flag_of (lwjson_parse lw (Some (json "{"))) = Some true.
Proof. split; reflexivity. Qed.

(** C3 (the code departs from it): a null text and the empty text give
    [lwjsonERRJSON], but a blank-only text and a text whose first character
    is neither brace nor bracket give [lwjsonERRMEM], the memory status. *)
Theorem lwjson_parse_bad_first_char (lw : lwjson_t real) :
  status_of (lwjson_parse lw None) = Some lwjsonERRJSON
  /\ status_of (lwjson_parse lw (Some (json ""))) = Some lwjsonERRJSON
  /\ status_of (lwjson_parse lw (Some (json " "))) = Some lwjsonERRMEM
  /\ status_of (lwjson_parse lw (Some (json "x"))) = Some lwjsonERRMEM
  /\ status_of (lwjson_parse lw (Some (json "1"))) = Some lwjsonERRMEM.
Proof. repeat split; reflexivity. Qed.

End Generic.

(** C2 (the code departs from it): the leading-zero test of
    [prv_parse_number] can never fire, so "01" is scanned as the integer 1
    and the document "[01]" parses; the other literals of the claim are
    classified as it says. *)
Theorem prv_parse_number_leading_zero :
  prv_parse_number (RT := binary64) (json "01") 0
    = NumOk LWJSON_TYPE_NUM_INT (U_num_int 1) 2
  /\ prv_parse_number (RT := binary64) (json "1") 0
    = NumOk LWJSON_TYPE_NUM_INT (U_num_int 1) 1
  /\ prv_parse_number (RT := binary64) (json "1.0") 0
    = NumOk LWJSON_TYPE_NUM_REAL (@U_num_real float 1%float) 3
  /\ prv_parse_number (RT := binary64) (json "1e2") 0
    = NumOk LWJSON_TYPE_NUM_REAL (@U_num_real float 100%float) 3
  /\ prv_parse_number (RT := binary64) (json "-0.5") 0
    = NumOk LWJSON_TYPE_NUM_REAL (@U_num_real float (-0.5)%float) 4
  /\ status_of (lwjson_parse (arena (real := float) 1) (Some (json "[01]")))
     = Some lwjsonOK.
Proof. repeat split; vm_compute; reflexivity. Qed.

(** C4 (the code departs from it): the closing quote is recognised by the
    single previous character, not by the parity of the backslashes before
    it.  In the literal made of a quote, two backslashes and a quote the
    last quote follows an even number of backslashes, and the scan runs
    past it to the end of the text and fails; the literal of the claim
    yields its four raw characters. *)
Theorem prv_parse_string_backslash_pair :
  prv_parse_string (json "'\\'") 0 = StrErr lwjsonERRJSON (Some 1)
  /\ prv_parse_string (json "'a\'b'") 0 = StrOk 1 4 6.
Proof. split; reflexivity. Qed.

(** C9 (the code departs from it): the text "[[" ends with the inner array
    still open; the parse succeeds and the inner array's [next] field still
    holds the reference to its parent, the root. *)
Theorem lwjson_parse_leaks_parent_link :
  exists lw,
    lwjson_parse (arena (real := float) 4) (Some (json "[[")) = Some (lwjsonOK, lw)
    /\ flags_parsed lw = true
    /\ u_first_child (first_token lw) = Some (Tok 0)
    /\ next (get_token lw (Tok 0)) = Some FirstToken.
Proof. eexists. repeat split; vm_compute; reflexivity. Qed.

(** ** Arena reset *)

(** C8, counterexample: after a parse that used one token, [lwjson_reset]
    leaves the allocation cursor at 1. *)
Lemma lwjson_reset_cursor_not_rewound :
  (lw ← parsed 4 "[1]"; Some (next_free_token_pos (snd (lwjson_reset lw)))) = Some 1.
Proof. vm_compute. reflexivity. Qed.

(** C8, amended: [lwjson_reset] returns [lwjsonOK], zeroes every slot of
    the arena and keeps its capacity; the allocation cursor, the root token
    and the parsed flag keep their values. *)
Theorem lwjson_reset_zeroes_slots {real : Type} {RT : RealType real} (lw : lwjson_t real) :
  fst (lwjson_reset lw) = lwjsonOK
  /\ (forall t, t ∈ tokens (snd (lwjson_reset lw)) -> t = zero_token)
  /\ tokens_len (snd (lwjson_reset lw)) = tokens_len lw
  /\ next_free_token_pos (snd (lwjson_reset lw)) = next_free_token_pos lw
  /\ first_token (snd (lwjson_reset lw)) = first_token lw
  /\ flags_parsed (snd (lwjson_reset lw)) = flags_parsed lw.
Proof.
  repeat split; simpl.
  - intros t Ht. by apply elem_of_replicate in Ht as [-> _].
  - unfold tokens_len; simpl. apply length_replicate.
Qed.

(** ** Path search on concrete trees *)

(** C5, counterexample: on the scenario document the path "c.#." finds
    nothing, where the claim expects the first element of the array. *)
Lemma find_wildcard_last_scenario :
  find_in scenario "c.#." = Some (None, 0%Z)
  /\ find_in scenario "c.#.d" = Some (Some (Tok 6), 30%Z).
Proof. split; vm_compute; reflexivity. Qed.

(** C6, counterexample: with a duplicated key whose first occurrence does
    not contain the rest of the path, the code goes on to the second
    occurrence and finds the token, whereas taking the first matching child
    and searching only inside it finds nothing. *)
Lemma find_literal_backtracks :
  (lw ← parsed 10 "{'a':{'x':1},'a':{'b':2}}";
   Some (prv_find (json "{'a':{'x':1},'a':{'b':2}}") (json "a.b") lw 10 4 FirstToken 0,
         literal_step_spec (json "{'a':{'x':1},'a':{'b':2}}") (json "a.b") lw 10 3
           FirstToken 0))
  = Some (Some (Some (Tok 3)), Some None).
Proof. vm_compute. reflexivity. Qed.

(** ** Basic facts about the scanners and the heap *)

Section Heap.
Context {real : Type} {RT : RealType real}.
Implicit Types (lw A B : lwjson_t real) (r : tokref) (x : lwjson_token_t real).

Lemma prv_skip_blank_ok txt p : fst (prv_skip_blank txt p) = lwjsonOK.
Proof. unfold prv_skip_blank. by destruct (is_nul _). Qed.

Lemma prv_skip_blank_ge txt p : p <= snd (prv_skip_blank txt p).
Proof. unfold prv_skip_blank. destruct (is_nul _); simpl; lia. Qed.

Lemma prv_skip_blank_eq txt p :
  prv_skip_blank txt p = (lwjsonOK, snd (prv_skip_blank txt p)).
Proof. unfold prv_skip_blank. by destruct (is_nul _). Qed.

Lemma valid_ref_mono n m r : n <= m -> valid_ref n r -> valid_ref m r.
Proof. destruct r; simpl; [done | lia]. Qed.

Lemma valid_opt_mono n m o : n <= m -> valid_opt n o -> valid_opt m o.
Proof. destruct o; simpl; [apply valid_ref_mono | done]. Qed.

Lemma next_free_put r x lw :
  next_free_token_pos (put_token r x lw) = next_free_token_pos lw.
Proof. by destruct r. Qed.

Lemma tokens_len_put r x lw : tokens_len (put_token r x lw) = tokens_len lw.
Proof. destruct r; unfold tokens_len; simpl; [done | apply length_insert]. Qed.

Lemma flags_put r x lw : flags_parsed (put_token r x lw) = flags_parsed lw.
Proof. by destruct r. Qed.

Lemma get_put_eq r x lw :
  valid_ref (tokens_len lw) r -> get_token (put_token r x lw) r = x.
Proof.
  destruct r as [|i]; simpl; [done |]. unfold tokens_len. intros Hi.
  by rewrite list_lookup_insert_eq.
Qed.

Lemma get_put_ne r r' x lw :
  r <> r' -> get_token (put_token r x lw) r' = get_token lw r'.
Proof.
  destruct r as [|i], r' as [|j]; simpl; try done.
  intros Hne. rewrite list_lookup_insert_ne; [done | congruence].
Qed.

Lemma get_put r r' x lw :
  valid_ref (tokens_len lw) r ->
  get_token (put_token r x lw) r' = if decide (r = r') then x else get_token lw r'.
Proof.
  intros Hv. case_decide as Hd.
  - subst. by apply get_put_eq.
  - by apply get_put_ne.
Qed.

End Heap.

Global Arguments put_token : simpl never.
Global Arguments upd_token : simpl never.

(** ** Links stay inside the allocated part of the arena *)

Section Closed.
Context {real : Type} {RT : RealType real}.
Implicit Types (lw A B : lwjson_t real) (r : tokref) (x : lwjson_token_t real).

Lemma closed_valid_len lw r :
  closed_heap lw -> valid_ref (next_free_token_pos lw) r -> valid_ref (tokens_len lw) r.
Proof. intros [Hn _]. by apply valid_ref_mono. Qed.

Lemma closed_put lw r x :
  closed_heap lw ->
  valid_ref (next_free_token_pos lw) r ->
  valid_opt (next_free_token_pos lw) (next x) ->
  valid_opt (next_free_token_pos lw) (u_first_child x) ->
  closed_heap (put_token r x lw).
Proof.
  intros Hc Hr Hx1 Hx2. split.
  - rewrite next_free_put, tokens_len_put. apply Hc.
  - intros r' Hr'. rewrite next_free_put in *.
    rewrite get_put by by apply closed_valid_len.
    case_decide; [done | by apply Hc].
Qed.

Lemma closed_upd lw r f :
  closed_heap lw ->
  valid_ref (next_free_token_pos lw) r ->
  valid_opt (next_free_token_pos lw) (next (f (get_token lw r))) ->
  valid_opt (next_free_token_pos lw) (u_first_child (f (get_token lw r))) ->
  closed_heap (upd_token r f lw).
Proof. apply closed_put. Qed.

Lemma closed_next lw r r' :
  closed_heap lw -> valid_ref (next_free_token_pos lw) r ->
  next (get_token lw r) = Some r' -> valid_ref (next_free_token_pos lw) r'.
Proof. intros [_ Hc] Hr Hn. destruct (Hc r Hr) as [H _]. by rewrite Hn in H. Qed.

Lemma closed_first_child lw r r' :
  closed_heap lw -> valid_ref (next_free_token_pos lw) r ->
  u_first_child (get_token lw r) = Some r' -> valid_ref (next_free_token_pos lw) r'.
Proof. intros [_ Hc] Hr Hn. destruct (Hc r Hr) as [_ H]. by rewrite Hn in H. Qed.

(** What a successful allocation does. *)
Lemma prv_alloc_token_Some lw i lw' :
  prv_alloc_token lw = Some (i, lw') ->
  i = next_free_token_pos lw
  /\ i < tokens_len lw
  /\ lw' = set_next_free_token_pos (S i) (put_token (Tok i) zero_token lw).
Proof.
  unfold prv_alloc_token. destruct (Nat.ltb_spec (next_free_token_pos lw) (tokens_len lw));
    [|done]. intros [= <- <-]. done.
Qed.

Lemma prv_alloc_token_None lw :
  prv_alloc_token lw = None <-> tokens_len lw <= next_free_token_pos lw.
Proof.
  unfold prv_alloc_token.
  destruct (Nat.ltb_spec (next_free_token_pos lw) (tokens_len lw)); split; try done; lia.
Qed.

Lemma closed_alloc lw i lw' :
  closed_heap lw -> prv_alloc_token lw = Some (i, lw') ->
  closed_heap lw'
  /\ next_free_token_pos lw' = S (next_free_token_pos lw)
  /\ i = next_free_token_pos lw
  /\ tokens_len lw' = tokens_len lw
  /\ get_token lw' (Tok i) = zero_token.
Proof.
  intros Hc Ha. apply prv_alloc_token_Some in Ha as (-> & Hlt & ->).
  set (n := next_free_token_pos lw) in *.
  assert (Hlen : tokens_len
            (set_next_free_token_pos (S n) (put_token (Tok n) zero_token lw))
          = tokens_len lw) by apply (tokens_len_put (Tok n)).
  assert (Hget : forall r,
            get_token (set_next_free_token_pos (S n) (put_token (Tok n) zero_token lw)) r
            = if decide (Tok n = r) then zero_token else get_token lw r).
  { intros r. apply (get_put (Tok n) r zero_token lw). exact Hlt. }
  assert (Hnf : next_free_token_pos
            (set_next_free_token_pos (S n) (put_token (Tok n) zero_token lw)) = S n)
    by done.
  assert (Hold : forall r, valid_ref (S n) r -> Tok n <> r -> valid_ref n r).
  { intros [|j] Hj Hne; simpl in *; [done |]. assert (j <> n) by congruence. lia. }
  split; [split |]; [rewrite Hnf, Hlen; lia | | repeat split; try done].
  - intros r Hr. rewrite Hnf in *. rewrite Hget. case_decide as Hd; [done |].
    split; (apply (valid_opt_mono n); [lia |]); by apply Hc, Hold.
  - rewrite Hget. by rewrite decide_True.
Qed.

End Closed.

(** ** Two arenas that agree on the allocated slots *)

Section Sim.
Context {real : Type} {RT : RealType real}.
Implicit Types (lw A B : lwjson_t real) (r : tokref) (x : lwjson_token_t real).

Lemma same_upto_refl lw : closed_heap lw -> same_upto (tokens_len lw) lw lw.
Proof. intros [Hn _]. by repeat split. Qed.

Lemma same_get c A B r :
  same_upto c A B -> valid_ref (next_free_token_pos A) r ->
  get_token A r = get_token B r.
Proof.
  intros (_ & Hft & _ & _ & _ & _ & Htok) Hr. destruct r as [|i]; simpl in *; [done |].
  by rewrite Htok.
Qed.

Lemma same_put c A B r x :
  same_upto c A B -> valid_ref (next_free_token_pos A) r ->
  same_upto c (put_token r x A) (put_token r x B).
Proof.
  intros (Hn & Hft & Hfl & Hc & HnB & HnA & Htok) Hr.
  unfold same_upto. rewrite !next_free_put, !tokens_len_put, !flags_put.
  repeat split; try done.
  - destruct r; simpl; [done | exact Hft].
  - intros j Hj. destruct r as [|i]; simpl in *; [by apply Htok |].
    destruct (decide (i = j)) as [->|Hne].
    + rewrite !list_lookup_insert_eq; [done | |]; unfold tokens_len in *; lia.
    + rewrite !list_lookup_insert_ne by done. by apply Htok.
Qed.

Lemma same_upd c A B r f :
  same_upto c A B -> valid_ref (next_free_token_pos A) r ->
  same_upto c (upd_token r f A) (upd_token r f B).
Proof.
  intros Hs Hr. unfold upd_token. rewrite <- (same_get c A B r Hs Hr).
  by apply same_put.
Qed.

Lemma same_alloc c A B i A' :
  same_upto c A B -> prv_alloc_token A = Some (i, A') ->
  (exists B', prv_alloc_token B = Some (i, B') /\ same_upto c A' B')
  \/ (prv_alloc_token B = None /\ next_free_token_pos B = c).
Proof.
  intros Hs Ha. pose proof Hs as (Hn & Hft & Hfl & Hc & HnB & HnA & Htok).
  apply prv_alloc_token_Some in Ha as (-> & Hlt & ->).
  destruct (prv_alloc_token B) as [[j B']|] eqn:Hb.
  - left. apply prv_alloc_token_Some in Hb as (-> & Hlt' & ->).
    rewrite <- Hn. eexists; split; [done |].
    unfold same_upto, tokens_len in *; simpl in *. rewrite !length_insert.
    repeat split; try done; try lia.
    intros j Hj. destruct (decide (next_free_token_pos A = j)) as [<-|Hne].
    + rewrite !list_lookup_insert_eq; [done | lia | lia].
    + rewrite !list_lookup_insert_ne by done. apply Htok. lia.
  - right. split; [done |]. apply prv_alloc_token_None in Hb. lia.
Qed.


Lemma prv_parse_property_name_keeps txt p x :
  next (prv_parse_property_name txt p x).2 = next x
  /\ u (prv_parse_property_name txt p x).2 = u x.
Proof.
  unfold prv_parse_property_name.
  destruct (prv_parse_string txt p) as [res [pout|]|pout len p']; simpl; try done.
  by destruct (negb _).
Qed.

Lemma pair_ok_put c n A B r x :
  pair_ok c n A B -> valid_ref n r ->
  valid_opt n (next x) -> valid_opt n (u_first_child x) ->
  pair_ok c n (put_token r x A) (put_token r x B).
Proof.
  intros (Hc & Hs & <-) Hr H1 H2. split; [by apply closed_put |].
  split; [by apply same_put | apply next_free_put].
Qed.

Lemma pair_ok_upd c n A B r f :
  pair_ok c n A B -> valid_ref n r ->
  valid_opt n (next (f (get_token A r))) ->
  valid_opt n (u_first_child (f (get_token A r))) ->
  pair_ok c n (upd_token r f A) (upd_token r f B).
Proof.
  intros Hok Hr H1 H2. unfold upd_token.
  pose proof Hok as (Hc & Hs & <-).
  rewrite <- (same_get c A B r Hs Hr). by apply pair_ok_put.
Qed.

Lemma pair_ok_get c n A B r :
  pair_ok c n A B -> valid_ref n r -> get_token B r = get_token A r.
Proof. intros (Hc & Hs & <-) Hr. symmetry. by eapply same_get. Qed.

Lemma pair_ok_links c n A B r :
  pair_ok c n A B -> valid_ref n r ->
  valid_opt n (next (get_token A r)) /\ valid_opt n (u_first_child (get_token A r)).
Proof. intros (Hc & Hs & <-) Hr. by apply Hc. Qed.

Lemma parse_member_name_sim c n A B txt p to t :
  pair_ok c n A B -> valid_ref n to -> valid_ref n t ->
  exists res p' A' B',
    parse_member_name txt p to t A = (res, p', A')
    /\ parse_member_name txt p to t B = (res, p', B')
    /\ pair_ok c n A' B'.
Proof.
  intros Hok Hto Ht.
  unfold parse_member_name.
  rewrite (pair_ok_get c n A B to Hok Hto), (pair_ok_get c n A B t Hok Ht).
  case_decide; [by eauto 10 |].
  destruct (negb _); [by eauto 10 |].
  pose proof (prv_parse_property_name_keeps txt p (get_token A t)) as [Hk1 Hk2].
  destruct (prv_parse_property_name txt p (get_token A t)) as [[res p'] tk].
  simpl in *. do 4 eexists. split; [done |]. split; [done |].
  apply pair_ok_put; try done.
  - rewrite Hk1. by eapply pair_ok_links.
  - unfold u_first_child. rewrite Hk2. by eapply pair_ok_links.
Qed.

Lemma last_sibling_valid lw fuel c0 c1 :
  closed_heap lw -> valid_ref (next_free_token_pos lw) c0 ->
  last_sibling lw fuel c0 = Some c1 ->
  valid_ref (next_free_token_pos lw) c1.
Proof.
  intros Hc. revert c0. induction fuel as [|fuel IH]; intros c0 Hv; simpl.
  - destruct (next (get_token lw c0)) eqn:Hn; [done |]. by intros [= <-].
  - destruct (next (get_token lw c0)) as [n|] eqn:Hn; [| by intros [= <-]].
    apply IH. by eapply closed_next.
Qed.

Lemma last_sibling_same c A B fuel c0 :
  closed_heap A -> same_upto c A B -> valid_ref (next_free_token_pos A) c0 ->
  last_sibling A fuel c0 = last_sibling B fuel c0.
Proof.
  intros Hc Hs. revert c0. induction fuel as [|fuel IH]; intros c0 Hv; simpl;
    rewrite <- (same_get c A B c0 Hs Hv); first done.
  destruct (next (get_token A c0)) as [n|] eqn:Hn; [| done].
  apply IH. by eapply closed_next.
Qed.

Lemma link_child_sim c n A B to t :
  pair_ok c n A B -> valid_ref n to -> valid_ref n t ->
  match link_child to t A, link_child to t B with
  | Some A', Some B' => pair_ok c n A' B'
  | None, None => True
  | _, _ => False
  end.
Proof.
  intros Hok Hto Ht. pose proof Hok as (Hc & Hs & <-).
  unfold link_child. rewrite (pair_ok_get c _ A B to Hok Hto).
  destruct (u_first_child (get_token A to)) as [c0|] eqn:Hfc.
  - assert (Hc0 : valid_ref (next_free_token_pos A) c0)
      by apply (closed_first_child A to c0 Hc Hto Hfc).
    destruct Hs as (Hn & Hs'). rewrite <- Hn.
    rewrite <- (last_sibling_same c A B _ c0 Hc (conj Hn Hs') Hc0).
    destruct (last_sibling A (next_free_token_pos A) c0) as [c1|] eqn:Hl; simpl; [| done].
    assert (Hc1 : valid_ref (next_free_token_pos A) c1) by by eapply last_sibling_valid.
    apply pair_ok_upd; try done.
    unfold u_first_child; simpl. by eapply pair_ok_links.
  - apply pair_ok_upd; try done. simpl. by eapply pair_ok_links.
Qed.

Lemma prv_parse_number_val txt p ty v p' :
  prv_parse_number txt p = NumOk ty v p' ->
  match v with U_first_child _ => False | _ => True end.
Proof.
  destruct v; try done. unfold prv_parse_number. rewrite (prv_skip_blank_eq txt p).
  repeat case_match; done.
Qed.

Lemma parse_value_scalar_val txt p ty v p' :
  parse_value txt p = ValScalar ty (Some v) p' ->
  match v with U_first_child _ => False | _ => True end.
Proof.
  destruct v as [| | | |ch]; try done. unfold parse_value.
  repeat case_match; try done. intros [= -> -> ->].
  by eapply (prv_parse_number_val _ _ _ (U_first_child ch)).
Qed.

Lemma parse_value_err_val txt p res v :
  parse_value txt p = ValErr res (Some v) ->
  match v with U_first_child _ => False | _ => True end.
Proof.
  destruct v; try done. unfold parse_value. repeat case_match; done.
Qed.

Lemma check_after_value_sim c n A B txt p to :
  pair_ok c n A B -> valid_ref n to ->
  iter_sim c (Some (check_after_value txt p to A)) (Some (check_after_value txt p to B)).
Proof.
  intros Hok Hto. pose proof Hok as (Hc & Hs & <-).
  unfold check_after_value. rewrite (prv_skip_blank_eq txt p).
  repeat case_match; simpl; try done; by repeat split.
Qed.


Lemma u_first_child_write_val txt p ty val p' (x : lwjson_token_t real) n :
  parse_value txt p = ValScalar ty val p' ->
  valid_opt n (u_first_child x) ->
  valid_opt n (u_first_child (set_type ty (write_val val x))).
Proof.
  intros Hv Hx. destruct val as [v|]; [| done].
  apply parse_value_scalar_val in Hv. by destruct v.
Qed.

Lemma u_first_child_write_err txt p res val (x : lwjson_token_t real) n :
  parse_value txt p = ValErr res val ->
  valid_opt n (u_first_child x) ->
  valid_opt n (u_first_child (write_val val x)).
Proof.
  intros Hv Hx. destruct val as [v|]; [| done].
  apply parse_value_err_val in Hv. by destruct v.
Qed.

Lemma next_write_val val (x : lwjson_token_t real) : next (write_val val x) = next x.
Proof. by destruct val. Qed.

Lemma parse_token_sim c n A B txt p to i :
  pair_ok c n A B -> valid_ref n to -> i < n ->
  iter_sim c (parse_token txt p to i A) (parse_token txt p to i B).
Proof.
  intros Hok Hto Hi. unfold parse_token.
  destruct (parse_member_name_sim c n A B txt p to (Tok i) Hok Hto Hi)
    as (res & p' & A1 & B1 & -> & -> & Hok1).
  destruct (negb _); [by split; [|apply Hok1] |].
  pose proof (link_child_sim c n A1 B1 to (Tok i) Hok1 Hto Hi) as Hl.
  destruct (link_child to (Tok i) A1) as [A2|], (link_child to (Tok i) B1) as [B2|];
    cbn -[upd_token]; try done.
  pose proof (pair_ok_links c n A2 B2 (Tok i) Hl Hi) as [Hl1 Hl2].
  destruct (parse_value txt p') as [ty p''|ty val p''|res' val] eqn:Hv.
  - assert (Hok3 : pair_ok c n
        (upd_token (Tok i) (fun tk => set_next (Some to) (set_type ty tk)) A2)
        (upd_token (Tok i) (fun tk => set_next (Some to) (set_type ty tk)) B2))
      by by apply pair_ok_upd.
    destruct Hok3 as (Hc3 & Hs3 & Hn3).
    split; [split; [exact Hc3 |] | split; [exact Hs3 | done]].
    cbn [st_lw st_to]. by rewrite Hn3.
  - eapply check_after_value_sim; [| done].
    apply pair_ok_upd; try done.
    + simpl. by rewrite next_write_val.
    + by eapply u_first_child_write_val.
  - split; [done |].
    assert (Hok3 : pair_ok c n (upd_token (Tok i) (write_val val) A2)
                     (upd_token (Tok i) (write_val val) B2)).
    { apply pair_ok_upd; try done.
      - by rewrite next_write_val.
      - by eapply u_first_child_write_err. }
    apply Hok3.
Qed.


Lemma same_frame_refl lw : same_frame lw lw.
Proof. done. Qed.

Lemma same_frame_trans lw1 lw2 lw3 :
  same_frame lw1 lw2 -> same_frame lw2 lw3 -> same_frame lw1 lw3.
Proof. intros (?&?&?) (?&?&?). repeat split; congruence. Qed.

Lemma same_frame_put r x lw : same_frame lw (put_token r x lw).
Proof. split; [apply next_free_put | split; [apply tokens_len_put | apply flags_put]]. Qed.

Lemma same_frame_upd r f lw : same_frame lw (upd_token r f lw).
Proof. apply same_frame_put. Qed.

Lemma parse_member_name_frame txt p to t lw :
  same_frame lw (parse_member_name txt p to t lw).2.
Proof.
  unfold parse_member_name. repeat case_match; simpl; try apply same_frame_refl.
  apply same_frame_put.
Qed.

Lemma link_child_frame to t lw lw' :
  link_child to t lw = Some lw' -> same_frame lw lw'.
Proof.
  unfold link_child. destruct (u_first_child _).
  - destruct (last_sibling _ _ _); simpl; [| done]. intros [= <-]. apply same_frame_upd.
  - intros [= <-]. apply same_frame_upd.
Qed.

Lemma check_after_value_frame txt p to lw :
  result_frame lw (Some (check_after_value txt p to lw)).
Proof. unfold check_after_value. repeat case_match; apply same_frame_refl. Qed.

Lemma parse_token_frame txt p to i lw :
  result_frame lw (parse_token txt p to i lw).
Proof.
  unfold parse_token.
  pose proof (parse_member_name_frame txt p to (Tok i) lw) as H1.
  destruct (parse_member_name txt p to (Tok i) lw) as [[res p'] lw1]. simpl in H1.
  destruct (negb _); [done |].
  destruct (link_child to (Tok i) lw1) as [lw2|] eqn:Hl; cbn -[upd_token]; [| done].
  apply link_child_frame in Hl.
  assert (H2 : same_frame lw lw2) by by eapply same_frame_trans.
  destruct (parse_value txt p') as [ty p''|ty val p''|res' val].
  - eapply same_frame_trans; [done | apply same_frame_upd].
  - pose proof (check_after_value_frame txt p'' to
        (upd_token (Tok i) (fun tk => set_type ty (write_val val tk)) lw2)) as H3.
    destruct (check_after_value _ _ _ _); simpl in *;
      (eapply same_frame_trans; [| exact H3]);
      (eapply same_frame_trans; [done | apply same_frame_upd]).
  - eapply same_frame_trans; [done | apply same_frame_upd].
Qed.

Lemma parse_iter_sim c a b txt :
  closed_state a -> same_state c a b ->
  iter_sim c (parse_iter txt a) (parse_iter txt b)
  \/ (parse_iter txt b = Some (Ret lwjsonERRMEM (st_lw b))
      /\ next_free_token_pos (st_lw b) = c
      /\ used_more c (parse_iter txt a))
  \/ (parse_iter txt a = Some (Ret lwjsonERRMEM (st_lw a))
      /\ tokens_len (st_lw a) <= next_free_token_pos (st_lw a)).
Proof.
  destruct a as [A p to fc res], b as [B p' to' fc' res'].
  intros [Hc Hto] (Hs & Hp & Hto' & Hfc & Hres); simpl in *; subst p' to' fc' res'.
  assert (Hok : pair_ok c (next_free_token_pos A) A B) by done.
  unfold parse_iter; cbn [st_lw st_p st_to st_first_check st_res].
  rewrite (prv_skip_blank_eq txt p).
  rewrite (pair_ok_get _ _ _ _ to Hok Hto).
  set (q := (prv_skip_blank txt p).2).
  destruct (pair_ok_links _ _ _ _ to Hok Hto) as [Hl1 Hl2].
  destruct fc.
  { (* the first character *)
    left. repeat case_match; cbn -[upd_token]; try done.
    - assert (Hok' : pair_ok c (next_free_token_pos A)
                (upd_token to (set_type LWJSON_TYPE_OBJECT) A)
                (upd_token to (set_type LWJSON_TYPE_OBJECT) B))
        by by apply pair_ok_upd.
      destruct Hok' as (?&?&Hn). split; [split; [done |] | done].
      cbn [st_lw st_to]. by rewrite Hn.
    - assert (Hok' : pair_ok c (next_free_token_pos A)
                (upd_token to (set_type LWJSON_TYPE_ARRAY) A)
                (upd_token to (set_type LWJSON_TYPE_ARRAY) B))
        by by apply pair_ok_upd.
      destruct Hok' as (?&?&Hn). split; [split; [done |] | done].
      cbn [st_lw st_to]. by rewrite Hn. }
  destruct (is_char (peek txt q) ","); [by left |].
  destruct (Ascii.eqb (peek txt q) _).
  { (* a closing delimiter *)
    left.
    assert (Hok' : pair_ok c (next_free_token_pos A)
              (upd_token to (set_next None) A) (upd_token to (set_next None) B))
      by by apply pair_ok_upd.
    destruct Hok' as (?&?&Hn).
    destruct (next (get_token A to)) as [to'|] eqn:Hnx; cbn -[upd_token].
    - split; [split; [done |] | done]. cbn [st_lw st_to]. by rewrite Hn.
    - done. }
  (* a new token *)
  destruct (prv_alloc_token A) as [[i A']|] eqn:Ha.
  - destruct (same_alloc c A B i A' Hs Ha) as [(B' & Hb & Hs') | [Hb Hn]].
    + left. rewrite Hb.
      destruct (closed_alloc A i A' Hc Ha) as (Hc' & Hn' & -> & _ & _).
      apply (parse_token_sim c (S (next_free_token_pos A))); [done | | lia].
      eapply valid_ref_mono; [| done]. lia.
    + right; left. rewrite Hb. split; [done |]. split; [done |].
      destruct (closed_alloc A i A' Hc Ha) as (Hc' & Hn' & -> & _ & _).
      pose proof (parse_token_frame txt q to (next_free_token_pos A) A') as Hf.
      destruct Hs as (HnAB & _).
      destruct (parse_token txt q to (next_free_token_pos A) A') as [[a'|r la]|];
        simpl in *; try done; destruct Hf as (-> & _); lia.
  - destruct (prv_alloc_token B) as [[i B']|] eqn:Hb.
    + right; right. split; [done |]. by apply prv_alloc_token_None.
    + left. done.
Qed.

End Sim.

(** ** The loop on two arenas of different capacity *)

Section Capacity.
Context {real : Type} {RT : RealType real}.
Implicit Types (lw A B : lwjson_t real) (r : tokref) (a b : pstate real).

Lemma prv_alloc_token_frame lw i lw' :
  prv_alloc_token lw = Some (i, lw') ->
  next_free_token_pos lw' = S (next_free_token_pos lw)
  /\ tokens_len lw' = tokens_len lw
  /\ flags_parsed lw' = flags_parsed lw.
Proof.
  intros Ha. apply prv_alloc_token_Some in Ha as (-> & Hlt & ->).
  split; [done |]. split; [apply (tokens_len_put (Tok _)) | apply (flags_put (Tok _))].
Qed.

Lemma same_frame_grows lw lw' : same_frame lw lw' -> grows lw lw'.
Proof. intros (?&?&?). repeat split; [lia | done | done]. Qed.

Lemma grows_trans lw1 lw2 lw3 : grows lw1 lw2 -> grows lw2 lw3 -> grows lw1 lw3.
Proof. intros (?&?&?) (?&?&?). repeat split; [lia | congruence | congruence]. Qed.

Lemma parse_iter_grows txt a :
  match parse_iter txt a with
  | Some (Next a') => grows (st_lw a) (st_lw a')
  | Some (Ret _ la) => grows (st_lw a) la
  | None => True
  end.
Proof.
  unfold parse_iter. rewrite (prv_skip_blank_eq txt (st_p a)).
  destruct (st_first_check a).
  { repeat case_match; simplify_eq; try apply same_frame_grows, same_frame_upd.
    apply same_frame_grows, same_frame_refl. }
  destruct (is_char _ ","); [apply same_frame_grows, same_frame_refl |].
  destruct (Ascii.eqb _ _).
  { destruct (next _); apply same_frame_grows, same_frame_upd. }
  destruct (prv_alloc_token (st_lw a)) as [[i lw']|] eqn:Ha;
    [| apply same_frame_grows, same_frame_refl].
  apply prv_alloc_token_frame in Ha as (Hn & Hl & Hf).
  pose proof (parse_token_frame txt (prv_skip_blank txt (st_p a)).2 (st_to a) i lw') as H.
  destruct (parse_token _ _ _ _ _) as [[a'|res la]|]; simpl in *; try done;
    destruct H as (?&?&?); repeat split; try congruence; lia.
Qed.

Lemma loop_exit_frame a : same_frame (st_lw a) (loop_exit a).2.
Proof. apply same_frame_upd. Qed.

Lemma parse_loop_grows txt fuel a res la :
  parse_loop txt fuel a = Some (res, la) -> grows (st_lw a) la.
Proof.
  revert a. induction fuel as [|fuel IH]; intros a; simpl.
  - destruct (is_nul _); [| done]. intros [= <- <-].
    apply same_frame_grows, loop_exit_frame.
  - destruct (is_nul _).
    { intros [= <- <-]. apply same_frame_grows, loop_exit_frame. }
    pose proof (parse_iter_grows txt a) as Hg.
    destruct (parse_iter txt a) as [[a'|r' la']|]; [| | done].
    + intros H. eapply grows_trans; [done | by apply IH].
    + by intros [= <- <-].
Qed.

(** When the run on [A] ends with more tokens allocated than [B] holds,
    the run on [B] ends with [lwjsonERRMEM] at a full arena. *)
Lemma parse_loop_exhausts c txt fuel a b res la :
  closed_state a -> same_state c a b ->
  parse_loop txt fuel a = Some (res, la) ->
  c < next_free_token_pos la ->
  exists lb, parse_loop txt fuel b = Some (lwjsonERRMEM, lb)
             /\ next_free_token_pos lb = c /\ tokens_len lb = c
             /\ flags_parsed lb = flags_parsed (st_lw b).
Proof.
  revert a b. induction fuel as [|fuel IH]; intros a b Hc Hs; simpl;
    pose proof Hs as ((HnAB & _ & _ & Hlen & HnB & _) & <- & Hto & _).
  - destruct (is_nul _); [| done]. intros [= <- <-] Hlt.
    destruct (loop_exit_frame a) as (Hn & _). simpl in *. lia.
  - destruct (is_nul _).
    { intros [= <- <-] Hlt. destruct (loop_exit_frame a) as (Hn & _). simpl in *. lia. }
    pose proof (parse_iter_grows txt b) as Hgb.
    destruct (parse_iter_sim c a b txt Hc Hs) as [Hsim | [(Hb & Hn & Hu) | (Ha & Hfull)]].
    + destruct (parse_iter txt a) as [[a'|r' la']|], (parse_iter txt b) as [[b'|r'' lb']|];
        simpl in Hsim; try done.
      * destruct Hsim as [Hc' Hs']. intros Hl Hlt.
        destruct (IH a' b' Hc' Hs' Hl Hlt) as (lb & -> & ? & ? & Hfl).
        destruct Hgb as (_ & _ & Hfb). eexists; repeat split; try done. congruence.
      * destruct Hsim as [-> (Hn' & _ & _ & _ & Hle & _)]. intros [= <- <-] Hlt. lia.
    + intros _ _. rewrite Hb. eauto.
    + rewrite Ha. intros [= <- <-] Hlt. lia.
Qed.

(** When the run on [A] did not stop at the end of its own arena and
    allocated no more than [B] holds, the run on [B] gives the same
    result. *)
Lemma parse_loop_same c txt fuel a b res la :
  closed_state a -> same_state c a b ->
  parse_loop txt fuel a = Some (res, la) ->
  next_free_token_pos la <= c ->
  (res = lwjsonERRMEM -> next_free_token_pos la < tokens_len la) ->
  exists lb, parse_loop txt fuel b = Some (res, lb) /\ same_upto c la lb.
Proof.
  revert a b. induction fuel as [|fuel IH]; intros a b Hc Hs; simpl;
    pose proof Hs as (Hs0 & <- & Hto & _ & Hres).
  - destruct (is_nul _); [| done]. intros [= <- <-] _ _.
    exists (loop_exit b).2. unfold loop_exit; cbn [fst snd]. rewrite <- Hto, <- Hres.
    split; [done |]. apply same_upd; [done | apply Hc].
  - destruct (is_nul _).
    { intros [= <- <-] _ _.
      exists (loop_exit b).2. unfold loop_exit; cbn [fst snd]. rewrite <- Hto, <- Hres.
      split; [done |]. apply same_upd; [done | apply Hc]. }
    pose proof (parse_iter_grows txt a) as Hg.
    destruct (parse_iter_sim c a b txt Hc Hs) as [Hsim | [(Hb & Hn & Hu) | (Ha & Hfull)]].
    + destruct (parse_iter txt a) as [[a'|r' la']|], (parse_iter txt b) as [[b'|r'' lb']|];
        simpl in Hsim; try done.
      * destruct Hsim as [Hc' Hs']. by apply IH.
      * destruct Hsim as [-> Hs']. intros [= <- <-] _ _. eauto.
    + destruct (parse_iter txt a) as [[a'|r' la']|]; simpl in Hu; [| | done].
      * intros Hl Hle. apply parse_loop_grows in Hl as (Hl & _). lia.
      * intros [= <- <-] Hle. lia.
    + rewrite Ha in *. intros [= <- <-] _ Hlt. specialize (Hlt eq_refl). lia.
Qed.


(** The state in which [lwjson_parse] enters its loop. *)
Lemma parse_entry_closed lw :
  closed_state
    (mk_pstate
       (set_first_token zero_token (set_next_free_token_pos 0 (set_flags_parsed false lw)))
       0 FirstToken true lwjsonOK).
Proof.
  split; [| done]. split.
  - simpl. lia.
  - intros [|i] Hr; simpl in *; [done | lia].
Qed.

Lemma parse_entry_same A B :
  same_state (tokens_len B)
    (mk_pstate
       (set_first_token zero_token (set_next_free_token_pos 0 (set_flags_parsed false A)))
       0 FirstToken true lwjsonOK)
    (mk_pstate
       (set_first_token zero_token (set_next_free_token_pos 0 (set_flags_parsed false B)))
       0 FirstToken true lwjsonOK).
Proof. repeat split; simpl; try done; try lia. Qed.

Lemma parse_ret_frame res lw :
  (parse_ret (res, lw)).1 = res
  /\ next_free_token_pos (parse_ret (res, lw)).2 = next_free_token_pos lw
  /\ tokens_len (parse_ret (res, lw)).2 = tokens_len lw
  /\ tokens (parse_ret (res, lw)).2 = tokens lw
  /\ first_token (parse_ret (res, lw)).2 = first_token lw.
Proof. unfold parse_ret. by case_decide. Qed.

End Capacity.

(** C7: a text whose parse allocates more tokens than an arena holds (as
    witnessed by a run on any arena [lwA]) fails on that arena [lwB] with
    [lwjsonERRMEM]: the parsed flag stays false and every slot of [lwB] has
    been handed out, none twice, since an allocation returns the slot at the
    cursor and moves the cursor up by one and no iteration lowers it.  Four
    arrays nested in the root need four tokens and fail with three; three
    nested arrays succeed with three. *)
Theorem lwjson_parse_capacity {real : Type} {RT : RealType real} (lwA lwB : lwjson_t real) (txt : text)
    (res : lwjsonr_t) (lwA' : lwjson_t real) :
  lwjson_parse lwA (Some txt) = Some (res, lwA') ->
  tokens_len lwB < next_free_token_pos lwA' ->
  (exists lwB',
     lwjson_parse lwB (Some txt) = Some (lwjsonERRMEM, lwB')
     /\ flags_parsed lwB' = false
     /\ next_free_token_pos lwB' = tokens_len lwB
     /\ tokens_len lwB' = tokens_len lwB)
  /\ (forall (lw : lwjson_t real) i lw',
        prv_alloc_token lw = Some (i, lw') ->
        i = next_free_token_pos lw /\ next_free_token_pos lw' = S i)
  /\ (forall txt' (st : pstate real) st',
        parse_iter txt' st = Some (Next st') ->
        next_free_token_pos (st_lw st) <= next_free_token_pos (st_lw st')
        /\ tokens_len (st_lw st') = tokens_len (st_lw st))
  /\ status_of (lwjson_parse (arena (real := real) 3) (Some (json "[[[[[]]]]]")))
     = Some lwjsonERRMEM
  /\ status_of (lwjson_parse (arena (real := real) 3) (Some (json "[[[[]]]]")))
     = Some lwjsonOK.
Proof.
  intros HA Hlt. split; [| split; [| split; [| split; reflexivity]]].
  - unfold lwjson_parse in *.
    destruct (is_nul (peek txt 0)).
    { injection HA as <- <-. simpl in Hlt. lia. }
    destruct (parse_loop txt (length txt) _) as [[r la]|] eqn:Hl; [| done].
    assert (HA' : parse_ret (r, la) = (res, lwA')) by (apply (inj Some); exact HA).
    destruct (parse_ret_frame r la) as (_ & Hn & _). rewrite HA' in Hn.
    cbn [fst snd] in Hn. rewrite Hn in Hlt.
    destruct (parse_loop_exhausts (tokens_len lwB) txt (length txt) _ _ r la
                (parse_entry_closed lwA) (parse_entry_same lwA lwB) Hl Hlt)
      as (lb & -> & Hnb & Hlb & Hfb).
    exists lb. repeat split; try done.
  - intros lw i lw' Ha. apply prv_alloc_token_frame in Ha as Hf.
    apply prv_alloc_token_Some in Ha as (-> & _). by destruct Hf as (-> & _).
  - intros txt' st st' Hi. pose proof (parse_iter_grows txt' st) as Hg.
    rewrite Hi in Hg. by destruct Hg as (? & ? & _).
Qed.

(** A text that needs four tokens, on an arena of three. *)
Lemma lwjson_parse_capacity_witness :
  exists lwB',
    lwjson_parse (arena (real := float) 3) (Some (json "[1,2,3,4]"))
      = Some (lwjsonERRMEM, lwB')
    /\ flags_parsed lwB' = false
    /\ next_free_token_pos lwB' = 3
    /\ tokens_len lwB' = 3.
Proof.
  refine (proj1 (lwjson_parse_capacity (arena 6) (arena 3) (json "[1,2,3,4]")
                   lwjsonOK (tree_of 6 "[1,2,3,4]") _ _)).
  - vm_compute. reflexivity.
  - vm_compute. lia.
Defined.

(** ** Commas *)

(** C10: with room for two tokens, a leading, a doubled and a trailing comma
    are all accepted; in general an iteration that finds a comma at the top
    of the loop (after the first character has been checked) does nothing
    but pass it: the instance and the current container are unchanged and
    no value is asked for before or after the comma. *)
Theorem lwjson_parse_stray_commas {real : Type} {RT : RealType real} (lw : lwjson_t real) :
  2 <= tokens_len lw ->
  status_of (lwjson_parse lw (Some (json "[,1]"))) = Some lwjsonOK
  /\ status_of (lwjson_parse lw (Some (json "[1,,2]"))) = Some lwjsonOK
  /\ status_of (lwjson_parse lw (Some (json "[1,]"))) = Some lwjsonOK
  /\ (forall txt (st : pstate real),
        st_first_check st = false ->
        is_char (peek txt (prv_skip_blank txt (st_p st)).2) "," = true ->
        parse_iter txt st
        = Some (Next (mk_pstate (st_lw st) (S (prv_skip_blank txt (st_p st)).2)
                        (st_to st) false lwjsonOK))).
Proof.
  intros Hlen. destruct lw as [toks n ft fl]. unfold tokens_len in Hlen; simpl in Hlen.
  destruct toks as [|t0 [|t1 toks]]; simpl in Hlen; try lia.
  split; [reflexivity |]. split; [reflexivity |]. split; [reflexivity |].
  intros txt st Hfc Hc. unfold parse_iter.
  rewrite (prv_skip_blank_eq txt (st_p st)), Hfc. cbn [snd] in *. by rewrite Hc.
Qed.

(** The three texts on an arena of two slots, and the comma of "[,1]". *)
Lemma lwjson_parse_stray_commas_witness :
  status_of (lwjson_parse (arena (real := float) 2) (Some (json "[,1]"))) = Some lwjsonOK
  /\ status_of (lwjson_parse (arena (real := float) 2) (Some (json "[1,,2]")))
     = Some lwjsonOK
  /\ status_of (lwjson_parse (arena (real := float) 2) (Some (json "[1,]")))
     = Some lwjsonOK
  /\ parse_iter (json "[,1]") (mk_pstate (arena (real := float) 2) 1 FirstToken false lwjsonOK)
     = Some (Next (mk_pstate (arena 2) 2 FirstToken false lwjsonOK)).
Proof.
  destruct (lwjson_parse_stray_commas (arena (real := float) 2)) as (H1 & H2 & H3 & H4).
  - vm_compute. lia.
  - split; [exact H1 |]. split; [exact H2 |]. split; [exact H3 |].
    apply (H4 (json "[,1]") (mk_pstate (arena 2) 1 FirstToken false lwjsonOK));
      reflexivity.
Defined.

(** ** Names and segments *)

Section Names.
Context {real : Type}.

(** [strncmp] against a slice that holds no terminator compares the two
    slices character by character. *)
Lemma strncmp_eq_chars a ia b ib n :
  (forall k, k < n -> is_nul (peek b (ib + k)) = false) ->
  strncmp_eq a ia b ib n = true
  <-> forall k, k < n -> peek a (ia + k) = peek b (ib + k).
Proof.
  revert ia ib. induction n as [|n IH]; intros ia ib Hnn; simpl.
  - split; [intros _ k Hk; lia | done].
  - destruct (Ascii.eqb_spec (peek a ia) (peek b ib)) as [Heq|Hne]; simpl.
    + assert (Hnul : is_nul (peek a ia) = false).
      { rewrite Heq. rewrite <- (Nat.add_0_r ib). apply Hnn. lia. }
      rewrite Hnul. rewrite IH.
      * split.
        -- intros H [|k] Hk; [by rewrite !Nat.add_0_r |].
           rewrite <- !Nat.add_succ_comm. apply H. lia.
        -- intros H k Hk. rewrite !Nat.add_succ_comm. apply H. lia.
      * intros k Hk. rewrite Nat.add_succ_comm. apply Hnn. lia.
    + split; [done |]. intros H. exfalso. apply Hne.
      specialize (H 0). rewrite !Nat.add_0_r in H. apply H. lia.
Qed.

Lemma peek_drop (txt : text) p k : peek (drop p txt) k = peek txt (p + k).
Proof. unfold peek. f_equal. apply lookup_drop. Qed.

Lemma segment_run_chars (l : text) k :
  k < segment_run l -> is_nul (peek l k) = false.
Proof.
  revert k. induction l as [|c l IH]; intros k; cbn [segment_run]; [lia |].
  destruct (is_nul c) eqn:Hc; cbn [orb]; [lia |].
  destruct (is_char c "."); [lia |].
  destruct k as [|k]; [done |]. intros Hk. apply IH. lia.
Qed.

Lemma segment_run_not_nul ptxt path k :
  k < segment_run (drop path ptxt) -> is_nul (peek ptxt (path + k)) = false.
Proof. intros Hk. rewrite <- peek_drop. by apply segment_run_chars. Qed.

(** The test of [prv_find] on a child: the name has the length of the
    segment and the same characters. *)
Lemma name_matches_chars txt ptxt (x : lwjson_token_t real) path :
  name_matches txt ptxt x path (segment_run (drop path ptxt)) = true
  <-> token_name_len x = segment_run (drop path ptxt)
      /\ match token_name x with
         | Some name =>
             forall k, k < token_name_len x -> peek txt (name + k) = peek ptxt (path + k)
         | None => token_name_len x = 0
         end.
Proof.
  unfold name_matches. rewrite andb_true_iff, Nat.eqb_eq.
  split; intros [Hlen H]; (split; [done |]); destruct (token_name x) as [name|].
  - rewrite Hlen. apply strncmp_eq_chars; [| done]. apply segment_run_not_nul.
  - apply Nat.eqb_eq in H. lia.
  - rewrite Hlen in H. apply strncmp_eq_chars; [| done]. apply segment_run_not_nul.
  - apply Nat.eqb_eq. lia.
Qed.

End Names.

(** ** Sibling loops and the search *)

Section Search.
Context {real : Type} {RT : RealType real}.
Implicit Types (lw : lwjson_t real) (t r : tokref).

(** A sibling loop is the first result of its body over the chain. *)
Lemma for_siblings_first_result lw fuel o body cs :
  siblings lw fuel o = Some cs ->
  for_siblings lw fuel o body = first_result (body <$> cs).
Proof.
  revert o cs. induction fuel as [|fuel IH]; intros [t|] cs; simpl; try done.
  - by intros [= <-].
  - destruct (siblings lw fuel (next (get_token lw t))) as [cs'|] eqn:Hs; [| done].
    intros [= <-]. simpl. destruct (body t) as [[r|]|]; try done. by apply IH.
  - by intros [= <-].
Qed.

Lemma first_result_filter (f : tokref -> bool) (g : tokref -> option (option tokref)) cs :
  first_result ((fun t => if f t then g t else Some None) <$> cs)
  = first_result (g <$> List.filter f cs).
Proof.
  induction cs as [|t cs IH]; simpl; [done |].
  destruct (f t); simpl; [| done]. destruct (g t) as [[r|]|]; done.
Qed.

Lemma first_result_none cs :
  first_result ((fun _ : tokref => Some None) <$> cs) = Some None.
Proof. induction cs; simpl; done. Qed.

Lemma first_result_none_ext (g : tokref -> option (option tokref)) cs :
  (forall t, g t = Some None) -> first_result (g <$> cs) = Some None.
Proof. intros Hg. induction cs as [|t cs IH]; simpl; [done |]. by rewrite Hg. Qed.

Lemma first_result_found cs :
  first_result ((fun t : tokref => Some (Some t)) <$> cs) = Some (head cs).
Proof. destruct cs; simpl; done. Qed.

Lemma is_char_eq c s : is_char c s = true -> s = String c EmptyString.
Proof.
  destruct s as [|c' [|]]; simpl; try done. intros H. apply Ascii.eqb_eq in H. by subst.
Qed.


(** C6, amended: for a literal segment (one that does not start with [#])
    the parent must be an object, else nothing is found; its children are
    scanned in sibling order and only those whose name has the length and
    the characters of the segment count (the test of the code holds exactly
    of such names).  If the segment is the last one the
    first such child is returned.  Otherwise the rest of the path is
    searched inside the first such child and, when nothing is found there,
    inside the next such child, and so on: the result is the first success,
    and not-found when no matching child yields one.  The scenario path
    "a.b" finds the integer 1, a duplicated key finds its first occurrence,
    and an absent key finds nothing. *)
Theorem prv_find_literal_segment txt ptxt lw fuel depth parent path cs :
  is_nul (peek ptxt path) = false ->
  is_char (peek ptxt path) "#" = false ->
  siblings lw fuel (u_first_child (get_token lw parent)) = Some cs ->
  let len := segment_run (drop path ptxt) in
  let matching :=
    List.filter (fun t => name_matches txt ptxt (get_token lw t) path len) cs in
  prv_find txt ptxt lw fuel (S depth) parent path
  = (if decide (type (get_token lw parent) = LWJSON_TYPE_OBJECT) then
       if is_nul (peek ptxt (path + len)) then Some (head matching)
       else first_result
              ((fun t => prv_find txt ptxt lw fuel depth t (S (path + len)))
                 <$> matching)
     else Some None)
  /\ (forall x : lwjson_token_t real,
        name_matches txt ptxt x path len = true
        <-> token_name_len x = len
            /\ match token_name x with
               | Some name =>
                   forall k, k < token_name_len x ->
                     peek txt (name + k) = peek ptxt (path + k)
               | None => token_name_len x = 0
               end)
  /\ find_in scenario "a.b" = Some (Some (Tok 1), 1%Z)
  /\ find_in "{'a':1,'a':2}" "a" = Some (Some (Tok 0), 1%Z)
  /\ find_in scenario "x" = Some (None, 0%Z).
Proof.
  intros Hnul Hlit Hcs len matching.
  split; [| split; [intros x; apply name_matches_chars
                   | repeat split; vm_compute; reflexivity]].
  cbn [prv_find]. unfold prv_create_path_segment. rewrite Hnul, Hlit. fold len.
  cbn [andb]. rewrite Hlit. cbn [andb].
  case_decide as Hty.
  - rewrite bool_decide_true by done. cbn [negb].
    rewrite (for_siblings_first_result _ _ _ _ cs Hcs).
    rewrite (first_result_filter
               (fun t => name_matches txt ptxt (get_token lw t) path len)
               (fun t => if is_nul (peek ptxt (path + len)) then Some (Some t)
                         else prv_find txt ptxt lw fuel depth t (S (path + len)))).
    fold matching. destruct (is_nul (peek ptxt (path + len))); [| done].
    apply first_result_found.
  - by rewrite bool_decide_false.
Qed.


(** C5, amended: at a wildcard segment the parent must be an array, else
    nothing is found; the rest of the path after "#." is searched inside
    each child in sibling order and the first success is returned.  When
    the path ends right after "#." that rest is empty, the search inside a
    child finds nothing, and so the whole search finds nothing, whatever the
    array holds: "c.#." is not found in the scenario, while "c.#.d" finds
    the integer 30. *)
Theorem prv_find_wildcard_segment txt ptxt lw fuel depth parent path cs :
  is_char (peek ptxt path) "#" = true ->
  is_char (peek ptxt (S path)) "." = true ->
  siblings lw fuel (u_first_child (get_token lw parent)) = Some cs ->
  prv_find txt ptxt lw fuel (S depth) parent path
  = (if decide (type (get_token lw parent) = LWJSON_TYPE_ARRAY) then
       first_result ((fun t => prv_find txt ptxt lw fuel depth t (path + 1 + 1)) <$> cs)
     else Some None)
  /\ (is_nul (peek ptxt (path + 1 + 1)) = true ->
      prv_find txt ptxt lw fuel (S (S depth)) parent path = Some None)
  /\ find_in scenario "c.#." = Some (None, 0%Z)
  /\ find_in scenario "c.#.d" = Some (Some (Tok 6), 30%Z).
Proof.
  intros Hw Hdot Hcs.
  assert (Hnul : is_nul (peek ptxt path) = false).
  { apply is_char_eq in Hw. injection Hw as <-. done. }
  assert (Heq : forall d,
    prv_find txt ptxt lw fuel (S d) parent path
    = (if decide (type (get_token lw parent) = LWJSON_TYPE_ARRAY) then
         first_result ((fun t => prv_find txt ptxt lw fuel d t (path + 1 + 1)) <$> cs)
       else Some None)).
  { intros d. cbn [prv_find]. unfold prv_create_path_segment.
    rewrite Hnul, Hw, Hdot. cbn [negb andb]. rewrite Hw. cbn [andb Nat.eqb].
    case_decide as Hty.
    - rewrite bool_decide_true by done. cbn [negb].
      apply for_siblings_first_result, Hcs.
    - by rewrite bool_decide_false. }
  split; [apply Heq |]. split; [| split; vm_compute; reflexivity].
  intros Hend. rewrite Heq. case_decide; [| done].
  assert (Hin : forall t, prv_find txt ptxt lw fuel (S depth) t (path + 1 + 1) = Some None).
  { intros t. cbn [prv_find]. unfold prv_create_path_segment. by rewrite Hend. }
  by apply first_result_none_ext.
Qed.

End Search.

(** The root of the scenario, searched for "a.b": its children are the
    tokens 0 and 2, and the first segment is "a". *)
Lemma prv_find_literal_segment_witness :
  prv_find (json scenario) (json "a.b") (tree_of 10 scenario) 8 3 FirstToken 0
  = Some (Some (Tok 1)).
Proof.
  assert (H1 : is_nul (peek (json "a.b") 0) = false) by reflexivity.
  assert (H2 : is_char (peek (json "a.b") 0) "#" = false) by reflexivity.
  assert (H3 : siblings (tree_of 10 scenario) 8
                 (u_first_child (get_token (tree_of 10 scenario) FirstToken))
               = Some [Tok 0; Tok 2]) by (vm_compute; reflexivity).
  rewrite (proj1 (prv_find_literal_segment (json scenario) (json "a.b")
                    (tree_of 10 scenario) 8 2 FirstToken 0 [Tok 0; Tok 2] H1 H2 H3)).
  vm_compute. reflexivity.
Defined.

(** The array "c" of the scenario, searched from the wildcard of "c.#.":
    its children are the tokens 3, 4 and 5. *)
Lemma prv_find_wildcard_segment_witness :
  prv_find (json scenario) (json "c.#.") (tree_of 10 scenario) 8 2 (Tok 2) 2
  = Some None.
Proof.
  assert (H1 : is_char (peek (json "c.#.") 2) "#" = true) by reflexivity.
  assert (H2 : is_char (peek (json "c.#.") 3) "." = true) by reflexivity.
  assert (H3 : siblings (tree_of 10 scenario) 8
                 (u_first_child (get_token (tree_of 10 scenario) (Tok 2)))
               = Some [Tok 3; Tok 4; Tok 5]) by (vm_compute; reflexivity).
  apply (proj1 (proj2 (prv_find_wildcard_segment (json scenario) (json "c.#.")
                         (tree_of 10 scenario) 8 0 (Tok 2) 2 [Tok 3; Tok 4; Tok 5]
                         H1 H2 H3))).
  reflexivity.
Defined.

(** ** The parsed flag and the status *)

(** The parsed flag is set exactly when the status is [lwjsonOK]: every
    other status leaves it false, whatever it was before the call. *)
Theorem lwjson_parse_flag {real : Type} {RT : RealType real} (lw : lwjson_t real)
    (json_str : option text) (res : lwjsonr_t) (lw' : lwjson_t real) :
  lwjson_parse lw json_str = Some (res, lw') ->
  flags_parsed lw' = bool_decide (res = lwjsonOK).
Proof.
  unfold lwjson_parse. destruct json_str as [txt|]; [| by intros [= <- <-]].
  destruct (is_nul (peek txt 0)); [by intros [= <- <-] |].
  destruct (parse_loop txt (length txt) _) as [[r la]|] eqn:Hl; [| done].
  apply parse_loop_grows in Hl as (_ & _ & Hf). simpl in Hf.
  intros H. apply (inj Some) in H. unfold parse_ret in H.
  case_decide; injection H as <- <-; [by rewrite bool_decide_true |].
  by rewrite bool_decide_false.
Qed.

(** A text with a format error, on an instance whose flag was set by an
    earlier parse. *)
Lemma lwjson_parse_flag_witness :
  flags_parsed (tree_of 4 "[1 2]") = false.
Proof.
  apply (lwjson_parse_flag (tree_of 4 "[1]") (Some (json "[1 2]")) lwjsonERRJSON).
  vm_compute. reflexivity.
Defined.

(** ** Enough capacity *)

(** A run that did not stop for lack of room gives the same status on
    every arena that holds the tokens it allocated, and the two resulting
    instances agree on the cursor, the root and the allocated tokens. *)
Theorem lwjson_parse_capacity_enough {real : Type} {RT : RealType real}
    (lwA lwB : lwjson_t real) (txt : text) (res : lwjsonr_t) (lwA' : lwjson_t real) :
  lwjson_parse lwA (Some txt) = Some (res, lwA') ->
  next_free_token_pos lwA' <= tokens_len lwB ->
  (res = lwjsonERRMEM -> next_free_token_pos lwA' < tokens_len lwA) ->
  exists lwB',
    lwjson_parse lwB (Some txt) = Some (res, lwB')
    /\ next_free_token_pos lwB' = next_free_token_pos lwA'
    /\ first_token lwB' = first_token lwA'
    /\ flags_parsed lwB' = flags_parsed lwA'
    /\ forall i, i < next_free_token_pos lwA' -> tokens lwB' !! i = tokens lwA' !! i.
Proof.
  intros HA Hle Hroom. unfold lwjson_parse in *.
  destruct (is_nul (peek txt 0)).
  { injection HA as <- <-. eexists. split; [done |]. simpl. repeat split; try done.
    intros i Hi. simpl in Hi. lia. }
  destruct (parse_loop txt (length txt) _) as [[r la]|] eqn:Hl; [| done].
  assert (HA' : parse_ret (r, la) = (res, lwA')) by (apply (inj Some); exact HA).
  destruct (parse_ret_frame r la) as (Hr & Hn & Hlen & Htok & Hft).
  rewrite HA' in Hr, Hn, Hlen, Htok, Hft. cbn [fst snd] in *. subst r.
  pose proof (parse_loop_grows _ _ _ _ _ Hl) as (_ & Hlen' & _). simpl in Hlen'.
  destruct (parse_loop_same (tokens_len lwB) txt (length txt) _ _ res la
              (parse_entry_closed lwA) (parse_entry_same lwA lwB) Hl)
    as (lb & -> & Hs).
  { by rewrite <- Hn. }
  { intros Hm. specialize (Hroom Hm). rewrite <- Hn, Hlen'. exact Hroom. }
  destruct Hs as (Hs1 & Hs2 & Hs3 & _ & _ & _ & Hs4).
  exists (parse_ret (res, lb)).2. unfold parse_ret in *. cbn [fmap option_fmap option_map].
  case_decide; injection HA' as <-; cbn [snd]; simpl;
    (split; [done |]); rewrite <- ?Hn, <- ?Hs1, <- ?Hs2;
    repeat split; try done; intros i Hi; symmetry; apply Hs4; simpl in *; lia.
Qed.

(** The scenario document, parsed with ten slots, on an arena of seven. *)
Lemma lwjson_parse_capacity_enough_witness :
  exists lwB',
    lwjson_parse (arena (real := float) 7) (Some (json scenario)) = Some (lwjsonOK, lwB')
    /\ next_free_token_pos lwB' = next_free_token_pos (tree_of 10 scenario)
    /\ first_token lwB' = first_token (tree_of 10 scenario)
    /\ flags_parsed lwB' = flags_parsed (tree_of 10 scenario)
    /\ forall i, i < next_free_token_pos (tree_of 10 scenario) ->
         tokens lwB' !! i = tokens (tree_of 10 scenario) !! i.
Proof.
  apply (lwjson_parse_capacity_enough (arena 10) (arena 7) (json scenario) lwjsonOK
           (tree_of 10 scenario)).
  - vm_compute. reflexivity.
  - vm_compute. lia.
  - intros H. discriminate H.
Defined.

(** ** Links point forward in allocation order *)

Section Order.
Context {real : Type} {RT : RealType real}.
Implicit Types (lw : lwjson_t real) (r c t to : tokref) (x : lwjson_token_t real).

Lemma rk_valid n r : rk r <= n <-> valid_ref n r.
Proof. destruct r; simpl; [split; [done | lia] | lia]. Qed.

Lemma rk_inj r r' : rk r = rk r' -> r = r'.
Proof. destruct r, r'; simpl; try done. by intros [= ->]. Qed.

Lemma above_mono m m' lb o : m <= m' -> above m lb o -> above m' lb o.
Proof. destruct o; simpl; [lia | done]. Qed.

Lemma open_chain_ranks lw r rest r' :
  open_chain lw r rest -> r' ∈ rest -> rk r' < rk r.
Proof.
  revert r. induction rest as [|r1 rest IH]; intros r; simpl.
  - intros _ H. by apply elem_of_nil in H.
  - intros (_ & Hlt & Hc) [->|Hin]%elem_of_cons; [done |].
    specialize (IH r1 Hc Hin). lia.
Qed.

(** A chain depends only on the [next] fields of its members. *)
Lemma open_chain_ext lw lw' r rest :
  (forall r', rk r' <= rk r -> next (get_token lw' r') = next (get_token lw r')) ->
  open_chain lw r rest -> open_chain lw' r rest.
Proof.
  revert r. induction rest as [|r1 rest IH]; intros r Heq; simpl.
  - intros [-> Hn]. split; [done |]. by rewrite Heq.
  - intros (Hn & Hlt & Hc). rewrite Heq by done. repeat split; try done.
    apply IH; [| done]. intros r' Hr'. apply Heq. lia.
Qed.

Lemma get_upd lw r f r' :
  valid_ref (tokens_len lw) r ->
  get_token (upd_token r f lw) r'
  = if decide (r = r') then f (get_token lw r) else get_token lw r'.
Proof. intros Hv. unfold upd_token. by rewrite get_put. Qed.


Lemma next_free_upd r f lw :
  next_free_token_pos (upd_token r f lw) = next_free_token_pos lw.
Proof. apply next_free_put. Qed.

Lemma tokens_len_upd r f lw : tokens_len (upd_token r f lw) = tokens_len lw.
Proof. apply tokens_len_put. Qed.

(** The invariant looks at the links only. *)
Lemma heap_inv_ext m lw lw' to rest :
  tokens_len lw' = tokens_len lw ->
  (forall r, rk r <= m ->
     next (get_token lw' r) = next (get_token lw r)
     /\ u_first_child (get_token lw' r) = u_first_child (get_token lw r)) ->
  heap_inv m lw to rest -> heap_inv m lw' to rest.
Proof.
  intros Hlen Heq (Hto & Hm & Hc & Hnx & Hfc).
  split; [done |]. split; [by rewrite Hlen |]. split; [| split].
  - eapply open_chain_ext; [| done]. intros r' Hr'. apply Heq. lia.
  - intros r Hr Hne Hnin. destruct (Heq r Hr) as [-> _]. by apply Hnx.
  - intros r Hr. destruct (Heq r Hr) as [_ ->]. by apply Hfc.
Qed.

Lemma heap_inv_not_open m lw to rest c :
  heap_inv m lw to rest -> rk to < rk c -> c <> to /\ c ∉ rest.
Proof.
  intros (_ & _ & Hc & _) Hlt. split; [intros ->; lia |].
  intros Hin. pose proof (open_chain_ranks _ _ _ _ Hc Hin). lia.
Qed.

(** The walk to the last sibling ends, at a token that is not open. *)
Lemma last_sibling_ends m lw to rest fuel c :
  heap_inv m lw to rest ->
  rk to < rk c -> rk c <= m -> m - rk c <= fuel ->
  exists c', last_sibling lw fuel c = Some c'
             /\ rk to < rk c' /\ rk c' <= m /\ next (get_token lw c') = None.
Proof.
  intros Hinv. revert c. induction fuel as [|fuel IH]; intros c Hlt Hle Hfuel; simpl.
  - destruct (heap_inv_not_open _ _ _ _ c Hinv Hlt) as [Hne Hnin].
    destruct Hinv as (_ & _ & _ & Hnx & _). specialize (Hnx c Hle Hne Hnin).
    destruct (next (get_token lw c)) as [c1|] eqn:Hn; [simpl in Hnx; lia |]. eauto.
  - destruct (heap_inv_not_open _ _ _ _ c Hinv Hlt) as [Hne Hnin].
    pose proof Hinv as (_ & _ & _ & Hnx & _). specialize (Hnx c Hle Hne Hnin).
    destruct (next (get_token lw c)) as [c1|] eqn:Hn; [| eauto].
    simpl in Hnx. apply IH; lia.
Qed.

Lemma alloc_fresh_inv lw to rest i lw1 :
  heap_inv (next_free_token_pos lw) lw to rest ->
  prv_alloc_token lw = Some (i, lw1) ->
  i = next_free_token_pos lw /\ fresh_inv i lw1 to rest.
Proof.
  intros Hinv Ha. apply prv_alloc_token_Some in Ha as (-> & Hlt & ->).
  split; [done |]. set (n := next_free_token_pos lw) in *.
  assert (Hget : forall r,
    get_token (set_next_free_token_pos (S n) (put_token (Tok n) zero_token lw)) r
    = if decide (Tok n = r) then zero_token else get_token lw r).
  { intros r. apply (get_put (Tok n) r zero_token lw). exact Hlt. }
  assert (Hlen : tokens_len (set_next_free_token_pos (S n)
                   (put_token (Tok n) zero_token lw)) = tokens_len lw)
    by apply (tokens_len_put (Tok n)).
  split; [| split; [by rewrite Hlen | split; [done |]]].
  - eapply heap_inv_ext; [exact Hlen | | exact Hinv].
    intros r Hr. rewrite Hget. case_decide as Hd; [| done].
    subst r. simpl in Hr. lia.
  - rewrite Hget. by rewrite decide_True.
Qed.


Lemma fresh_inv_put n lw to rest x :
  fresh_inv n lw to rest ->
  next x = None -> u_first_child x = None ->
  fresh_inv n (put_token (Tok n) x lw) to rest.
Proof.
  intros (Hinv & Hlt & Hn & Hnx & Hfc) Hx1 Hx2.
  assert (Hget : forall r, get_token (put_token (Tok n) x lw) r
                           = if decide (Tok n = r) then x else get_token lw r)
    by (intros r; by apply get_put).
  split; [| split; [by rewrite tokens_len_put | split; [by rewrite next_free_put |]]].
  - eapply heap_inv_ext; [apply tokens_len_put | | exact Hinv].
    intros r Hr. rewrite Hget. case_decide as Hd; [| done].
    subst r. simpl in Hr. lia.
  - rewrite Hget, decide_True by done. done.
Qed.

Lemma parse_member_name_fresh txt p n lw to rest :
  fresh_inv n lw to rest ->
  fresh_inv n (parse_member_name txt p to (Tok n) lw).2 to rest.
Proof.
  intros Hf. unfold parse_member_name. case_decide; [done |].
  destruct (negb _); [done |].
  pose proof (prv_parse_property_name_keeps txt p (get_token lw (Tok n))) as [Hk1 Hk2].
  destruct (prv_parse_property_name txt p (get_token lw (Tok n))) as [[res p'] tk].
  cbn [snd] in *. pose proof Hf as (Hinv & Hlt & Hn & Hnx & Hfc).
  apply fresh_inv_put; [done | by rewrite Hk1 |].
  unfold u_first_child in *. by rewrite Hk2.
Qed.

(** Linking the new token [Tok n] into its container gives the invariant
    of the first [S n] slots; the new token still has no links. *)
Lemma link_child_inv n lw to rest :
  fresh_inv n lw to rest ->
  exists lw2, link_child to (Tok n) lw = Some lw2
    /\ heap_inv (S n) lw2 to rest
    /\ next_free_token_pos lw2 = S n
    /\ next (get_token lw2 (Tok n)) = None
    /\ u_first_child (get_token lw2 (Tok n)) = None.
Proof.
  intros (Hinv & Hlt & Hn & Hnx & Hfc).
  pose proof Hinv as (Hto & Hm & Hc & Hnxs & Hfcs).
  unfold link_child.
  destruct (u_first_child (get_token lw to)) as [c0|] eqn:Hfc0.
  - (* append after the last sibling *)
    pose proof (Hfcs to Hto) as Hab. rewrite Hfc0 in Hab. simpl in Hab.
    destruct (last_sibling_ends n lw to rest (next_free_token_pos lw) c0 Hinv)
      as (c & -> & Hc1 & Hc2 & Hc3); [lia | lia | lia |].
    cbn -[upd_token get_token]. eexists; split; [done |].
    assert (Hv : valid_ref (tokens_len lw) c) by (apply rk_valid; lia).
    assert (Hcn : c <> Tok n) by (intros ->; simpl in Hc2; lia).
    destruct (heap_inv_not_open _ _ _ _ c Hinv Hc1) as [Hcto Hcrest].
    split; [| split; [by rewrite next_free_upd | split]].
    + split; [lia |]. split; [rewrite tokens_len_upd; lia |]. split; [| split].
      * eapply open_chain_ext; [| exact Hc]. intros r' Hr'.
        rewrite get_upd by done. rewrite decide_False; [done |]. intros ->. lia.
      * intros r Hr Hne Hnin. rewrite get_upd by done. case_decide as Hd.
        { subst r. simpl. lia. }
        destruct (decide (r = Tok n)) as [->|Hrn].
        { by rewrite Hnx. }
        apply (above_mono n); [lia |]. apply Hnxs; try done.
        destruct r as [|j]; simpl in *; [lia |]. assert (j <> n) by congruence. lia.
      * intros r Hr. rewrite get_upd by done. case_decide as Hd.
        { subst r. unfold u_first_child; simpl. apply (above_mono n); [lia |].
          by apply Hfcs. }
        destruct (decide (r = Tok n)) as [->|Hrn].
        { by rewrite Hfc. }
        apply (above_mono n); [lia |]. apply Hfcs.
        destruct r as [|j]; simpl in *; [lia |]. assert (j <> n) by congruence. lia.
    + rewrite get_upd by done. by rewrite decide_False.
    + rewrite get_upd by done. by rewrite decide_False.
  - (* first child *)
    eexists; split; [done |].
    assert (Hv : valid_ref (tokens_len lw) to) by (apply rk_valid; lia).
    assert (Htn : to <> Tok n) by (intros ->; simpl in Hto; lia).
    split; [| split; [by rewrite next_free_upd | split]].
    + split; [lia |]. split; [rewrite tokens_len_upd; lia |]. split; [| split].
      * eapply open_chain_ext; [| exact Hc]. intros r' Hr'.
        rewrite get_upd by done. case_decide; [by subst | done].
      * intros r Hr Hne Hnin. rewrite get_upd by done. rewrite decide_False by done.
        destruct (decide (r = Tok n)) as [->|Hrn].
        { by rewrite Hnx. }
        apply (above_mono n); [lia |]. apply Hnxs; try done.
        destruct r as [|j]; simpl in *; [lia |]. assert (j <> n) by congruence. lia.
      * intros r Hr. rewrite get_upd by done. case_decide as Hd.
        { subst r. unfold u_first_child; simpl. lia. }
        destruct (decide (r = Tok n)) as [->|Hrn].
        { by rewrite Hfc. }
        apply (above_mono n); [lia |]. apply Hfcs.
        destruct r as [|j]; simpl in *; [lia |]. assert (j <> n) by congruence. lia.
    + rewrite get_upd by done. by rewrite decide_False.
    + rewrite get_upd by done. rewrite decide_False by done. done.
Qed.


(** *** The cursor moves forward *)

Lemma drop_peek txt s :
  is_nul (peek txt s) = false -> exists l, drop s txt = peek txt s :: l.
Proof.
  unfold peek. destruct (txt !! s) as [c|] eqn:Hl; simpl; [| done].
  intros _. exists (drop (S s) txt). by apply drop_S.
Qed.

Lemma is_digit_not_nul (c : ascii) : is_digit c = true -> is_nul c = false.
Proof.
  unfold is_digit, is_nul. intros H. apply Ascii.eqb_neq. intros ->.
  vm_compute in H. done.
Qed.

Lemma digits_real_pos num (c : ascii) (l : text) :
  is_digit c = true -> 0 < (digits_real num (c :: l)).2.
Proof.
  intros H. simpl. rewrite H. destruct (digits_real _ l). simpl. lia.
Qed.

Lemma prv_parse_string_gt txt p pout len p' :
  prv_parse_string txt p = StrOk pout len p' -> p < p'.
Proof.
  unfold prv_parse_string. rewrite (prv_skip_blank_eq txt p).
  pose proof (prv_skip_blank_ge txt p) as H1.
  destruct (negb _); [done |].
  destruct (string_run _ _) as [l|]; [| done].
  match goal with |- context [prv_skip_blank txt (if ?b then ?x else ?y)] =>
    assert (H3 : S (prv_skip_blank txt p).2 <= (if b then x else y))
      by (destruct b; lia);
    generalize dependent (if b then x else y); intros s H3;
    rewrite (prv_skip_blank_eq txt s); pose proof (prv_skip_blank_ge txt s) as H2 end.
  intros [= <- <- <-]. lia.
Qed.

Lemma prv_parse_property_name_ge txt p x :
  p <= (prv_parse_property_name txt p x).1.2.
Proof.
  unfold prv_parse_property_name.
  destruct (prv_parse_string txt p) as [res [pout|]|pout len p'] eqn:Hs; simpl; try done.
  apply prv_parse_string_gt in Hs.
  destruct (negb _); simpl; [lia |].
  pose proof (prv_skip_blank_ge txt (S p')). lia.
Qed.

Lemma number_fraction_ge txt num s ty num' s' :
  number_fraction txt num s = Some (ty, num', s') -> s <= s'.
Proof.
  unfold number_fraction. destruct (Ascii.eqb _ _); [| by intros [= <- <- <-]].
  destruct (negb _); [done |]. destruct (frac_digits _ _ _) as [[e d] k].
  intros [= <- <- <-]. lia.
Qed.

Lemma number_exponent_ge txt ty num s ty' num' s' :
  number_exponent txt ty num s = Some (ty', num', s') -> s <= s'.
Proof.
  unfold number_exponent. destruct (_ || _); [| by intros [= <- <- <-]].
  destruct (negb _); [done |]. destruct (digits_int _ _) as [e k].
  intros [= <- <- <-]. repeat case_match; lia.
Qed.

Lemma prv_parse_number_gt txt p ty v p' :
  prv_parse_number txt p = NumOk ty v p' -> p < p'.
Proof.
  unfold prv_parse_number. rewrite (prv_skip_blank_eq txt p).
  pose proof (prv_skip_blank_ge txt p) as H1.
  set (q := (prv_skip_blank txt p).2) in *.
  destruct (is_nul (peek txt q)); [done |].
  set (s := if Ascii.eqb (peek txt q) "-" then S q else q).
  assert (Hs : q <= s) by (unfold s; destruct (Ascii.eqb _ _); lia).
  destruct (is_nul (peek txt s)) eqn:Hnul; [done |]. cbn [orb].
  destruct (nat_of_ascii (peek txt s) <? 48) eqn:H48; [done |].
  destruct (57 <? nat_of_ascii (peek txt s)) eqn:H57; [done |]. cbn [orb].
  destruct (_ && _); [done |].
  destruct (drop_peek txt s Hnul) as [l ->].
  assert (Hd : is_digit (peek txt s) = true).
  { unfold is_digit. apply Nat.ltb_ge in H48, H57.
    apply andb_true_iff. split; apply Nat.leb_le; lia. }
  pose proof (digits_real_pos (real_of_int 0) _ l Hd) as Hk.
  destruct (digits_real _ _) as [num k]. simpl in Hk.
  destruct (number_fraction txt num (s + k)) as [[[ty1 num1] s1]|] eqn:Hf; [| done].
  apply number_fraction_ge in Hf.
  destruct (number_exponent txt ty1 num1 s1) as [[[ty2 num2] s2]|] eqn:He; [| done].
  apply number_exponent_ge in He.
  destruct ty2; intros [= <- <- <-]; lia.
Qed.

Lemma parse_value_gt txt p :
  match parse_value txt p with
  | ValOpen _ p' | ValScalar _ _ p' => p < p'
  | ValErr _ _ => True
  end.
Proof.
  unfold parse_value.
  destruct (is_char _ "{"); [lia |]. destruct (is_char _ "["); [lia |].
  destruct (Ascii.eqb _ dq).
  { destruct (prv_parse_string txt p) as [res [pout|]|pout len p'] eqn:Hs; try done.
    by apply prv_parse_string_gt in Hs. }
  destruct (is_char _ "t"); [destruct (strncmp_eq _ _ _ _ _); [lia | done] |].
  destruct (is_char _ "f"); [destruct (strncmp_eq _ _ _ _ _); [lia | done] |].
  destruct (is_char _ "n"); [destruct (strncmp_eq _ _ _ _ _); [lia | done] |].
  destruct (_ || _); [| done].
  destruct (prv_parse_number txt p) as [res|ty v p'] eqn:Hn; [done |].
  by apply prv_parse_number_gt in Hn.
Qed.

Lemma check_after_value_ge txt p to lw :
  match check_after_value txt p to lw with
  | Next st' => p <= st_p st' /\ st_lw st' = lw /\ st_to st' = to
  | Ret _ _ => True
  end.
Proof.
  unfold check_after_value. rewrite (prv_skip_blank_eq txt p).
  pose proof (prv_skip_blank_ge txt p).
  repeat case_match; simplify_eq; simpl; try done; repeat split; try done; lia.
Qed.


(** *** An iteration keeps the invariant and ends *)

Lemma parse_token_inv txt p n lw to rest :
  fresh_inv n lw to rest ->
  match parse_token txt p to n lw with
  | None => False
  | Some (Next st') => loop_inv st' /\ p < st_p st'
  | Some (Ret _ _) => True
  end.
Proof.
  intros Hf. unfold parse_token.
  pose proof (parse_member_name_fresh txt p n lw to rest Hf) as Hf1.
  assert (Hp1 : p <= (parse_member_name txt p to (Tok n) lw).1.2).
  { unfold parse_member_name. repeat case_match; simpl; try lia.
    match goal with H : prv_parse_property_name _ _ ?x = _ |- _ =>
      pose proof (prv_parse_property_name_ge txt p x) as Hge; rewrite H in Hge end.
    done. }
  destruct (parse_member_name txt p to (Tok n) lw) as [[res p1] lw1].
  cbn [fst snd] in *.
  destruct (negb _); [done |].
  assert (Hto1 : rk to <= n) by apply Hf1.
  destruct (link_child_inv n lw1 to rest Hf1) as (lw2 & -> & Hinv & Hn & Hnx & Hfc).
  cbn -[upd_token get_token].
  pose proof Hinv as (Hto & Hm & Hc & Hnxs & Hfcs).
  assert (Hv : valid_ref (tokens_len lw2) (Tok n)) by (simpl; lia).
  pose proof (parse_value_gt txt p1) as Hgt.
  destruct (parse_value txt p1) as [ty p2|ty val p2|res' val] eqn:Hval; [| | done].
  - (* a container is opened *)
    split; [| simpl; lia].
    exists (to :: rest). cbn [st_lw st_to]. rewrite next_free_upd, Hn.
    split; [simpl; lia |]. split; [by rewrite tokens_len_upd |]. split; [| split].
    + cbn [open_chain]. rewrite get_upd by done. rewrite decide_True by done.
      split; [done |]. split; [simpl; lia |].
      eapply open_chain_ext; [| exact Hc]. intros r' Hr'.
      rewrite get_upd by done. rewrite decide_False; [done |]. intros <-. simpl in *. lia.
    + intros r Hr Hne Hnin. rewrite get_upd by done. rewrite decide_False by done.
      apply Hnxs; [done | |].
      * intros ->. apply Hnin. by left.
      * intros Hin. apply Hnin. by right.
    + intros r Hr. rewrite get_upd by done. case_decide as Hd; [| by apply Hfcs].
      subst r.
      change (above (S n) (rk (Tok n)) (u_first_child (get_token lw2 (Tok n)))).
      by rewrite Hfc.
  - (* a scalar *)
    pose proof (check_after_value_ge txt p2 to
      (upd_token (Tok n) (fun tk => set_type ty (write_val val tk)) lw2)) as Hca.
    destruct (check_after_value _ _ _ _) as [st'|]; [| done].
    destruct Hca as (Hp & Hlw & Hst). split; [| lia].
    exists rest. rewrite Hlw, Hst, next_free_upd, Hn.
    eapply heap_inv_ext; [apply tokens_len_upd | | exact Hinv].
    intros r Hr. rewrite get_upd by done. case_decide as Hd; [| done].
    subst r. split; [simpl; by rewrite next_write_val |].
    rewrite Hfc. destruct val as [v|]; [| exact Hfc].
    apply parse_value_scalar_val in Hval. by destruct v.
Qed.

Lemma parse_iter_inv txt st :
  loop_inv st ->
  match parse_iter txt st with
  | None => False
  | Some (Next st') => loop_inv st' /\ st_p st < st_p st'
  | Some (Ret _ _) => True
  end.
Proof.
  destruct st as [lw p to fc res]. intros [rest Hinv]. cbn [st_lw st_to] in Hinv.
  unfold parse_iter; cbn [st_lw st_p st_to st_first_check st_res].
  rewrite (prv_skip_blank_eq txt p). pose proof (prv_skip_blank_ge txt p) as Hq.
  set (q := (prv_skip_blank txt p).2) in *.
  pose proof Hinv as (Hto & Hm & Hc & Hnxs & Hfcs).
  assert (Hv : valid_ref (tokens_len lw) to) by (apply rk_valid; lia).
  assert (Hkeep : forall f,
    (forall x, next (f x) = next x /\ u (f x) = u x) ->
    heap_inv (next_free_token_pos (upd_token to f lw)) (upd_token to f lw) to rest).
  { intros f Hf. rewrite next_free_upd.
    eapply heap_inv_ext; [apply tokens_len_upd | | exact Hinv].
    intros r Hr. rewrite get_upd by done. case_decide; [| done]. subst r.
    destruct (Hf (get_token lw to)) as [H1 H2]. unfold u_first_child. by rewrite H1, H2. }
  destruct fc.
  { repeat case_match; simplify_eq; try done; (split; [| simpl; lia]);
      exists rest; by apply Hkeep. }
  destruct (is_char _ ","); [split; [by exists rest | simpl; lia] |].
  destruct (Ascii.eqb _ _).
  { destruct (next (get_token lw to)) as [to'|] eqn:Hnx; [| done].
    split; [| simpl; lia].
    destruct rest as [|r1 rest']; simpl in Hc; [destruct Hc as [_ Hc]; congruence |].
    destruct Hc as (Hn1 & Hlt & Hc'). assert (r1 = to') by congruence. subst r1.
    exists rest'. cbn [st_lw st_to]. rewrite next_free_upd.
    split; [lia |]. split; [by rewrite tokens_len_upd |]. split; [| split].
    - eapply open_chain_ext; [| exact Hc']. intros r' Hr'.
      rewrite get_upd by done. rewrite decide_False; [done |]. intros <-. lia.
    - intros r Hr Hne Hnin. rewrite get_upd by done. case_decide as Hd; [done |].
      apply Hnxs; [done | congruence |].
      intros [->|Hin]%elem_of_cons; done.
    - intros r Hr. rewrite get_upd by done. case_decide as Hd; [| by apply Hfcs].
      subst r. unfold u_first_child. simpl. by apply Hfcs. }
  destruct (prv_alloc_token lw) as [[i lw1]|] eqn:Ha; [| done].
  destruct (alloc_fresh_inv lw to rest i lw1 Hinv Ha) as [-> Hf].
  pose proof (parse_token_inv txt q _ lw1 to rest Hf) as Ht.
  destruct (parse_token _ _ _ _ _) as [[st'|]|]; try done.
  destruct Ht as [Hi Hp]. split; [done | simpl; lia].
Qed.


Lemma peek_past_end txt p : length txt <= p -> is_nul (peek txt p) = true.
Proof.
  intros H. unfold peek. change text with (list ascii) in *.
  destruct (txt !! p) as [c|] eqn:E; [| reflexivity].
  apply lookup_lt_Some in E. lia.
Qed.

Lemma peek_not_nul_lt txt p : is_nul (peek txt p) = false -> p < length txt.
Proof.
  intros H. destruct (decide (p < length txt)); [done |].
  rewrite peek_past_end in H by lia. done.
Qed.

(** The loop ends within as many iterations as characters remain. *)
Lemma parse_loop_total txt fuel st :
  loop_inv st -> length txt - st_p st <= fuel ->
  exists out, parse_loop txt fuel st = Some out.
Proof.
  revert st. induction fuel as [|fuel IH]; intros st Hinv Hfuel; simpl.
  - rewrite peek_past_end by lia. eauto.
  - destruct (is_nul (peek txt (st_p st))) eqn:Hnul; [eauto |].
    apply peek_not_nul_lt in Hnul.
    pose proof (parse_iter_inv txt st Hinv) as Hi.
    destruct (parse_iter txt st) as [[st'|res lw']|]; [| eauto | done].
    destruct Hi as [Hinv' Hp]. apply IH; [done | lia].
Qed.

Lemma parse_entry_inv lw :
  loop_inv
    (mk_pstate
       (set_first_token zero_token (set_next_free_token_pos 0 (set_flags_parsed false lw)))
       0 FirstToken true lwjsonOK).
Proof.
  exists []. cbn [st_lw st_to]. split; [simpl; lia |]. split; [simpl; lia |].
  split; [done |]. split.
  - intros [|i] Hr Hne; simpl in *; [done | lia].
  - intros [|i] Hr; simpl in *; [done | lia].
Qed.

End Order.

(** [lwjson_parse] always returns: the iterations given to the loop
    suffice and no walk along a sibling chain runs on for ever. *)
Theorem lwjson_parse_total {real : Type} {RT : RealType real} (lw : lwjson_t real)
    (json_str : option text) :
  exists res lw', lwjson_parse lw json_str = Some (res, lw').
Proof.
  unfold lwjson_parse. destruct json_str as [txt|]; [| eauto].
  destruct (is_nul (peek txt 0)); [eauto |].
  destruct (parse_loop_total txt (length txt) _ (parse_entry_inv lw)) as [[res lw'] ->].
  { simpl. lia. }
  exists (parse_ret (res, lw')).1, (parse_ret (res, lw')).2.
  cbn [fmap option_fmap option_map]. by destruct (parse_ret (res, lw')).
Qed.

(** ** The tree left when the root closes *)

Section RootClosed.
Context {real : Type} {RT : RealType real}.
Implicit Types (lw : lwjson_t real) (st : pstate real).


(** The loop function follows the states the loop goes through. *)
Lemma loop_reaches_parse_loop txt st st' fuel :
  loop_reaches txt st st' -> loop_inv st -> length txt - st_p st <= fuel ->
  exists fuel', length txt - st_p st' <= fuel'
                /\ parse_loop txt fuel st = parse_loop txt fuel' st'.
Proof.
  intros Hr. revert fuel. induction Hr as [|st st1 st2 Hnul Hi _ IH]; intros fuel Hinv Hf.
  - eauto.
  - pose proof (peek_not_nul_lt _ _ Hnul) as Hlt.
    destruct fuel as [|fuel]; [lia |]. simpl. rewrite Hnul, Hi.
    pose proof (parse_iter_inv txt st Hinv) as H. rewrite Hi in H. destruct H as [Hinv1 Hp].
    apply IH; [done | lia].
Qed.

Lemma prv_parse_string_err txt p res o :
  prv_parse_string txt p = StrErr res o -> res <> lwjsonOK.
Proof.
  unfold prv_parse_string. rewrite (prv_skip_blank_eq txt p).
  destruct (negb _); [by intros [= <- <-] |].
  destruct (string_run _ _); [| by intros [= <- <-]].
  match goal with |- context [prv_skip_blank txt ?s] =>
    rewrite (prv_skip_blank_eq txt s) end. done.
Qed.

Lemma parse_value_err txt p res o :
  parse_value (RT := RT) txt p = ValErr res o -> res <> lwjsonOK.
Proof.
  unfold parse_value.
  destruct (is_char _ "{"); [done |]. destruct (is_char _ "["); [done |].
  destruct (Ascii.eqb _ dq).
  { destruct (prv_parse_string txt p) as [r [pout|]|pout len p'] eqn:Hs; try done;
      intros [= <- <-]; by eapply prv_parse_string_err. }
  destruct (is_char _ "t"); [destruct (strncmp_eq _ _ _ _ _); [done | by intros [= <- <-]] |].
  destruct (is_char _ "f"); [destruct (strncmp_eq _ _ _ _ _); [done | by intros [= <- <-]] |].
  destruct (is_char _ "n"); [destruct (strncmp_eq _ _ _ _ _); [done | by intros [= <- <-]] |].
  destruct (_ || _); [| by intros [= <- <-]].
  destruct (prv_parse_number txt p); [by intros [= <- <-] | done].
Qed.

Lemma check_after_value_err txt p to lw res lw' :
  check_after_value txt p to lw = Ret res lw' -> res <> lwjsonOK.
Proof.
  unfold check_after_value. rewrite (prv_skip_blank_eq txt p).
  repeat case_match; try done. by intros [= <- <-].
Qed.

Lemma parse_token_err txt p to i lw res lw' :
  parse_token txt p to i lw = Some (Ret res lw') -> res <> lwjsonOK.
Proof.
  unfold parse_token.
  destruct (parse_member_name txt p to (Tok i) lw) as [[r p1] lw1].
  destruct (bool_decide (r = lwjsonOK)) eqn:Hr; cbn [negb].
  - destruct (link_child to (Tok i) lw1) as [lw2|]; cbn -[upd_token]; [| done].
    destruct (parse_value txt p1) as [ty p2|ty val p2|res' val] eqn:Hv; [done | |].
    + intros [= H]. by eapply check_after_value_err.
    + intros [= <- <-]. by eapply parse_value_err.
  - intros [= <- <-]. by apply bool_decide_eq_false in Hr.
Qed.

(** The only way an iteration returns [lwjsonOK] is the close of the
    root, and then no container is left open. *)
Lemma parse_iter_ok_forward txt st lw' :
  loop_inv st -> parse_iter txt st = Some (Ret lwjsonOK lw') ->
  all_forward lw' /\ next (first_token lw') = None.
Proof.
  destruct st as [lw p to fc res]. intros [rest Hinv]. cbn [st_lw st_to] in Hinv.
  unfold parse_iter; cbn [st_lw st_p st_to st_first_check st_res].
  rewrite (prv_skip_blank_eq txt p).
  pose proof Hinv as (Hto & Hm & Hc & Hnxs & Hfcs).
  destruct fc; [repeat case_match; done |].
  destruct (is_char _ ","); [done |].
  destruct (Ascii.eqb _ _).
  - destruct (next (get_token lw to)) as [to'|] eqn:Hnx; [done |].
    destruct rest as [|r1 rest']; simpl in Hc; [| destruct Hc as [Hc _]; congruence].
    destruct Hc as [-> _]. destruct (is_nul _); [| done]. intros [= <-].
    assert (Hv : valid_ref (tokens_len lw) FirstToken) by done.
    split.
    + intros r Hr. rewrite next_free_upd in *. rewrite get_upd by done.
      case_decide as Hd.
      * subst r. split; [done |]. by apply (Hfcs FirstToken).
      * split; [| by apply Hfcs]. apply Hnxs; [done | done |]. apply not_elem_of_nil.
    + change (next (get_token (upd_token FirstToken (set_next None) lw) FirstToken) = None).
      rewrite get_upd by done. by rewrite decide_True.
  - destruct (prv_alloc_token lw) as [[i lw1]|]; [| done].
    intros H. by apply parse_token_err in H.
Qed.



End RootClosed.



(** ** What the scanners accept *)

Section Scanners.

Lemma blank_run_spec (l : text) :
  (forall k, k < blank_run l -> is_blank (peek l k) = true)
  /\ is_blank (peek l (blank_run l)) = false.
Proof.
  induction l as [|c l [IH1 IH2]]; simpl.
  - split; [intros k Hk; lia | reflexivity].
  - destruct (is_blank c) eqn:Hc.
    + split; [| exact IH2]. intros [|k] Hk; [exact Hc |]. apply IH1. lia.
    + split; [intros k Hk; lia | exact Hc].
Qed.

(** [prv_skip_blank] never fails and never moves back.  It moves the
    cursor over blanks only, and when it has moved it, the cursor is on a
    character that is neither blank nor the terminator.  When it has not,
    either the cursor already was on such a character, or on the terminator,
    or nothing but blanks is left before the terminator: trailing blanks
    are not passed. *)
Theorem prv_skip_blank_spec (txt : text) (p : nat) :
  let p' := (prv_skip_blank txt p).2 in
  (prv_skip_blank txt p).1 = lwjsonOK
  /\ p <= p'
  /\ (forall k, p <= k < p' -> is_blank (peek txt k) = true)
  /\ (p < p' -> is_blank (peek txt p') = false /\ is_nul (peek txt p') = false)
  /\ (p' = p ->
      (is_blank (peek txt p) = false
       \/ exists e, p < e /\ is_nul (peek txt e) = true
                    /\ forall k, p <= k < e -> is_blank (peek txt k) = true)).
Proof.
  cbv zeta. unfold prv_skip_blank.
  destruct (blank_run_spec (drop p txt)) as [H1 H2].
  set (n := blank_run (drop p txt)) in *.
  assert (Hb : forall k, p <= k < p + n -> is_blank (peek txt k) = true).
  { intros k Hk. replace k with (p + (k - p)) by lia. rewrite <- peek_drop.
    apply H1. lia. }
  rewrite peek_drop in H2.
  destruct (is_nul (peek txt (p + n))) eqn:Hnul; cbn [fst snd].
  - split; [done |]. split; [lia |]. split; [intros k Hk; lia |].
    split; [lia |]. intros _.
    destruct (decide (n = 0)) as [Hn|Hn].
    + left. rewrite Hn, Nat.add_0_r in H2. exact H2.
    + right. exists (p + n). split; [lia |]. split; [exact Hnul | exact Hb].
  - split; [done |]. split; [lia |]. split; [exact Hb |].
    split; [done |]. intros Heq. left.
    assert (n = 0) as Hn by lia. rewrite Hn, Nat.add_0_r in H2. exact H2.
Qed.

Lemma peek_cons_S (c : ascii) (l : text) (k : nat) : peek (c :: l) (S k) = peek l k.
Proof. reflexivity. Qed.

(** The loop of [prv_parse_string] stops at the first quote that does not
    follow a backslash, unless the terminator comes first. *)
Lemma string_run_spec (prev : ascii) (l : text) :
  match string_run prev l with
  | Some len =>
      peek l len = dq
      /\ (forall k, k < len -> is_nul (peek l k) = false)
      /\ (len = 0 -> prev <> backslash)
      /\ (forall k, len = S k -> peek l k <> backslash)
      /\ (0 < len -> peek l 0 = dq -> prev = backslash)
      /\ (forall k, S k < len -> peek l (S k) = dq -> peek l k = backslash)
  | None =>
      exists e, is_nul (peek l e) = true
        /\ (forall k, k < e -> is_nul (peek l k) = false)
        /\ (0 < e -> peek l 0 = dq -> prev = backslash)
        /\ (forall k, S k < e -> peek l (S k) = dq -> peek l k = backslash)
  end.
Proof.
  revert prev. induction l as [|c l IH]; intros prev; cbn [string_run].
  - exists 0. split; [reflexivity |]. repeat split; intros; lia.
  - destruct (is_nul c) eqn:Hc.
    { exists 0. split; [exact Hc |]. repeat split; intros; lia. }
    destruct (Ascii.eqb c dq && negb (Ascii.eqb prev backslash)) eqn:Hq.
    { apply andb_true_iff in Hq as [Hq Hp]. apply Ascii.eqb_eq in Hq.
      apply negb_true_iff, Ascii.eqb_neq in Hp.
      split; [exact Hq |]. split; [intros k Hk; lia |]. split; [done |].
      repeat split; intros; lia. }
    assert (Hesc : c = dq -> prev = backslash).
    { intros ->. rewrite Ascii.eqb_refl in Hq. simpl in Hq.
      apply negb_false_iff, Ascii.eqb_eq in Hq. exact Hq. }
    specialize (IH c). destruct (string_run c l) as [len|]; cbn [fmap option_fmap option_map].
    + destruct IH as (H1 & H2 & H3 & H4 & H5 & H6).
      split; [rewrite peek_cons_S; exact H1 |].
      split. { intros [|k] Hk; [exact Hc | rewrite peek_cons_S; apply H2; lia]. }
      split; [intros; lia |].
      split.
      { intros k [= ->]. destruct k as [|k].
        - apply H3. reflexivity.
        - rewrite peek_cons_S. apply H4. reflexivity. }
      split; [intros _; exact Hesc |].
      intros [|k] Hk; rewrite !peek_cons_S.
      * apply H5. lia.
      * apply H6. lia.
    + destruct IH as (e & H1 & H2 & H3 & H4). exists (S e).
      split; [rewrite peek_cons_S; exact H1 |].
      split. { intros [|k] Hk; [exact Hc | rewrite peek_cons_S; apply H2; lia]. }
      split; [intros _; exact Hesc |].
      intros [|k] Hk; rewrite !peek_cons_S.
      * apply H3. lia.
      * apply H4. lia.
Qed.

(** The facts about a string scan the later proofs rely on. *)
Lemma prv_parse_string_facts (txt : text) (p : nat) :
  match prv_parse_string txt p with
  | StrOk pout len p' =>
      pout = S (prv_skip_blank txt p).2
      /\ peek txt (prv_skip_blank txt p).2 = dq
      /\ peek txt (pout + len) = dq
      /\ pout + len < length txt
      /\ pout + len < p'
      /\ (forall k, pout <= k < pout + len -> is_nul (peek txt k) = false)
      /\ (forall k, pout <= k -> S k = pout + len -> peek txt k <> backslash)
      /\ (forall k, pout <= k < pout + len -> peek txt k = dq ->
            pout < k /\ peek txt (k - 1) = backslash)
  | StrErr res None =>
      res = lwjsonERRJSON /\ peek txt (prv_skip_blank txt p).2 <> dq
  | StrErr res (Some pout) =>
      res = lwjsonERRJSON
      /\ pout = S (prv_skip_blank txt p).2
      /\ peek txt (prv_skip_blank txt p).2 = dq
      /\ exists e, pout <= e /\ is_nul (peek txt e) = true
           /\ (forall k, pout <= k < e -> is_nul (peek txt k) = false)
           /\ (forall k, pout <= k < e -> peek txt k = dq ->
                 pout < k /\ peek txt (k - 1) = backslash)
  end.
Proof.
  unfold prv_parse_string.
  pose proof (prv_skip_blank_ok txt p) as Hok.
  destruct (prv_skip_blank txt p) as [r q] eqn:Hs. simpl in Hok. subst r.
  cbn [snd].
  destruct (Ascii.eqb (peek txt q) dq) eqn:Hq; cbn [negb].
  2:{ split; [done |]. apply Ascii.eqb_neq. exact Hq. }
  apply Ascii.eqb_eq in Hq.
  assert (Hin : forall n, (forall k, k < n -> is_nul (peek (drop (S q) txt) k) = false) ->
    (0 < n -> peek (drop (S q) txt) 0 = dq -> NUL = backslash) ->
    (forall k, S k < n -> peek (drop (S q) txt) (S k) = dq ->
       peek (drop (S q) txt) k = backslash) ->
    (forall k, S q <= k < S q + n -> is_nul (peek txt k) = false)
    /\ (forall k, S q <= k < S q + n -> peek txt k = dq ->
          S q < k /\ peek txt (k - 1) = backslash)).
  { intros n Ha Hb Hc. split.
    - intros k Hk. replace k with (S q + (k - S q)) by lia.
      rewrite <- peek_drop. apply Ha. lia.
    - intros k Hk Hd. destruct (decide (k = S q)) as [->|Hne].
      + exfalso. assert (NUL = backslash) as Habs; [| discriminate Habs].
        apply Hb; [lia |]. rewrite peek_drop, Nat.add_0_r. exact Hd.
      + split; [lia |]. specialize (Hc (k - S q - 1) ltac:(lia)).
        rewrite !peek_drop in Hc.
        replace (S q + S (k - S q - 1)) with k in Hc by lia.
        replace (S q + (k - S q - 1)) with (k - 1) in Hc by lia.
        exact (Hc Hd). }
  pose proof (string_run_spec NUL (drop (S q) txt)) as Hrun.
  destruct (string_run NUL (drop (S q) txt)) as [len|].
  - destruct Hrun as (H1 & H2 & H3 & H4 & H5 & H6).
    rewrite peek_drop in H1.
    destruct (Hin len H2 H5 H6) as [Hi1 Hi2].
    set (s := if Ascii.eqb (peek txt (S q + len + 1)) dq
              then S (S q + len + 1) else S q + len + 1).
    pose proof (prv_skip_blank_ok txt s) as Hok2.
    pose proof (prv_skip_blank_ge txt s) as Hge2.
    destruct (prv_skip_blank txt s) as [r2 q2]. simpl in Hok2, Hge2. subst r2.
    assert (S q + len + 1 <= s) by (subst s; case_match; lia).
    split; [done |]. split; [exact Hq |]. split; [exact H1 |].
    split. { apply peek_not_nul_lt. rewrite H1. reflexivity. }
    split; [lia |]. split; [exact Hi1 |]. split; [| exact Hi2].
    intros k Hk Hlen. specialize (H4 (k - S q) ltac:(lia)).
    rewrite peek_drop in H4. replace (S q + (k - S q)) with k in H4 by lia.
    exact H4.
  - destruct Hrun as (e & H1 & H2 & H3 & H4).
    destruct (Hin e H2 H3 H4) as [Hi1 Hi2].
    split; [done |]. split; [done |]. split; [exact Hq |].
    exists (S q + e). split; [lia |].
    split; [rewrite <- peek_drop; exact H1 |]. split; [exact Hi1 | exact Hi2].
Qed.

(** What [prv_parse_string] accepts.  On success the payload starts right
    after a quote, holds no terminator, and ends before the first quote
    that is not preceded by a backslash: every quote inside the payload
    follows a backslash, and the payload does not end in one.  The payload
    and its closing quote lie inside the text.  On failure the status is
    [lwjsonERRJSON]: the first character after the blanks is no quote, or
    the terminator comes before any quote that closes the string. *)
Theorem prv_parse_string_spec (txt : text) (p : nat) :
  match prv_parse_string txt p with
  | StrOk pout len p' =>
      pout = S (prv_skip_blank txt p).2
      /\ peek txt (prv_skip_blank txt p).2 = dq
      /\ peek txt (pout + len) = dq
      /\ pout + len < length txt
      /\ pout + len < p'
      /\ (forall k, pout <= k < pout + len -> is_nul (peek txt k) = false)
      /\ (forall k, pout <= k -> S k = pout + len -> peek txt k <> backslash)
      /\ (forall k, pout <= k < pout + len -> peek txt k = dq ->
            pout < k /\ peek txt (k - 1) = backslash)
  | StrErr res None =>
      res = lwjsonERRJSON /\ peek txt (prv_skip_blank txt p).2 <> dq
  | StrErr res (Some pout) =>
      res = lwjsonERRJSON
      /\ pout = S (prv_skip_blank txt p).2
      /\ peek txt (prv_skip_blank txt p).2 = dq
      /\ exists e, pout <= e /\ is_nul (peek txt e) = true
           /\ (forall k, pout <= k < e -> is_nul (peek txt k) = false)
           /\ (forall k, pout <= k < e -> peek txt k = dq ->
                 pout < k /\ peek txt (k - 1) = backslash)
  end.
Proof. exact (prv_parse_string_facts txt p). Qed.

End Scanners.

(** ** What the number scanner accepts *)

Section Numbers.
Context {real : Type} {RT : RealType real}.

Lemma digits_int_spec (z : Z) (l : text) :
  (forall j, j < (digits_int z l).2 -> is_digit (peek l j) = true)
  /\ is_digit (peek l (digits_int z l).2) = false.
Proof.
  revert z. induction l as [|c l IH]; intros z; cbn [digits_int].
  - split; [intros j Hj; simpl in Hj; lia | reflexivity].
  - destruct (is_digit c) eqn:Hc.
    + specialize (IH (z * 10 + digit_val c)%Z).
      destruct (digits_int _ l) as [e k]. cbn [snd] in *.
      destruct IH as [IH1 IH2]. split; [| exact IH2].
      intros [|j] Hj; [exact Hc |]. apply IH1. lia.
    + split; [intros j Hj; simpl in Hj; lia | exact Hc].
Qed.

Lemma digits_real_count (num : real) (l : text) (z : Z) :
  (digits_real num l).2 = (digits_int z l).2.
Proof.
  revert num z. induction l as [|c l IH]; intros num z; cbn [digits_real digits_int].
  - reflexivity.
  - destruct (is_digit c); [| reflexivity].
    specialize (IH (real_add (real_mul num real_ten) (real_of_int (digit_val c)))
                   (z * 10 + digit_val c)%Z).
    destruct (digits_real _ l) as [n k], (digits_int _ l) as [e k'].
    cbn [snd] in *. by f_equal.
Qed.

Lemma frac_digits_count (e d : real) (l : text) (z : Z) :
  (frac_digits e d l).2 = (digits_int z l).2.
Proof.
  revert e d z. induction l as [|c l IH]; intros e d z; cbn [frac_digits digits_int].
  - reflexivity.
  - destruct (is_digit c); [| reflexivity].
    specialize (IH (real_mul e real_ten)
                   (real_add (real_mul d real_ten) (real_of_int (digit_val c)))
                   (z * 10 + digit_val c)%Z).
    destruct (frac_digits _ _ l) as [[e' d'] k], (digits_int _ l) as [e'' k'].
    cbn [snd] in *. by f_equal.
Qed.

(** The digits a loop of the number scanner passes, started at [s]. *)
Lemma digit_block (txt : text) (s : nat) :
  let k := (digits_int 0 (drop s txt)).2 in
  (forall j, s <= j < s + k -> is_digit (peek txt j) = true)
  /\ is_digit (peek txt (s + k)) = false.
Proof.
  cbv zeta. destruct (digits_int_spec 0 (drop s txt)) as [H1 H2].
  rewrite peek_drop in H2. split; [| exact H2].
  intros j Hj. replace j with (s + (j - s)) by lia. rewrite <- peek_drop.
  apply H1. lia.
Qed.

Lemma number_fraction_shape (txt : text) (num : real) (s : nat) :
  match number_fraction txt num s with
  | Some (ty, _, s') =>
      (ty = LWJSON_TYPE_NUM_INT /\ s' = s /\ peek txt s <> "."%char)
      \/ (ty = LWJSON_TYPE_NUM_REAL /\ peek txt s = "."%char /\ S s < s'
          /\ is_digit (peek txt s') = false
          /\ forall j, S s <= j < s' -> is_digit (peek txt j) = true)
  | None => peek txt s = "."%char /\ is_digit (peek txt (S s)) = false
  end.
Proof.
  unfold number_fraction.
  destruct (Ascii.eqb (peek txt s) ".") eqn:Hdot.
  - apply Ascii.eqb_eq in Hdot.
    destruct (is_digit (peek txt (S s))) eqn:Hd; cbn [negb]; [| done].
    pose proof (frac_digits_count (real_of_int 1) (real_of_int 0) (drop (S s) txt) 0) as Hc.
    destruct (frac_digits _ _ _) as [[e d] k]. cbn [snd] in Hc. subst k.
    destruct (digit_block txt (S s)) as [H1 H2].
    set (k := (digits_int 0 (drop (S s) txt)).2) in *.
    right. split; [done |]. split; [done |].
    split; [| split; [exact H2 | exact H1]].
    destruct (decide (k = 0)) as [Hk|Hk]; [| lia].
    rewrite Hk, Nat.add_0_r in H2. congruence.
  - apply Ascii.eqb_neq in Hdot. left. done.
Qed.

Lemma number_exponent_shape (txt : text) (ty : lwjson_type_t) (num : real) (s : nat) :
  match number_exponent txt ty num s with
  | Some (ty', _, s') =>
      (ty' = ty /\ s' = s /\ peek txt s <> "e"%char /\ peek txt s <> "E"%char)
      \/ (ty' = LWJSON_TYPE_NUM_REAL
          /\ (peek txt s = "e"%char \/ peek txt s = "E"%char) /\ S s < s'
          /\ is_digit (peek txt s') = false
          /\ forall j, S j = s' -> is_digit (peek txt j) = true)
  | None => peek txt s = "e"%char \/ peek txt s = "E"%char
  end.
Proof.
  unfold number_exponent.
  destruct (Ascii.eqb (peek txt s) "e" || Ascii.eqb (peek txt s) "E") eqn:He.
  - assert (Hee : peek txt s = "e"%char \/ peek txt s = "E"%char).
    { apply orb_true_iff in He as [He|He]; apply Ascii.eqb_eq in He; auto. }
    set (s1 := if Ascii.eqb (peek txt (S s)) "-" then S (S s) else S s).
    set (s2 := if Ascii.eqb (peek txt s1) "+" then S s1 else s1).
    assert (S s <= s2).
    { subst s2 s1. repeat case_match; lia. }
    destruct (is_digit (peek txt s2)) eqn:Hd; cbn [negb]; [| done].
    destruct (digits_int 0 (drop s2 txt)) as [e k] eqn:Hdi.
    destruct (digit_block txt s2) as [H1 H2]. rewrite Hdi in H1, H2.
    cbn [snd] in H1, H2.
    assert (k <> 0).
    { intros ->. rewrite Nat.add_0_r in H2. congruence. }
    right. split; [done |]. split; [done |]. split; [lia |].
    split; [exact H2 |]. intros j Hj. apply H1. lia.
  - apply orb_false_iff in He as [He1 He2].
    apply Ascii.eqb_neq in He1, He2. left. done.
Qed.

(** The facts about a number scan the later proofs rely on. *)
Lemma prv_parse_number_facts (txt : text) (p : nat) :
  let s0 := (prv_skip_blank txt p).2 in
  let s := if Ascii.eqb (peek txt s0) "-" then S s0 else s0 in
  match prv_parse_number txt p with
  | NumOk ty v p' =>
      s < p'
      /\ is_digit (peek txt s) = true
      /\ is_digit (peek txt p') = false
      /\ (forall j, S j = p' -> is_digit (peek txt j) = true)
      /\ match ty with
         | LWJSON_TYPE_NUM_INT =>
             (exists z, v = U_num_int z)
             /\ (forall j, s <= j < p' -> is_digit (peek txt j) = true)
             /\ peek txt p' <> "."%char
             /\ peek txt p' <> "e"%char /\ peek txt p' <> "E"%char
         | LWJSON_TYPE_NUM_REAL =>
             (exists x, v = U_num_real x)
             /\ exists j, s < j < p'
                  /\ (peek txt j = "."%char \/ peek txt j = "e"%char
                      \/ peek txt j = "E"%char)
         | _ => False
         end
  | NumErr res => res = lwjsonERRJSON
  end.
Proof.
  cbv zeta. unfold prv_parse_number.
  pose proof (prv_skip_blank_ok txt p) as Hok.
  destruct (prv_skip_blank txt p) as [r q]. simpl in Hok. subst r. cbn [snd].
  destruct (is_nul (peek txt q)) eqn:Hnul; [done |].
  set (s := if Ascii.eqb (peek txt q) "-" then S q else q).
  destruct (is_nul (peek txt s) || (nat_of_ascii (peek txt s) <? 48)
            || (57 <? nat_of_ascii (peek txt s))
            || ((nat_of_ascii (peek txt s) =? 48)
                && ((nat_of_ascii (peek txt (S s)) <? 48)
                    && (57 <? nat_of_ascii (peek txt (S s)))))) eqn:Hchk; [done |].
  apply orb_false_iff in Hchk as [Hchk _].
  apply orb_false_iff in Hchk as [Hchk H57].
  apply orb_false_iff in Hchk as [_ H48].
  assert (Hd0 : is_digit (peek txt s) = true).
  { unfold is_digit. apply andb_true_iff. split.
    - apply Nat.leb_le. apply Nat.ltb_ge in H48. exact H48.
    - apply Nat.leb_le. apply Nat.ltb_ge in H57. exact H57. }
  pose proof (digits_real_count (real_of_int 0) (drop s txt) 0) as Hc.
  destruct (digits_real (real_of_int 0) (drop s txt)) as [num k].
  cbn [snd] in Hc. subst k.
  destruct (digit_block txt s) as [Hb1 Hb2].
  set (k := (digits_int 0 (drop s txt)).2) in *.
  assert (Hk : k <> 0).
  { intros Hk. rewrite Hk, Nat.add_0_r in Hb2. congruence. }
  pose proof (number_fraction_shape txt num (s + k)) as Hf.
  destruct (number_fraction txt num (s + k)) as [[[ty1 num1] s1]|]; [| done].
  pose proof (number_exponent_shape txt ty1 num1 s1) as He.
  destruct (number_exponent txt ty1 num1 s1) as [[[ty2 num2] s2]|]; [| done].
  set (numf := if Ascii.eqb (peek txt q) "-" then real_neg num2 else num2).
  destruct Hf as [(-> & -> & Hnd)|(-> & Hdot & Hlt & Hnd1 & Hds1)];
    destruct He as [(-> & -> & He1 & He2)|(-> & Hee & Hlt2 & Hnd2 & Hds2)].
  - split; [lia |]. split; [exact Hd0 |]. split; [exact Hb2 |].
    split. { intros j Hj. apply Hb1. lia. }
    split; [by eexists |]. split; [exact Hb1 |]. done.
  - split; [lia |]. split; [exact Hd0 |]. split; [exact Hnd2 |].
    split; [exact Hds2 |]. split; [by eexists |].
    exists (s + k). split; [lia |]. tauto.
  - split; [lia |]. split; [exact Hd0 |]. split; [exact Hnd1 |].
    split. { intros j Hj. apply Hds1. lia. }
    split; [by eexists |]. exists (s + k). split; [lia |]. tauto.
  - split; [lia |]. split; [exact Hd0 |]. split; [exact Hnd2 |].
    split; [exact Hds2 |]. split; [by eexists |].
    exists (s + k). split; [lia |]. tauto.
Qed.

(** What [prv_parse_number] accepts.  After the blanks and an optional
    minus sign the literal starts with a digit, its last character is a
    digit, and no digit follows it.  It is an integer, with an integer
    payload, exactly when nothing but digits follows the sign and the
    character after them is no dot and no exponent mark; otherwise it is a
    real with a real payload, and a dot or an exponent mark lies inside
    the literal.  Every failure is [lwjsonERRJSON]. *)
Theorem prv_parse_number_shape (txt : text) (p : nat) :
  let s0 := (prv_skip_blank txt p).2 in
  let s := if Ascii.eqb (peek txt s0) "-" then S s0 else s0 in
  match prv_parse_number txt p with
  | NumOk ty v p' =>
      s < p'
      /\ is_digit (peek txt s) = true
      /\ is_digit (peek txt p') = false
      /\ (forall j, S j = p' -> is_digit (peek txt j) = true)
      /\ match ty with
         | LWJSON_TYPE_NUM_INT =>
             (exists z, v = U_num_int z)
             /\ (forall j, s <= j < p' -> is_digit (peek txt j) = true)
             /\ peek txt p' <> "."%char
             /\ peek txt p' <> "e"%char /\ peek txt p' <> "E"%char
         | LWJSON_TYPE_NUM_REAL =>
             (exists x, v = U_num_real x)
             /\ exists j, s < j < p'
                  /\ (peek txt j = "."%char \/ peek txt j = "e"%char
                      \/ peek txt j = "E"%char)
         | _ => False
         end
  | NumErr res => res = lwjsonERRJSON
  end.
Proof. exact (prv_parse_number_facts txt p). Qed.

End Numbers.

Lemma number_fraction_syntax {real1 real2 : Type}
    (RT1 : RealType real1) (RT2 : RealType real2) (txt : text)
    (n1 : real1) (n2 : real2) (s : nat) :
  match number_fraction (RT := RT1) txt n1 s, number_fraction (RT := RT2) txt n2 s with
  | Some (ty1, _, s1), Some (ty2, _, s2) => ty1 = ty2 /\ s1 = s2
  | None, None => True
  | _, _ => False
  end.
Proof.
  unfold number_fraction.
  destruct (Ascii.eqb (peek txt s) "."); [| done].
  destruct (is_digit (peek txt (S s))); cbn [negb]; [| done].
  pose proof (frac_digits_count (RT := RT1) (real_of_int 1) (real_of_int 0)
                (drop (S s) txt) 0) as Hf1.
  pose proof (frac_digits_count (RT := RT2) (real_of_int 1) (real_of_int 0)
                (drop (S s) txt) 0) as Hf2.
  destruct (frac_digits (RT := RT1) _ _ _) as [[e1 d1] j1].
  destruct (frac_digits (RT := RT2) _ _ _) as [[e2 d2] j2].
  cbn [snd] in Hf1, Hf2. subst j1 j2. done.
Qed.

Lemma number_exponent_syntax {real1 real2 : Type}
    (RT1 : RealType real1) (RT2 : RealType real2) (txt : text)
    (ty : lwjson_type_t) (n1 : real1) (n2 : real2) (s : nat) :
  match number_exponent (RT := RT1) txt ty n1 s,
        number_exponent (RT := RT2) txt ty n2 s with
  | Some (ty1, _, s1), Some (ty2, _, s2) => ty1 = ty2 /\ s1 = s2
  | None, None => True
  | _, _ => False
  end.
Proof.
  unfold number_exponent.
  destruct (_ || _); [| done].
  destruct (is_digit _); cbn [negb]; [| done].
  destruct (digits_int 0 _) as [e j]. done.
Qed.

(** The status, the type and the extent of a number literal are the same
    for every configuration of the real type: the arithmetic decides the
    payload only. *)
Theorem prv_parse_number_syntax {real1 real2 : Type}
    (RT1 : RealType real1) (RT2 : RealType real2) (txt : text) (p : nat) :
  match prv_parse_number (RT := RT1) txt p, prv_parse_number (RT := RT2) txt p with
  | NumOk ty1 _ p1, NumOk ty2 _ p2 => ty1 = ty2 /\ p1 = p2
  | NumErr res1, NumErr res2 => res1 = res2
  | _, _ => False
  end.
Proof.
  unfold prv_parse_number.
  destruct (prv_skip_blank txt p) as [[] q]; try done.
  destruct (is_nul (peek txt q)); [done |].
  set (s := if Ascii.eqb (peek txt q) "-" then S q else q).
  destruct (_ || _ || _ || _); [done |].
  pose proof (digits_real_count (RT := RT1) (real_of_int 0) (drop s txt) 0) as Hc1.
  pose proof (digits_real_count (RT := RT2) (real_of_int 0) (drop s txt) 0) as Hc2.
  destruct (digits_real (RT := RT1) _ _) as [n1 k1].
  destruct (digits_real (RT := RT2) _ _) as [n2 k2].
  cbn [snd] in Hc1, Hc2. subst k1 k2.
  pose proof (number_fraction_syntax RT1 RT2 txt n1 n2
                (s + (digits_int 0 (drop s txt)).2)) as Hf.
  destruct (number_fraction (RT := RT1) _ _ _) as [[[ty1 m1] s1]|],
           (number_fraction (RT := RT2) _ _ _) as [[[ty2 m2] s2]|]; try done.
  destruct Hf as [<- <-].
  pose proof (number_exponent_syntax RT1 RT2 txt ty1 m1 m2 s1) as He.
  destruct (number_exponent (RT := RT1) _ _ _ _) as [[[ty1' m1'] s1']|],
           (number_exponent (RT := RT2) _ _ _ _) as [[[ty2' m2'] s2']|]; try done.
  destruct He as [<- <-]. by destruct ty1'.
Qed.

(** ** What every parse keeps true *)


Section Safe.
Context {real : Type} {RT : RealType real}.
Implicit Types (lw : lwjson_t real) (r t to : tokref) (x : lwjson_token_t real)
  (st : pstate real).

Lemma untouched_put lw0 lw r x :
  next_free_token_pos lw <= tokens_len lw ->
  valid_ref (next_free_token_pos lw) r ->
  untouched lw0 lw -> untouched lw0 (put_token r x lw).
Proof.
  intros Hle Hr [Hlen Hu]. split; [by rewrite tokens_len_put |].
  intros i Hi. rewrite next_free_put in Hi. destruct r as [|j]; [by apply Hu |].
  simpl in Hr. unfold put_token. cbn [tokens set_tokens].
  rewrite list_lookup_insert_ne by lia. by apply Hu.
Qed.

(** A write through a valid reference keeps the invariant when the token
    written is well formed, keeps a container a container, and links back
    to containers only. *)
Lemma arena_inv_put txt lw0 lw r x :
  arena_inv txt lw0 lw ->
  valid_ref (next_free_token_pos lw) r ->
  valid_opt (next_free_token_pos lw) (next x) ->
  valid_opt (next_free_token_pos lw) (u_first_child x) ->
  tok_ok txt x ->
  (is_container (type (get_token lw r)) = true -> is_container (type x) = true) ->
  (forall r', next x = Some r' -> rk r' < rk r ->
     is_container (type (get_token lw r')) = true) ->
  arena_inv txt lw0 (put_token r x lw).
Proof.
  intros (Hc & Hok & Hpar & Hun) Hr Hx1 Hx2 Hx Hty Hback.
  assert (Hv : valid_ref (tokens_len lw) r) by by apply closed_valid_len.
  split; [by apply closed_put |]. split; [| split].
  - intros r1 Hr1. rewrite next_free_put in Hr1. rewrite get_put by done.
    case_decide; [done | by apply Hok].
  - intros r1 r1' Hr1. rewrite next_free_put in Hr1. rewrite !get_put by done.
    destruct (decide (r = r1)) as [<-|Hne].
    + intros Hn Hlt. rewrite decide_False by (intros <-; lia). by apply Hback.
    + intros Hn Hlt. specialize (Hpar r1 r1' Hr1 Hn Hlt).
      case_decide as Hd; [subst r1'; by apply Hty | done].
  - apply untouched_put; [apply Hc | done | done].
Qed.

Lemma arena_inv_upd txt lw0 lw r f :
  arena_inv txt lw0 lw ->
  valid_ref (next_free_token_pos lw) r ->
  valid_opt (next_free_token_pos lw) (next (f (get_token lw r))) ->
  valid_opt (next_free_token_pos lw) (u_first_child (f (get_token lw r))) ->
  tok_ok txt (f (get_token lw r)) ->
  (is_container (type (get_token lw r)) = true ->
   is_container (type (f (get_token lw r))) = true) ->
  (forall r', next (f (get_token lw r)) = Some r' -> rk r' < rk r ->
     is_container (type (get_token lw r')) = true) ->
  arena_inv txt lw0 (upd_token r f lw).
Proof. apply arena_inv_put. Qed.

Lemma arena_inv_alloc txt lw0 lw i lw1 :
  arena_inv txt lw0 lw -> prv_alloc_token lw = Some (i, lw1) ->
  arena_inv txt lw0 lw1
  /\ get_token lw1 (Tok i) = zero_token
  /\ forall r, valid_ref i r -> get_token lw1 r = get_token lw r.
Proof.
  intros (Hc & Hok & Hpar & Hun) Ha.
  destruct (closed_alloc lw i lw1 Hc Ha) as (Hc1 & Hn1 & Hi & Hlen1 & Hz).
  apply prv_alloc_token_Some in Ha as (_ & Hlt & Hlw1). subst i.
  set (n := next_free_token_pos lw) in *.
  assert (Hget : forall r,
            get_token lw1 r = if decide (Tok n = r) then zero_token else get_token lw r).
  { intros r. rewrite Hlw1. apply (get_put (Tok n) r zero_token lw). exact Hlt. }
  assert (Hold : forall r, valid_ref (S n) r -> Tok n <> r -> valid_ref n r).
  { intros [|j] Hj Hne; simpl in *; [done |]. assert (j <> n) by congruence. lia. }
  assert (Hneq : forall r, valid_ref n r -> Tok n <> r).
  { intros [|j] Hj; simpl in *; [done |]. intros [= ->]. lia. }
  split; [| split; [exact Hz |]].
  - split; [exact Hc1 |]. split; [| split].
    + intros r Hr. rewrite Hn1 in Hr. rewrite Hget. case_decide; [done |].
      apply Hok. by apply Hold.
    + intros r r' Hr. rewrite Hn1 in Hr. rewrite !Hget.
      case_decide as Hd; [done |]. intros Hnx Hrk.
      pose proof (closed_next lw r r' Hc (Hold r Hr Hd) Hnx) as Hv'.
      rewrite decide_False by by apply Hneq.
      apply (Hpar r r'); [by apply Hold | done | done].
    + destruct Hun as [Hlen Hu]. split; [congruence |].
      intros j Hj. rewrite Hn1 in Hj. rewrite Hlw1.
      unfold put_token. cbn [tokens set_tokens set_next_free_token_pos].
      rewrite list_lookup_insert_ne by lia. apply Hu. lia.
  - intros r Hr. rewrite Hget. rewrite decide_False by by apply Hneq. done.
Qed.

Lemma slice_ok_empty txt start : start <= length txt -> slice_ok txt start 0.
Proof. intros H. split; [done |]. intros k Hk. lia. Qed.

(** The slices a string scan hands out can be read. *)
Lemma prv_parse_string_slice txt p :
  match prv_parse_string txt p with
  | StrOk pout len _ => slice_ok txt pout len
  | StrErr res (Some pout) => slice_ok txt pout 0
  | StrErr res None => True
  end.
Proof.
  pose proof (prv_parse_string_facts txt p) as H.
  destruct (prv_parse_string txt p) as [res [pout|]|pout len p']; [| done |].
  - destruct H as (_ & -> & Hq & _). apply slice_ok_empty.
    assert (is_nul (peek txt (prv_skip_blank txt p).2) = false) as Hn
      by (rewrite Hq; reflexivity).
    apply peek_not_nul_lt in Hn. lia.
  - destruct H as (_ & _ & _ & Hlt & _ & Hnn & _). split; [lia | exact Hnn].
Qed.

Lemma prv_parse_property_name_ok txt p x :
  token_name_len x = 0 -> name_ok txt x ->
  name_ok txt (prv_parse_property_name txt p x).2
  /\ next (prv_parse_property_name txt p x).2 = next x
  /\ u (prv_parse_property_name txt p x).2 = u x
  /\ type (prv_parse_property_name txt p x).2 = type x.
Proof.
  intros Hlen Hx. unfold prv_parse_property_name.
  pose proof (prv_parse_string_slice txt p) as Hs.
  destruct (prv_parse_string txt p) as [res [pout|]|pout len p']; cbn [snd].
  - split; [| done]. unfold name_ok. cbn [token_name set_token_name token_name_len].
    by rewrite Hlen.
  - done.
  - destruct (negb _); cbn [snd]; (split; [| done]); exact Hs.
Qed.

Lemma parse_value_shape txt p :
  match parse_value (RT := RT) txt p with
  | ValOpen ty _ => is_container ty = true
  | ValScalar ty val _ =>
      forall x, u x = U_zero -> payload_ok txt (set_type ty (write_val val x))
  | ValErr res val =>
      forall x, u x = U_zero -> type x = LWJSON_TYPE_STRING ->
                payload_ok txt (write_val val x)
  end.
Proof.
  unfold parse_value.
  destruct (is_char _ "{"); [done |]. destruct (is_char _ "["); [done |].
  destruct (Ascii.eqb _ dq).
  { pose proof (prv_parse_string_slice txt p) as Hs.
    destruct (prv_parse_string txt p) as [res [pout|]|pout len p'].
    - intros x Hu Hty. unfold payload_ok. cbn [write_val set_u type u]. by rewrite Hty.
    - intros x Hu Hty. unfold payload_ok. cbn [write_val]. by rewrite Hu, Hty.
    - intros x Hu. exact Hs. }
  assert (Hz : forall x, u x = U_zero -> type x = LWJSON_TYPE_STRING ->
                         payload_ok txt (write_val None x)).
  { intros x Hu Hty. unfold payload_ok. cbn [write_val]. by rewrite Hu, Hty. }
  destruct (is_char _ "t").
  { destruct (strncmp_eq _ _ _ _ _); [| exact Hz].
    intros x Hu. unfold payload_ok. cbn [write_val set_type type u]. by rewrite Hu. }
  destruct (is_char _ "f").
  { destruct (strncmp_eq _ _ _ _ _); [| exact Hz].
    intros x Hu. unfold payload_ok. cbn [write_val set_type type u]. by rewrite Hu. }
  destruct (is_char _ "n").
  { destruct (strncmp_eq _ _ _ _ _); [| exact Hz].
    intros x Hu. unfold payload_ok. cbn [write_val set_type type u]. by rewrite Hu. }
  destruct (_ || _); [| exact Hz].
  pose proof (prv_parse_number_facts txt p) as Hn. cbv zeta in Hn.
  destruct (prv_parse_number txt p) as [res|ty v p']; [exact Hz |].
  destruct Hn as (_ & _ & _ & _ & Hn). intros x Hu.
  unfold payload_ok. cbn [write_val set_type set_u type u].
  destruct ty; try done; by destruct Hn as [[? ->] _].
Qed.

Lemma parse_member_name_safe txt lw0 p n lw to :
  arena_inv txt lw0 lw -> next_free_token_pos lw = S n ->
  get_token lw (Tok n) = zero_token ->
  let lw1 := (parse_member_name txt p to (Tok n) lw).2 in
  arena_inv txt lw0 lw1
  /\ blank_tok lw1 (Tok n)
  /\ forall r, r <> Tok n -> get_token lw1 r = get_token lw r.
Proof.
  intros Hinv Hn Hz. cbv zeta. unfold parse_member_name.
  assert (Hb : blank_tok lw (Tok n)) by (unfold blank_tok; by rewrite Hz).
  case_decide; [done |]. destruct (negb _); [done |].
  destruct (prv_parse_property_name_ok txt p (get_token lw (Tok n)))
    as (Hk1 & Hk2 & Hk3 & Hk4); [by rewrite Hz | by rewrite Hz |].
  destruct (prv_parse_property_name txt p (get_token lw (Tok n))) as [[res p'] tk].
  cbn [snd] in *. rewrite Hz in Hk2, Hk3, Hk4.
  assert (Hv : valid_ref (tokens_len lw) (Tok n)).
  { apply closed_valid_len; [apply Hinv |]. rewrite Hn. simpl. lia. }
  split; [| split].
  - apply arena_inv_put; try done.
    + rewrite Hn. simpl. lia.
    + by rewrite Hk2.
    + unfold u_first_child. by rewrite Hk3.
    + split; [done |]. unfold payload_ok. by rewrite Hk3, Hk4.
    + by rewrite Hz.
    + by rewrite Hk2.
  - unfold blank_tok. rewrite get_put by done. rewrite decide_True by done. done.
  - intros r Hr. rewrite get_put by done. by rewrite decide_False.
Qed.

Lemma link_child_safe txt lw0 n lw to rest lw2 :
  fresh_inv n lw to rest -> arena_inv txt lw0 lw ->
  blank_tok lw (Tok n) ->
  is_container (type (get_token lw to)) = true ->
  link_child to (Tok n) lw = Some lw2 ->
  arena_inv txt lw0 lw2
  /\ next_free_token_pos lw2 = S n
  /\ blank_tok lw2 (Tok n)
  /\ forall r, type (get_token lw2 r) = type (get_token lw r).
Proof.
  intros Hf Hinv (Hb1 & Hb2 & Hb3) Hto Hl.
  destruct (link_child_inv n lw to rest Hf) as (lw2' & Hl' & _ & Hn2 & Hnx2 & _).
  rewrite Hl in Hl'. injection Hl' as <-.
  pose proof Hf as (Hh & Hlt & Hn & _ & _). pose proof Hh as (Hrk & _).
  pose proof Hinv as (Hc & _ & Hpar & _).
  assert (Hvto : valid_ref (next_free_token_pos lw) to).
  { rewrite Hn. apply rk_valid. lia. }
  assert (Hne : to <> Tok n) by (intros ->; simpl in Hrk; lia).
  unfold link_child in Hl.
  destruct (u_first_child (get_token lw to)) as [c0|] eqn:Hfc0.
  - destruct (last_sibling lw (next_free_token_pos lw) c0) as [c|] eqn:Hls; [| done].
    injection Hl as <-.
    assert (Hvc : valid_ref (next_free_token_pos lw) c).
    { eapply last_sibling_valid; [done | | done]. by eapply closed_first_child. }
    assert (Hvc' : valid_ref (tokens_len lw) c) by by apply closed_valid_len.
    split; [| split; [done | split]].
    + apply arena_inv_upd; try done.
      * rewrite Hn. simpl. lia.
      * by apply Hc.
      * by apply Hinv.
      * intros r' [= <-] Hlt'. rewrite Hn in Hvc. apply rk_valid in Hvc.
        simpl in Hlt'. lia.
    + unfold blank_tok. split; [done |]. rewrite get_upd by done.
      case_decide; [subst c |]; done.
    + intros r. rewrite get_upd by done. case_decide; [subst c |]; done.
  - injection Hl as <-.
    assert (Hvto' : valid_ref (tokens_len lw) to) by by apply closed_valid_len.
    split; [| split; [done | split]].
    + apply arena_inv_upd; try done.
      * by apply Hc.
      * rewrite Hn. simpl. lia.
      * destruct Hinv as (_ & Hok & _). destruct (Hok to Hvto) as [Hnm Hpl].
        split; [done |]. unfold payload_ok. cbn [set_u type u].
        by destruct (type (get_token lw to)).
      * intros r' Hnx Hlt'. by apply (Hpar to r').
    + unfold blank_tok. rewrite get_upd by done. by rewrite decide_False.
    + intros r. rewrite get_upd by done. case_decide; [subst r |]; done.
Qed.

Lemma root_type_ok_ext txt lw lw' :
  type (get_token lw' FirstToken) = type (get_token lw FirstToken) ->
  root_type_ok txt lw -> root_type_ok txt lw'.
Proof. unfold root_type_ok. cbn [get_token]. by intros ->. Qed.

Lemma check_after_value_safe txt lw0 p to lw :
  arena_inv txt lw0 lw ->
  is_container (type (get_token lw to)) = true ->
  root_type_ok txt lw ->
  safe_next txt lw0 (check_after_value txt p to lw).
Proof.
  intros Hinv Hto Hroot. unfold check_after_value. rewrite (prv_skip_blank_eq txt p).
  repeat case_match; simpl; try done.
Qed.

Lemma parse_token_safe txt lw0 p n lw to rest :
  fresh_inv n lw to rest ->
  arena_inv txt lw0 lw ->
  get_token lw (Tok n) = zero_token ->
  is_container (type (get_token lw to)) = true ->
  root_type_ok txt lw ->
  match parse_token txt p to n lw with
  | Some r => safe_next txt lw0 r
  | None => True
  end.
Proof.
  intros Hf Hinv Hz Hto Hroot.
  pose proof Hf as (Hh & Hlt & Hn & _ & _). pose proof Hh as (Hrk & _).
  assert (Hne : to <> Tok n) by (intros ->; simpl in Hrk; lia).
  unfold parse_token.
  pose proof (parse_member_name_fresh txt p n lw to rest Hf) as Hf1.
  destruct (parse_member_name_safe txt lw0 p n lw to Hinv Hn Hz) as (Hinv1 & Hb1 & Hsame1).
  destruct (parse_member_name txt p to (Tok n) lw) as [[res p1] lw1]. cbn [snd] in *.
  assert (Hto1 : is_container (type (get_token lw1 to)) = true) by by rewrite Hsame1.
  assert (Hroot1 : root_type_ok txt lw1).
  { eapply root_type_ok_ext; [| exact Hroot]. by rewrite Hsame1. }
  destruct (bool_decide (res = lwjsonOK)) eqn:Hres; cbn [negb].
  2:{ split; [done |]. intros ->. by rewrite bool_decide_true in Hres. }
  apply bool_decide_eq_true in Hres. subst res.
  destruct (link_child to (Tok n) lw1) as [lw2|] eqn:Hl; cbn -[upd_token]; [| done].
  destruct (link_child_safe txt lw0 n lw1 to rest lw2 Hf1 Hinv1 Hb1 Hto1 Hl)
    as (Hinv2 & Hn2 & (Hb21 & Hb22 & Hb23) & Hty2).
  assert (Hto2 : is_container (type (get_token lw2 to)) = true) by by rewrite Hty2.
  assert (Hroot2 : root_type_ok txt lw2).
  { eapply root_type_ok_ext; [| exact Hroot1]. by apply (Hty2 FirstToken). }
  assert (Hvt : valid_ref (next_free_token_pos lw2) (Tok n)) by (rewrite Hn2; simpl; lia).
  assert (Hvt' : valid_ref (tokens_len lw2) (Tok n))
    by (apply closed_valid_len; [apply Hinv2 | done]).
  assert (Hnm : name_ok txt (get_token lw2 (Tok n))).
  { destruct Hinv2 as (_ & Hok & _). by apply Hok. }
  assert (Hkeep : forall f, get_token (upd_token (Tok n) f lw2) to = get_token lw2 to).
  { intros f. rewrite get_upd by done. by rewrite decide_False. }
  assert (Hkeep0 : forall f,
            type (get_token (upd_token (Tok n) f lw2) FirstToken)
            = type (get_token lw2 FirstToken)).
  { intros f. rewrite get_upd by done. by rewrite decide_False. }
  pose proof (parse_value_shape txt p1) as Hshape.
  destruct (parse_value txt p1) as [ty p2|ty val p2|res' val] eqn:Hv.
  - (* a container is opened *)
    assert (Hinv3 : arena_inv txt lw0
              (upd_token (Tok n) (fun tk => set_next (Some to) (set_type ty tk)) lw2)).
    { apply arena_inv_upd; try done.
      - cbn [next set_next]. rewrite Hn2. apply rk_valid. lia.
      - unfold u_first_child. cbn [set_next set_type u]. by rewrite Hb22.
      - split; [done |]. unfold payload_ok. cbn [set_next set_type type u].
        rewrite Hb22. by destruct ty.
      - cbn [next set_next]. by intros r' [= <-] _. }
    cbn [safe_next st_lw st_to st_res st_first_check].
    split; [done |]. split; [done |]. split; [done |]. split.
    + rewrite get_upd by done. rewrite decide_True by done. done.
    + eapply root_type_ok_ext; [apply Hkeep0 | done].
  - (* a scalar *)
    apply check_after_value_safe.
    + apply arena_inv_upd; try done.
      * cbn [next set_type]. rewrite next_write_val, Hb21. done.
      * eapply u_first_child_write_val; [exact Hv |].
        unfold u_first_child. by rewrite Hb22.
      * split; [by destruct val |]. by apply Hshape.
      * by rewrite Hb23.
      * cbn [next set_type]. rewrite next_write_val, Hb21. done.
    + by rewrite Hkeep.
    + eapply root_type_ok_ext; [apply Hkeep0 | done].
  - (* the value is refused *)
    split.
    + apply arena_inv_upd; try done.
      * rewrite next_write_val, Hb21. done.
      * eapply u_first_child_write_err; [exact Hv |].
        unfold u_first_child. by rewrite Hb22.
      * split; [by destruct val |]. by apply Hshape.
      * by rewrite Hb23.
      * rewrite next_write_val, Hb21. done.
    + intros ->. by apply parse_value_err in Hv.
Qed.

Lemma parse_iter_safe txt lw0 st :
  safe_state txt lw0 st ->
  match parse_iter txt st with
  | Some (Next st') => safe_state txt lw0 st'
  | Some (Ret res lw') => safe_result txt lw0 res lw'
  | None => True
  end.
Proof.
  intros (Hloop & Hinv & Hres & Hfc).
  pose proof (parse_iter_inv txt st Hloop) as Hnext.
  assert (Hsafe : match parse_iter txt st with
                  | Some r => safe_next txt lw0 r
                  | None => True
                  end).
  { destruct st as [lw p to fc res]. destruct Hloop as [rest Hh].
    cbn [st_lw st_p st_to st_first_check st_res] in *.
    pose proof Hh as (Hrk & Hm & Hch & _).
    pose proof Hinv as (Hc & Hok & Hpar & Hun).
    assert (Hvto : valid_ref (next_free_token_pos lw) to) by by apply rk_valid.
    assert (Hvto' : valid_ref (tokens_len lw) to) by by apply closed_valid_len.
    unfold parse_iter; cbn [st_lw st_p st_to st_first_check st_res].
    rewrite (prv_skip_blank_eq txt p).
    destruct fc.
    - (* the first character *)
      destruct Hfc as (-> & -> & Hu & Hnul).
      assert (Hopen : forall ty, is_container ty = true ->
                arena_inv txt lw0 (upd_token FirstToken (set_type ty) lw)).
      { intros ty Hty. apply arena_inv_upd; try done.
        - by apply Hc.
        - by apply Hc.
        - destruct (Hok FirstToken Hvto) as [Hnm _]. split; [done |].
          unfold payload_ok. cbn [set_type type u]. cbn [get_token]. rewrite Hu.
          by destruct ty.
        - intros r' Hnx Hlt. simpl in Hlt. lia. }
      destruct (is_char _ "{") eqn:Hc1.
      { simpl. split; [by apply Hopen |]. split; [done |]. split; [done |].
        split; [done |]. left. split; [done |].
        apply is_char_eq in Hc1. by injection Hc1 as <-. }
      destruct (is_char _ "[") eqn:Hc2; [| done].
      simpl. split; [by apply Hopen |]. split; [done |]. split; [done |].
      split; [done |]. right. split; [done |].
      apply is_char_eq in Hc2. by injection Hc2 as <-.
    - destruct Hfc as [Hto Hroot].
      destruct (is_char _ ","); [done |].
      destruct (Ascii.eqb _ _).
      + (* the container closes *)
        assert (Hinv' : arena_inv txt lw0 (upd_token to (set_next None) lw)).
        { apply arena_inv_upd; try done. by apply Hc. by apply Hok. }
        assert (Hroot' : root_type_ok txt (upd_token to (set_next None) lw)).
        { eapply root_type_ok_ext; [| exact Hroot].
          rewrite get_upd by done. by case_decide; [subst to |]. }
        destruct (next (get_token lw to)) as [to'|] eqn:Hnx; [| done].
        cbn [safe_next st_lw st_to st_res st_first_check].
        split; [done |]. split; [done |]. split; [done |]. split; [| done].
        destruct rest as [|r1 rest']; simpl in Hch; [destruct Hch; congruence |].
        destruct Hch as (Hnx' & Hlt & _). rewrite Hnx in Hnx'. injection Hnx' as <-.
        rewrite get_upd by done. rewrite decide_False by (intros ->; lia).
        by apply (Hpar to to').
      + destruct (prv_alloc_token lw) as [[i lw1]|] eqn:Ha; [| done].
        destruct (alloc_fresh_inv lw to rest i lw1 Hh Ha) as [-> Hf].
        destruct (arena_inv_alloc txt lw0 lw _ lw1 Hinv Ha) as (Hinv1 & Hz & Hsame).
        apply (parse_token_safe txt lw0 _ _ lw1 to rest); try done.
        * by rewrite Hsame.
        * eapply root_type_ok_ext; [| exact Hroot]. by rewrite Hsame. }
  destruct (parse_iter txt st) as [[st'|res' lw']|]; [| done | done].
  destruct Hnext as [Hloop' _]. destruct Hsafe as (H1 & H2 & H3 & H4 & H5).
  split; [done |]. split; [done |]. split; [done |]. by rewrite H3.
Qed.

Lemma loop_exit_safe txt lw0 st :
  safe_state txt lw0 st -> is_nul (peek txt (st_p st)) = true ->
  safe_result txt lw0 (loop_exit st).1 (loop_exit st).2.
Proof.
  intros (Hloop & Hinv & Hres & Hfc) Hnul. destruct st as [lw p to fc res].
  destruct Hloop as [rest Hh]. cbn [st_lw st_p st_to st_first_check st_res] in *.
  destruct fc; [destruct Hfc as (_ & -> & _ & Hn); congruence |].
  destruct Hfc as [Hto Hroot]. pose proof Hh as (Hrk & _).
  pose proof Hinv as (Hc & Hok & Hpar & Hun).
  assert (Hvto : valid_ref (next_free_token_pos lw) to) by by apply rk_valid.
  assert (Hvto' : valid_ref (tokens_len lw) to) by by apply closed_valid_len.
  unfold loop_exit; cbn [fst snd st_lw st_to st_res]. split.
  - apply arena_inv_upd; try done.
    + by apply Hc.
    + by apply Hc.
    + destruct (Hok to Hvto) as [_ Hpl]. split; [done | done].
    + intros r' Hnx Hlt. by apply (Hpar to r').
  - intros _. eapply root_type_ok_ext; [| exact Hroot].
    rewrite get_upd by done. by case_decide; [subst to |].
Qed.

Lemma parse_loop_safe txt lw0 fuel st res lw' :
  safe_state txt lw0 st ->
  parse_loop txt fuel st = Some (res, lw') ->
  safe_result txt lw0 res lw'.
Proof.
  revert st. induction fuel as [|fuel IH]; intros st Hs; simpl.
  - destruct (is_nul _) eqn:Hnul; [| done]. intros [= <- <-]. by apply loop_exit_safe.
  - destruct (is_nul _) eqn:Hnul; [intros [= <- <-]; by apply loop_exit_safe |].
    pose proof (parse_iter_safe txt lw0 st Hs) as Hi.
    destruct (parse_iter txt st) as [[st'|res' lw'']|]; [by apply IH | | done].
    by intros [= <- <-].
Qed.

Lemma parse_entry_arena txt lw : arena_inv txt lw (st_lw (parse_entry lw)).
Proof.
  split; [apply parse_entry_closed |]. split; [| split].
  - intros [|i] Hi; simpl in *; [done | lia].
  - intros [|i] r' Hi; simpl in *; [done | lia].
  - done.
Qed.

Lemma parse_entry_safe txt lw :
  is_nul (peek txt 0) = false ->
  safe_state txt lw (parse_entry lw).
Proof.
  intros Hnul. split; [apply parse_entry_inv |].
  split; [apply parse_entry_arena | done].
Qed.

(** Whatever the status, the instance a parse leaves satisfies the
    invariant; on [lwjsonOK] the root has the type its first character
    gave it. *)
Lemma lwjson_parse_safe (lw : lwjson_t real) (txt : text) res lw' :
  lwjson_parse lw (Some txt) = Some (res, lw') ->
  safe_result txt lw res lw'.
Proof.
  unfold lwjson_parse. destruct (is_nul (peek txt 0)) eqn:Hnul.
  { intros [= <- <-]. split; [apply parse_entry_arena | done]. }
  destruct (parse_loop txt (length txt) _) as [[r la]|] eqn:Hl; [| done].
  apply (parse_loop_safe txt lw) in Hl; [| by apply parse_entry_safe].
  intros H. apply (inj Some) in H. unfold parse_ret in H.
  destruct Hl as [Hinv Hroot].
  case_decide; injection H as <- <-; split; done.
Qed.

End Safe.

(** ** The result does not depend on what the instance held *)

Section Again.
Context {real : Type} {RT : RealType real}.
Implicit Types (lw A B : lwjson_t real) (r : tokref) (a b : pstate real).

Lemma same_frame_bounded lw lw' :
  same_frame lw lw' -> next_free_token_pos lw <= tokens_len lw ->
  next_free_token_pos lw' <= tokens_len lw'.
Proof. intros (-> & -> & _). done. Qed.

(** No iteration moves the cursor past the end of the array. *)
Lemma parse_iter_bounded txt a :
  next_free_token_pos (st_lw a) <= tokens_len (st_lw a) ->
  match parse_iter txt a with
  | Some (Next a') => next_free_token_pos (st_lw a') <= tokens_len (st_lw a')
  | Some (Ret _ la) => next_free_token_pos la <= tokens_len la
  | None => True
  end.
Proof.
  intros Hb. unfold parse_iter. rewrite (prv_skip_blank_eq txt (st_p a)).
  destruct (st_first_check a).
  { repeat case_match; simplify_eq; try done;
      cbn [st_lw]; by rewrite next_free_upd, tokens_len_upd. }
  destruct (is_char _ ","); [done |].
  destruct (Ascii.eqb _ _).
  { destruct (next _); cbn [st_lw]; by rewrite next_free_upd, tokens_len_upd. }
  destruct (prv_alloc_token (st_lw a)) as [[i lw']|] eqn:Ha; [| done].
  pose proof (prv_alloc_token_frame _ _ _ Ha) as (Hn & Hl & Hf).
  apply prv_alloc_token_Some in Ha as (-> & Hlt & _).
  pose proof (parse_token_frame txt (prv_skip_blank txt (st_p a)).2 (st_to a)
                (next_free_token_pos (st_lw a)) lw') as H.
  destruct (parse_token _ _ _ _ _) as [[a'|res la]|]; simpl in *; try done;
    destruct H as (-> & -> & _); lia.
Qed.

(** An iteration that finds the array full finds it full on every array
    of that size. *)
Lemma parse_iter_full c a b txt :
  closed_state a -> same_state c a b -> tokens_len (st_lw a) = c ->
  tokens_len (st_lw a) <= next_free_token_pos (st_lw a) ->
  parse_iter txt a = Some (Ret lwjsonERRMEM (st_lw a)) ->
  parse_iter txt b = Some (Ret lwjsonERRMEM (st_lw b)).
Proof.
  destruct a as [A p to fc res], b as [B p' to' fc' res'].
  intros [Hc Hto] (Hs & Hp & Hto' & Hfc & Hres) Hlen Hfull; simpl in *.
  subst p' to' fc' res'.
  unfold parse_iter; cbn [st_lw st_p st_to st_first_check st_res].
  rewrite (prv_skip_blank_eq txt p). rewrite <- (same_get c A B to Hs Hto).
  destruct fc; [repeat case_match; done |].
  destruct (is_char _ ","); [done |].
  destruct (Ascii.eqb _ _).
  { destruct (next (get_token A to)); [done |]. by destruct (is_nul _). }
  intros _. destruct Hs as (Hn & _ & _ & HlenB & _).
  assert (prv_alloc_token B = None) as ->; [| done].
  apply prv_alloc_token_None. lia.
Qed.

(** Two runs on arrays of the same size go the same way. *)
Lemma parse_loop_same_cap c txt fuel a b res la :
  closed_state a -> same_state c a b -> tokens_len (st_lw a) = c ->
  parse_loop txt fuel a = Some (res, la) ->
  exists lb, parse_loop txt fuel b = Some (res, lb) /\ same_upto c la lb.
Proof.
  revert a b. induction fuel as [|fuel IH]; intros a b Hc Hs Hlen; simpl;
    pose proof Hs as (Hs0 & <- & Hto & _ & Hres).
  - destruct (is_nul _); [| done]. intros [= <- <-].
    exists (loop_exit b).2. unfold loop_exit; cbn [fst snd]. rewrite <- Hto, <- Hres.
    split; [done |]. apply same_upd; [done | apply Hc].
  - destruct (is_nul _).
    { intros [= <- <-].
      exists (loop_exit b).2. unfold loop_exit; cbn [fst snd]. rewrite <- Hto, <- Hres.
      split; [done |]. apply same_upd; [done | apply Hc]. }
    pose proof (parse_iter_grows txt a) as Hg.
    pose proof (parse_iter_bounded txt a ltac:(apply Hc)) as Hba.
    destruct (parse_iter_sim c a b txt Hc Hs) as [Hsim | [(Hb & Hn & Hu) | (Ha & Hfull)]].
    + destruct (parse_iter txt a) as [[a'|r' la']|], (parse_iter txt b) as [[b'|r'' lb']|];
        simpl in Hsim; try done.
      * destruct Hsim as [Hc' Hs']. apply IH; try done.
        destruct Hg as (_ & -> & _). done.
      * destruct Hsim as [-> Hs']. intros [= <- <-]. eauto.
    + destruct (parse_iter txt a) as [[a'|r' la']|]; simpl in Hu; [| | done];
        exfalso; destruct Hg as (_ & Hl' & _); lia.
    + rewrite (parse_iter_full c a b txt Hc Hs Hlen Hfull Ha). rewrite Ha.
      intros [= <- <-]. eauto.
Qed.

Lemma lwjson_parse_same_cap A B txt res A' :
  tokens_len A = tokens_len B ->
  lwjson_parse A (Some txt) = Some (res, A') ->
  exists B',
    lwjson_parse B (Some txt) = Some (res, B')
    /\ next_free_token_pos B' = next_free_token_pos A'
    /\ first_token B' = first_token A'
    /\ flags_parsed B' = flags_parsed A'
    /\ forall i, i < next_free_token_pos A' -> tokens B' !! i = tokens A' !! i.
Proof.
  intros Hcap HA. unfold lwjson_parse in *.
  destruct (is_nul (peek txt 0)).
  { injection HA as <- <-. eexists. split; [done |]. simpl. repeat split; try done.
    intros i Hi. lia. }
  destruct (parse_loop txt (length txt) _) as [[r la]|] eqn:Hl; [| done].
  assert (HA' : parse_ret (r, la) = (res, A')) by (apply (inj Some); exact HA).
  destruct (parse_loop_same_cap (tokens_len B) txt (length txt) _ _ r la
              (parse_entry_closed A) (parse_entry_same A B) Hcap Hl)
    as (lb & -> & Hs).
  destruct Hs as (Hs1 & Hs2 & Hs3 & _ & _ & _ & Hs4).
  exists (parse_ret (r, lb)).2. unfold parse_ret in *. cbn [fmap option_fmap option_map].
  case_decide; injection HA' as <- <-; cbn [snd]; simpl;
    (split; [done |]); repeat split; try done; intros i Hi; symmetry; by apply Hs4.
Qed.

End Again.

(** The status of a parse and the tokens it builds depend on the text and
    on the size of the array only: on instances with arrays of the same
    size, whatever they hold, the status, the cursor, the root, the flag
    and the allocated tokens are the same, and the slots above the cursor
    are left as they were. *)
Theorem lwjson_parse_independent {real : Type} {RT : RealType real}
    (lwA lwB : lwjson_t real) (txt : text) (res : lwjsonr_t) (lwA' : lwjson_t real) :
  tokens_len lwA = tokens_len lwB ->
  lwjson_parse lwA (Some txt) = Some (res, lwA') ->
  exists lwB',
    lwjson_parse lwB (Some txt) = Some (res, lwB')
    /\ next_free_token_pos lwB' = next_free_token_pos lwA'
    /\ first_token lwB' = first_token lwA'
    /\ flags_parsed lwB' = flags_parsed lwA'
    /\ (forall i, i < next_free_token_pos lwA' -> tokens lwB' !! i = tokens lwA' !! i)
    /\ (forall i, next_free_token_pos lwA' <= i -> tokens lwB' !! i = tokens lwB !! i).
Proof.
  intros Hcap HA.
  destruct (lwjson_parse_same_cap lwA lwB txt res lwA' Hcap HA)
    as (lwB' & HB & H1 & H2 & H3 & H4).
  exists lwB'. repeat split; try done.
  destruct (lwjson_parse_safe lwB txt res lwB' HB) as [(_ & _ & _ & _ & Hu) _].
  intros i Hi. apply Hu. lia.
Qed.

(** A text parsed with one slot too few for it, on an array of zeroed
    slots and on the array an earlier parse has filled. *)
Lemma lwjson_parse_independent_witness :
  exists lwB',
    lwjson_parse (tree_of 3 "[1,2,3]") (Some (json "[[5,6],7]")) = Some (lwjsonERRMEM, lwB')
    /\ next_free_token_pos lwB' = next_free_token_pos (tree_of 3 "[[5,6],7]")
    /\ first_token lwB' = first_token (tree_of 3 "[[5,6],7]")
    /\ flags_parsed lwB' = flags_parsed (tree_of 3 "[[5,6],7]")
    /\ (forall i, i < next_free_token_pos (tree_of 3 "[[5,6],7]") ->
          tokens lwB' !! i = tokens (tree_of 3 "[[5,6],7]") !! i)
    /\ (forall i, next_free_token_pos (tree_of 3 "[[5,6],7]") <= i ->
          tokens lwB' !! i = tokens (tree_of 3 "[1,2,3]") !! i).
Proof.
  apply (lwjson_parse_independent (arena 3) (tree_of 3 "[1,2,3]") (json "[[5,6],7]")
           lwjsonERRMEM (tree_of 3 "[[5,6],7]")).
  - vm_compute. reflexivity.
  - vm_compute. reflexivity.
Defined.

(** Parsing the same text again into the instance a parse has left gives
    the same status and leaves the instance exactly as it is: no reset is
    needed in between. *)
Theorem lwjson_parse_again {real : Type} {RT : RealType real}
    (lw : lwjson_t real) (txt : text) (res : lwjsonr_t) (lw' : lwjson_t real) :
  lwjson_parse lw (Some txt) = Some (res, lw') ->
  lwjson_parse lw' (Some txt) = Some (res, lw').
Proof.
  intros H.
  destruct (lwjson_parse_safe lw txt res lw' H) as [(_ & _ & _ & Hlen & Hu) _].
  destruct (lwjson_parse_same_cap lw lw' txt res lw' (eq_sym Hlen) H)
    as (lw'' & H' & H1 & H2 & H3 & H4).
  destruct (lwjson_parse_safe lw' txt res lw'' H') as [(_ & _ & _ & Hlen' & Hu') _].
  rewrite H'. f_equal. f_equal.
  destruct lw'' as [tk n ft fl], lw' as [tk' n' ft' fl']. simpl in *. subst.
  f_equal. apply list_eq. intros i.
  destruct (decide (i < n')) as [Hi|Hi]; [by apply H4 |]. apply Hu'. lia.
Qed.

(** The scenario document, parsed twice. *)
Lemma lwjson_parse_again_witness :
  lwjson_parse (tree_of 10 scenario) (Some (json scenario))
  = Some (lwjsonOK, tree_of 10 scenario).
Proof.
  apply (lwjson_parse_again (arena 10) (json scenario) lwjsonOK (tree_of 10 scenario)).
  vm_compute. reflexivity.
Defined.

(** ** The tokens of a parse can be read *)

(** Whatever the status of a parse, every allocated token and the root
    are well formed.  The union holds the member the type selects, so the
    accessors return what the parser stored: a string token has no payload
    yet or a payload that is a readable slice of the text, which
    [lwjson_get_val_string] returns; an integer or real token holds the
    number [lwjson_get_val_int] or [lwjson_get_val_real] returns; a
    container holds its first child or none; the other types hold
    nothing.  The name is absent with length zero, or a readable slice of
    the text. *)
Theorem lwjson_parse_tokens_ok {real : Type} {RT : RealType real}
    (lw : lwjson_t real) (txt : text) (res : lwjsonr_t) (lw' : lwjson_t real)
    (r : tokref) :
  lwjson_parse lw (Some txt) = Some (res, lw') ->
  valid_ref (next_free_token_pos lw') r ->
  name_ok txt (get_token lw' r)
  /\ match type (get_token lw' r) with
     | LWJSON_TYPE_STRING =>
         (u (get_token lw' r) = U_zero
          /\ lwjson_get_val_string lw' (Some r) = Some (None, 0))
         \/ exists v l, u (get_token lw' r) = U_str v l
              /\ lwjson_get_val_string lw' (Some r) = Some (Some v, l)
              /\ slice_ok txt v l
     | LWJSON_TYPE_NUM_INT =>
         u (get_token lw' r) = U_num_int (lwjson_get_val_int lw' (Some r))
     | LWJSON_TYPE_NUM_REAL =>
         u (get_token lw' r) = U_num_real (lwjson_get_val_real lw' (Some r))
     | LWJSON_TYPE_OBJECT | LWJSON_TYPE_ARRAY =>
         u (get_token lw' r) = U_zero
         \/ exists c, u (get_token lw' r) = U_first_child c
              /\ valid_ref (next_free_token_pos lw') c
     | _ => u (get_token lw' r) = U_zero
     end.
Proof.
  intros H Hr.
  destruct (lwjson_parse_safe lw txt res lw' H) as [(Hc & Hok & _) _].
  destruct (Hok r Hr) as [Hnm Hpl]. split; [exact Hnm |].
  pose proof (closed_first_child lw' r) as Hfc.
  unfold lwjson_get_val_string, lwjson_get_val_int, lwjson_get_val_real.
  unfold payload_ok in Hpl. unfold u_first_child in Hfc.
  destruct (u (get_token lw' r)) as [|v l|x|z|c];
    destruct (type (get_token lw' r)); try done; cbn;
    rewrite ?decide_True by done; eauto;
    try (right; eexists; split; [reflexivity | by apply Hfc]).
  right. by exists v, l.
Qed.

(** The string token of a small document. *)
Lemma lwjson_parse_tokens_ok_witness :
  name_ok (json "{'k':'abc'}") (get_token (tree_of 2 "{'k':'abc'}") (Tok 0))
  /\ match type (get_token (tree_of 2 "{'k':'abc'}") (Tok 0)) with
     | LWJSON_TYPE_STRING =>
         (u (get_token (tree_of 2 "{'k':'abc'}") (Tok 0)) = U_zero
          /\ lwjson_get_val_string (tree_of 2 "{'k':'abc'}") (Some (Tok 0))
             = Some (None, 0))
         \/ exists v l, u (get_token (tree_of 2 "{'k':'abc'}") (Tok 0)) = U_str v l
              /\ lwjson_get_val_string (tree_of 2 "{'k':'abc'}") (Some (Tok 0))
                 = Some (Some v, l)
              /\ slice_ok (json "{'k':'abc'}") v l
     | LWJSON_TYPE_NUM_INT =>
         u (get_token (tree_of 2 "{'k':'abc'}") (Tok 0))
         = U_num_int (lwjson_get_val_int (tree_of 2 "{'k':'abc'}") (Some (Tok 0)))
     | LWJSON_TYPE_NUM_REAL =>
         u (get_token (tree_of 2 "{'k':'abc'}") (Tok 0))
         = U_num_real (lwjson_get_val_real (tree_of 2 "{'k':'abc'}") (Some (Tok 0)))
     | LWJSON_TYPE_OBJECT | LWJSON_TYPE_ARRAY =>
         u (get_token (tree_of 2 "{'k':'abc'}") (Tok 0)) = U_zero
         \/ exists c, u (get_token (tree_of 2 "{'k':'abc'}") (Tok 0)) = U_first_child c
              /\ valid_ref (next_free_token_pos (tree_of 2 "{'k':'abc'}")) c
     | _ => u (get_token (tree_of 2 "{'k':'abc'}") (Tok 0)) = U_zero
     end.
Proof.
  apply (lwjson_parse_tokens_ok (arena 2) (json "{'k':'abc'}") lwjsonOK
           (tree_of 2 "{'k':'abc'}") (Tok 0)).
  - vm_compute. reflexivity.
  - vm_compute. lia.
Defined.

(** Whatever the status of a parse, the array keeps its size, the cursor
    stays within it, so that at most one token more than the array has
    slots is in use (the root), and the links of every allocated token and
    of the root refer to the root or to allocated tokens. *)
Theorem lwjson_parse_in_arena {real : Type} {RT : RealType real}
    (lw : lwjson_t real) (txt : text) (res : lwjsonr_t) (lw' : lwjson_t real) :
  lwjson_parse lw (Some txt) = Some (res, lw') ->
  tokens_len lw' = tokens_len lw
  /\ next_free_token_pos lw' <= tokens_len lw
  /\ lwjson_get_tokens_used lw' <= tokens_len lw + 1
  /\ forall r, valid_ref (next_free_token_pos lw') r ->
       valid_opt (next_free_token_pos lw') (next (get_token lw' r))
       /\ valid_opt (next_free_token_pos lw') (u_first_child (get_token lw' r)).
Proof.
  intros H.
  destruct (lwjson_parse_safe lw txt res lw' H) as [([Hn Hc] & _ & _ & Hlen & _) _].
  unfold lwjson_get_tokens_used. rewrite <- Hlen. repeat split; try done; try lia;
    by apply Hc.
Qed.

(** A document cut short by a full array. *)
Lemma lwjson_parse_in_arena_witness :
  tokens_len (tree_of 2 "[[1,2],3]") = tokens_len (arena (real := float) 2)
  /\ next_free_token_pos (tree_of 2 "[[1,2],3]") <= tokens_len (arena (real := float) 2)
  /\ lwjson_get_tokens_used (tree_of 2 "[[1,2],3]")
     <= tokens_len (arena (real := float) 2) + 1
  /\ forall r, valid_ref (next_free_token_pos (tree_of 2 "[[1,2],3]")) r ->
       valid_opt (next_free_token_pos (tree_of 2 "[[1,2],3]"))
         (next (get_token (tree_of 2 "[[1,2],3]") r))
       /\ valid_opt (next_free_token_pos (tree_of 2 "[[1,2],3]"))
            (u_first_child (get_token (tree_of 2 "[[1,2],3]") r)).
Proof.
  apply (lwjson_parse_in_arena (arena 2) (json "[[1,2],3]") lwjsonERRMEM
           (tree_of 2 "[[1,2],3]")).
  vm_compute. reflexivity.
Defined.

(** A parse returns [lwjsonOK] only for a text whose first character
    after the blanks is an opening brace or bracket, and the root is then
    an object or an array accordingly. *)
Theorem lwjson_parse_root_type {real : Type} {RT : RealType real}
    (lw : lwjson_t real) (txt : text) (lw' : lwjson_t real) :
  lwjson_parse lw (Some txt) = Some (lwjsonOK, lw') ->
  (type (first_token lw') = LWJSON_TYPE_OBJECT
   /\ peek txt (prv_skip_blank txt 0).2 = "{"%char)
  \/ (type (first_token lw') = LWJSON_TYPE_ARRAY
      /\ peek txt (prv_skip_blank txt 0).2 = "["%char).
Proof.
  intros H. destruct (lwjson_parse_safe lw txt lwjsonOK lw' H) as [_ Hroot].
  by apply Hroot.
Qed.

Lemma lwjson_parse_root_type_witness :
  (type (first_token (tree_of 2 " [1]")) = LWJSON_TYPE_OBJECT
   /\ peek (json " [1]") (prv_skip_blank (json " [1]") 0).2 = "{"%char)
  \/ (type (first_token (tree_of 2 " [1]")) = LWJSON_TYPE_ARRAY
      /\ peek (json " [1]") (prv_skip_blank (json " [1]") 0).2 = "["%char).
Proof.
  apply (lwjson_parse_root_type (arena 2) (json " [1]") (tree_of 2 " [1]")).
  vm_compute. reflexivity.
Defined.

(** ** Scanning and building a well-formed document *)

Section Induction.
Context {real : Type}.

Lemma jvalue_ind' (P : jvalue -> Prop) :
  (forall s, P (JString s)) -> (forall lit, P (JNumber lit)) ->
  P JTrue -> P JFalse -> P JNull ->
  (forall ty items inner, Forall (fun it => P it.2) items -> P (JContainer ty items inner)) ->
  forall v, P v.
Proof.
  intros Hs Hn Ht Hf Hnull Hc.
  fix IH 1. intros [s|lit| | | |ty items inner];
    [apply Hs | apply Hn | apply Ht | apply Hf | apply Hnull |].
  apply Hc. induction items as [|[l v] items IHl]; constructor; [apply IH | exact IHl].
Qed.

Lemma rtree_ind' (P : rtree real -> Prop) :
  (forall name ty val cs, Forall P cs -> P (RNode name ty val cs)) ->
  forall t, P t.
Proof.
  intros Hc. fix IH 1. intros [name ty val cs]. apply Hc.
  induction cs as [|c cs IHl]; constructor; [apply IH | exact IHl].
Qed.

End Induction.

Section TextLemmas.

Lemma drop_after (txt : text) p (a b : text) :
  drop p txt = a ++ b -> drop (p + length a) txt = b.
Proof.
  intros H. rewrite <- drop_drop, H. by rewrite drop_app_length.
Qed.

Lemma drop_to (txt : text) p q (a b : text) :
  drop p txt = a ++ b -> q = p + length a -> drop q txt = b.
Proof. intros H ->. by eapply drop_after. Qed.

Lemma peek_at (txt : text) p (l : text) k : drop p txt = l -> peek txt (p + k) = peek l k.
Proof. intros <-. by rewrite peek_drop. Qed.

Lemma peek_at0 (txt : text) p c (l : text) : drop p txt = c :: l -> peek txt p = c.
Proof. intros H. rewrite <- (Nat.add_0_r p). by rewrite (peek_at _ _ _ 0 H). Qed.

Lemma peek_app_r (a b : text) k : peek (a ++ b) (length a + k) = peek b k.
Proof.
  unfold peek. change text with (list ascii) in *.
  rewrite lookup_app_r by lia. by rewrite Nat.add_comm, Nat.add_sub.
Qed.

Lemma peek_app_l (a b : text) k : k < length a -> peek (a ++ b) k = peek a k.
Proof.
  intros H. unfold peek. change text with (list ascii) in *. by rewrite lookup_app_l.
Qed.

Lemma all_blank_app (a b : text) : all_blank (a ++ b) = all_blank a && all_blank b.
Proof. apply forallb_app. Qed.

Lemma blank_run_app (ws : text) c (rest : text) :
  all_blank ws = true -> is_blank c = false ->
  blank_run (ws ++ c :: rest) = length ws.
Proof.
  intros Hws Hc. induction ws as [|w ws IH]; simpl in *.
  - by rewrite Hc.
  - apply andb_true_iff in Hws as [-> Hws]. by rewrite IH.
Qed.

(** Blanks followed by a character that is neither blank nor the
    terminator are passed. *)
Lemma skip_at (txt : text) p (ws : text) c (rest : text) :
  drop p txt = ws ++ c :: rest ->
  all_blank ws = true -> is_blank c = false -> is_nul c = false ->
  prv_skip_blank txt p = (lwjsonOK, p + length ws).
Proof.
  intros Hd Hws Hb Hn. unfold prv_skip_blank. rewrite Hd, blank_run_app by done.
  rewrite (peek_at _ _ _ _ Hd). replace (length ws) with (length ws + 0) at 1 by lia.
  rewrite peek_app_r. simpl. change (peek (c :: rest) 0) with c. by rewrite Hn.
Qed.

Lemma skip_here (txt : text) p c (rest : text) :
  drop p txt = c :: rest -> is_blank c = false -> is_nul c = false ->
  prv_skip_blank txt p = (lwjsonOK, p).
Proof.
  intros Hd Hb Hn. rewrite (skip_at txt p [] c rest Hd eq_refl Hb Hn). simpl.
  by rewrite Nat.add_0_r.
Qed.

(** The string scan looks at the payload and its closing quote only. *)
Lemma string_run_app prev (s r1 r2 : text) :
  string_run prev (s ++ dq :: r1) = Some (length s) ->
  string_run prev (s ++ dq :: r2) = Some (length s).
Proof.
  revert prev. induction s as [|c s IH]; intros prev; cbn [app string_run length].
  - change (is_nul dq) with false. cbn [Ascii.eqb]. rewrite Ascii.eqb_refl. cbn [andb].
    destruct (negb (Ascii.eqb prev backslash)); [done |].
    destruct (string_run dq r1); done.
  - destruct (is_nul c); [done |].
    destruct (Ascii.eqb c dq && negb (Ascii.eqb prev backslash)); [done |].
    specialize (IH c). destruct (string_run c (s ++ dq :: r1)) as [n|]; [| done].
    intros [= ->]. by rewrite IH.
Qed.

Lemma str_ok_run (s rest : text) :
  str_ok s = true -> string_run NUL (s ++ dq :: rest) = Some (length s).
Proof.
  intros H. apply bool_decide_eq_true in H. by apply (string_run_app NUL s []).
Qed.

End TextLemmas.

Section NumberLocal.
Context {real : Type} {RT : RealType real}.

Lemma skip_noop (txt : text) p :
  is_blank (peek txt p) = false -> is_nul (peek txt p) = false ->
  prv_skip_blank txt p = (lwjsonOK, p).
Proof.
  intros Hb Hn. destruct (drop p txt) as [|c rest] eqn:Hd.
  - rewrite <- (Nat.add_0_r p) in Hn. rewrite (peek_at _ _ _ 0 Hd) in Hn. done.
  - pose proof (peek_at0 _ _ _ _ Hd) as Hc. rewrite Hc in *. by eapply skip_here.
Qed.

Lemma is_digit_not_blank (c : ascii) : is_digit c = true -> is_blank c = false.
Proof. destruct c as [[] [] [] [] [] [] [] []]; vm_compute; done. Qed.

Lemma stopper_not_digit c : stopper c = true -> is_digit c = false.
Proof. unfold stopper. destruct (is_digit c); [done | done]. Qed.

Lemma agree_pos txt1 p1 txt2 p2 L j :
  agree txt1 p1 txt2 p2 L -> j <= L ->
  (j < L /\ peek txt1 (p1 + j) = peek txt2 (p2 + j))
  \/ (j = L /\ stopper (peek txt1 (p1 + j)) = true
      /\ stopper (peek txt2 (p2 + j)) = true).
Proof.
  intros (Ha & Hs1 & Hs2) Hj. destruct (decide (j < L)) as [Hlt|Hge].
  - left. split; [done |]. by apply Ha.
  - right. assert (j = L) as -> by lia. done.
Qed.

Lemma digits_real_stop (a : real) (l : text) :
  is_digit (peek l 0) = false -> digits_real a l = (a, 0).
Proof. destruct l as [|c l]; [done |]. simpl. change (peek (c :: l) 0) with c. by intros ->. Qed.

Lemma frac_digits_stop (e dn : real) (l : text) :
  is_digit (peek l 0) = false -> frac_digits e dn l = (e, dn, 0).
Proof. destruct l as [|c l]; [done |]. simpl. change (peek (c :: l) 0) with c. by intros ->. Qed.

Lemma digits_int_stop (z : Z) (l : text) :
  is_digit (peek l 0) = false -> digits_int z l = (z, 0).
Proof. destruct l as [|c l]; [done |]. simpl. change (peek (c :: l) 0) with c. by intros ->. Qed.

Lemma digit_head (l : text) :
  is_digit (peek l 0) = true -> exists l', l = peek l 0 :: l'.
Proof. destruct l as [|c l]; [done |]. intros _. by exists l. Qed.

Lemma digits_real_peek m (a : real) (l1 l2 : text) :
  (forall i, i < m -> peek l1 i = peek l2 i) ->
  is_digit (peek l1 m) = false -> is_digit (peek l2 m) = false ->
  digits_real a l1 = digits_real a l2 /\ (digits_real a l1).2 <= m.
Proof.
  revert a l1 l2. induction m as [|m IH]; intros a l1 l2 Heq H1 H2.
  - rewrite !digits_real_stop by done. simpl. split; [done | lia].
  - destruct (is_digit (peek l1 0)) eqn:Hd.
    + pose proof (Heq 0 ltac:(lia)) as H0.
      destruct (digit_head l1 Hd) as [l1' E1].
      rewrite H0 in Hd. destruct (digit_head l2 Hd) as [l2' E2].
      rewrite E1, E2. cbn [digits_real]. rewrite <- H0 in Hd. rewrite <- H0, Hd.
      destruct (IH (real_add (real_mul a real_ten) (real_of_int (digit_val (peek l1 0))))
                  l1' l2') as [IH1 IH2].
      * intros i Hi. specialize (Heq (S i) ltac:(lia)). by rewrite E1, E2 in Heq.
      * by rewrite E1 in H1.
      * by rewrite E2 in H2.
      * rewrite <- IH1. destruct (digits_real _ l1') as [n k]. simpl in *. split; [done | lia].
    + rewrite (digits_real_stop a l1) by done.
      rewrite (digits_real_stop a l2); [simpl; split; [done | lia] |].
      destruct m; [| by rewrite <- (Heq 0) by lia]. by rewrite <- (Heq 0) by lia.
Qed.

Lemma frac_digits_peek m (e dn : real) (l1 l2 : text) :
  (forall i, i < m -> peek l1 i = peek l2 i) ->
  is_digit (peek l1 m) = false -> is_digit (peek l2 m) = false ->
  frac_digits e dn l1 = frac_digits e dn l2 /\ (frac_digits e dn l1).2 <= m.
Proof.
  revert e dn l1 l2. induction m as [|m IH]; intros e dn l1 l2 Heq H1 H2.
  - rewrite !frac_digits_stop by done. simpl. split; [done | lia].
  - destruct (is_digit (peek l1 0)) eqn:Hd.
    + pose proof (Heq 0 ltac:(lia)) as H0.
      destruct (digit_head l1 Hd) as [l1' E1].
      rewrite H0 in Hd. destruct (digit_head l2 Hd) as [l2' E2].
      rewrite E1, E2. cbn [frac_digits]. rewrite <- H0 in Hd. rewrite <- H0, Hd.
      destruct (IH (real_mul e real_ten)
                  (real_add (real_mul dn real_ten) (real_of_int (digit_val (peek l1 0))))
                  l1' l2') as [IH1 IH2].
      * intros i Hi. specialize (Heq (S i) ltac:(lia)). by rewrite E1, E2 in Heq.
      * by rewrite E1 in H1.
      * by rewrite E2 in H2.
      * rewrite <- IH1. destruct (frac_digits _ _ l1') as [[e' d'] k]. simpl in *.
        split; [done | lia].
    + rewrite (frac_digits_stop e dn l1) by done.
      rewrite (frac_digits_stop e dn l2); [simpl; split; [done | lia] |].
      by rewrite <- (Heq 0) by lia.
Qed.

Lemma digits_int_peek m (z : Z) (l1 l2 : text) :
  (forall i, i < m -> peek l1 i = peek l2 i) ->
  is_digit (peek l1 m) = false -> is_digit (peek l2 m) = false ->
  digits_int z l1 = digits_int z l2 /\ (digits_int z l1).2 <= m.
Proof.
  revert z l1 l2. induction m as [|m IH]; intros z l1 l2 Heq H1 H2.
  - rewrite !digits_int_stop by done. simpl. split; [done | lia].
  - destruct (is_digit (peek l1 0)) eqn:Hd.
    + pose proof (Heq 0 ltac:(lia)) as H0.
      destruct (digit_head l1 Hd) as [l1' E1].
      rewrite H0 in Hd. destruct (digit_head l2 Hd) as [l2' E2].
      rewrite E1, E2. cbn [digits_int]. rewrite <- H0 in Hd. rewrite <- H0, Hd.
      destruct (IH (z * 10 + digit_val (peek l1 0))%Z l1' l2') as [IH1 IH2].
      * intros i Hi. specialize (Heq (S i) ltac:(lia)). by rewrite E1, E2 in Heq.
      * by rewrite E1 in H1.
      * by rewrite E2 in H2.
      * rewrite <- IH1. destruct (digits_int _ l1') as [n k]. simpl in *. split; [done | lia].
    + rewrite (digits_int_stop z l1) by done.
      rewrite (digits_int_stop z l2); [simpl; split; [done | lia] |].
      by rewrite <- (Heq 0) by lia.
Qed.

Lemma agree_drop txt1 p1 txt2 p2 L j :
  agree txt1 p1 txt2 p2 L -> j <= L ->
  (forall i, i < L - j -> peek (drop (p1 + j) txt1) i = peek (drop (p2 + j) txt2) i)
  /\ is_digit (peek (drop (p1 + j) txt1) (L - j)) = false
  /\ is_digit (peek (drop (p2 + j) txt2) (L - j)) = false.
Proof.
  intros (Ha & Hs1 & Hs2) Hj. split; [| split].
  - intros i Hi. rewrite !peek_drop, <- !Nat.add_assoc. apply Ha. lia.
  - rewrite peek_drop. replace (p1 + j + (L - j)) with (p1 + L) by lia.
    by apply stopper_not_digit.
  - rewrite peek_drop. replace (p2 + j + (L - j)) with (p2 + L) by lia.
    by apply stopper_not_digit.
Qed.

Lemma stopper_chars c :
  stopper c = true ->
  is_digit c = false /\ Ascii.eqb c "." = false /\ Ascii.eqb c "e" = false
  /\ Ascii.eqb c "E" = false /\ Ascii.eqb c "-" = false /\ Ascii.eqb c "+" = false.
Proof.
  unfold stopper, is_char. intros H.
  repeat (apply andb_true_iff in H as [H ?]). repeat split; by apply negb_true_iff.
Qed.

Lemma fraction_agree txt1 p1 txt2 p2 L j (num : real) :
  agree txt1 p1 txt2 p2 L -> j <= L ->
  match number_fraction txt1 num (p1 + j), number_fraction txt2 num (p2 + j) with
  | Some (t1, n1, s1), Some (t2, n2, s2) =>
      t1 = t2 /\ n1 = n2 /\ exists j', j' <= L /\ s1 = p1 + j' /\ s2 = p2 + j'
  | None, None => True
  | _, _ => False
  end.
Proof.
  intros Hag Hj. unfold number_fraction. cbv zeta.
  destruct (agree_pos _ _ _ _ _ j Hag Hj) as [[Hlt Heq]|(-> & Hs1 & Hs2)].
  2:{ apply stopper_chars in Hs1 as (_ & -> & _). apply stopper_chars in Hs2 as (_ & -> & _).
      split; [done |]. split; [done |]. by exists L. }
  rewrite <- Heq. destruct (Ascii.eqb (peek txt1 (p1 + j)) ".").
  2:{ split; [done |]. split; [done |]. exists j. split; [lia | done]. }
  assert (Hd : is_digit (peek txt1 (S (p1 + j))) = is_digit (peek txt2 (S (p2 + j)))).
  { rewrite <- !Nat.add_succ_r.
    destruct (agree_pos _ _ _ _ _ (S j) Hag ltac:(lia)) as [[_ ->]|(_ & Hs1 & Hs2)]; [done |].
    apply stopper_not_digit in Hs1, Hs2. congruence. }
  rewrite <- Hd. destruct (is_digit (peek txt1 (S (p1 + j)))); cbn [negb]; [| done].
  destruct (agree_drop _ _ _ _ _ (S j) Hag ltac:(lia)) as (Ha & Hb & Hc).
  destruct (frac_digits_peek (L - S j) (real_of_int 1) (real_of_int 0) _ _ Ha Hb Hc)
    as [He Hle].
  rewrite <- !Nat.add_succ_r. rewrite <- He.
  destruct (frac_digits _ _ (drop (p1 + S j) txt1)) as [[e dn] k]. cbn [snd] in Hle.
  split; [done |]. split; [done |]. exists (S j + k). split; [lia |]. lia.
Qed.

Lemma exponent_agree txt1 p1 txt2 p2 L j ty (num : real) :
  agree txt1 p1 txt2 p2 L -> j <= L ->
  match number_exponent txt1 ty num (p1 + j), number_exponent txt2 ty num (p2 + j) with
  | Some (t1, n1, s1), Some (t2, n2, s2) =>
      t1 = t2 /\ n1 = n2 /\ exists j', j' <= L /\ s1 = p1 + j' /\ s2 = p2 + j'
  | None, None => True
  | _, _ => False
  end.
Proof.
  intros Hag Hj. unfold number_exponent. cbv zeta.
  destruct (agree_pos _ _ _ _ _ j Hag Hj) as [[Hlt Heq]|(-> & Hs1 & Hs2)].
  2:{ apply stopper_chars in Hs1 as (_ & _ & -> & -> & _).
      apply stopper_chars in Hs2 as (_ & _ & -> & -> & _).
      split; [done |]. split; [done |]. by exists L. }
  rewrite <- Heq.
  destruct (Ascii.eqb (peek txt1 (p1 + j)) "e" || Ascii.eqb (peek txt1 (p1 + j)) "E").
  2:{ split; [done |]. split; [done |]. exists j. split; [lia | done]. }
  rewrite <- !Nat.add_succ_r.
  assert (Hm : Ascii.eqb (peek txt1 (p1 + S j)) "-" = Ascii.eqb (peek txt2 (p2 + S j)) "-").
  { destruct (agree_pos _ _ _ _ _ (S j) Hag ltac:(lia)) as [[_ ->]|(_ & Hs1 & Hs2)]; [done |].
    apply stopper_chars in Hs1 as (_ & _ & _ & _ & -> & _).
    by apply stopper_chars in Hs2 as (_ & _ & _ & _ & -> & _). }
  rewrite <- Hm.
  assert (Hj1 : exists j1, j1 <= L /\ S j <= j1
            /\ (if Ascii.eqb (peek txt1 (p1 + S j)) "-" then p1 + S (S j) else p1 + S j)
               = p1 + j1
            /\ (if Ascii.eqb (peek txt1 (p1 + S j)) "-" then p2 + S (S j) else p2 + S j)
               = p2 + j1).
  { destruct (Ascii.eqb (peek txt1 (p1 + S j)) "-") eqn:Hc.
    - exists (S (S j)). split; [| split; [lia | split; lia]].
      destruct (agree_pos _ _ _ _ _ (S j) Hag ltac:(lia)) as [[? _]|(_ & Hs1 & _)]; [lia |].
      apply stopper_chars in Hs1 as (_ & _ & _ & _ & Hs1 & _). congruence.
    - exists (S j). split; [lia |]. done. }
  destruct Hj1 as (j1 & Hj1 & Hj1' & -> & ->).
  assert (Hp : Ascii.eqb (peek txt1 (p1 + j1)) "+" = Ascii.eqb (peek txt2 (p2 + j1)) "+").
  { destruct (agree_pos _ _ _ _ _ j1 Hag Hj1) as [[_ ->]|(_ & Hs1 & Hs2)]; [done |].
    apply stopper_chars in Hs1 as (_ & _ & _ & _ & _ & ->).
    by apply stopper_chars in Hs2 as (_ & _ & _ & _ & _ & ->). }
  rewrite <- Hp.
  assert (Hj2 : exists j2, j2 <= L
            /\ (if Ascii.eqb (peek txt1 (p1 + j1)) "+" then S (p1 + j1) else p1 + j1)
               = p1 + j2
            /\ (if Ascii.eqb (peek txt1 (p1 + j1)) "+" then S (p2 + j1) else p2 + j1)
               = p2 + j2).
  { destruct (Ascii.eqb (peek txt1 (p1 + j1)) "+") eqn:Hc.
    - exists (S j1). split; [| split; lia].
      destruct (agree_pos _ _ _ _ _ j1 Hag Hj1) as [[? _]|(_ & Hs1 & _)]; [lia |].
      apply stopper_chars in Hs1 as (_ & _ & _ & _ & _ & Hs1). congruence.
    - exists j1. done. }
  destruct Hj2 as (j2 & Hj2 & -> & ->).
  assert (Hd : is_digit (peek txt1 (p1 + j2)) = is_digit (peek txt2 (p2 + j2))).
  { destruct (agree_pos _ _ _ _ _ j2 Hag Hj2) as [[_ ->]|(_ & Hs1 & Hs2)]; [done |].
    apply stopper_not_digit in Hs1, Hs2. congruence. }
  rewrite <- Hd. destruct (is_digit (peek txt1 (p1 + j2))); cbn [negb]; [| done].
  destruct (agree_drop _ _ _ _ _ j2 Hag Hj2) as (Ha & Hb & Hc).
  destruct (digits_int_peek (L - j2) 0 _ _ Ha Hb Hc) as [He Hle].
  rewrite <- He. destruct (digits_int 0 (drop (p1 + j2) txt1)) as [e k]. cbn [snd] in Hle.
  split; [done |]. split; [done |]. exists (j2 + k). split; [lia |]. lia.
Qed.

Lemma number_check (c c1 : ascii) :
  is_nul c || (nat_of_ascii c <? 48) || (57 <? nat_of_ascii c)
  || ((nat_of_ascii c =? 48) && ((nat_of_ascii c1 <? 48) && (57 <? nat_of_ascii c1)))
  = negb (is_digit c).
Proof.
  unfold is_digit.
  destruct (Nat.ltb_spec (nat_of_ascii c1) 48), (Nat.ltb_spec 57 (nat_of_ascii c1));
    try lia; rewrite ?andb_false_r, ?orb_false_r;
    destruct (is_nul c) eqn:Hn; cbn [orb];
    try (apply Ascii.eqb_eq in Hn; subst c; reflexivity);
    destruct (Nat.ltb_spec (nat_of_ascii c) 48), (Nat.ltb_spec 57 (nat_of_ascii c)),
      (Nat.leb_spec 48 (nat_of_ascii c)), (Nat.leb_spec (nat_of_ascii c) 57);
    try lia; reflexivity.
Qed.

(** The number scan gives the same type, payload and extent wherever the
    same characters, followed by a character that stops it, are read. *)
Lemma number_agree txt1 p1 txt2 p2 L :
  agree txt1 p1 txt2 p2 L ->
  is_char (peek txt1 p1) "-" || is_digit (peek txt1 p1) = true ->
  match prv_parse_number txt1 p1, prv_parse_number txt2 p2 with
  | NumOk t1 v1 s1, NumOk t2 v2 s2 =>
      t1 = t2 /\ v1 = v2 /\ exists j, j <= L /\ s1 = p1 + j /\ s2 = p2 + j
  | NumErr _, NumErr _ => True
  | _, _ => False
  end.
Proof.
  intros Hag Hfirst.
  assert (H0 : 0 < L /\ peek txt1 p1 = peek txt2 p2).
  { destruct (agree_pos _ _ _ _ _ 0 Hag ltac:(lia)) as [[? H]|(_ & Hs1 & _)].
    - by rewrite !Nat.add_0_r in H.
    - rewrite Nat.add_0_r in Hs1. apply stopper_chars in Hs1 as (Hd & _ & _ & _ & Hm & _).
      unfold is_char in Hfirst. rewrite Hd, Hm in Hfirst. done. }
  destruct H0 as [HL Hc0].
  assert (Hnb : is_blank (peek txt1 p1) = false /\ is_nul (peek txt1 p1) = false).
  { apply orb_true_iff in Hfirst as [H|H].
    - apply Ascii.eqb_eq in H. by rewrite H.
    - split; [by apply is_digit_not_blank | by apply is_digit_not_nul]. }
  destruct Hnb as [Hb Hn].
  unfold prv_parse_number.
  rewrite (skip_noop txt1 p1 Hb Hn), (skip_noop txt2 p2) by by rewrite <- Hc0.
  rewrite <- Hc0, Hn.
  assert (Hs : exists j0, j0 <= L
            /\ (if Ascii.eqb (peek txt1 p1) "-" then S p1 else p1) = p1 + j0
            /\ (if Ascii.eqb (peek txt1 p1) "-" then S p2 else p2) = p2 + j0).
  { destruct (Ascii.eqb (peek txt1 p1) "-"); [exists 1 | exists 0]; split; lia. }
  destruct Hs as (j0 & Hj0 & -> & ->).
  rewrite !number_check.
  assert (Hd : is_digit (peek txt1 (p1 + j0)) = is_digit (peek txt2 (p2 + j0))).
  { destruct (agree_pos _ _ _ _ _ j0 Hag Hj0) as [[_ ->]|(_ & Hs1 & Hs2)]; [done |].
    apply stopper_not_digit in Hs1, Hs2. congruence. }
  rewrite <- Hd. destruct (is_digit (peek txt1 (p1 + j0))); cbn [negb]; [| done].
  destruct (agree_drop _ _ _ _ _ j0 Hag Hj0) as (Ha & Hb' & Hc).
  destruct (digits_real_peek (L - j0) (real_of_int 0) _ _ Ha Hb' Hc) as [He Hle].
  rewrite <- He. destruct (digits_real (real_of_int 0) (drop (p1 + j0) txt1)) as [num k].
  cbn [snd] in Hle. rewrite <- !Nat.add_assoc.
  pose proof (fraction_agree txt1 p1 txt2 p2 L (j0 + k) num Hag ltac:(lia)) as Hf.
  destruct (number_fraction txt1 num (p1 + (j0 + k))) as [[[t1 n1] s1]|],
           (number_fraction txt2 num (p2 + (j0 + k))) as [[[t2 n2] s2]|]; try done.
  destruct Hf as (<- & <- & j1 & Hj1 & -> & ->).
  pose proof (exponent_agree txt1 p1 txt2 p2 L j1 t1 n1 Hag Hj1) as Hx.
  destruct (number_exponent txt1 t1 n1 (p1 + j1)) as [[[t1' n1'] s1']|],
           (number_exponent txt2 t1 n1 (p2 + j1)) as [[[t2' n2'] s2']|]; try done.
  destruct Hx as (<- & <- & j2 & Hj2 & -> & ->).
  destruct t1'; (split; [done |]); (split; [done |]); by exists j2.
Qed.

End NumberLocal.

Section Forest.
Context {real : Type} {RT : RealType real}.
Implicit Types (lw : lwjson_t real) (t c : rtree real) (cs : list (rtree real)).

Lemma rk_ref k : rk (ref_of k) = k.
Proof. by destruct k. Qed.

Lemma ref_rk (r : tokref) : ref_of (rk r) = r.
Proof. by destruct r. Qed.

Lemma ref_of_inj k k' : ref_of k = ref_of k' -> k = k'.
Proof. intros H. apply (f_equal rk) in H. by rewrite !rk_ref in H. Qed.

Lemma tsize_pos t : 0 < tsize t.
Proof. destruct t. simpl. lia. Qed.

Lemma fsize_cons t cs : fsize (t :: cs) = tsize t + fsize cs.
Proof. done. Qed.

Lemma fsize_app cs cs' : fsize (cs ++ cs') = fsize cs + fsize cs'.
Proof. unfold fsize. by rewrite map_app, list_sum_app. Qed.

Lemma length_le_fsize cs : length cs <= fsize cs.
Proof.
  induction cs as [|c cs IH]; [done |]. rewrite fsize_cons. simpl.
  pose proof (tsize_pos c). lia.
Qed.

Lemma tree_at_eq txt lw k name ty val cs :
  tree_at txt lw k (RNode name ty val cs)
  <-> type (get_token lw (ref_of k)) = ty
      /\ name_of txt (get_token lw (ref_of k)) = name
      /\ payload_of txt (get_token lw (ref_of k)) = val
      /\ u_first_child (get_token lw (ref_of k))
         = match cs with [] => None | _ => Some (ref_of (S k)) end
      /\ forest_at txt lw (S k) cs None.
Proof.
  cbn [tree_at]. generalize (S k) at 2 4. intros k'.
  assert (H : forall k1,
    (fix forest (k0 : nat) (cs0 : list (rtree real)) {struct cs0} : Prop :=
       match cs0 with
       | [] => True
       | c :: cs' =>
           tree_at txt lw k0 c
           /\ next (get_token lw (ref_of k0))
              = match cs' with [] => None | _ :: _ => Some (ref_of (k0 + tsize c)) end
           /\ forest (k0 + tsize c) cs'
       end) k1 cs <-> forest_at txt lw k1 cs None).
  { induction cs as [|c cs IH]; intros k1; [done |]. cbn [forest_at]. by rewrite IH. }
  by rewrite H.
Qed.

Lemma last_rank_bounds k cs :
  cs <> [] -> k <= last_rank k cs /\ last_rank k cs < k + fsize cs.
Proof.
  revert k. induction cs as [|c cs IH]; intros k Hne; [done |].
  rewrite fsize_cons. pose proof (tsize_pos c). cbn [last_rank].
  destruct cs as [|c' cs]; [simpl; lia |].
  destruct (IH (k + tsize c) ltac:(done)). lia.
Qed.

Lemma forest_at_ext txt lw lw' cs :
  Forall (fun t => forall k,
            (forall i, k < i < k + tsize t ->
               get_token lw' (ref_of i) = get_token lw (ref_of i)) ->
            same_but_next (get_token lw' (ref_of k)) (get_token lw (ref_of k)) ->
            tree_at txt lw k t -> tree_at txt lw' k t) cs ->
  forall k o,
    (forall i, k <= i < k + fsize cs -> get_token lw' (ref_of i) = get_token lw (ref_of i)) ->
    forest_at txt lw k cs o -> forest_at txt lw' k cs o.
Proof.
  induction 1 as [|c cs Hc _ IH]; intros k o Hsame; [done |].
  rewrite fsize_cons in Hsame. pose proof (tsize_pos c). cbn [forest_at].
  intros (Ht & Hn & Hf). split; [| split].
  - apply Hc; [| | done].
    + intros i Hi. apply Hsame. lia.
    + rewrite Hsame by lia. done.
  - rewrite Hsame by lia. done.
  - apply IH; [| done]. intros i Hi. apply Hsame. lia.
Qed.

(** The tokens of a tree and nothing else decide whether it is there;
    the [next] field of its first token is not one of them. *)
Lemma tree_at_ext txt lw lw' t :
  forall k,
    (forall i, k < i < k + tsize t -> get_token lw' (ref_of i) = get_token lw (ref_of i)) ->
    same_but_next (get_token lw' (ref_of k)) (get_token lw (ref_of k)) ->
    tree_at txt lw k t -> tree_at txt lw' k t.
Proof.
  induction t as [name ty val cs IH] using rtree_ind'. intros k Hin Hroot.
  rewrite !tree_at_eq. destruct Hroot as (H1 & H2 & H3 & H4).
  unfold name_of, payload_of, u_first_child. rewrite H1, H2, H3, H4.
  intros (? & ? & ? & ? & Hf). repeat split; try done.
  eapply forest_at_ext; [exact IH | | exact Hf].
  intros i Hi. apply Hin. cbn [tsize]. fold (fsize cs). lia.
Qed.

Lemma forest_at_same txt lw lw' cs k o :
  (forall i, k <= i < k + fsize cs -> get_token lw' (ref_of i) = get_token lw (ref_of i)) ->
  forest_at txt lw k cs o -> forest_at txt lw' k cs o.
Proof.
  apply forest_at_ext. apply Forall_forall. intros t _ k'. apply tree_at_ext.
Qed.

(** Changing the [next] field of the last tree changes where the chain
    goes on. *)
Lemma forest_relink txt lw lw' cs :
  forall k o o',
    cs <> [] -> forest_at txt lw k cs o ->
    (forall i, k <= i < k + fsize cs -> i <> last_rank k cs ->
       get_token lw' (ref_of i) = get_token lw (ref_of i)) ->
    same_but_next (get_token lw' (ref_of (last_rank k cs)))
                  (get_token lw (ref_of (last_rank k cs))) ->
    next (get_token lw' (ref_of (last_rank k cs))) = o' ->
    forest_at txt lw' k cs o'.
Proof.
  induction cs as [|c cs IH]; intros k o o' Hne; [done |].
  rewrite fsize_cons. pose proof (tsize_pos c). cbn [forest_at last_rank].
  intros (Ht & Hn & Hf) Hsame Hlast Hnext. destruct cs as [|c' cs].
  - split; [| done]. eapply tree_at_ext; [| exact Hlast | exact Ht].
    intros i Hi. apply Hsame; lia.
  - destruct (last_rank_bounds (k + tsize c) (c' :: cs) ltac:(done)) as [Hlo Hhi].
    split; [| split].
    + eapply tree_at_ext; [| | exact Ht].
      * intros i Hi. apply Hsame; lia.
      * rewrite Hsame by lia. done.
    + rewrite Hsame by lia. done.
    + eapply IH; try done. intros i Hi Hne'. apply Hsame; [lia | done].
Qed.

(** One more tree at the end of the chain. *)
Lemma forest_snoc txt lw cs t :
  forall k o,
    forest_at txt lw k cs (Some (ref_of (k + fsize cs))) ->
    tree_at txt lw (k + fsize cs) t ->
    next (get_token lw (ref_of (k + fsize cs))) = o ->
    forest_at txt lw k (cs ++ [t]) o.
Proof.
  induction cs as [|c cs IH]; intros k o.
  - unfold fsize. simpl. rewrite Nat.add_0_r. done.
  - rewrite fsize_cons. cbn [forest_at app]. intros (Ht & Hn & Hf) Ht' Hn'.
    split; [done |]. split.
    + destruct cs as [|c' cs]; [| done]. cbn [app]. rewrite Hn.
      unfold fsize. simpl. by rewrite Nat.add_0_r.
    + apply IH.
      * by rewrite <- Nat.add_assoc.
      * by rewrite <- Nat.add_assoc.
      * by rewrite <- Nat.add_assoc.
Qed.

(** The walk to the last sibling ends at the last tree. *)
Lemma last_sibling_forest txt lw cs :
  forall k fuel,
    cs <> [] -> forest_at txt lw k cs None -> length cs <= S fuel ->
    last_sibling lw fuel (ref_of k) = Some (ref_of (last_rank k cs)).
Proof.
  induction cs as [|c cs IH]; intros k fuel Hne; [done |].
  cbn [forest_at last_rank length]. intros (_ & Hn & Hf) Hlen.
  destruct cs as [|c' cs].
  - destruct fuel; simpl; by rewrite Hn.
  - destruct fuel as [|fuel]; [simpl in Hlen; lia |].
    cbn [last_sibling]. rewrite Hn. apply IH; [done | done | simpl in *; lia].
Qed.

End Forest.

Section Steps.
Context {real : Type} {RT : RealType real}.
Variable txt : text.
Implicit Types (lw : lwjson_t real) (to t : tokref) (ws rest : text).

Lemma blank_facts (c : ascii) :
  is_blank c = true ->
  is_nul c = false /\ Ascii.eqb c dq = false /\ stopper c = true.
Proof. destruct c as [[] [] [] [] [] [] [] []]; vm_compute; done. Qed.

Lemma value_start_facts (c : ascii) :
  value_start c = true ->
  is_blank c = false /\ is_nul c = false /\ is_char c "," = false
  /\ Ascii.eqb c "]" = false /\ Ascii.eqb c "}" = false.
Proof. destruct c as [[] [] [] [] [] [] [] []]; vm_compute; done. Qed.

Lemma number_start_facts (c : ascii) :
  is_char c "-" || is_digit c = true ->
  value_start c = true
  /\ is_char c "{" = false /\ is_char c "[" = false /\ Ascii.eqb c dq = false
  /\ is_char c "t" = false /\ is_char c "f" = false /\ is_char c "n" = false.
Proof. destruct c as [[] [] [] [] [] [] [] []]; vm_compute; done. Qed.

Lemma follow_facts (c : ascii) :
  c = ","%char \/ c = "]"%char \/ c = "}"%char ->
  is_blank c = false /\ is_nul c = false /\ Ascii.eqb c dq = false /\ stopper c = true
  /\ (negb (is_char c ",") && negb (is_char c "]") && negb (is_char c "}")) = false.
Proof. intros [->|[->| ->]]; vm_compute; done. Qed.

Lemma close_delim_facts (ty : lwjson_type_t) :
  close_delim ty = "]"%char \/ close_delim ty = "}"%char.
Proof. unfold close_delim. case_decide; auto. Qed.

Lemma head_not_nul p ws c rest :
  drop p txt = ws ++ c :: rest -> all_blank ws = true -> is_nul c = false ->
  is_nul (peek txt p) = false.
Proof.
  intros Hd Hws Hc. rewrite <- (Nat.add_0_r p), (peek_at _ _ _ 0 Hd).
  destruct ws as [|w ws]; [done |]. simpl in Hws. apply andb_true_iff in Hws as [Hw _].
  by apply blank_facts in Hw as [? _].
Qed.

(** The three ways an iteration that is not the first one goes. *)
Lemma iter_comma lw p to ws rest :
  drop p txt = ws ++ ","%char :: rest -> all_blank ws = true ->
  parse_iter txt (mk_pstate lw p to false lwjsonOK)
  = Some (Next (mk_pstate lw (S (p + length ws)) to false lwjsonOK)).
Proof.
  intros Hd Hws. unfold parse_iter; cbn [st_lw st_p st_to st_first_check].
  rewrite (skip_at txt p ws _ rest Hd Hws) by done.
  pose proof (drop_after _ _ _ _ Hd) as Hd'. by rewrite (peek_at0 _ _ _ _ Hd').
Qed.

Lemma iter_close lw p to ws rest :
  drop p txt = ws ++ close_delim (type (get_token lw to)) :: rest ->
  all_blank ws = true ->
  parse_iter txt (mk_pstate lw p to false lwjsonOK)
  = Some match next (get_token lw to) with
         | Some to' =>
             Next (mk_pstate (upd_token to (set_next None) lw) (S (p + length ws)) to'
                     false lwjsonOK)
         | None =>
             Ret (if is_nul (peek txt (prv_skip_blank txt (S (p + length ws))).2)
                  then lwjsonOK else lwjsonERR)
                 (upd_token to (set_next None) lw)
         end.
Proof.
  intros Hd Hws. unfold parse_iter; cbn [st_lw st_p st_to st_first_check].
  assert (Hc : is_blank (close_delim (type (get_token lw to))) = false
               /\ is_nul (close_delim (type (get_token lw to))) = false
               /\ is_char (close_delim (type (get_token lw to))) "," = false).
  { destruct (close_delim_facts (type (get_token lw to))) as [-> | ->]; done. }
  destruct Hc as (Hb & Hn & Hcm).
  rewrite (skip_at txt p ws _ rest Hd Hws Hb Hn).
  pose proof (drop_after _ _ _ _ Hd) as Hd'. rewrite (peek_at0 _ _ _ _ Hd').
  rewrite Hcm, Ascii.eqb_refl. by destruct (next (get_token lw to)).
Qed.

Lemma iter_token lw p to ws c rest :
  drop p txt = ws ++ c :: rest -> all_blank ws = true ->
  is_blank c = false -> is_nul c = false -> is_char c "," = false ->
  Ascii.eqb c (close_delim (type (get_token lw to))) = false ->
  parse_iter txt (mk_pstate lw p to false lwjsonOK)
  = match prv_alloc_token lw with
    | None => Some (Ret lwjsonERRMEM lw)
    | Some (i, lw1) => parse_token txt (p + length ws) to i lw1
    end.
Proof.
  intros Hd Hws Hb Hn Hcm Hcl. unfold parse_iter; cbn [st_lw st_p st_to st_first_check].
  rewrite (skip_at txt p ws _ rest Hd Hws Hb Hn).
  pose proof (drop_after _ _ _ _ Hd) as Hd'. rewrite (peek_at0 _ _ _ _ Hd').
  by rewrite Hcm, Hcl.
Qed.

Lemma iter_first lw p ws ty rest :
  drop p txt = ws ++ open_delim ty :: rest -> all_blank ws = true ->
  is_container ty = true ->
  parse_iter txt (mk_pstate lw p FirstToken true lwjsonOK)
  = Some (Next (mk_pstate (upd_token FirstToken (set_type ty) lw) (S (p + length ws))
                  FirstToken false lwjsonOK)).
Proof.
  intros Hd Hws Hty. unfold parse_iter; cbn [st_lw st_p st_to st_first_check].
  assert (Hc : is_blank (open_delim ty) = false /\ is_nul (open_delim ty) = false).
  { unfold open_delim. case_decide; done. }
  destruct Hc as [Hb Hn]. rewrite (skip_at txt p ws _ rest Hd Hws Hb Hn).
  pose proof (drop_after _ _ _ _ Hd) as Hd'. rewrite (peek_at0 _ _ _ _ Hd').
  destruct ty; try done.
Qed.

(** The scanners at a cursor where a well-formed piece of text starts. *)
Lemma parse_string_at p s ws c rest :
  drop p txt = dq :: s ++ dq :: ws ++ c :: rest ->
  str_ok s = true -> all_blank ws = true ->
  is_blank c = false -> is_nul c = false -> Ascii.eqb c dq = false ->
  prv_parse_string txt p = StrOk (S p) (length s) (S p + length s + 1 + length ws).
Proof.
  intros Hd Hs Hws Hb Hn Hq. unfold prv_parse_string.
  rewrite (skip_here txt p dq _ Hd) by done. rewrite (peek_at0 _ _ _ _ Hd).
  rewrite Ascii.eqb_refl. cbn [negb].
  assert (Hd1 : drop (S p) txt = s ++ dq :: ws ++ c :: rest).
  { apply (drop_to _ p _ [dq]); [done | simpl; lia]. }
  rewrite Hd1, str_ok_run by done.
  assert (Hd2 : drop (S p + length s + 1) txt = ws ++ c :: rest).
  { apply (drop_to _ (S p) _ (s ++ [dq])); [by rewrite <- app_assoc |].
    rewrite length_app. simpl. lia. }
  assert (Hnq : Ascii.eqb (peek txt (S p + length s + 1)) dq = false).
  { rewrite <- (Nat.add_0_r (S p + length s + 1)), (peek_at _ _ _ 0 Hd2).
    destruct ws as [|w ws]; [done |]. simpl in Hws. apply andb_true_iff in Hws as [Hw _].
    by apply blank_facts in Hw as (_ & ? & _). }
  rewrite Hnq. by rewrite (skip_at txt _ ws c rest Hd2 Hws Hb Hn).
Qed.

Lemma property_name_at p key mid lead c rest (x : lwjson_token_t real) :
  drop p txt = dq :: key ++ dq :: mid ++ ":"%char :: lead ++ c :: rest ->
  str_ok key = true -> all_blank mid = true -> all_blank lead = true ->
  is_blank c = false -> is_nul c = false ->
  prv_parse_property_name txt p x
  = (lwjsonOK, S p + length key + 1 + length mid + 1 + length lead,
     set_token_name_len (length key) (set_token_name (Some (S p)) x)).
Proof.
  intros Hd Hk Hmid Hlead Hb Hn. unfold prv_parse_property_name.
  rewrite (parse_string_at p key mid ":" (lead ++ c :: rest)) by done.
  assert (Hd1 : drop (S p + length key + 1 + length mid) txt = ":"%char :: lead ++ c :: rest).
  { apply (drop_to _ p _ (dq :: key ++ dq :: mid)).
    - rewrite Hd. simpl. by rewrite <- !app_assoc.
    - simpl. rewrite !length_app. simpl. lia. }
  rewrite (peek_at0 _ _ _ _ Hd1). rewrite Ascii.eqb_refl. cbn [negb].
  assert (Hd2 : drop (S (S p + length key + 1 + length mid)) txt = lead ++ c :: rest).
  { apply (drop_to _ _ _ [":"%char] _ Hd1). simpl. lia. }
  rewrite (skip_at txt _ lead c rest Hd2 Hlead Hb Hn). cbn [snd].
  do 2 f_equal. lia.
Qed.

Lemma check_after_value_at p to lw ws c rest :
  drop p txt = ws ++ c :: rest -> all_blank ws = true ->
  c = ","%char \/ c = "]"%char \/ c = "}"%char ->
  check_after_value txt p to lw
  = Next (mk_pstate lw (if is_char c "," then S (p + length ws) else p + length ws)
            to false lwjsonOK).
Proof.
  intros Hd Hws Hc. destruct (follow_facts c Hc) as (Hb & Hn & _ & _ & Hf).
  unfold check_after_value. rewrite (skip_at txt p ws c rest Hd Hws Hb Hn).
  pose proof (drop_after _ _ _ _ Hd) as Hd'. rewrite (peek_at0 _ _ _ _ Hd').
  rewrite Hn, Hf. cbn [orb]. by destruct (is_char c ",").
Qed.

Lemma value_open_at p ty rest :
  drop p txt = open_delim ty :: rest -> is_container ty = true ->
  parse_value (RT := RT) txt p = ValOpen ty (S p).
Proof.
  intros Hd Hty. unfold parse_value. rewrite (peek_at0 _ _ _ _ Hd).
  by destruct ty.
Qed.

Lemma value_string_at p s ws c rest :
  drop p txt = dq :: s ++ dq :: ws ++ c :: rest ->
  str_ok s = true -> all_blank ws = true ->
  is_blank c = false -> is_nul c = false -> Ascii.eqb c dq = false ->
  parse_value (RT := RT) txt p
  = ValScalar LWJSON_TYPE_STRING (Some (U_str (S p) (length s)))
      (S p + length s + 1 + length ws).
Proof.
  intros Hd Hs Hws Hb Hn Hq. unfold parse_value. rewrite (peek_at0 _ _ _ _ Hd).
  change (is_char dq "{") with false. change (is_char dq "[") with false.
  rewrite Ascii.eqb_refl. cbn [orb]. by rewrite (parse_string_at p s ws c rest).
Qed.

Lemma value_number_at p lit r :
  drop p txt = lit ++ r -> num_ok lit = true -> stopper (peek r 0) = true ->
  exists ty val,
    prv_parse_number lit 0 = NumOk ty val (length lit)
    /\ parse_value txt p = ValScalar ty (Some val) (p + length lit).
Proof.
  intros Hd Hok Hst. unfold num_ok in Hok. apply andb_true_iff in Hok as [Hfirst Hok].
  destruct (prv_parse_number lit 0) as [res|ty val q] eqn:Hnum; [done |].
  apply Nat.eqb_eq in Hok. subst q. exists ty, val. split; [done |].
  assert (Hag : agree lit 0 txt p (length lit)).
  { split; [| split].
    - intros j Hj. rewrite (peek_at _ _ _ j Hd). by rewrite peek_app_l.
    - simpl. unfold peek. change text with (list ascii) in *.
      by rewrite lookup_ge_None_2 by lia.
    - rewrite (peek_at _ _ _ _ Hd). rewrite <- (Nat.add_0_r (length lit)).
      by rewrite peek_app_r. }
  pose proof (number_agree lit 0 txt p (length lit) Hag Hfirst) as Hn.
  rewrite Hnum in Hn.
  destruct (prv_parse_number txt p) as [res'|ty' val' q'] eqn:Hnum'; [done |].
  destruct Hn as (<- & <- & j & Hj & Hj1 & ->). simpl in Hj1. subst j.
  assert (Hc0 : peek txt p = peek lit 0).
  { destruct Hag as (Ha & _). destruct lit as [|c0 lit]; [by vm_compute in Hfirst |].
    specialize (Ha 0 ltac:(simpl; lia)). rewrite !Nat.add_0_r in Ha. done. }
  unfold parse_value. rewrite Hc0.
  destruct (number_start_facts _ Hfirst) as (_ & -> & -> & -> & -> & -> & ->).
  by rewrite Hfirst, Hnum'.
Qed.

Lemma peek_word p (w r : text) j c :
  drop p txt = w ++ r -> w !! j = Some c -> peek txt (p + j) = c.
Proof.
  intros Hd Hj. rewrite (peek_at _ _ _ j Hd).
  rewrite peek_app_l by by eapply lookup_lt_Some. unfold peek. by rewrite Hj.
Qed.

Lemma value_true_at p r :
  drop p txt = list_ascii_of_string "true" ++ r ->
  parse_value (RT := RT) txt p = ValScalar LWJSON_TYPE_TRUE None (p + 4).
Proof.
  intros Hd.
  assert (H0 : peek txt p = "t"%char)
    by (rewrite <- (Nat.add_0_r p); by apply (peek_word _ _ _ 0 _ Hd)).
  assert (H1 : peek txt (S p) = "r"%char)
    by (replace (S p) with (p + 1) by lia; by apply (peek_word _ _ _ 1 _ Hd)).
  assert (H2 : peek txt (S (S p)) = "u"%char)
    by (replace (S (S p)) with (p + 2) by lia; by apply (peek_word _ _ _ 2 _ Hd)).
  assert (H3 : peek txt (S (S (S p))) = "e"%char)
    by (replace (S (S (S p))) with (p + 3) by lia; by apply (peek_word _ _ _ 3 _ Hd)).
  unfold parse_value. rewrite H0. cbn [is_char Ascii.eqb Bool.eqb andb orb list_ascii_of_string].
  cbn [strncmp_eq]. rewrite H0, H1, H2, H3. reflexivity.
Qed.

Lemma value_false_at p r :
  drop p txt = list_ascii_of_string "false" ++ r ->
  parse_value (RT := RT) txt p = ValScalar LWJSON_TYPE_FALSE None (p + 5).
Proof.
  intros Hd.
  assert (H0 : peek txt p = "f"%char)
    by (rewrite <- (Nat.add_0_r p); by apply (peek_word _ _ _ 0 _ Hd)).
  assert (H1 : peek txt (S p) = "a"%char)
    by (replace (S p) with (p + 1) by lia; by apply (peek_word _ _ _ 1 _ Hd)).
  assert (H2 : peek txt (S (S p)) = "l"%char)
    by (replace (S (S p)) with (p + 2) by lia; by apply (peek_word _ _ _ 2 _ Hd)).
  assert (H3 : peek txt (S (S (S p))) = "s"%char)
    by (replace (S (S (S p))) with (p + 3) by lia; by apply (peek_word _ _ _ 3 _ Hd)).
  assert (H4 : peek txt (S (S (S (S p)))) = "e"%char)
    by (replace (S (S (S (S p)))) with (p + 4) by lia; by apply (peek_word _ _ _ 4 _ Hd)).
  unfold parse_value. rewrite H0. cbn [is_char Ascii.eqb Bool.eqb andb orb list_ascii_of_string].
  cbn [strncmp_eq]. rewrite H0, H1, H2, H3, H4. reflexivity.
Qed.

Lemma value_null_at p r :
  drop p txt = list_ascii_of_string "null" ++ r ->
  parse_value (RT := RT) txt p = ValScalar LWJSON_TYPE_NULL None (p + 4).
Proof.
  intros Hd.
  assert (H0 : peek txt p = "n"%char)
    by (rewrite <- (Nat.add_0_r p); by apply (peek_word _ _ _ 0 _ Hd)).
  assert (H1 : peek txt (S p) = "u"%char)
    by (replace (S p) with (p + 1) by lia; by apply (peek_word _ _ _ 1 _ Hd)).
  assert (H2 : peek txt (S (S p)) = "l"%char)
    by (replace (S (S p)) with (p + 2) by lia; by apply (peek_word _ _ _ 2 _ Hd)).
  assert (H3 : peek txt (S (S (S p))) = "l"%char)
    by (replace (S (S (S p))) with (p + 3) by lia; by apply (peek_word _ _ _ 3 _ Hd)).
  unfold parse_value. rewrite H0. cbn [is_char Ascii.eqb Bool.eqb andb orb list_ascii_of_string].
  cbn [strncmp_eq]. rewrite H0, H1, H2, H3. reflexivity.
Qed.

End Steps.

Ltac norm_app := repeat (progress (rewrite <- ?app_assoc; cbn [app])).

Section Items.
Context {real : Type} {RT : RealType real}.
Variable txt : text.
Implicit Types (lw : lwjson_t real) (to t : tokref) (ws rest : text)
  (done : list (rtree real)).

Lemma get_alloc lw r :
  next_free_token_pos lw < tokens_len lw ->
  get_token (set_next_free_token_pos (S (next_free_token_pos lw))
               (put_token (Tok (next_free_token_pos lw)) zero_token lw)) r
  = if decide (Tok (next_free_token_pos lw) = r) then zero_token else get_token lw r.
Proof. intros Hlt. by apply (get_put (Tok (next_free_token_pos lw)) r zero_token lw). Qed.

Lemma alloc_ok lw :
  next_free_token_pos lw < tokens_len lw ->
  prv_alloc_token lw
  = Some (next_free_token_pos lw,
          set_next_free_token_pos (S (next_free_token_pos lw))
            (put_token (Tok (next_free_token_pos lw)) zero_token lw)).
Proof. intros Hlt. unfold prv_alloc_token. by apply Nat.ltb_lt in Hlt as ->. Qed.

Lemma ref_of_Tok j n : ref_of j = Tok n <-> j = S n.
Proof.
  split; [| by intros ->]. intros H. apply (f_equal rk) in H. by rewrite rk_ref in H.
Qed.

Lemma valid_ref_of m j : valid_ref m (ref_of j) <-> j <= m.
Proof. rewrite <- rk_valid, rk_ref. done. Qed.

Lemma u_first_child_Some (x : lwjson_token_t real) c :
  u_first_child x = Some c -> u x = U_first_child c.
Proof. unfold u_first_child. destruct (u x); try done. by intros [= ->]. Qed.

Lemma slice_at p (a b : text) : drop p txt = a ++ b -> slice txt p (length a) = a.
Proof. intros H. unfold slice. rewrite H. by rewrite take_app_length. Qed.

(** Allocation, name and link of the token of the next child. *)
Lemma item_prefix lw p k ty done l vc vrest :
  ctx txt lw k ty done -> layout_ok ty l = true -> value_start vc = true ->
  drop p txt = print_name (jl_name l) ++ jl_lead l ++ vc :: vrest ->
  next_free_token_pos lw < tokens_len lw ->
  exists lw3 pv,
    parse_iter txt (mk_pstate lw p (ref_of k) false lwjsonOK)
    = Some match parse_value txt pv with
           | ValOpen ty' p' =>
               Next (mk_pstate
                       (upd_token (Tok (next_free_token_pos lw))
                          (fun tk => set_next (Some (ref_of k)) (set_type ty' tk)) lw3)
                       p' (Tok (next_free_token_pos lw)) false lwjsonOK)
           | ValErr res val =>
               Ret res (upd_token (Tok (next_free_token_pos lw)) (write_val val) lw3)
           | ValScalar ty' val p' =>
               check_after_value txt p' (ref_of k)
                 (upd_token (Tok (next_free_token_pos lw))
                    (fun tk => set_type ty' (write_val val tk)) lw3)
           end
    /\ drop pv txt = vc :: vrest
    /\ is_nul (peek txt p) = false
    /\ opened txt lw lw3 k ty done (jn_key <$> jl_name l).
Proof.
  intros (Hn & Hty & Hcont & Hfc & Hpl & Hfor) Hl Hvc Hd Hcap.
  set (n := next_free_token_pos lw) in *.
  destruct (value_start_facts vc Hvc) as (Hvb & Hvn & Hvcm & Hvsq & Hvcu).
  assert (Hkn : k <= n) by lia.
  assert (Hto_ne : Tok n <> ref_of k).
  { intros H. symmetry in H. apply ref_of_Tok in H. lia. }
  assert (Hvto : valid_ref (tokens_len lw) (ref_of k)) by (apply valid_ref_of; lia).
  set (lw1 := set_next_free_token_pos (S n) (put_token (Tok n) zero_token lw)).
  assert (Hget1 : forall r, get_token lw1 r
                            = if decide (Tok n = r) then zero_token else get_token lw r)
    by (intros r; by apply get_alloc).
  assert (Hlen1 : tokens_len lw1 = tokens_len lw) by apply (tokens_len_put (Tok n)).
  unfold layout_ok in Hl. apply andb_true_iff in Hl as [Hl Hname].
  apply andb_true_iff in Hl as [Hlead Hpost].
  (* the iteration up to the link *)
  assert (Hstep : exists tk pv,
    parse_iter txt (mk_pstate lw p (ref_of k) false lwjsonOK)
    = (let t := Tok n in
       let lw2 := put_token t tk lw1 in
       lw3 ← link_child (ref_of k) t lw2;
       Some match parse_value txt pv with
            | ValOpen ty' p' =>
                Next (mk_pstate
                        (upd_token t (fun tk => set_next (Some (ref_of k)) (set_type ty' tk)) lw3)
                        p' t false lwjsonOK)
            | ValErr res val => Ret res (upd_token t (write_val val) lw3)
            | ValScalar ty' val p' =>
                check_after_value txt p' (ref_of k)
                  (upd_token t (fun tk => set_type ty' (write_val val tk)) lw3)
            end)
    /\ drop pv txt = vc :: vrest
    /\ is_nul (peek txt p) = false
    /\ type tk = LWJSON_TYPE_STRING /\ u tk = U_zero /\ next tk = None
    /\ name_of txt tk = jn_key <$> jl_name l).
  { destruct (jl_name l) as [[pre key mid]|] eqn:Hnm; cbn [print_name jn_pre jn_key jn_mid] in *.
    - (* a member of an object *)
      apply andb_true_iff in Hname as [Hname Hkey].
      apply andb_true_iff in Hname as [Hname Hmid].
      apply andb_true_iff in Hname as [Hobj Hpre].
      apply bool_decide_eq_true in Hobj. rewrite Hobj in Hty.
      assert (Hd' : drop p txt
                    = pre ++ dq :: key ++ dq :: mid ++ ":"%char :: jl_lead l ++ vc :: vrest).
      { rewrite Hd. by norm_app. }
      pose proof (drop_after _ _ _ _ Hd') as Hq.
      exists (set_token_name_len (length key)
                (set_token_name (Some (S (p + length pre))) zero_token)).
      eexists. split; [| split; [| split; [| split; [done | split; [done | split; [done |]]]]]].
      + rewrite (iter_token txt lw p (ref_of k) pre dq _ Hd' Hpre)
          by (try done; rewrite Hty; by vm_compute).
        rewrite alloc_ok by done. fold n. fold lw1. unfold parse_token.
        unfold parse_member_name. rewrite !Hget1.
        rewrite (decide_False (P := Tok n = ref_of k)) by done.
        rewrite (decide_True (P := Tok n = Tok n)) by done. rewrite Hty.
        rewrite decide_False by done. rewrite (peek_at0 _ _ _ _ Hq), Ascii.eqb_refl.
        cbn [negb].
        rewrite (property_name_at txt _ key mid (jl_lead l) vc vrest _ Hq) by done.
        cbn [bool_decide decide_rel negb]. rewrite bool_decide_true by done. cbn [negb].
        reflexivity.
      + apply (drop_to txt p _ (pre ++ dq :: key ++ dq :: mid ++ ":"%char :: jl_lead l)).
        * rewrite Hd'. by norm_app.
        * repeat (rewrite ?length_app; cbn [length]). lia.
      + by apply (head_not_nul txt p pre dq _ Hd').
      + unfold name_of. cbn [token_name set_token_name_len set_token_name token_name_len fmap
                               option_fmap option_map].
        f_equal. apply (slice_at _ key (dq :: mid ++ ":"%char :: jl_lead l ++ vc :: vrest)).
        apply (drop_to txt _ _ [dq] _ Hq). simpl. lia.
    - (* an element of an array *)
      apply bool_decide_eq_true in Hname. rewrite Hname in Hty. cbn [app] in Hd.
      pose proof (drop_after _ _ _ _ Hd) as Hq.
      exists zero_token, (p + length (jl_lead l)).
      split; [| split; [done | split; [| done]]].
      + rewrite (iter_token txt lw p (ref_of k) (jl_lead l) vc _ Hd Hlead)
          by (try done; by rewrite Hty).
        rewrite alloc_ok by done. fold n. fold lw1. unfold parse_token.
        unfold parse_member_name. rewrite !Hget1.
        rewrite (decide_False (P := Tok n = ref_of k)) by done. rewrite Hty.
        rewrite decide_True by done. cbn [negb]. rewrite bool_decide_true by done.
        cbn [negb]. cbv zeta.
        assert (put_token (Tok n) zero_token lw1 = lw1) as ->; [| done].
        unfold lw1, put_token, set_tokens, set_next_free_token_pos. cbn [tokens next_free_token_pos first_token flags_parsed].
        f_equal. first [apply list_insert_insert_eq | apply list_insert_insert].
      + by apply (head_not_nul txt p (jl_lead l) vc _ Hd). }
  destruct Hstep as (tk & pv & Hiter & Hpv & Hnul & Htk1 & Htk2 & Htk3 & Htk4).
  cbv zeta in Hiter.
  set (lw2 := put_token (Tok n) tk lw1) in *.
  assert (Hvt1 : valid_ref (tokens_len lw1) (Tok n)) by (rewrite Hlen1; exact Hcap).
  assert (Hget2 : forall r, get_token lw2 r
                            = if decide (Tok n = r) then tk else get_token lw r).
  { intros r. unfold lw2. rewrite get_put by done. rewrite Hget1.
    by destruct (decide (Tok n = r)). }
  assert (Hlen2 : tokens_len lw2 = tokens_len lw)
    by (unfold lw2; by rewrite tokens_len_put).
  assert (Hnf2 : next_free_token_pos lw2 = S n) by done.
  assert (Hold : forall i, i <= n -> get_token lw2 (ref_of i) = get_token lw (ref_of i)).
  { intros i Hi. rewrite Hget2. rewrite decide_False; [done |].
    intros H. symmetry in H. apply ref_of_Tok in H. lia. }
  assert (Hvto2 : valid_ref (tokens_len lw2) (ref_of k)) by by rewrite Hlen2.
  unfold link_child in Hiter. rewrite (Hold k Hkn), Hnf2 in Hiter.
  destruct (decide (done = [])) as [Hdone|Hne].
  - (* the first child *)
    rewrite Hfc, Hdone in Hiter. subst done.
    cbn [mbind option_bind] in Hiter.
    assert (Hkn' : k = n) by (unfold fsize in Hn; simpl in Hn; lia).
    eexists _, pv. split; [exact Hiter |]. split; [done |]. split; [done |].
    assert (Hget3 : forall r, get_token (upd_token (ref_of k) (set_u (U_first_child (Tok n))) lw2) r
              = if decide (ref_of k = r) then set_u (U_first_child (Tok n)) (get_token lw (ref_of k))
                else get_token lw2 r).
    { intros r. rewrite get_upd by done. by rewrite (Hold k Hkn). }
    split; [by rewrite next_free_upd |]. split; [| split; [| split; [| split]]].
    + split; [by rewrite tokens_len_upd |]. split.
      * intros j Hj. rewrite Hget3. rewrite decide_False by (intros H; apply ref_of_inj in H; lia).
        apply Hold. lia.
      * rewrite Hget3, decide_True by done. done.
    + rewrite Hget3, decide_True by done. done.
    + rewrite Hget3, decide_True by done. cbn [u set_u]. by rewrite Hkn'.
    + done.
    + rewrite !Hget3, !(decide_False (P := ref_of k = Tok n)) by done.
      rewrite !Hget2, !decide_True by done. done.
  - (* one more child *)
    assert (Hfor2 : forest_at txt lw2 (S k) done None).
    { eapply forest_at_same; [| exact Hfor]. intros i Hi. apply Hold. lia. }
    assert (Hfc' : u_first_child (get_token lw (ref_of k)) = Some (ref_of (S k)))
      by (rewrite Hfc; by destruct done).
    rewrite Hfc' in Hiter.
    cbn [mbind option_bind] in Hiter.
    rewrite (last_sibling_forest txt lw2 done (S k) (S n) Hne Hfor2) in Hiter.
    2:{ pose proof (length_le_fsize done). lia. }
    cbn [mbind option_bind] in Hiter.
    destruct (last_rank_bounds (S k) done Hne) as [Hlo Hhi].
    set (m := last_rank (S k) done) in *.
    assert (Hvm : valid_ref (tokens_len lw2) (ref_of m)).
    { rewrite Hlen2. apply valid_ref_of. lia. }
    eexists _, pv. split; [exact Hiter |]. split; [done |]. split; [done |].
    assert (Hget3 : forall r, get_token (upd_token (ref_of m) (set_next (Some (Tok n))) lw2) r
              = if decide (ref_of m = r) then set_next (Some (Tok n)) (get_token lw (ref_of m))
                else get_token lw2 r).
    { intros r. rewrite get_upd by done. rewrite (Hold m) by lia. done. }
    assert (Hmk : ref_of m <> ref_of k) by (intros H; apply ref_of_inj in H; lia).
    assert (Hmt : ref_of m <> Tok n) by (intros H; apply ref_of_Tok in H; lia).
    split; [by rewrite next_free_upd |]. split; [| split; [| split; [| split]]].
    + split; [by rewrite tokens_len_upd |]. split.
      * intros j Hj. rewrite Hget3. rewrite decide_False by (intros H; apply ref_of_inj in H; lia).
        apply Hold. lia.
      * rewrite Hget3, decide_False by done. by rewrite (Hold k Hkn).
    + rewrite Hget3, decide_False by done. by rewrite (Hold k Hkn).
    + rewrite Hget3, decide_False by done. rewrite (Hold k Hkn).
      by apply u_first_child_Some.
    + eapply (forest_relink txt lw _ done (S k) None); [done | done | | |].
      * intros i Hi Him. rewrite Hget3.
        rewrite decide_False by (intros H; apply ref_of_inj in H; lia). apply Hold. lia.
      * fold m. rewrite Hget3, decide_True by done. done.
      * fold m. rewrite Hget3, decide_True by done. done.
    + rewrite !Hget3, !(decide_False (P := ref_of m = Tok n)) by done.
      rewrite !Hget2, !decide_True by done. done.
Qed.

Lemma loop_reaches_trans (a b c : pstate real) :
  loop_reaches txt a b -> loop_reaches txt b c -> loop_reaches txt a c.
Proof. induction 1; [done |]. intros. eapply reaches_next; eauto. Qed.

Lemma loop_reaches_one (a b : pstate real) :
  is_nul (peek txt (st_p a)) = false -> parse_iter txt a = Some (Next b) ->
  loop_reaches txt a b.
Proof. intros. eapply reaches_next; [done | done | constructor]. Qed.

Lemma older_same_trans k lw1 lw2 lw3 :
  older_same k lw1 lw2 -> older_same k lw2 lw3 -> older_same k lw1 lw3.
Proof.
  intros (H1 & H2 & H3 & H4 & H5) (G1 & G2 & G3 & G4 & G5).
  split; [congruence |]. split; [| split; [congruence | split; congruence]].
  intros j Hj. rewrite G2 by done. by apply H2.
Qed.

Lemma older_same_weaken k k' lw lw' :
  older_same k' lw lw' -> k < k' -> older_same k lw lw'.
Proof.
  intros (H1 & H2 & _) Hk. split; [done |]. split; [intros j Hj; apply H2; lia |].
  by rewrite H2.
Qed.

Lemma tsize_eval name v : tsize (eval (real := real) name v) = count v.
Proof.
  revert name. induction v as [s|lit| | | |ty items inner IH] using jvalue_ind';
    intros name; try done.
  cbn [eval tsize count]. f_equal. f_equal. rewrite map_map.
  induction IH as [|[l v] items Hv _ IHl]; [done |]. cbn [map]. f_equal; [| done].
  apply Hv.
Qed.

(** A scalar: the iteration that allocates its token ends with it. *)
Lemma scalar_item lw lw3 p pv' k ty done name ty' val pl ws c rest :
  ctx txt lw k ty done ->
  next_free_token_pos lw < tokens_len lw ->
  opened txt lw lw3 k ty done name ->
  is_nul (peek txt p) = false ->
  parse_iter txt (mk_pstate lw p (ref_of k) false lwjsonOK)
  = Some (check_after_value txt pv' (ref_of k)
            (upd_token (Tok (next_free_token_pos lw))
               (fun tk => set_type ty' (write_val val tk)) lw3)) ->
  drop pv' txt = ws ++ c :: rest -> all_blank ws = true ->
  c = ","%char \/ c = "]"%char \/ c = "}"%char ->
  (forall tk : lwjson_token_t real, u tk = U_zero ->
     payload_of txt (write_val val tk) = pl /\ u_first_child (write_val val tk) = None) ->
  exists lw' p',
    loop_reaches txt (mk_pstate lw p (ref_of k) false lwjsonOK)
                     (mk_pstate lw' p' (ref_of k) false lwjsonOK)
    /\ ctx txt lw' k ty (done ++ [RNode name ty' pl []])
    /\ older_same k lw lw'
    /\ if is_char c ","
       then drop p' txt = rest
       else exists ws', all_blank ws' = true /\ drop p' txt = ws' ++ c :: rest.
Proof.
  intros (Hn & Hty & Hcont & Hfc & Hpl & Hfor) Hcap Hop Hnul Hiter Hd Hws Hc Hval.
  set (n := next_free_token_pos lw) in *.
  destruct Hop as (Hn3 & Hold3 & Hty3 & Hu3 & Hfor3 & Ht1 & Ht2 & Ht3 & Ht4).
  fold n in Hn3, Hfor3, Ht1, Ht2, Ht3, Ht4.
  pose proof Hold3 as (Hlen3 & Hsame3 & Hnx3 & Hnm3 & Hnl3).
  rewrite (check_after_value_at txt pv' _ _ ws c rest Hd Hws Hc) in Hiter.
  set (lw' := upd_token (Tok n) (fun tk => set_type ty' (write_val val tk)) lw3) in *.
  assert (Hvt : valid_ref (tokens_len lw3) (Tok n)) by (rewrite Hlen3; exact Hcap).
  assert (Hget : forall r, get_token lw' r
            = if decide (Tok n = r) then set_type ty' (write_val val (get_token lw3 (Tok n)))
              else get_token lw3 r).
  { intros r. unfold lw'. by rewrite get_upd. }
  assert (Hold : forall i, i <= n -> get_token lw' (ref_of i) = get_token lw3 (ref_of i)).
  { intros i Hi. rewrite Hget. rewrite decide_False; [done |].
    intros H. symmetry in H. apply ref_of_Tok in H. lia. }
  destruct (Hval _ Ht2) as [Hv1 Hv2].
  eexists lw', _. split; [by apply loop_reaches_one |]. split; [| split].
  - split; [| split; [| split; [done | split; [| split]]]].
    + rewrite fsize_app. unfold lw'. rewrite next_free_upd, Hn3.
      unfold fsize at 2. simpl. lia.
    + rewrite Hold by lia. done.
    + rewrite Hold by lia. unfold u_first_child. rewrite Hu3. by destruct done.
    + rewrite Hold by lia. unfold payload_of. by rewrite Hu3.
    + apply forest_snoc.
      * replace (S k + fsize done) with (S n) by lia.
        eapply forest_at_same; [| exact Hfor3]. intros i Hi. apply Hold. lia.
      * replace (S k + fsize done) with (S n) by lia. apply tree_at_eq.
        change (ref_of (S n)) with (Tok n). rewrite Hget, decide_True by done.
        split; [done |]. split; [| split; [| split; [| done]]].
        -- unfold name_of in *. cbn [token_name token_name_len set_type].
           by destruct val.
        -- unfold payload_of in *. cbn [u set_type]. exact Hv1.
        -- unfold u_first_child in *. cbn [u set_type]. exact Hv2.
      * replace (S k + fsize done) with (S n) by lia.
        change (ref_of (S n)) with (Tok n). rewrite Hget, decide_True by done.
        cbn [next set_type]. by rewrite next_write_val.
  - eapply older_same_trans; [exact Hold3 |].
    split; [unfold lw'; by rewrite tokens_len_upd |].
    split; [intros j Hj; apply Hold; lia |]. rewrite Hold by lia. done.
  - cbn [st_p]. destruct (is_char c ",") eqn:Hcm.
    + apply is_char_eq in Hcm. injection Hcm as <-.
      apply (drop_to txt pv' _ (ws ++ [","%char])); [by rewrite <- app_assoc |].
      rewrite length_app. simpl. lia.
    + exists []. split; [done |]. by apply (drop_after _ _ _ _ Hd).
Qed.

(** The items of a container, one after the other, up to its closing
    delimiter. *)
Lemma items_ok ty items :
  Forall (fun it => wf it.2 = true -> item_spec txt it.2) items ->
  forallb (fun it => let '(l, v) := it in layout_ok ty l && wf v) items = true ->
  forall lw p k done inner rest,
    ctx txt lw k ty done -> all_blank inner = true ->
    drop p txt
    = join_items (map (fun it => let '(l, v) := it in print_item l (print v)) items)
      ++ inner ++ close_delim ty :: rest ->
    next_free_token_pos lw + list_sum (map (fun it => let '(_, v) := it in count v) items)
    <= tokens_len lw ->
    exists lw' p' ws',
      loop_reaches txt (mk_pstate lw p (ref_of k) false lwjsonOK)
                       (mk_pstate lw' p' (ref_of k) false lwjsonOK)
      /\ ctx txt lw' k ty
           (done ++ map (fun it => let '(l, v) := it in eval (jn_key <$> jl_name l) v) items)
      /\ older_same k lw lw'
      /\ all_blank ws' = true
      /\ drop p' txt = ws' ++ close_delim ty :: rest.
Proof.
  induction 1 as [|[l v] items Hv _ IH]; intros Hwf lw p k done inner rest Hctx Hin Hd Hcap.
  - exists lw, p, inner. split; [constructor |]. cbn [map]. rewrite app_nil_r.
    split; [done |]. split; [| done]. by repeat split.
  - cbn [forallb] in Hwf. apply andb_true_iff in Hwf as [Hlv Hwf].
    apply andb_true_iff in Hlv as [Hl Hwv]. cbn [snd] in Hv.
    cbn [map list_sum] in Hcap. cbn [map join_items] in Hd.
    destruct items as [|it2 items].
    + cbn [map] in Hd.
      destruct (Hv Hwv lw p k ty done l inner (close_delim ty) rest Hctx Hl Hd Hin)
        as (lw' & p' & Hr & Hctx' & Hold & Hp').
      { destruct (close_delim_facts ty) as [-> | ->]; auto. }
      { simpl in Hcap. lia. }
      assert (is_char (close_delim ty) "," = false) as Hcm
        by (destruct (close_delim_facts ty) as [-> | ->]; done).
      rewrite Hcm in Hp'. destruct Hp' as (ws' & Hws' & Hp').
      exists lw', p', ws'. split; [done |]. split; [exact Hctx' |]. done.
    + set (items' := it2 :: items) in *.
      assert (Hd' : drop p txt
                = print_item l (print v) ++ [] ++ ","%char
                  :: (join_items (map (fun it => let '(l, v) := it in print_item l (print v))
                                    items')
                      ++ inner ++ close_delim ty :: rest)).
      { rewrite Hd. unfold items'. cbn [map]. by norm_app. }
      destruct (Hv Hwv lw p k ty done l [] ","%char _ Hctx Hl Hd' eq_refl)
        as (lw1 & p1 & Hr1 & Hctx1 & Hold1 & Hp1);
        [auto | change (list_sum (?x :: ?l)) with (x + list_sum l) in Hcap; lia |].
      cbn [is_char Ascii.eqb Bool.eqb andb] in Hp1.
      destruct (IH Hwf lw1 p1 k _ inner rest Hctx1 Hin Hp1) as (lw2 & p2 & ws2 & Hr2 & Hctx2 & Hold2 & Hws2 & Hp2).
      { destruct Hctx1 as (Hn1 & _). destruct Hctx as (Hn0 & _).
        rewrite fsize_app in Hn1. unfold fsize at 2 in Hn1. simpl in Hn1.
        rewrite tsize_eval in Hn1. destruct Hold1 as (Hlen1 & _). rewrite Hlen1.
        change (list_sum (?x :: ?l)) with (x + list_sum l) in Hcap. lia. }
      exists lw2, p2, ws2. split; [by eapply loop_reaches_trans |].
      split; [| split; [by eapply older_same_trans | done]].
      cbn [map]. rewrite <- app_assoc in Hctx2. exact Hctx2.
Qed.

Lemma follow_stopper ws c rest :
  all_blank ws = true -> c = ","%char \/ c = "]"%char \/ c = "}"%char ->
  stopper (peek (ws ++ c :: rest) 0) = true.
Proof.
  intros Hws Hc. destruct ws as [|w ws].
  - by destruct (follow_facts c Hc) as (_ & _ & _ & ? & _).
  - simpl in Hws. apply andb_true_iff in Hws as [Hw _].
    by apply blank_facts in Hw as (_ & _ & ?).
Qed.

Lemma opening_start ty : is_container ty = true -> value_start (open_delim ty) = true.
Proof. by destruct ty. Qed.

(** A scalar item, once the value at the cursor has been recognised. *)
Lemma scalar_value lw p k ty done l (body : text) vc vtail ty' pl (n' : nat) ws c rest :
  ctx txt lw k ty done -> layout_ok ty l = true ->
  drop p txt = print_item l body ++ ws ++ c :: rest ->
  all_blank ws = true -> c = ","%char \/ c = "]"%char \/ c = "}"%char ->
  next_free_token_pos lw < tokens_len lw ->
  body = vc :: vtail -> value_start vc = true ->
  (forall pv, drop pv txt = body ++ jl_post l ++ ws ++ c :: rest ->
     exists wsa val,
       parse_value txt pv = ValScalar ty' val (pv + n')
       /\ all_blank wsa = true /\ drop (pv + n') txt = wsa ++ c :: rest
       /\ forall tk : lwjson_token_t real, u tk = U_zero ->
            payload_of txt (write_val val tk) = pl
            /\ u_first_child (write_val val tk) = None) ->
  exists lw' p',
    loop_reaches txt (mk_pstate lw p (ref_of k) false lwjsonOK)
                     (mk_pstate lw' p' (ref_of k) false lwjsonOK)
    /\ ctx txt lw' k ty (done ++ [RNode (jn_key <$> jl_name l) ty' pl []])
    /\ older_same k lw lw'
    /\ if is_char c ","
       then drop p' txt = rest
       else exists ws', all_blank ws' = true /\ drop p' txt = ws' ++ c :: rest.
Proof.
  intros Hctx Hl Hd Hws Hc Hcap Hbody Hvc Hval.
  destruct (item_prefix lw p k ty done l vc (vtail ++ jl_post l ++ ws ++ c :: rest)
              Hctx Hl Hvc) as (lw3 & pv & Hiter & Hpv & Hnul & Hop); [| done |].
  { rewrite Hd. unfold print_item. rewrite Hbody. by norm_app. }
  destruct (Hval pv) as (wsa & val & Hpval & Hwsa & Hpv' & Hpay).
  { rewrite Hpv, Hbody. by norm_app. }
  rewrite Hpval in Hiter.
  by eapply (scalar_item lw lw3 p (pv + n') k ty done _ ty' val pl wsa c rest).
Qed.

Lemma item_ok v : wf v = true -> item_spec txt v.
Proof.
  induction v as [s|lit| | | |vty items inner IH] using jvalue_ind';
    intros Hwf lw p k ty done l ws c rest Hctx Hl Hd Hws Hc Hcap.
  - (* a string *)
    cbn [wf] in Hwf. cbn [count] in Hcap.
    pose proof Hl as Hl'. unfold layout_ok in Hl'. apply andb_true_iff in Hl' as [Hl' _].
    apply andb_true_iff in Hl' as [_ Hpost].
    destruct (follow_facts c Hc) as (Hcb & Hcn & Hcq & _).
    eapply (scalar_value lw p k ty done l (print (JString s)) dq (s ++ [dq])
              LWJSON_TYPE_STRING (PStr s)
              (1 + length s + 1 + length (jl_post l ++ ws)));
      try done; [lia |].
    intros pv Hpv. exists [], (Some (U_str (S pv) (length s))). cbn [print] in Hpv.
    assert (Hpv' : drop pv txt = dq :: s ++ dq :: (jl_post l ++ ws) ++ c :: rest).
    { rewrite Hpv. by norm_app. }
    rewrite (value_string_at txt pv s (jl_post l ++ ws) c rest Hpv')
      by (try done; rewrite all_blank_app; by rewrite Hpost, Hws).
    split; [f_equal; lia |]. split; [done |]. split.
    + apply (drop_to txt pv _ (dq :: s ++ dq :: jl_post l ++ ws)).
      * rewrite Hpv'. by norm_app.
      * cbn [length]. rewrite !length_app. cbn [length]. rewrite length_app. lia.
    + intros tk Hu. split; [| done]. unfold payload_of. cbn [write_val set_u u].
      f_equal. apply (slice_at (S pv) s (dq :: (jl_post l ++ ws) ++ c :: rest)).
      apply (drop_to txt pv _ [dq] _ Hpv'). simpl. lia.
  - (* a number *)
    cbn [wf] in Hwf. cbn [count] in Hcap.
    pose proof Hl as Hl'. unfold layout_ok in Hl'. apply andb_true_iff in Hl' as [Hl' _].
    apply andb_true_iff in Hl' as [_ Hpost].
    pose proof Hwf as Hok. unfold num_ok in Hok. apply andb_true_iff in Hok as [Hfirst Hok].
    destruct lit as [|vc vtail]; [by vm_compute in Hfirst |].
    change (peek (vc :: vtail) 0) with vc in Hfirst.
    destruct (number_start_facts vc Hfirst) as (Hvc & _).
    destruct (prv_parse_number (vc :: vtail) 0) as [|nty nval q] eqn:Hnum; [done |].
    apply Nat.eqb_eq in Hok. subst q.
    pose proof (prv_parse_number_facts (vc :: vtail) 0) as Hshape. cbv zeta in Hshape.
    rewrite Hnum in Hshape. destruct Hshape as (_ & _ & _ & _ & Hshape).
    assert (Heval : eval (jn_key <$> jl_name l) (JNumber (vc :: vtail))
                    = RNode (jn_key <$> jl_name l) nty
                        (match nval with
                         | U_num_int z => PInt z
                         | U_num_real x => PReal x
                         | _ => PNone
                         end) []).
    { cbn [eval]. unfold number_payload. rewrite Hnum.
      destruct nty; try done; destruct Hshape as [[? ->] _]; done. }
    rewrite Heval.
    eapply (scalar_value lw p k ty done l (print (JNumber (vc :: vtail))) vc vtail
              nty _ (length (vc :: vtail)));
      try done; [lia |].
    intros pv Hpv. exists (jl_post l ++ ws), (Some nval). cbn [print] in Hpv.
    destruct (value_number_at txt pv (vc :: vtail) (jl_post l ++ ws ++ c :: rest) Hpv Hwf)
      as (nty' & nval' & Hnum' & Hpval).
    { rewrite app_assoc. apply follow_stopper; [| done].
      rewrite all_blank_app. by rewrite Hpost, Hws. }
    rewrite Hnum in Hnum'. injection Hnum' as <- <-.
    split; [done |]. split; [rewrite all_blank_app; by rewrite Hpost, Hws |]. split.
    + apply (drop_to txt pv _ (vc :: vtail)); [| done]. rewrite Hpv. by norm_app.
    + intros tk Hu. unfold payload_of, u_first_child. cbn [write_val set_u u].
      destruct nty; try done; destruct Hshape as [[? ->] _]; done.
  - (* true *)
    cbn [count] in Hcap.
    pose proof Hl as Hl'. unfold layout_ok in Hl'. apply andb_true_iff in Hl' as [Hl' _].
    apply andb_true_iff in Hl' as [_ Hpost].
    eapply (scalar_value lw p k ty done l (print JTrue) "t"%char _
              LWJSON_TYPE_TRUE PNone 4); try done; [lia |].
    intros pv Hpv. exists (jl_post l ++ ws), None.
    rewrite (value_true_at txt pv _ Hpv).
    split; [done |]. split; [rewrite all_blank_app; by rewrite Hpost, Hws |]. split.
    + apply (drop_to txt pv _ (print JTrue)); [| done]. rewrite Hpv. by norm_app.
    + intros tk Hu. unfold payload_of, u_first_child. cbn [write_val]. by rewrite Hu.
  - (* false *)
    cbn [count] in Hcap.
    pose proof Hl as Hl'. unfold layout_ok in Hl'. apply andb_true_iff in Hl' as [Hl' _].
    apply andb_true_iff in Hl' as [_ Hpost].
    eapply (scalar_value lw p k ty done l (print JFalse) "f"%char _
              LWJSON_TYPE_FALSE PNone 5); try done; [lia |].
    intros pv Hpv. exists (jl_post l ++ ws), None.
    rewrite (value_false_at txt pv _ Hpv).
    split; [done |]. split; [rewrite all_blank_app; by rewrite Hpost, Hws |]. split.
    + apply (drop_to txt pv _ (print JFalse)); [| done]. rewrite Hpv. by norm_app.
    + intros tk Hu. unfold payload_of, u_first_child. cbn [write_val]. by rewrite Hu.
  - (* null *)
    cbn [count] in Hcap.
    pose proof Hl as Hl'. unfold layout_ok in Hl'. apply andb_true_iff in Hl' as [Hl' _].
    apply andb_true_iff in Hl' as [_ Hpost].
    eapply (scalar_value lw p k ty done l (print JNull) "n"%char _
              LWJSON_TYPE_NULL PNone 4); try done; [lia |].
    intros pv Hpv. exists (jl_post l ++ ws), None.
    rewrite (value_null_at txt pv _ Hpv).
    split; [done |]. split; [rewrite all_blank_app; by rewrite Hpost, Hws |]. split.
    + apply (drop_to txt pv _ (print JNull)); [| done]. rewrite Hpv. by norm_app.
    + intros tk Hu. unfold payload_of, u_first_child. cbn [write_val]. by rewrite Hu.
  - (* a container *)
    cbn [wf] in Hwf. apply andb_true_iff in Hwf as [Hwf Hitems].
    apply andb_true_iff in Hwf as [Hvty Hinner].
    cbn [count] in Hcap.
    pose proof Hl as Hl'. unfold layout_ok in Hl'. apply andb_true_iff in Hl' as [Hl' _].
    apply andb_true_iff in Hl' as [_ Hpost].
    set (name := jn_key <$> jl_name l).
    set (body := join_items (map (fun it => let '(l, v) := it in print_item l (print v)) items)).
    set (n := next_free_token_pos lw) in *.
    destruct (follow_facts c Hc) as (Hcb & Hcn & _).
    assert (Hpw : all_blank (jl_post l ++ ws) = true)
      by (rewrite all_blank_app; by rewrite Hpost, Hws).
    destruct (item_prefix lw p k ty done l (open_delim vty)
                (body ++ inner ++ close_delim vty :: jl_post l ++ ws ++ c :: rest)
                Hctx Hl (opening_start vty Hvty))
      as (lw3 & pv & Hiter & Hpv & Hnul & Hop); [| lia |].
    { rewrite Hd. unfold print_item. cbn [print]. fold body. by norm_app. }
    fold n in Hiter, Hop.
    rewrite (value_open_at txt pv vty _ Hpv Hvty) in Hiter.
    destruct Hop as (Hn3 & Hold3 & Hty3 & Hu3 & Hfor3 & Ht1 & Ht2 & Ht3 & Ht4).
    fold n in Hn3, Hfor3, Ht1, Ht2, Ht3, Ht4.
    pose proof Hold3 as (Hlen3 & Hsame3 & Hnx3 & Hnm3 & Hnl3).
    pose proof Hctx as (Hn & Hty & Hcont & Hfc & Hpl & Hfor).
    set (lw4 := upd_token (Tok n) (fun tk => set_next (Some (ref_of k)) (set_type vty tk)) lw3)
      in *.
    assert (Hvt3 : valid_ref (tokens_len lw3) (Tok n)) by (rewrite Hlen3; simpl; lia).
    assert (Hget4 : forall r, get_token lw4 r
              = if decide (Tok n = r)
                then set_next (Some (ref_of k)) (set_type vty (get_token lw3 (Tok n)))
                else get_token lw3 r).
    { intros r. unfold lw4. by rewrite get_upd. }
    assert (Hlen4 : tokens_len lw4 = tokens_len lw)
      by (unfold lw4; by rewrite tokens_len_upd).
    (* the items *)
    assert (Hctx4 : ctx txt lw4 (S n) vty []).
    { change (ref_of (S n)) with (Tok n). split; [| split; [| split; [done | split; [| split]]]].
      - change (fsize []) with 0. unfold lw4. rewrite next_free_upd. lia.
      - rewrite Hget4, decide_True by done. done.
      - rewrite Hget4, decide_True by done. unfold u_first_child. cbn [u set_next set_type].
        by rewrite Ht2.
      - rewrite Hget4, decide_True by done. unfold payload_of. cbn [u set_next set_type].
        by rewrite Ht2.
      - done. }
    destruct (items_ok vty items IH Hitems lw4 (S pv) (S n) [] inner
                (jl_post l ++ ws ++ c :: rest) Hctx4 Hinner)
      as (lw5 & p5 & ws5 & Hr5 & Hctx5 & Hold5 & Hws5 & Hp5).
    { apply (drop_to txt pv _ [open_delim vty] _ Hpv). simpl. lia. }
    { unfold lw4. rewrite next_free_upd, tokens_len_upd, Hn3, Hlen3. lia. }
    cbn [app] in Hctx5.
    set (children := map (fun it => let '(l, v) := it in eval (jn_key <$> jl_name l) v) items)
      in *.
    pose proof Hctx5 as (Hn5 & Hty5 & _ & Hfc5 & Hpl5 & Hfor5).
    pose proof Hold5 as (Hlen5 & Hsame5 & Hnx5 & Hnm5 & Hnl5).
    change (ref_of (S n)) with (Tok n) in *.
    (* the closing delimiter *)
    assert (Hnx5' : next (get_token lw5 (Tok n)) = Some (ref_of k)).
    { rewrite Hnx5, Hget4, decide_True by done. done. }
    assert (Hcl : parse_iter txt (mk_pstate lw5 p5 (Tok n) false lwjsonOK)
              = Some (Next (mk_pstate (upd_token (Tok n) (set_next None) lw5)
                              (S (p5 + length ws5)) (ref_of k) false lwjsonOK))).
    { rewrite (iter_close txt lw5 p5 (Tok n) ws5 (jl_post l ++ ws ++ c :: rest))
        by (try done; by rewrite Hty5).
      by rewrite Hnx5'. }
    set (lw6 := upd_token (Tok n) (set_next None) lw5) in *.
    assert (Hvt5 : valid_ref (tokens_len lw5) (Tok n)) by (rewrite Hlen5, Hlen4; simpl; lia).
    assert (Hget6 : forall r, get_token lw6 r
              = if decide (Tok n = r) then set_next None (get_token lw5 (Tok n))
                else get_token lw5 r).
    { intros r. unfold lw6. by rewrite get_upd. }
    assert (Hold6 : forall i, i <= n -> get_token lw6 (ref_of i) = get_token lw3 (ref_of i)).
    { intros i Hi. rewrite Hget6. rewrite decide_False
        by (intros H; symmetry in H; apply ref_of_Tok in H; lia).
      rewrite Hsame5 by lia. rewrite Hget4. rewrite decide_False; [done |].
      intros H. symmetry in H. apply ref_of_Tok in H. lia. }
    assert (Hp6 : drop (S (p5 + length ws5)) txt = (jl_post l ++ ws) ++ c :: rest).
    { apply (drop_to txt p5 _ (ws5 ++ [close_delim vty])).
      - rewrite Hp5. by norm_app.
      - rewrite length_app. simpl. lia. }
    assert (Hnul5 : is_nul (peek txt p5) = false).
    { apply (head_not_nul txt p5 ws5 (close_delim vty) _ Hp5 Hws5).
      by destruct (close_delim_facts vty) as [-> | ->]. }
    assert (Hreach : loop_reaches txt (mk_pstate lw p (ref_of k) false lwjsonOK)
                       (mk_pstate lw6 (S (p5 + length ws5)) (ref_of k) false lwjsonOK)).
    { eapply reaches_next; [exact Hnul | exact Hiter |].
      eapply loop_reaches_trans; [exact Hr5 |]. by apply loop_reaches_one. }
    assert (Hctx6 : ctx txt lw6 k ty (done ++ [eval name (JContainer vty items inner)])).
    { cbn [eval]. fold children.
      split; [| split; [| split; [done | split; [| split]]]].
      - rewrite fsize_app.
        change (fsize [RNode name vty PNone children]) with (S (fsize children + 0)).
        unfold lw6. rewrite next_free_upd. change (fsize []) with 0 in Hn.
        lia.
      - rewrite Hold6 by lia. done.
      - rewrite Hold6 by lia. unfold u_first_child. rewrite Hu3. by destruct done.
      - rewrite Hold6 by lia. unfold payload_of. by rewrite Hu3.
      - apply forest_snoc.
        + replace (S k + fsize done) with (S n) by lia. change (ref_of (S n)) with (Tok n).
          eapply forest_at_same; [| exact Hfor3]. intros i Hi. apply Hold6. lia.
        + replace (S k + fsize done) with (S n) by lia. apply tree_at_eq.
          change (ref_of (S n)) with (Tok n). rewrite Hget6, decide_True by done.
          split; [exact Hty5 |]. split; [| split; [exact Hpl5 | split; [exact Hfc5 |]]].
          * unfold name_of in *. cbn [token_name token_name_len set_next].
            rewrite Hnm5, Hnl5, Hget4, decide_True by done. done.
          * eapply forest_at_same; [| exact Hfor5]. intros i Hi. rewrite Hget6.
            rewrite decide_False; [done |].
            intros H. symmetry in H. apply ref_of_Tok in H. lia.
        + replace (S k + fsize done) with (S n) by lia. change (ref_of (S n)) with (Tok n).
          rewrite Hget6, decide_True by done. done. }
    assert (Hold : older_same k lw lw6).
    { eapply older_same_trans; [exact Hold3 |].
      split; [unfold lw6; rewrite tokens_len_upd; congruence |].
      split; [intros j Hj; apply Hold6; lia |]. rewrite Hold6 by lia. done. }
    destruct (is_char c ",") eqn:Hcm.
    + apply is_char_eq in Hcm. injection Hcm as <-.
      exists lw6, (S (S (p5 + length ws5) + length (jl_post l ++ ws))).
      split; [| split; [done | split; [done |]]].
      * eapply loop_reaches_trans; [exact Hreach |]. apply loop_reaches_one.
        -- by apply (head_not_nul txt _ (jl_post l ++ ws) ","%char rest Hp6).
        -- by apply (iter_comma txt lw6 _ (ref_of k) (jl_post l ++ ws) rest).
      * apply (drop_to txt (S (p5 + length ws5)) _ ((jl_post l ++ ws) ++ [","%char])).
        -- rewrite Hp6. by norm_app.
        -- rewrite (length_app (jl_post l ++ ws) [","%char]). cbn [length]. lia.
    + exists lw6, (S (p5 + length ws5)). split; [done |]. split; [done |].
      split; [done |]. exists (jl_post l ++ ws). done.
Qed.

End Items.

Section Reading.
Context {real : Type} {RT : RealType real}.
Variable txt : text.
Implicit Types (lw : lwjson_t real) (cs : list (rtree real)).

Lemma siblings_forest lw cs :
  forall k fuel,
    forest_at txt lw k cs None -> length cs <= fuel ->
    siblings lw fuel (match cs with [] => None | _ => Some (ref_of k) end)
    = Some (roots k cs).
Proof.
  induction cs as [|c cs IH]; intros k fuel Hf Hlen.
  - by destruct fuel.
  - destruct fuel as [|fuel]; [simpl in Hlen; lia |].
    cbn [forest_at] in Hf. destruct Hf as (_ & Hn & Hf).
    cbn [siblings roots]. rewrite Hn. rewrite (IH (k + tsize c) fuel Hf) by (simpl in Hlen; lia).
    done.
Qed.

(** Following the links from a token that holds a tree reads that tree. *)
Lemma read_tree_at lw (t : rtree real) :
  forall k fuel,
    tree_at txt lw k t -> tsize t <= fuel -> k + tsize t <= S (next_free_token_pos lw) ->
    read_tree txt lw fuel (ref_of k) = Some t.
Proof.
  induction t as [name ty val cs IH] using rtree_ind'. intros k fuel Ht Hfuel Hbound.
  apply tree_at_eq in Ht as (Hty & Hnm & Hpl & Hfc & Hfor).
  cbn [tsize] in Hfuel, Hbound. fold (fsize cs) in Hfuel, Hbound.
  destruct fuel as [|fuel]; [lia |]. cbn [read_tree]. rewrite Hfc.
  pose proof (length_le_fsize cs) as Hlen.
  rewrite (siblings_forest lw cs (S k) _ Hfor) by lia. cbn [mbind option_bind].
  assert (Hmap : forall k', S k <= k' -> k' + fsize cs <= S (next_free_token_pos lw) ->
            fsize cs <= fuel -> forest_at txt lw k' cs None ->
            mapM (read_tree txt lw fuel) (roots k' cs) = Some cs).
  { clear Hfc Hfor Hlen Hfuel Hbound.
    induction IH as [|c cs Hc _ IHcs]; intros k' Hk' Hb Hfu Hf; [done |].
    rewrite fsize_cons in Hb, Hfu. cbn [forest_at] in Hf. destruct Hf as (Ht & _ & Hf).
    cbn [roots mapM]. rewrite (Hc k' fuel Ht) by lia. cbn [mbind option_bind].
    rewrite (IHcs (k' + tsize c)) by (try done; lia). done. }
  rewrite (Hmap (S k)) by (try done; lia). cbn [mbind option_bind].
  by rewrite Hty, Hnm, Hpl.
Qed.

Lemma skip_end p (trail : text) :
  drop p txt = trail ->
  is_nul (peek txt (prv_skip_blank txt p).2) = is_nul (peek trail 0).
Proof.
  intros Hd. unfold prv_skip_blank. rewrite Hd.
  assert (H0 : peek txt p = peek trail 0).
  { rewrite <- (Nat.add_0_r p). by apply peek_at. }
  destruct (is_nul (peek txt (p + blank_run trail))) eqn:Hn; cbn [snd].
  - rewrite H0. destruct trail as [|c trail]; [done |]. cbn [blank_run] in Hn.
    change (peek (c :: trail) 0) with c in *.
    destruct (is_blank c) eqn:Hb; [by apply blank_facts in Hb as [-> _] |].
    rewrite Nat.add_0_r, H0 in Hn. done.
  - rewrite Hn. destruct trail as [|c trail].
    + simpl in Hn. by rewrite Nat.add_0_r, H0 in Hn.
    + change (peek (c :: trail) 0) with c in *. cbn [blank_run] in Hn.
      destruct (is_blank c) eqn:Hb; [by apply blank_facts in Hb as [-> _] |].
      rewrite Nat.add_0_r, H0 in Hn. done.
Qed.

End Reading.

(** ** Well-formed documents are parsed into their tree *)

(** The layout a parse leaves for a well-formed document: the tokens hold
    its tree in the order of the text, the root first. *)
Lemma parse_document_layout {real : Type} {RT : RealType real}
    (lw : lwjson_t real) (lead : text) (ty : lwjson_type_t)
    (items : list (jlayout * jvalue)) (inner trail : text) :
  wf (JContainer ty items inner) = true ->
  all_blank lead = true ->
  count (JContainer ty items inner) <= S (tokens_len lw) ->
  let doc := JContainer ty items inner in
  let txt := lead ++ print doc ++ trail in
  exists lw',
    lwjson_parse lw (Some txt)
    = Some (if is_nul (peek trail 0) then lwjsonOK else lwjsonERR, lw')
    /\ S (next_free_token_pos lw') = count doc
    /\ tree_at txt lw' 0 (eval None doc).
Proof.
  intros Hwf Hlead Hcap doc txt.
  pose proof Hwf as Hwf'. cbn [wf] in Hwf'. apply andb_true_iff in Hwf' as [Hwf' Hitems].
  apply andb_true_iff in Hwf' as [Hty Hinner].
  set (body := join_items (map (fun it => let '(l, v) := it in print_item l (print v)) items)).
  assert (Htxt : drop 0 txt
            = lead ++ open_delim ty :: body ++ inner ++ close_delim ty :: trail).
  { unfold txt, doc. cbn [print drop]. fold body. by norm_app. }
  assert (Hob : is_blank (open_delim ty) = false /\ is_nul (open_delim ty) = false)
    by (by destruct ty).
  assert (Hnul0 : is_nul (peek txt 0) = false).
  { apply (head_not_nul txt 0 lead (open_delim ty) _ Htxt); [done | apply Hob]. }
  (* the first iteration *)
  set (st0 := parse_entry lw).
  set (lw1 := upd_token FirstToken (set_type ty) (st_lw st0)).
  assert (Hit0 : parse_iter txt st0
            = Some (Next (mk_pstate lw1 (S (0 + length lead)) FirstToken false lwjsonOK))).
  { by apply (iter_first txt _ 0 lead ty _ Htxt). }
  assert (Hctx1 : ctx txt lw1 0 ty []) by (by repeat split).
  assert (Hp1 : drop (S (0 + length lead)) txt = body ++ inner ++ close_delim ty :: trail).
  { apply (drop_to txt 0 _ (lead ++ [open_delim ty])).
    - rewrite Htxt. by norm_app.
    - rewrite length_app. simpl. lia. }
  assert (IH : Forall (fun it => wf it.2 = true -> item_spec txt it.2) items).
  { apply Forall_forall. intros it _. apply item_ok. }
  destruct (items_ok txt ty items IH Hitems lw1 _ 0 [] inner trail Hctx1 Hinner Hp1)
    as (lw2 & p2 & ws2 & Hr2 & Hctx2 & Hold2 & Hws2 & Hp2).
  { cbn [count] in Hcap. unfold lw1. rewrite next_free_upd, tokens_len_upd.
    change (next_free_token_pos (st_lw st0)) with 0.
    change (tokens_len (st_lw st0)) with (tokens_len lw). lia. }
  cbn [app] in Hctx2.
  set (children := map (fun it => let '(l, v) := it in eval (jn_key <$> jl_name l) v) items)
    in *.
  pose proof Hctx2 as (Hn2 & Hty2 & _ & Hfc2 & Hpl2 & Hfor2).
  pose proof Hold2 as (Hlen2 & _ & Hnx2 & Hnm2 & Hnl2).
  change (ref_of 0) with FirstToken in *.
  (* the closing delimiter of the root *)
  set (lw3 := upd_token FirstToken (set_next None) lw2).
  assert (Hp3 : drop (S (p2 + length ws2)) txt = trail).
  { apply (drop_to txt p2 _ (ws2 ++ [close_delim ty])).
    - rewrite Hp2. by norm_app.
    - rewrite length_app. simpl. lia. }
  assert (Hit2 : parse_iter txt (mk_pstate lw2 p2 FirstToken false lwjsonOK)
            = Some (Ret (if is_nul (peek trail 0) then lwjsonOK else lwjsonERR) lw3)).
  { rewrite (iter_close txt lw2 p2 FirstToken ws2 trail) by (try done; by rewrite Hty2).
    rewrite Hnx2. cbn [get_token]. unfold lw1.
    change (next (first_token (upd_token FirstToken (set_type ty) (st_lw st0)))) with (@None tokref).
    by rewrite (skip_end txt _ trail Hp3). }
  assert (Hnul2 : is_nul (peek txt p2) = false).
  { apply (head_not_nul txt p2 ws2 (close_delim ty) _ Hp2 Hws2).
    by destruct (close_delim_facts ty) as [-> | ->]. }
  assert (Hreach : loop_reaches txt st0 (mk_pstate lw2 p2 FirstToken false lwjsonOK)).
  { eapply reaches_next; [exact Hnul0 | exact Hit0 | exact Hr2]. }
  destruct (loop_reaches_parse_loop txt _ _ (length txt) Hreach (parse_entry_inv lw))
    as (fuel' & Hfuel' & Hloop); [simpl; lia |].
  cbn [st_p] in Hfuel'. pose proof (peek_not_nul_lt _ _ Hnul2) as Hlt2.
  destruct fuel' as [|fuel']; [lia |].
  cbn [parse_loop st_p] in Hloop. rewrite Hnul2, Hit2 in Hloop.
  unfold lwjson_parse. rewrite Hnul0. fold (parse_entry lw). fold st0. rewrite Hloop.
  cbn [fmap option_fmap option_map].
  set (res := if is_nul (peek trail 0) then lwjsonOK else lwjsonERR).
  exists (parse_ret (res, lw3)).2.
  destruct (parse_ret_frame res lw3) as (Hr & Hnf & Hlen' & Htok & Hft).
  split; [| split].
  - reflexivity.
  - rewrite Hnf. unfold lw3. rewrite next_free_upd, <- Hn2.
    unfold doc. cbn [count]. unfold children, fsize. rewrite map_map.
    cbn [Nat.add]. f_equal. f_equal. apply map_ext. intros [l v]. apply tsize_eval.
  - assert (Hvr : valid_ref (tokens_len lw2) FirstToken) by done.
    assert (Hget' : forall r, get_token (parse_ret (res, lw3)).2 r = get_token lw3 r).
    { intros [|i]; unfold get_token; by rewrite ?Hft, ?Htok. }
    assert (Hget3 : forall i, 0 < i -> get_token lw3 (ref_of i) = get_token lw2 (ref_of i)).
    { intros i Hi. unfold lw3. rewrite get_upd by done. rewrite decide_False; [done |].
      destruct i; [lia | done]. }
    assert (Ht3 : tree_at txt lw3 0 (eval None doc)).
    { unfold doc. cbn [eval]. fold children. apply tree_at_eq.
      change (ref_of 0) with FirstToken. unfold lw3. rewrite get_upd, decide_True by done.
      split; [exact Hty2 |]. split; [| split; [exact Hpl2 | split; [exact Hfc2 |]]].
      - unfold name_of in *. cbn [token_name token_name_len set_next].
        rewrite Hnm2, Hnl2. done.
      - eapply forest_at_same; [| exact Hfor2]. intros i Hi. apply Hget3. lia. }
    eapply tree_at_ext; [| | exact Ht3].
    + intros i Hi. apply Hget'.
    + rewrite Hget'. done.
Qed.

(** A well-formed object or array, written with any blanks between its
    tokens and after any leading blanks, is parsed into the tree it stands
    for whenever the array holds one slot for each of its values: reading
    the tokens from the root along the first-child and next links gives
    the names, types, string payloads and numbers of the document, in
    order, and the tokens in use are the root and one per value.  The
    status is [lwjsonOK] when the text ends right after the closing
    delimiter of the root, and [lwjsonERR] when anything follows it, blanks
    included. *)
Theorem lwjson_parse_document {real : Type} {RT : RealType real}
    (lw : lwjson_t real) (lead : text) (ty : lwjson_type_t)
    (items : list (jlayout * jvalue)) (inner trail : text) :
  wf (JContainer ty items inner) = true ->
  all_blank lead = true ->
  count (JContainer ty items inner) <= S (tokens_len lw) ->
  let doc := JContainer ty items inner in
  let txt := lead ++ print doc ++ trail in
  exists lw',
    lwjson_parse lw (Some txt)
    = Some (if is_nul (peek trail 0) then lwjsonOK else lwjsonERR, lw')
    /\ lwjson_get_tokens_used lw' = count doc
    /\ read_tree txt lw' (count doc) FirstToken = Some (eval None doc).
Proof.
  intros Hwf Hlead Hcap doc txt.
  destruct (parse_document_layout lw lead ty items inner trail Hwf Hlead Hcap)
    as (lw' & Hparse & Hused & Htree).
  fold doc in Hparse, Hused, Htree. fold txt in Hparse, Htree.
  exists lw'. split; [exact Hparse |]. split.
  - unfold lwjson_get_tokens_used. rewrite <- Hused. lia.
  - apply (read_tree_at txt lw' (eval None doc) 0); [exact Htree | |].
    + by rewrite tsize_eval.
    + rewrite tsize_eval, <- Hused. lia.
Qed.

(** The sample document, after one leading blank. *)
Lemma lwjson_parse_document_witness :
  exists lw',
    lwjson_parse (arena (real := float) 7)
      (Some (json " " ++ print sample_doc ++ []))
    = Some (lwjsonOK, lw')
    /\ lwjson_get_tokens_used lw' = count sample_doc
    /\ read_tree (json " " ++ print sample_doc ++ []) lw' (count sample_doc) FirstToken
       = Some (eval None sample_doc).
Proof.
  apply (lwjson_parse_document (arena 7) (json " ") LWJSON_TYPE_OBJECT _ (json " ") []).
  - vm_compute. reflexivity.
  - reflexivity.
  - vm_compute. lia.
Defined.

(** ** Printed paths and the segment scan *)

Section PathText.

Lemma peek_eq_ext (a b : text) :
  length a = length b -> (forall k, k < length a -> peek a k = peek b k) -> a = b.
Proof.
  revert b. induction a as [|x a IH]; intros [|y b] Hlen H; simpl in *; try done.
  f_equal.
  - apply (H 0). lia.
  - apply IH; [lia |]. intros k Hk. apply (H (S k)). lia.
Qed.

Lemma segment_run_key (key tail : text) :
  forallb (fun c => negb (is_nul c) && negb (is_char c ".")) key = true ->
  is_nul (peek tail 0) || is_char (peek tail 0) "." = true ->
  segment_run (key ++ tail) = length key.
Proof.
  intros Hk Ht. induction key as [|c key IH]; cbn [app length segment_run forallb] in *.
  - destruct tail as [|c tail]; [done |]. change (peek (c :: tail) 0) with c in Ht.
    cbn [segment_run]. by rewrite Ht.
  - apply andb_true_iff in Hk as [Hc Hk]. apply andb_true_iff in Hc as [Hc1 Hc2].
    apply negb_true_iff in Hc1, Hc2. rewrite Hc1, Hc2. cbn [orb]. by rewrite IH.
Qed.

Lemma length_print_path segs : path_ok segs = true -> length segs <= length (print_path segs).
Proof.
  induction segs as [|s segs IH]; [done |]. cbn [path_ok forallb print_path length].
  intros H. apply andb_true_iff in H as [Hs H]. specialize (IH H).
  assert (0 < length (print_seg s)).
  { destruct s as [[|c key]|]; simpl in *; try done; lia. }
  destruct segs as [|s' segs]; [simpl; lia |].
  rewrite length_app. cbn [length] in *. lia.
Qed.

End PathText.

Section Segments.
Variable ptxt : text.

Lemma print_path_cons s (rest : list jseg) :
  print_path (s :: rest)
  = print_seg s ++ match rest with [] => [] | _ => "."%char :: print_path rest end.
Proof. destruct rest; cbn [print_path]; [by rewrite app_nil_r | done]. Qed.

(** The segment scan at a name of a printed path. *)
Lemma segment_key p key (rest : list jseg) :
  key_ok key = true ->
  drop p ptxt = print_path (SKey key :: rest) ->
  prv_create_path_segment ptxt p
  = Some (S (p + length key), p, length key, bool_decide (rest = []))
  /\ is_char (peek ptxt p) "#" = false
  /\ segment_run (drop p ptxt) = length key
  /\ (forall j, j < length key -> peek ptxt (p + j) = peek key j)
  /\ (rest <> [] -> drop (S (p + length key)) ptxt = print_path rest).
Proof.
  intros Hk Hd. rewrite print_path_cons in Hd. cbn [print_seg] in Hd.
  set (tail := match rest with [] => [] | _ => "."%char :: print_path rest end) in *.
  destruct key as [|c key]; [done |]. cbn [key_ok] in Hk.
  apply andb_true_iff in Hk as [Hhash Hall]. apply negb_true_iff in Hhash.
  assert (Hc : peek ptxt p = c) by (by apply (peek_at0 ptxt p c (key ++ tail))).
  assert (Htail : is_nul (peek tail 0) || is_char (peek tail 0) "." = true).
  { unfold tail. by destruct rest. }
  assert (Hrun : segment_run (drop p ptxt) = length (c :: key)).
  { rewrite Hd. by apply segment_run_key. }
  assert (Hend : peek ptxt (p + length (c :: key)) = peek tail 0).
  { rewrite (peek_at ptxt p _ _ Hd).
    rewrite <- (Nat.add_0_r (length (c :: key))). apply peek_app_r. }
  pose proof Hall as Hall'. cbn [forallb] in Hall'. apply andb_true_iff in Hall' as [Hc' _].
  apply andb_true_iff in Hc' as [Hnul _]. apply negb_true_iff in Hnul.
  split; [| split; [by rewrite Hc | split; [exact Hrun | split]]].
  - unfold prv_create_path_segment. rewrite Hc, Hnul, Hhash, Hrun, Hend.
    do 2 f_equal. unfold tail. by destruct rest.
  - intros j Hj. rewrite (peek_at ptxt p _ _ Hd). by apply peek_app_l.
  - intros Hrest. apply (drop_to ptxt p _ ((c :: key) ++ ["."%char])).
    + rewrite Hd. unfold tail. destruct rest; [done |]. by rewrite <- app_assoc.
    + rewrite length_app. simpl. lia.
Qed.

(** The segment scan at a wildcard of a printed path. *)
Lemma segment_any p (rest : list jseg) :
  drop p ptxt = print_path (SAny :: rest) ->
  prv_create_path_segment ptxt p
  = match rest with [] => None | _ => Some (p + 1 + 1, p, 1, false) end
  /\ is_char (peek ptxt p) "#" = true
  /\ (rest <> [] -> drop (p + 1 + 1) ptxt = print_path rest).
Proof.
  intros Hd. rewrite print_path_cons in Hd. cbn [print_seg app] in Hd.
  assert (Hc : peek ptxt p = "#"%char) by (by eapply peek_at0).
  assert (Hn : peek ptxt (S p)
               = peek (match rest with [] => [] | _ => "."%char :: print_path rest end) 0).
  { rewrite <- Nat.add_1_r. by rewrite (peek_at ptxt p _ 1 Hd). }
  split; [| split; [by rewrite Hc |]].
  - unfold prv_create_path_segment. rewrite Hc, Hn. by destruct rest.
  - intros Hrest. apply (drop_to ptxt p _ ["#"%char; "."%char]); [| simpl; lia].
    rewrite Hd. by destruct rest.
Qed.

End Segments.

Section NameTest.
Context {real : Type}.

Lemma slice_ok_bound (txt : text) nm len : slice_ok txt nm len -> nm + len <= length txt.
Proof.
  intros [Hnm H]. destruct len as [|len]; [lia |].
  pose proof (peek_not_nul_lt txt (nm + len) (H (nm + len) ltac:(lia))). lia.
Qed.

Lemma slice_length (txt : text) nm len :
  slice_ok txt nm len -> length (slice txt nm len) = len.
Proof.
  intros H. apply slice_ok_bound in H. unfold slice.
  rewrite length_take, length_drop. lia.
Qed.

Lemma peek_slice (txt : text) nm len k :
  k < len -> peek (slice txt nm len) k = peek txt (nm + k).
Proof.
  intros Hk. rewrite <- peek_drop. unfold slice, peek.
  change text with (list ascii) in *. by rewrite lookup_take_lt.
Qed.

(** On a token whose name can be read, the test of [prv_find] against a
    segment that spells [key] holds exactly when the token has that
    name. *)
Lemma name_matches_key (txt ptxt : text) (x : lwjson_token_t real) p (key : text) :
  name_ok txt x -> key <> [] ->
  segment_run (drop p ptxt) = length key ->
  (forall j, j < length key -> peek ptxt (p + j) = peek key j) ->
  name_matches txt ptxt x p (length key) = bool_decide (name_of txt x = Some key).
Proof.
  intros Hok Hne Hrun Hchars.
  apply eq_true_iff_eq. rewrite <- Hrun, name_matches_chars, Hrun, bool_decide_eq_true.
  unfold name_ok, name_of in *. destruct (token_name x) as [nm|]; cbn [fmap option_fmap option_map].
  - pose proof (slice_length txt nm _ Hok) as Hlen. split.
    + intros [Hl H]. f_equal. apply peek_eq_ext; [lia |].
      intros k Hk. rewrite Hlen in Hk. rewrite peek_slice by done.
      rewrite H by done. apply Hchars. lia.
    + intros [= Hs]. rewrite <- Hs in *. split; [lia |].
      intros k Hk. rewrite <- peek_slice with (len := token_name_len x) by done.
      symmetry. apply Hchars. lia.
  - split; [| done]. intros [Hl H]. destruct key; [done | simpl in *; lia].
Qed.

End NameTest.

Section Locate.
Context {real : Type} {RT : RealType real}.
Variables (txt ptxt : text) (lw : lwjson_t real).
Implicit Types (cs : list (rtree real)) (t : rtree real).

Lemma roots_ranked k cs : roots k cs = (fun kc => ref_of kc.1) <$> ranked k cs.
Proof. revert k. induction cs as [|c cs IH]; intros k; cbn; [done |]. by rewrite IH. Qed.

(** The trees of a forest, with their ranks. *)
Lemma ranked_forest cs :
  forall k last kc,
    forest_at txt lw k cs last -> kc ∈ ranked k cs ->
    tree_at txt lw kc.1 kc.2 /\ k <= kc.1 /\ kc.1 + tsize kc.2 <= k + fsize cs.
Proof.
  induction cs as [|c cs IH]; intros k last kc Hf Hin; [by apply elem_of_nil in Hin |].
  cbn [forest_at ranked] in *. destruct Hf as (Ht & _ & Hf). rewrite fsize_cons.
  apply elem_of_cons in Hin as [-> | Hin]; [cbn; split; [done | lia] |].
  destruct (IH _ _ _ Hf Hin) as (? & ? & ?). split; [done | lia].
Qed.

(** A sibling loop whose body does on each child what [g] says. *)
Lemma first_result_ranked (body : tokref -> option (option tokref))
    (g : nat * rtree real -> option (nat * rtree real)) (l : list (nat * rtree real)) :
  (forall kc, kc ∈ l -> body (ref_of kc.1) = Some (found (g kc))) ->
  first_result (body <$> ((fun kc => ref_of kc.1) <$> l)) = Some (found (first_some (map g l))).
Proof.
  induction l as [|kc l IH]; intros H; [done |].
  cbn [fmap list_fmap map first_result first_some].
  rewrite (H kc) by (apply elem_of_cons; by left).
  destruct (g kc) as [r|]; [done |]. cbn. apply IH.
  intros kc' Hin. apply H. by (apply elem_of_cons; by right).
Qed.

Lemma for_children (k : nat) name ty val cs fuel body
    (g : nat * rtree real -> option (nat * rtree real)) :
  tree_at txt lw k (RNode name ty val cs) -> length cs <= fuel ->
  (forall kc, kc ∈ ranked (S k) cs -> body (ref_of kc.1) = Some (found (g kc))) ->
  for_siblings lw fuel (u_first_child (get_token lw (ref_of k))) body
  = Some (found (first_some (map g (ranked (S k) cs)))).
Proof.
  intros Ht Hlen Hbody. apply tree_at_eq in Ht as (_ & _ & _ & Hfc & Hfor).
  rewrite Hfc.
  rewrite (for_siblings_first_result lw fuel _ body (roots (S k) cs))
    by (by apply (siblings_forest txt)).
  rewrite roots_ranked. by apply first_result_ranked.
Qed.

(** The search from the token that holds the tree [t] finds what the path
    locates in [t]. *)
Lemma prv_find_locate (K : nat) :
  (forall j, j < K -> name_ok txt (get_token lw (ref_of j))) ->
  forall segs depth fuel k t p,
    tree_at txt lw k t -> k + tsize t <= K ->
    path_ok segs = true -> drop p ptxt = print_path segs ->
    length segs < depth -> tsize t <= fuel ->
    prv_find txt ptxt lw fuel depth (ref_of k) p = Some (found (locate segs k t)).
Proof.
  intros Hnames. induction segs as [|s rest IH]; intros depth fuel k t p Ht HK Hok Hd Hdepth Hfuel;
    (destruct depth as [|depth]; [simpl in Hdepth; lia |]); cbn [length] in Hdepth.
  { cbn [prv_find locate]. unfold prv_create_path_segment.
    rewrite <- (Nat.add_0_r p), (peek_at ptxt p _ 0 Hd). done. }
  cbn [path_ok forallb] in Hok. apply andb_true_iff in Hok as [Hs Hok].
  destruct t as [name ty val cs]. pose proof Ht as Ht'.
  apply tree_at_eq in Ht' as (Hty & _ & _ & _ & Hfor).
  cbn [tsize] in HK, Hfuel. fold (fsize cs) in HK, Hfuel.
  pose proof (length_le_fsize cs) as Hlen.
  destruct s as [key|].
  - (* a name *)
    destruct (segment_key ptxt p key rest Hs Hd) as (Hseg & Hhash & Hrun & Hchars & Hnext).
    assert (Hkey : key <> []) by (by destruct key).
    cbn [prv_find locate rt_type rt_children]. rewrite Hseg, Hhash. cbn [andb]. rewrite Hty.
    case_decide as Hobj; [| by rewrite bool_decide_false].
    rewrite bool_decide_true by done. cbn [negb].
    apply (for_children k name ty val cs); [done | lia |].
    intros kc Hin. destruct (ranked_forest cs _ _ kc Hfor Hin) as (Hkc & Hlo & Hhi).
    pose proof (tsize_pos kc.2) as Hpos.
    rewrite (name_matches_key txt ptxt _ p key) by (try done; apply Hnames; lia).
    assert (Hnm : name_of txt (get_token lw (ref_of kc.1)) = rt_name kc.2).
    { destruct kc as [kc [cname cty cval ccs]]. by apply tree_at_eq in Hkc as (_ & ? & _). }
    rewrite Hnm. case_decide as Hname.
    + rewrite bool_decide_true by done.
      destruct rest as [|s' rest']; [by rewrite bool_decide_true |].
      rewrite bool_decide_false by done.
      apply IH; try done; try lia. by apply Hnext.
    + by rewrite bool_decide_false.
  - (* the wildcard *)
    destruct (segment_any ptxt p rest Hd) as (Hseg & Hhash & Hnext).
    cbn [prv_find locate rt_type rt_children]. rewrite Hseg.
    destruct rest as [|s' rest'].
    { case_decide; [| done]. symmetry. f_equal.
      assert (Hno : first_some (map (fun kc : nat * rtree real => locate [] kc.1 kc.2)
                                     (ranked (S k) cs)) = None)
        by (generalize (ranked (S k) cs); intros l; by induction l).
      by rewrite Hno. }
    rewrite Hhash. cbn [andb Nat.eqb]. rewrite Hty.
    case_decide as Harr; [| by rewrite bool_decide_false].
    rewrite bool_decide_true by done. cbn [negb].
    apply (for_children k name ty val cs); [done | lia |].
    intros kc Hin. destruct (ranked_forest cs _ _ kc Hfor Hin) as (Hkc & Hlo & Hhi).
    apply IH; try done; try lia. by apply Hnext.
Qed.

(** The node a path locates is held by the tokens from its rank on. *)
Lemma locate_tree_at :
  forall segs k t j sub,
    tree_at txt lw k t -> locate segs k t = Some (j, sub) ->
    tree_at txt lw j sub /\ k <= j /\ j + tsize sub <= k + tsize t.
Proof.
  induction segs as [|s rest IH]; intros k t j sub Ht Hloc; [done |].
  destruct t as [name ty val cs]. pose proof Ht as Ht'.
  apply tree_at_eq in Ht' as (_ & _ & _ & _ & Hfor).
  cbn [tsize]. fold (fsize cs).
  assert (Hin : forall (g : nat * rtree real -> option (nat * rtree real)) l,
            first_some (map g l) = Some (j, sub) -> exists kc, kc ∈ l /\ g kc = Some (j, sub)).
  { intros g l. induction l as [|kc l IHl]; [done |]. cbn [map first_some].
    destruct (g kc) as [r|] eqn:Hg.
    - intros [= ->]. exists kc. split; [apply elem_of_cons; by left | done].
    - intros H. destruct (IHl H) as (kc' & ? & ?). exists kc'.
      split; [apply elem_of_cons; by right | done]. }
  cbn [locate rt_type rt_children] in Hloc. destruct s as [key|].
  - case_decide; [| done]. apply Hin in Hloc as (kc & Hkc & Hg).
    destruct (ranked_forest cs _ _ kc Hfor Hkc) as (Hkt & Hlo & Hhi).
    case_decide; [| done]. destruct rest as [|s' rest'].
    + injection Hg as ->. cbn [fst snd] in *. split; [done | lia].
    + destruct (IH _ _ _ _ Hkt Hg) as (? & ? & ?). split; [done | lia].
  - case_decide; [| done]. apply Hin in Hloc as (kc & Hkc & Hg).
    destruct (ranked_forest cs _ _ kc Hfor Hkc) as (Hkt & Hlo & Hhi).
    destruct (IH _ _ _ _ Hkt Hg) as (? & ? & ?). split; [done | lia].
Qed.

End Locate.

(** ** Searching a parsed document *)

Lemma parse_flag_text {real : Type} {RT : RealType real} (lw : lwjson_t real)
    (txt : text) (res : lwjsonr_t) (lw' : lwjson_t real) :
  lwjson_parse lw (Some txt) = Some (res, lw') ->
  flags_parsed lw' = bool_decide (res = lwjsonOK).
Proof.
  unfold lwjson_parse.
  destruct (is_nul (peek txt 0)); [by intros [= <- <-] |].
  destruct (parse_loop txt (length txt) _) as [[r la]|] eqn:Hl; [| done].
  apply parse_loop_grows in Hl as (_ & _ & Hf). simpl in Hf.
  intros H. apply (inj Some) in H. unfold parse_ret in H.
  case_decide; injection H as <- <-; [by rewrite bool_decide_true |].
  by rewrite bool_decide_false.
Qed.

(** Functional correctness of the search: once a well-formed
    document has been parsed with status [lwjsonOK], [lwjson_find] with a
    path of names and wildcards separated by dots returns the token of the
    node the path locates in the tree of the document, and [NULL] when it
    locates none; the tokens from the one returned on hold the subtree
    located.  When text follows the document the parse has not succeeded
    and nothing is found. *)
Theorem lwjson_find_document {real : Type} {RT : RealType real}
    (lw : lwjson_t real) (lead : text) (ty : lwjson_type_t)
    (items : list (jlayout * jvalue)) (inner trail : text) (segs : list jseg) :
  wf (JContainer ty items inner) = true ->
  all_blank lead = true ->
  count (JContainer ty items inner) <= S (tokens_len lw) ->
  path_ok segs = true ->
  let doc := JContainer ty items inner in
  let txt := lead ++ print doc ++ trail in
  exists lw',
    lwjson_parse lw (Some txt)
    = Some (if is_nul (peek trail 0) then lwjsonOK else lwjsonERR, lw')
    /\ lwjson_find txt lw' (Some (print_path segs))
       = Some (if is_nul (peek trail 0) then found (locate segs 0 (eval None doc))
               else None)
    /\ forall j sub,
         locate segs 0 (eval None doc) = Some (j, sub) ->
         read_tree txt lw' (tsize sub) (ref_of j) = Some sub.
Proof.
  intros Hwf Hlead Hcap Hpath doc txt.
  destruct (parse_document_layout lw lead ty items inner trail Hwf Hlead Hcap)
    as (lw' & Hparse & Hused & Htree).
  fold doc in Hparse, Hused, Htree. fold txt in Hparse, Htree.
  exists lw'. split; [exact Hparse |].
  pose proof (parse_flag_text _ _ _ _ Hparse) as Hflag.
  destruct (lwjson_parse_safe _ _ _ _ Hparse) as [(_ & Hok & _) _].
  assert (Hnames : forall j, j < S (next_free_token_pos lw') ->
            name_ok txt (get_token lw' (ref_of j))).
  { intros j Hj. apply Hok. destruct j; simpl; [done | lia]. }
  split.
  - unfold lwjson_find. rewrite Hflag.
    destruct (is_nul (peek trail 0)); [| done].
    rewrite bool_decide_true by done. cbn [negb].
    change (lwjson_get_first_token lw') with (ref_of 0).
    apply (prv_find_locate txt (print_path segs) lw' (S (next_free_token_pos lw')) Hnames);
      try done.
    + rewrite tsize_eval. cbn [Nat.add]. lia.
    + pose proof (length_print_path segs Hpath). lia.
    + rewrite tsize_eval. lia.
  - intros j sub Hloc.
    destruct (locate_tree_at txt lw' segs 0 _ j sub Htree Hloc) as (Hsub & _ & Hhi).
    apply (read_tree_at txt lw' sub j); [done | lia |].
    rewrite tsize_eval in Hhi. lia.
Qed.

(** The member "d" of the member "b" of the sample document. *)
Lemma lwjson_find_document_witness :
  exists lw',
    lwjson_parse (arena (real := float) 7)
      (Some (json " " ++ print sample_doc ++ []))
    = Some (lwjsonOK, lw')
    /\ lwjson_find (json " " ++ print sample_doc ++ []) lw'
         (Some (print_path [SKey (json "b"); SKey (json "d")]))
       = Some (found (locate [SKey (json "b"); SKey (json "d")] 0
                        (eval None sample_doc)))
    /\ forall j sub,
         locate [SKey (json "b"); SKey (json "d")] 0 (eval None sample_doc)
         = Some (j, sub) ->
         read_tree (json " " ++ print sample_doc ++ []) lw' (tsize sub) (ref_of j)
         = Some sub.
Proof.
  apply (lwjson_find_document (arena 7) (json " ") LWJSON_TYPE_OBJECT _ (json " ") []
           [SKey (json "b"); SKey (json "d")]).
  - vm_compute. reflexivity.
  - reflexivity.
  - vm_compute. lia.
  - reflexivity.
Defined.

(** ** Sibling walks end *)

Section Walk.
Context {real : Type} {RT : RealType real}.
Implicit Types (lw : lwjson_t real) (c r to : tokref) (rest opens : list tokref).

Lemma rk_ref_of j : rk (ref_of j) = j.
Proof. by destruct j. Qed.

Lemma ref_of_rk r : ref_of (rk r) = r.
Proof. by destruct r. Qed.

Lemma elem_of_refs m r : r ∈ ref_of <$> seq 0 (S m) <-> rk r <= m.
Proof.
  rewrite list_elem_of_fmap. split.
  - intros (j & -> & Hj%elem_of_seq). rewrite rk_ref_of. lia.
  - intros H. exists (rk r). split; [by rewrite ref_of_rk |]. apply elem_of_seq. lia.
Qed.

Lemma filter_length_lt {A} (P Q : A -> Prop) `{!forall x, Decision (P x)}
    `{!forall x, Decision (Q x)} (l : list A) x :
  (forall y, Q y -> P y) -> x ∈ l -> P x -> ~ Q x ->
  length (filter Q l) < length (filter P l).
Proof.
  intros HQP. induction l as [|y l IH]; intros Hin HP HQ; [by apply elem_of_nil in Hin |].
  assert (Hle : length (filter Q l) <= length (filter P l)).
  { clear IH Hin. induction l as [|z l IHl]; [done |].
    rewrite !filter_cons. destruct (decide (Q z)) as [Hz|Hz].
    - destruct (decide (P z)) as [|Hn]; [simpl; lia | by destruct Hn; apply HQP].
    - destruct (decide (P z)); simpl; lia. }
  rewrite !filter_cons. apply elem_of_cons in Hin as [<- | Hin].
  - destruct (decide (P x)); [| done]. destruct (decide (Q x)); [done |]. simpl. lia.
  - specialize (IH Hin HP HQ). destruct (decide (Q y)) as [Hy|Hy].
    + destruct (decide (P y)) as [|Hn]; [simpl; lia | by destruct Hn; apply HQP].
    + destruct (decide (P y)); simpl; lia.
Qed.

Lemma filter_length_ge {A} (P : A -> Prop) `{!forall x, Decision (P x)} (l k : list A) :
  NoDup k -> (forall x, x ∈ k -> x ∈ l /\ P x) -> length k <= length (filter P l).
Proof.
  intros Hnd Hk. apply submseteq_length, NoDup_submseteq; [done |].
  intros x Hx. apply list_elem_of_filter. destruct (Hk x Hx). done.
Qed.

(** The open containers from one of them on. *)
Lemma open_chain_from lw to rest c :
  open_chain lw to rest -> c ∈ to :: rest ->
  exists rest', open_chain lw c rest' /\ forall r, r ∈ c :: rest' -> r ∈ to :: rest.
Proof.
  revert to. induction rest as [|r1 rest IH]; intros to Hc Hin.
  - apply list_elem_of_singleton in Hin as ->. by exists [].
  - apply elem_of_cons in Hin as [-> | Hin]; [by exists (r1 :: rest) |].
    destruct Hc as (_ & _ & Hc). destruct (IH r1 Hc Hin) as (rest' & Hc' & Hsub).
    exists rest'. split; [done |]. intros r Hr. apply elem_of_cons. right. by apply Hsub.
Qed.

Lemma open_chain_NoDup lw to rest : open_chain lw to rest -> NoDup (to :: rest).
Proof.
  revert to. induction rest as [|r1 rest IH]; intros to Hc.
  - apply NoDup_singleton.
  - constructor.
    + intros Hin. pose proof (open_chain_ranks _ _ _ _ Hc Hin). lia.
    + destruct Hc as (_ & _ & Hc). by apply IH.
Qed.

Lemma open_chain_bound lw to rest r :
  open_chain lw to rest -> r ∈ to :: rest -> rk r <= rk to.
Proof.
  intros Hc [-> | Hin]%elem_of_cons; [done |].
  pose proof (open_chain_ranks _ _ _ _ Hc Hin). lia.
Qed.

(** The walk along the open containers: each one, then its parent, down to
    the root. *)
Lemma siblings_open lw to rest fuel :
  open_chain lw to rest -> length rest < fuel ->
  siblings lw fuel (Some to) = Some (to :: rest).
Proof.
  revert to fuel. induction rest as [|r1 rest IH]; intros to fuel Hc Hf;
    (destruct fuel as [|fuel]; [simpl in Hf; lia |]); cbn [siblings].
  - destruct Hc as [_ ->]. by destruct fuel.
  - destruct Hc as (-> & _ & Hc). rewrite (IH r1 fuel Hc) by (simpl in Hf; lia). done.
Qed.

(** Every sibling walk ends within one step per token in use: it goes up
    in allocation order until it meets an open container, and from there
    down the open containers to the root. *)
Lemma siblings_ends m lw to rest fuel c :
  heap_inv m lw to rest -> rk c <= m ->
  walk_weight m (to :: rest) c <= fuel ->
  exists cs, siblings lw fuel (Some c) = Some cs /\ forall r, r ∈ cs -> rk r <= m.
Proof.
  intros Hinv. pose proof Hinv as (Hto & _ & Hc & Hnxs & _).
  revert c. induction fuel as [|fuel IH]; intros c Hle Hw.
  - exfalso. unfold walk_weight in Hw.
    assert (Hin : c ∈ filter (fun r => rk c <= rk r \/ r ∈ to :: rest)
                       (ref_of <$> seq 0 (S m))).
    { apply list_elem_of_filter. split; [by left | by apply elem_of_refs]. }
    destruct (filter _ _); [by apply elem_of_nil in Hin | simpl in Hw; lia].
  - destruct (decide (c ∈ to :: rest)) as [Hopen|Hopen].
    + destruct (open_chain_from lw to rest c Hc Hopen) as (rest' & Hc' & Hsub).
      exists (c :: rest'). split.
      * apply siblings_open; [done |].
        enough (length (c :: rest') <= walk_weight m (to :: rest) c) by (simpl in *; lia).
        apply filter_length_ge; [by eapply open_chain_NoDup |].
        intros r Hr. specialize (Hsub r Hr). split; [| by right].
        apply elem_of_refs. pose proof (open_chain_bound _ _ _ _ Hc Hsub). lia.
      * intros r Hr. specialize (Hsub r Hr).
        pose proof (open_chain_bound _ _ _ _ Hc Hsub). lia.
    + assert (Hnx : above m (rk c) (next (get_token lw c))).
      { apply Hnxs; [done | |].
        - intros ->. apply Hopen, elem_of_cons. by left.
        - intros Hin. apply Hopen, elem_of_cons. by right. }
      cbn [siblings]. destruct (next (get_token lw c)) as [c'|] eqn:Hn.
      * destruct Hnx as [Hlt Hle']. destruct (IH c' Hle') as (cs & -> & Hcs).
        { enough (walk_weight m (to :: rest) c' < walk_weight m (to :: rest) c) by lia.
          apply (filter_length_lt _ _ _ c).
          - intros y [Hy | Hy]; [left; lia | by right].
          - by apply elem_of_refs.
          - by left.
          - intros [Hy | Hy]; [lia | done]. }
        exists (c :: cs). split; [done |].
        intros r [-> | Hr]%elem_of_cons; [done | by apply Hcs].
      * exists [c]. split; [by destruct fuel |].
        by intros r ->%list_elem_of_singleton.
Qed.

Lemma walk_weight_le m opens c : walk_weight m opens c <= S m.
Proof.
  unfold walk_weight. etrans; [apply length_filter |].
  by rewrite length_fmap, length_seq.
Qed.

(** The children of a token in use: the walk over them ends. *)
Lemma children_end m lw to rest r :
  heap_inv m lw to rest -> rk r <= m ->
  exists cs, siblings lw (S m) (u_first_child (get_token lw r)) = Some cs
             /\ forall c, c ∈ cs -> rk c <= m.
Proof.
  intros Hinv Hr. pose proof Hinv as (_ & _ & _ & _ & Hfcs). specialize (Hfcs r Hr).
  destruct (u_first_child (get_token lw r)) as [c|].
  - destruct Hfcs as [_ Hc]. apply (siblings_ends m lw to rest); [done | done |].
    apply walk_weight_le.
  - exists []. split; [done |]. by intros c Hc%elem_of_nil.
Qed.

End Walk.

Section FindEnds.
Context {real : Type} {RT : RealType real}.
Implicit Types (lw : lwjson_t real) (c r to : tokref).

Lemma segment_run_le (l : text) : segment_run l <= length l.
Proof.
  induction l as [|c l IH]; cbn [segment_run length]; [done |].
  destruct (_ || _); lia.
Qed.

(** What the segment scan returns: the segment starts at the cursor; a
    wildcard is followed by a dot and the cursor moves behind the dot; a
    name ends before a dot or the terminator, and the cursor moves one
    character beyond its end. *)
Lemma prv_create_path_segment_Some (ptxt : text) p p' seg len last :
  prv_create_path_segment ptxt p = Some (p', seg, len, last) ->
  seg = p
  /\ ((is_char (peek ptxt p) "#" = true /\ len = 1 /\ p' = p + 1 + 1
       /\ p' <= length ptxt)
      \/ (is_char (peek ptxt p) "#" = false /\ p' = S (p + len)
          /\ p + len <= length ptxt /\ last = is_nul (peek ptxt (p + len)))).
Proof.
  unfold prv_create_path_segment.
  destruct (is_nul (peek ptxt p)) eqn:Hnul; [done |].
  apply peek_not_nul_lt in Hnul.
  destruct (is_char (peek ptxt p) "#") eqn:Hhash.
  - destruct (is_char (peek ptxt (S p)) ".") eqn:Hdot; [| done].
    intros [= <- <- <- <-]. split; [done |]. left. repeat split; try done.
    assert (Hn : is_nul (peek ptxt (S p)) = false).
    { apply is_char_eq in Hdot. injection Hdot as <-. done. }
    apply peek_not_nul_lt in Hn. lia.
  - intros [= <- <- <- <-]. split; [done |]. right. repeat split; try done.
    pose proof (segment_run_le (drop p ptxt)) as Hle. rewrite length_drop in Hle. lia.
Qed.

Lemma first_result_ends (P : tokref -> Prop) (body : tokref -> option (option tokref))
    (cs : list tokref) :
  (forall t, t ∈ cs -> exists o, body t = Some o /\ forall r, o = Some r -> P r) ->
  exists o, first_result (body <$> cs) = Some o /\ forall r, o = Some r -> P r.
Proof.
  induction cs as [|t cs IH]; intros H.
  - exists None. split; [done |]. by intros r [=].
  - destruct (H t) as (o & Ho & HP); [apply elem_of_cons; by left |].
    cbn [fmap list_fmap first_result]. rewrite Ho. destruct o as [r|].
    + exists (Some r). split; [done |]. exact HP.
    + apply IH. intros t' Ht'. apply H. apply elem_of_cons. by right.
Qed.

(** On links that satisfy the invariant of the loop, the search ends for
    every path and returns no token or a token in use. *)
Lemma prv_find_ends (txt ptxt : text) lw to rest :
  heap_inv (next_free_token_pos lw) lw to rest ->
  forall depth parent p,
    rk parent <= next_free_token_pos lw ->
    p <= length ptxt -> S (length ptxt) <= depth + p ->
    exists o, prv_find txt ptxt lw (S (next_free_token_pos lw)) depth parent p = Some o
              /\ forall r, o = Some r -> rk r <= next_free_token_pos lw.
Proof.
  intros Hinv. induction depth as [|depth IH]; intros parent p Hpar Hp Hd; [lia |].
  cbn [prv_find].
  destruct (prv_create_path_segment ptxt p) as [[[[p' seg] len] last]|] eqn:Hseg.
  2: { exists None. split; [done |]. by intros r [=]. }
  apply prv_create_path_segment_Some in Hseg as [-> Hseg].
  destruct (children_end _ lw to rest parent Hinv Hpar) as (cs & Hcs & Hin).
  assert (Hnone : exists o : option tokref,
            Some None = Some o /\ forall r, o = Some r -> rk r <= next_free_token_pos lw).
  { exists None. split; [done |]. by intros r [=]. }
  destruct Hseg as [(Hhash & -> & -> & Hle) | (Hhash & -> & Hle & ->)];
    rewrite Hhash; cbn [andb Nat.eqb].
  - destruct (negb _); [done |].
    rewrite (for_siblings_first_result lw _ _ _ cs Hcs).
    apply first_result_ends. intros t Ht. apply IH; [by apply Hin | done | lia].
  - destruct (negb _); [done |].
    rewrite (for_siblings_first_result lw _ _ _ cs Hcs).
    apply first_result_ends. intros t Ht.
    destruct (name_matches _ _ _ _ _); [| done].
    destruct (is_nul (peek ptxt (p + len))) eqn:Hnul.
    + exists (Some t). split; [done |]. intros r [= <-]. by apply Hin.
    + apply peek_not_nul_lt in Hnul. apply IH; [by apply Hin | lia | lia].
Qed.

(** The links a parse that returns [lwjsonOK] leaves satisfy the
    invariant of its loop. *)
Lemma parse_loop_ok_inv txt fuel (st : pstate real) la :
  loop_inv st ->
  parse_loop txt fuel st = Some (lwjsonOK, la) ->
  exists to rest, heap_inv (next_free_token_pos la) la to rest.
Proof.
  revert st. induction fuel as [|fuel IH]; intros st Hinv; cbn [parse_loop].
  - destruct (is_nul _); [| done]. intros [= _ <-].
    destruct Hinv as (rest & Hinv). exists (st_to st), rest.
    pose proof Hinv as (Hto & Hm & _).
    assert (Hv : valid_ref (tokens_len (st_lw st)) (st_to st)).
    { destruct (st_to st); simpl in *; [done | lia]. }
    rewrite next_free_upd. eapply heap_inv_ext; [| | exact Hinv].
    + by rewrite tokens_len_upd.
    + intros r _. rewrite get_upd by done. case_decide as Hd; [subst r |]; done.
  - destruct (is_nul _).
    { intros [= _ <-].
      destruct Hinv as (rest & Hinv). exists (st_to st), rest.
      pose proof Hinv as (Hto & Hm & _).
      assert (Hv : valid_ref (tokens_len (st_lw st)) (st_to st)).
      { destruct (st_to st); simpl in *; [done | lia]. }
      rewrite next_free_upd. eapply heap_inv_ext; [| | exact Hinv].
      + by rewrite tokens_len_upd.
      + intros r _. rewrite get_upd by done. case_decide as Hd; [subst r |]; done. }
    pose proof (parse_iter_inv txt st Hinv) as Hi.
    pose proof (parse_iter_ok_forward txt st) as Hok.
    assert (Hb : next_free_token_pos (st_lw st) <= tokens_len (st_lw st)).
    { destruct Hinv as (rest & _ & Hm & _). done. }
    pose proof (parse_iter_bounded txt st Hb) as Hbd.
    destruct (parse_iter txt st) as [[st'|res lw']|]; [| | done].
    + intros H. apply (IH st'); [apply Hi | done].
    + intros [= -> ->]. destruct (Hok la Hinv eq_refl) as [Hall Hroot].
      exists FirstToken, []. split; [simpl; lia |]. split; [done |].
      split; [done |]. split.
      * intros r Hr _ _. by apply Hall.
      * intros r Hr. by apply Hall.
Qed.

End FindEnds.

(** On the instance a parse has left, whatever the text and the status,
    [lwjson_find] returns for every path: the sibling loops of [prv_find]
    end, although a parse that met the end of the text inside a container
    leaves the links of the open containers to their parents in place, and
    the recursion ends with the path.  The result is [NULL] or a token in
    use, and [NULL] unless the parse returned [lwjsonOK]. *)
Theorem lwjson_find_ends {real : Type} {RT : RealType real}
    (lw : lwjson_t real) (txt : text) (res : lwjsonr_t) (lw' : lwjson_t real)
    (path : option text) :
  lwjson_parse lw (Some txt) = Some (res, lw') ->
  exists o,
    lwjson_find txt lw' path = Some o
    /\ valid_opt (next_free_token_pos lw') o
    /\ (res <> lwjsonOK -> o = None).
Proof.
  intros Hparse. pose proof (parse_flag_text _ _ _ _ Hparse) as Hflag.
  unfold lwjson_find. destruct path as [ptxt|]; [| by exists None].
  rewrite Hflag. destruct (decide (res = lwjsonOK)) as [-> | Hne].
  2: { rewrite bool_decide_false by done. by exists None. }
  rewrite bool_decide_true by done. cbn [negb].
  assert (Hinv : exists to rest, heap_inv (next_free_token_pos lw') lw' to rest).
  { unfold lwjson_parse in Hparse. destruct (is_nul (peek txt 0)); [done |].
    destruct (parse_loop txt (length txt) _) as [[r la]|] eqn:Hl; [| done].
    apply (inj Some) in Hparse. unfold parse_ret in Hparse.
    case_decide as Hr; [| congruence]. injection Hparse as _ <-. subst r.
    destruct (parse_loop_ok_inv txt _ _ la (parse_entry_inv lw) Hl) as (to & rest & Hinv).
    exists to, rest. eapply heap_inv_ext; [| | exact Hinv]; done. }
  destruct Hinv as (to & rest & Hinv).
  destruct (prv_find_ends txt ptxt lw' to rest Hinv (S (length ptxt))
              (lwjson_get_first_token lw') 0) as (o & Ho & Hval);
    [simpl; lia | lia | lia |].
  exists o. split; [exact Ho |]. split; [| done].
  destruct o as [[|i]|]; simpl; try done. specialize (Hval (Tok i) eq_refl). simpl in Hval. lia.
Qed.

(** A text that ends inside an array inside the root: the search for a
    member that is not there walks from the array to the root and ends. *)
Lemma lwjson_find_ends_witness :
  exists o,
    lwjson_find (json "{'a':[1,") (tree_of 4 "{'a':[1,") (Some (json "b")) = Some o
    /\ valid_opt (next_free_token_pos (tree_of 4 "{'a':[1,")) o
    /\ (lwjsonOK <> lwjsonOK -> o = None).
Proof.
  apply (lwjson_find_ends (arena 4) (json "{'a':[1,") lwjsonOK (tree_of 4 "{'a':[1,")
           (Some (json "b"))).
  vm_compute. reflexivity.
Defined.

(** ** The token array a document needs *)

Section Sizing.
Context {real : Type} {RT : RealType real}.

(** A text for which some run allocates more tokens than an instance has
    slots fails on that instance for lack of room. *)
Lemma parse_short_of_room (lwA lwB : lwjson_t real) (txt : text) res lwA' :
  lwjson_parse lwA (Some txt) = Some (res, lwA') ->
  tokens_len lwB < next_free_token_pos lwA' ->
  exists lwB',
    lwjson_parse lwB (Some txt) = Some (lwjsonERRMEM, lwB')
    /\ next_free_token_pos lwB' = tokens_len lwB.
Proof.
  intros HA Hlt. unfold lwjson_parse in *.
  destruct (is_nul (peek txt 0)).
  { injection HA as <- <-. simpl in Hlt. lia. }
  destruct (parse_loop txt (length txt) _) as [[r la]|] eqn:Hl; [| done].
  assert (HA' : parse_ret (r, la) = (res, lwA')) by (apply (inj Some); exact HA).
  destruct (parse_ret_frame r la) as (_ & Hn & _). rewrite HA' in Hn.
  cbn [fst snd] in Hn. rewrite Hn in Hlt.
  destruct (parse_loop_exhausts (tokens_len lwB) txt (length txt) _ _ r la
              (parse_entry_closed lwA) (parse_entry_same lwA lwB) Hl Hlt)
    as (lb & -> & Hnb & Hlb & Hfb).
  exists lb. done.
Qed.

End Sizing.

(** The status of the parse of a well-formed document, and the tokens it
    takes: one per value besides the root.  With that many slots the
    status is [lwjsonOK], or [lwjsonERR] when anything follows the
    document; with fewer slots it is [lwjsonERRMEM], every slot is in use
    and what follows the document plays no role. *)
Theorem lwjson_parse_document_status {real : Type} {RT : RealType real}
    (lw : lwjson_t real) (lead : text) (ty : lwjson_type_t)
    (items : list (jlayout * jvalue)) (inner trail : text) :
  wf (JContainer ty items inner) = true ->
  all_blank lead = true ->
  let doc := JContainer ty items inner in
  let txt := lead ++ print doc ++ trail in
  exists lw',
    lwjson_parse lw (Some txt)
    = Some (if count doc <=? S (tokens_len lw)
            then if is_nul (peek trail 0) then lwjsonOK else lwjsonERR
            else lwjsonERRMEM, lw')
    /\ lwjson_get_tokens_used lw' = count doc `min` S (tokens_len lw).
Proof.
  intros Hwf Hlead doc txt.
  destruct (Nat.leb_spec (count doc) (S (tokens_len lw))) as [Hcap|Hcap].
  - destruct (parse_document_layout lw lead ty items inner trail Hwf Hlead Hcap)
      as (lw' & Hparse & Hused & _).
    exists lw'. split; [exact Hparse |]. fold doc in Hused.
    unfold lwjson_get_tokens_used. lia.
  - destruct (parse_document_layout (arena (count doc)) lead ty items inner trail
                Hwf Hlead) as (lwA' & HA & Hused & _).
    { unfold arena, lwjson_init, tokens_len. cbn [snd tokens].
      rewrite !length_replicate. apply Nat.le_succ_diag_r. }
    fold doc in Hused, HA. fold txt in HA.
    destruct (parse_short_of_room _ lw txt _ lwA' HA) as (lw' & Hparse & Hn); [lia |].
    exists lw'. split; [exact Hparse |]. unfold lwjson_get_tokens_used. lia.
Qed.

(** The sample document takes seven tokens besides the root: five slots
    do not suffice. *)
Lemma lwjson_parse_document_status_witness :
  exists lw',
    lwjson_parse (arena (real := float) 5)
      (Some (json " " ++ print sample_doc ++ []))
    = Some (lwjsonERRMEM, lw')
    /\ lwjson_get_tokens_used lw' = count sample_doc `min` S (tokens_len (arena (real := float) 5)).
Proof.
  apply (lwjson_parse_document_status (arena 5) (json " ") LWJSON_TYPE_OBJECT
           (match sample_doc with JContainer _ items _ => items | _ => [] end)
           (json " ") []).
  - vm_compute. reflexivity.
  - reflexivity.
Defined.

(** ** The token found bears the last name of the path *)

Section FindSound.
Context {real : Type} {RT : RealType real}.
Implicit Types (lw : lwjson_t real) (c r t : tokref).

Lemma segment_run_spec (l : text) :
  (forall k, k < segment_run l ->
     is_nul (peek l k) = false /\ is_char (peek l k) "." = false)
  /\ is_nul (peek l (segment_run l)) || is_char (peek l (segment_run l)) "." = true.
Proof.
  induction l as [|c l [IH1 IH2]]; cbn [segment_run]; [split; [intros k Hk; lia | done] |].
  destruct (is_nul c || is_char c ".") eqn:Hc.
  - split; [intros k Hk; lia | done].
  - apply orb_false_iff in Hc as [Hc1 Hc2]. split; [| exact IH2].
    intros [|k] Hk; [done |]. apply IH1. lia.
Qed.

Lemma for_siblings_found lw fuel o (body : tokref -> option (option tokref)) t :
  for_siblings lw fuel o body = Some (Some t) ->
  exists c, on_chain lw o c /\ body c = Some (Some t).
Proof.
  revert o. induction fuel as [|fuel IH]; intros [c|]; cbn [for_siblings]; try done.
  destruct (body c) as [[r|]|] eqn:Hb; [| | done].
  - intros [= ->]. exists c. split; [constructor | done].
  - intros H. destruct (IH _ H) as (c' & Hc' & Hb'). exists c'.
    split; [by constructor | done].
Qed.

(** The token the search returns is a child of an object, and its name is
    the last segment of the path. *)
Lemma prv_find_sound (txt ptxt : text) lw fuel :
  forall depth parent p t,
    prv_find txt ptxt lw fuel depth parent p = Some (Some t) ->
    exists P seg len,
      (seg = p \/ exists j, seg = S j /\ peek ptxt j = "."%char)
      /\ 0 < len
      /\ is_char (peek ptxt seg) "#" = false
      /\ (forall k, k < len ->
            is_nul (peek ptxt (seg + k)) = false
            /\ is_char (peek ptxt (seg + k)) "." = false)
      /\ is_nul (peek ptxt (seg + len)) = true
      /\ type (get_token lw P) = LWJSON_TYPE_OBJECT
      /\ on_chain lw (u_first_child (get_token lw P)) t
      /\ token_name_len (get_token lw t) = len
      /\ exists nm, token_name (get_token lw t) = Some nm
           /\ forall k, k < len -> peek txt (nm + k) = peek ptxt (seg + k).
Proof.
  induction depth as [|depth IH]; intros parent p t; [done |]. cbn [prv_find].
  destruct (prv_create_path_segment ptxt p) as [[[[p' seg] len] last]|] eqn:Hseg; [| done].
  pose proof Hseg as Hseg'. apply prv_create_path_segment_Some in Hseg' as [-> Hcase].
  assert (Hdeeper : forall c,
            (exists j, p' = S j /\ peek ptxt j = "."%char) ->
            prv_find txt ptxt lw fuel depth c p' = Some (Some t) ->
            exists P seg len,
              (seg = p \/ exists j, seg = S j /\ peek ptxt j = "."%char)
              /\ 0 < len
              /\ is_char (peek ptxt seg) "#" = false
              /\ (forall k, k < len ->
                    is_nul (peek ptxt (seg + k)) = false
                    /\ is_char (peek ptxt (seg + k)) "." = false)
              /\ is_nul (peek ptxt (seg + len)) = true
              /\ type (get_token lw P) = LWJSON_TYPE_OBJECT
              /\ on_chain lw (u_first_child (get_token lw P)) t
              /\ token_name_len (get_token lw t) = len
              /\ exists nm, token_name (get_token lw t) = Some nm
                   /\ forall k, k < len -> peek txt (nm + k) = peek ptxt (seg + k)).
  { intros c Hdot Hc. destruct (IH _ _ _ Hc) as (P & seg & len' & Hstart & H).
    exists P, seg, len'. split; [| exact H].
    right. destruct Hstart as [-> | Hj]; done. }
  destruct Hcase as [(Hhash & -> & -> & Hle) | (Hhash & -> & Hle & ->)];
    rewrite Hhash; cbn [andb Nat.eqb].
  - (* the wildcard *)
    destruct (negb _); [done |]. intros H.
    apply for_siblings_found in H as (c & _ & Hc). apply (Hdeeper c); [| done].
    exists (S p). split; [lia |].
    unfold prv_create_path_segment in Hseg. rewrite Hhash in Hseg.
    destruct (is_nul (peek ptxt p)); [done |].
    destruct (is_char (peek ptxt (S p)) ".") eqn:Hdot; [| done].
    apply is_char_eq in Hdot. by injection Hdot as <-.
  - (* a name *)
    destruct (bool_decide (type (get_token lw parent) = LWJSON_TYPE_OBJECT)) eqn:Hty;
      cbn [negb]; [| done].
    apply bool_decide_eq_true in Hty. intros H.
    apply for_siblings_found in H as (c & Hchain & Hc).
    assert (Hlen : len = segment_run (drop p ptxt)).
    { unfold prv_create_path_segment in Hseg. rewrite Hhash in Hseg.
      destruct (is_nul (peek ptxt p)); [done |]. by injection Hseg as _ <- _. }
    destruct (name_matches txt ptxt (get_token lw c) p len) eqn:Hm; [| done].
    destruct (segment_run_spec (drop p ptxt)) as [Hin Hend]. rewrite <- Hlen in Hin, Hend.
    rewrite peek_drop in Hend.
    destruct (is_nul (peek ptxt (p + len))) eqn:Hnul.
    + (* the last segment *)
      injection Hc as ->.
      assert (Hpos : 0 < len).
      { destruct len as [|len]; [| lia]. exfalso.
        unfold prv_create_path_segment in Hseg.
        rewrite Nat.add_0_r in Hnul. by rewrite Hnul in Hseg. }
      rewrite Hlen in Hm. apply name_matches_chars in Hm as [Hl Hchars]. rewrite <- Hlen in *.
      exists parent, p, len. split; [by left |]. split; [done |]. split; [done |].
      split; [| split; [done | split; [done | split; [done | split; [done |]]]]].
      * intros k Hk. rewrite <- !peek_drop. by apply Hin.
      * destruct (token_name (get_token lw t)) as [nm|]; [| lia].
        exists nm. split; [done |]. intros k Hk. apply Hchars. lia.
    + apply (Hdeeper c); [| done]. exists (p + len). split; [done |].
      cbn [orb] in Hend. apply is_char_eq in Hend. by injection Hend as <-.
Qed.

End FindSound.

(** Whatever the instance and the path, a token that [lwjson_find]
    returns is named by the last segment of the path: the parsed flag is
    set, the path ends in a name (not in a wildcard), the token is on the
    chain of children of a token of type object, and its name has the
    length and the characters of that name. *)
Theorem lwjson_find_sound {real : Type} {RT : RealType real}
    (lw : lwjson_t real) (txt ptxt : text) (t : tokref) :
  lwjson_find txt lw (Some ptxt) = Some (Some t) ->
  flags_parsed lw = true
  /\ exists P seg len,
       last_name ptxt seg len
       /\ type (get_token lw P) = LWJSON_TYPE_OBJECT
       /\ on_chain lw (u_first_child (get_token lw P)) t
       /\ token_name_len (get_token lw t) = len
       /\ exists nm, token_name (get_token lw t) = Some nm
            /\ forall k, k < len -> peek txt (nm + k) = peek ptxt (seg + k).
Proof.
  unfold lwjson_find. destruct (flags_parsed lw); cbn [negb]; [| done].
  intros H. split; [done |].
  apply prv_find_sound in H
    as (P & seg & len & Hstart & Hpos & Hhash & Hin & Hend & Hty & Hch & Hl & Hnm).
  exists P, seg, len. split; [| done]. split; [| done].
  destruct Hstart as [-> | Hj]; [by left | by right].
Qed.

(** The member "d" of the element of the array "c" of the scenario. *)
Lemma lwjson_find_sound_witness :
  flags_parsed (tree_of 10 scenario) = true
  /\ exists P seg len,
       last_name (json "c.#.d") seg len
       /\ type (get_token (tree_of 10 scenario) P) = LWJSON_TYPE_OBJECT
       /\ on_chain (tree_of 10 scenario)
            (u_first_child (get_token (tree_of 10 scenario) P)) (Tok 6)
       /\ token_name_len (get_token (tree_of 10 scenario) (Tok 6)) = len
       /\ exists nm, token_name (get_token (tree_of 10 scenario) (Tok 6)) = Some nm
            /\ forall k, k < len ->
                 peek (json scenario) (nm + k) = peek (json "c.#.d") (seg + k).
Proof.
  apply (lwjson_find_sound (tree_of 10 scenario) (json scenario) (json "c.#.d") (Tok 6)).
  vm_compute. reflexivity.
Defined.

(** ** The tokens hold what the scanners read *)

Section Scanned.
Context {real : Type} {RT : RealType real}.
Variable txt : text.
Implicit Types (lw : lwjson_t real) (r t to : tokref) (x : lwjson_token_t real)
  (st : pstate real).

Lemma get_put_cases r r' x lw :
  (r' = r /\ get_token (put_token r x lw) r' = x)
  \/ get_token (put_token r x lw) r' = get_token lw r'.
Proof.
  destruct (decide (r = r')) as [<-|Hne]; [| right; by apply get_put_ne].
  destruct r as [|i]; [by left |].
  destruct (decide (i < tokens_len lw)) as [Hi|Hi]; [left; by rewrite get_put_eq |].
  right. unfold put_token, get_token, tokens_len in *. cbn [tokens set_tokens].
  by rewrite list_insert_ge by lia.
Qed.

Lemma scanned_weaken s x : scanned txt s x -> scanned txt false x.
Proof.
  destruct s; [| done]. intros [Hn Hv]. split.
  - unfold scanned_name, string_slice in *. destruct (token_name x); [| done].
    destruct Hn as [[? _] | Hq]; [done | by right].
  - unfold scanned_value, string_slice in *. destruct (type x); try done.
    destruct (u x); try done. destruct Hv as [[? _] | Hq]; [done | by right].
Qed.

Lemma all_scanned_weaken s lw : all_scanned txt s lw -> all_scanned txt false lw.
Proof. intros H r Hr. eapply scanned_weaken. by apply H. Qed.

Lemma all_scanned_put s r x lw :
  all_scanned txt s lw -> scanned txt s x -> all_scanned txt s (put_token r x lw).
Proof.
  intros HJ Hx r' Hr'. rewrite next_free_put in Hr'.
  destruct (get_put_cases r r' x lw) as [[_ ->] | ->]; [done | by apply HJ].
Qed.

(** A write that keeps a scanned token scanned keeps the invariant,
    wherever it goes. *)
Lemma all_scanned_upd s r (f : lwjson_token_t real -> lwjson_token_t real) lw :
  all_scanned txt s lw -> (forall x, scanned txt s x -> scanned txt s (f x)) ->
  all_scanned txt s (upd_token r f lw).
Proof.
  intros HJ Hf r' Hr'. unfold upd_token in *. rewrite next_free_put in Hr'.
  destruct (get_put_cases r r' (f (get_token lw r)) lw) as [[-> ->] | ->];
    [apply Hf |]; by apply HJ.
Qed.

Lemma scanned_zero s : scanned txt s (@zero_token real).
Proof. done. Qed.

Lemma scanned_set_next s o x : scanned txt s x -> scanned txt s (set_next o x).
Proof. done. Qed.

Lemma scanned_first_child s c x :
  scanned txt s x -> scanned txt s (set_u (U_first_child c) x).
Proof.
  intros [Hn Hv]. split; [done |]. unfold scanned_value in *. cbn [type u set_u].
  by destruct (type x).
Qed.

Lemma scanned_no_name s x :
  scanned txt s x -> scanned txt s (set_token_name_len 0 (set_token_name None x)).
Proof. intros [_ Hv]. done. Qed.

Lemma prv_parse_string_quoted p pout len p' :
  prv_parse_string txt p = StrOk pout len p' -> quoted txt pout len.
Proof.
  unfold prv_parse_string. rewrite (prv_skip_blank_eq txt p).
  destruct (Ascii.eqb (peek txt (prv_skip_blank txt p).2) dq) eqn:Hq; cbn [negb]; [| done].
  apply Ascii.eqb_eq in Hq.
  destruct (string_run NUL _) as [l|] eqn:Hrun; [| done].
  match goal with |- context [prv_skip_blank txt ?s] =>
    rewrite (prv_skip_blank_eq txt s) end.
  intros [= <- <- _]. by exists (prv_skip_blank txt p).2.
Qed.

(** The name scan on a fresh token: the name is a quoted slice unless the
    scan fails. *)
Lemma scanned_property_name p x :
  token_name_len x = 0 -> scanned txt true x ->
  scanned txt (bool_decide ((prv_parse_property_name txt p x).1.1 = lwjsonOK))
    (prv_parse_property_name txt p x).2.
Proof.
  intros Hlen Hx. unfold prv_parse_property_name.
  pose proof (prv_parse_string_facts txt p) as Hf.
  destruct (prv_parse_string txt p) as [res [pout|]|pout len p'] eqn:Hs; cbn [fst snd].
  - destruct Hf as [-> _]. change (bool_decide (lwjsonERRJSON = lwjsonOK)) with false.
    destruct (scanned_weaken true x Hx) as [_ Hv].
    split; [| done]. unfold scanned_name. cbn. by left.
  - destruct Hf as [-> _]. change (bool_decide (lwjsonERRJSON = lwjsonOK)) with false.
    by apply (scanned_weaken true).
  - apply prv_parse_string_quoted in Hs.
    destruct (scanned_weaken true x Hx) as [_ Hw]. destruct Hx as [_ Hv].
    assert (Hq : forall s, scanned txt s
                   (set_token_name_len len (set_token_name (Some pout) x))).
    { intros s. split; [unfold scanned_name; cbn; by right |]. by destruct s. }
    destruct (negb _); cbn [fst snd]; apply Hq.
Qed.

Lemma word_at_strncmp p (w : string) :
  (forall k, k < String.length w -> is_nul (peek (list_ascii_of_string w) (0 + k)) = false) ->
  strncmp_eq txt p (list_ascii_of_string w) 0 (String.length w) = true ->
  word_at txt w.
Proof.
  intros Hnn H. exists p. intros k Hk.
  apply (proj1 (strncmp_eq_chars txt p _ 0 _ Hnn) H k Hk).
Qed.

(** What a value scan writes to a token keeps it scanned; when the scan
    fails the payload may be the empty slice of a string that does not
    end. *)
Lemma parse_value_scanned p :
  match parse_value (RT := RT) txt p with
  | ValOpen ty _ =>
      forall s o x, scanned txt s x -> scanned txt s (set_next o (set_type ty x))
  | ValScalar ty val _ =>
      forall s x, scanned txt s x -> scanned txt s (set_type ty (write_val val x))
  | ValErr _ val => forall s x, scanned txt s x -> scanned txt false (write_val val x)
  end.
Proof.
  unfold parse_value.
  destruct (is_char _ "{") eqn:Hobj.
  { apply is_char_eq in Hobj. injection Hobj as Hobj.
    intros s o x [Hn _]. split; [done |]. by exists p. }
  destruct (is_char _ "[") eqn:Harr.
  { apply is_char_eq in Harr. injection Harr as Harr.
    intros s o x [Hn _]. split; [done |]. by exists p. }
  assert (Hz : forall s x, scanned txt s x -> scanned txt false (write_val None x))
    by (intros s x; apply scanned_weaken).
  destruct (Ascii.eqb _ dq).
  { destruct (prv_parse_string txt p) as [res [pout|]|pout len p'] eqn:Hs.
    - intros s x Hx. apply scanned_weaken in Hx as [Hn Hv]. split; [done |].
      unfold scanned_value in *.
      cbn [write_val type u set_u]. destruct (type x); try done. by left.
    - exact Hz.
    - apply prv_parse_string_quoted in Hs. intros s x [Hn _]. split; [done |].
      unfold scanned_value. cbn. by right. }
  destruct (is_char _ "t").
  { destruct (strncmp_eq _ _ _ _ _) eqn:Hw; [| exact Hz].
    intros s x [Hn _]. split; [done |]. unfold scanned_value. cbn [type set_type write_val].
    apply (word_at_strncmp p "true"); [| done].
    intros k Hk. do 4 (destruct k as [|k]; [done |]). simpl in Hk. lia. }
  destruct (is_char _ "f").
  { destruct (strncmp_eq _ _ _ _ _) eqn:Hw; [| exact Hz].
    intros s x [Hn _]. split; [done |]. unfold scanned_value. cbn [type set_type write_val].
    apply (word_at_strncmp p "false"); [| done].
    intros k Hk. do 5 (destruct k as [|k]; [done |]). simpl in Hk. lia. }
  destruct (is_char _ "n").
  { destruct (strncmp_eq _ _ _ _ _) eqn:Hw; [| exact Hz].
    intros s x [Hn _]. split; [done |]. unfold scanned_value. cbn [type set_type write_val].
    apply (word_at_strncmp p "null"); [| done].
    intros k Hk. do 4 (destruct k as [|k]; [done |]). simpl in Hk. lia. }
  destruct (_ || _) eqn:Hstart; [| exact Hz].
  pose proof (prv_parse_number_facts txt p) as Hshape. cbv zeta in Hshape.
  destruct (prv_parse_number txt p) as [res|ty v p'] eqn:Hnum; [exact Hz |].
  destruct Hshape as (_ & _ & _ & _ & Hshape).
  intros s x [Hn _]. split; [done |]. unfold scanned_value.
  cbn [type set_type write_val u set_u].
  destruct ty; try done.
  - destruct Hshape as [[z ->] _]. by exists p, p'.
  - destruct Hshape as [[z ->] _]. by exists p, p'.
Qed.

Lemma all_scanned_alloc s lw i lw1 :
  all_scanned txt s lw -> prv_alloc_token lw = Some (i, lw1) ->
  all_scanned txt s lw1 /\ get_token lw1 (Tok i) = zero_token.
Proof.
  intros HJ Ha. apply prv_alloc_token_Some in Ha as (-> & Hlt & ->).
  set (n := next_free_token_pos lw) in *.
  assert (Hget : forall r, get_token (put_token (Tok n) zero_token lw) r
                           = if decide (Tok n = r) then zero_token else get_token lw r).
  { intros r. apply get_put. exact Hlt. }
  split.
  - intros r Hr. cbn [next_free_token_pos set_next_free_token_pos] in Hr.
    change (get_token (set_next_free_token_pos (S n) (put_token (Tok n) zero_token lw)) r)
      with (get_token (put_token (Tok n) zero_token lw) r).
    rewrite Hget. case_decide as Hd; [apply scanned_zero |]. apply HJ.
    destruct r as [|j]; simpl in *; [done |]. assert (j <> n) by congruence. lia.
  - change (get_token (set_next_free_token_pos (S n) (put_token (Tok n) zero_token lw)) (Tok n))
      with (get_token (put_token (Tok n) zero_token lw) (Tok n)).
    rewrite Hget. by rewrite decide_True.
Qed.

Lemma all_scanned_link s to t lw lw2 :
  all_scanned txt s lw -> link_child to t lw = Some lw2 -> all_scanned txt s lw2.
Proof.
  intros HJ. unfold link_child.
  destruct (u_first_child (get_token lw to)) as [c0|].
  - destruct (last_sibling lw _ c0) as [c|]; [| done]. cbn. intros [= <-].
    apply all_scanned_upd; [done |]. intros x. apply scanned_set_next.
  - intros [= <-]. apply all_scanned_upd; [done |]. intros x. apply scanned_first_child.
Qed.

Lemma check_after_value_lw p to lw :
  match check_after_value txt p to lw with
  | Next st' => st_lw st' = lw
  | Ret _ lw' => lw' = lw
  end.
Proof.
  unfold check_after_value. rewrite (prv_skip_blank_eq txt p).
  destruct (_ || _); [done |]. by destruct (is_char _ ",").
Qed.

Lemma parse_token_scanned p to i lw :
  all_scanned txt true lw -> get_token lw (Tok i) = zero_token ->
  scanned_next txt (parse_token txt p to i lw).
Proof.
  intros HJ Hz. pose proof (parse_token_err txt p to i lw) as Herr.
  assert (Hret : forall res lw', parse_token txt p to i lw = Some (Ret res lw') ->
            all_scanned txt false lw' ->
            scanned_next txt (Some (Ret res lw'))).
  { intros res lw' H HJ'. cbn. rewrite bool_decide_false; [done |]. by eapply Herr. }
  clear Herr. revert Hret. unfold parse_token.
  pose proof (scanned_property_name p (get_token lw (Tok i))) as Hn.
  assert (HJ1 : all_scanned txt
            (bool_decide ((parse_member_name txt p to (Tok i) lw).1.1 = lwjsonOK))
            (parse_member_name txt p to (Tok i) lw).2).
  { unfold parse_member_name.
    destruct (decide (type (get_token lw to) = LWJSON_TYPE_ARRAY)); [exact HJ |].
    destruct (negb _); [by apply (all_scanned_weaken true) |].
    destruct (prv_parse_property_name txt p (get_token lw (Tok i))) as [[res p'] tk].
    cbn [fst snd] in *. apply all_scanned_put.
    - destruct (bool_decide _); [done | by apply (all_scanned_weaken true)].
    - apply Hn; [by rewrite Hz | by rewrite Hz]. }
  clear Hn.
  destruct (parse_member_name txt p to (Tok i) lw) as [[res p1] lw1]. cbn [fst snd] in HJ1.
  destruct (bool_decide (res = lwjsonOK)) eqn:Hres; cbn [negb].
  2: { intros Hret. by apply Hret. }
  destruct (link_child to (Tok i) lw1) as [lw2|] eqn:Hl; cbn -[upd_token]; [| done].
  apply (all_scanned_link _ _ _ _ _ HJ1) in Hl.
  pose proof (parse_value_scanned p1) as Hv.
  destruct (parse_value txt p1) as [ty p2|ty val p2|res' val]; intros Hret.
  - cbn -[upd_token]. apply all_scanned_upd; [done |]. intros x. apply Hv.
  - pose proof (check_after_value_lw p2 to
                  (upd_token (Tok i) (fun tk => set_type ty (write_val val tk)) lw2)) as Hc.
    assert (HJ3 : all_scanned txt true
              (upd_token (Tok i) (fun tk => set_type ty (write_val val tk)) lw2))
      by (apply all_scanned_upd; [done |]; intros x; apply Hv).
    destruct (check_after_value _ _ _ _) as [st'|r' lw'] eqn:Hck.
    + cbn. by rewrite Hc.
    + subst lw'. apply Hret; [done | by apply (all_scanned_weaken true)].
  - apply Hret; [done |]. intros r Hr. unfold upd_token in *.
    rewrite next_free_put in Hr.
    destruct (get_put_cases (Tok i) r (write_val val (get_token lw2 (Tok i))) lw2)
      as [[-> ->] | ->].
    + apply (Hv true). by apply Hl.
    + apply (scanned_weaken true). by apply Hl.
Qed.

Lemma parse_iter_scanned st :
  all_scanned txt true (st_lw st) -> scanned_next txt (parse_iter txt st).
Proof.
  intros HJ. unfold parse_iter. rewrite (prv_skip_blank_eq txt (st_p st)).
  set (q := (prv_skip_blank txt (st_p st)).2).
  destruct (st_first_check st).
  { destruct (is_char _ "{") eqn:Hobj.
    { apply is_char_eq in Hobj. injection Hobj as Hobj. cbn -[upd_token].
      apply all_scanned_upd; [done |]. intros x [Hn _]. split; [done |]. by exists q. }
    destruct (is_char _ "[") eqn:Harr.
    { apply is_char_eq in Harr. injection Harr as Harr. cbn -[upd_token].
      apply all_scanned_upd; [done |]. intros x [Hn _]. split; [done |]. by exists q. }
    cbn. rewrite bool_decide_false by done. by apply (all_scanned_weaken true). }
  destruct (is_char _ ","); [done |].
  destruct (Ascii.eqb _ _).
  { assert (HJ' : all_scanned txt true (upd_token (st_to st) (set_next None) (st_lw st)))
      by (apply all_scanned_upd; [done |]; intros x; apply scanned_set_next).
    destruct (next _); [done |]. cbn -[upd_token].
    destruct (bool_decide _); [done | by apply (all_scanned_weaken true)]. }
  destruct (prv_alloc_token (st_lw st)) as [[i lw1]|] eqn:Ha.
  - destruct (all_scanned_alloc _ _ _ _ HJ Ha) as (HJ1 & Hz). by apply parse_token_scanned.
  - cbn. rewrite bool_decide_false by done. by apply (all_scanned_weaken true).
Qed.

Lemma parse_loop_scanned fuel st res lw' :
  all_scanned txt true (st_lw st) ->
  parse_loop txt fuel st = Some (res, lw') ->
  all_scanned txt (bool_decide (res = lwjsonOK)) lw'.
Proof.
  assert (Hexit : forall st, all_scanned txt true (st_lw st) ->
            all_scanned txt (bool_decide ((loop_exit st).1 = lwjsonOK)) (loop_exit st).2).
  { intros st0 HJ. cbn -[upd_token].
    assert (all_scanned txt true
              (upd_token (st_to st0)
                 (fun tk => set_token_name_len 0 (set_token_name None tk)) (st_lw st0)))
      by (apply all_scanned_upd; [done |]; intros x; apply scanned_no_name).
    destruct (bool_decide _); [done | by apply (all_scanned_weaken true)]. }
  revert st. induction fuel as [|fuel IH]; intros st HJ; cbn [parse_loop].
  - destruct (is_nul _); [| done]. intros H. apply (inj Some) in H.
    specialize (Hexit st HJ). by rewrite H in Hexit.
  - destruct (is_nul _).
    { intros H. apply (inj Some) in H. specialize (Hexit st HJ). by rewrite H in Hexit. }
    pose proof (parse_iter_scanned st HJ) as Hi.
    destruct (parse_iter txt st) as [[st'|r la]|]; [| | done].
    + by apply IH.
    + by intros [= <- <-].
Qed.

Lemma lwjson_parse_scanned (lw : lwjson_t real) res lw' :
  lwjson_parse lw (Some txt) = Some (res, lw') ->
  all_scanned txt (bool_decide (res = lwjsonOK)) lw'.
Proof.
  unfold lwjson_parse.
  assert (H0 : all_scanned txt true
            (set_first_token zero_token
               (set_next_free_token_pos 0 (set_flags_parsed false lw)))).
  { intros [|i] Hi; simpl in *; [apply scanned_zero | lia]. }
  destruct (is_nul (peek txt 0)); [intros [= <- <-]; by apply (all_scanned_weaken true) |].
  destruct (parse_loop txt (length txt) _) as [[r la]|] eqn:Hl; [| done].
  apply parse_loop_scanned in Hl; [| exact H0].
  intros H. apply (inj Some) in H. unfold parse_ret in H.
  case_decide; injection H as <- <-; done.
Qed.

End Scanned.

(** Whatever the text and the status of a parse, the tokens in use hold
    nothing but what the scanners read in the text.  A name is the payload
    of a string of the text: it follows a double quote and the string scan
    ends at its closing quote; so is the payload of a string token.  An
    integer or real token holds the number the number scan gives for a
    literal of the text that starts with a minus sign or a digit.  For an
    object or an array the text holds an opening brace or bracket, and for
    a literal type its word.  Only a parse that fails can leave, as a name
    or a string payload, the empty slice at the start of a string that
    does not end. *)
Theorem lwjson_parse_from_text {real : Type} {RT : RealType real}
    (lw : lwjson_t real) (txt : text) (res : lwjsonr_t) (lw' : lwjson_t real)
    (r : tokref) :
  lwjson_parse lw (Some txt) = Some (res, lw') ->
  valid_ref (next_free_token_pos lw') r ->
  from_text txt (bool_decide (res = lwjsonOK)) (get_token lw' r).
Proof.
  intros Hparse Hr.
  destruct (lwjson_parse_scanned txt lw res lw' Hparse r Hr) as [Hn Hv].
  destruct (lwjson_parse_safe lw txt res lw' Hparse) as [(_ & Hok & _) _].
  destruct (Hok r Hr) as [_ Hpl].
  split; [exact Hn |]. unfold scanned_value, payload_ok in *.
  destruct (type (get_token lw' r)); try done;
    destruct (u (get_token lw' r)) as [|v l|y|z|c]; try done; eauto.
Qed.

(** The name and the string of a small document. *)
Lemma lwjson_parse_from_text_witness :
  from_text (json "{'k':'abc'}") (bool_decide (lwjsonOK = lwjsonOK))
    (get_token (tree_of 2 "{'k':'abc'}") (Tok 0)).
Proof.
  apply (lwjson_parse_from_text (arena 2) (json "{'k':'abc'}") lwjsonOK
           (tree_of 2 "{'k':'abc'}") (Tok 0)).
  - vm_compute. reflexivity.
  - vm_compute. lia.
Defined.

Section IntegerValue.
Context {real : Type} {RT : RealType real}.

(** The configured real type computes on the integers below [B] without
    error: the step of the digit loop, and the way back to an integer. *)
Variable B : Z.
Hypothesis exact_step : forall a d : Z,
  (0 <= a)%Z -> (0 <= d <= 9)%Z -> (a * 10 + d < B)%Z ->
  real_add (real_mul (real_of_int a) real_ten) (real_of_int d) = real_of_int (a * 10 + d).
Hypothesis exact_back : forall a : Z,
  (0 <= a < B)%Z -> int_of_real (real_of_int a) = a.
Hypothesis exact_neg : forall a : Z,
  (0 <= a < B)%Z -> int_of_real (real_neg (real_of_int a)) = (- a)%Z.

Lemma digit_val_range c : is_digit c = true -> (0 <= digit_val c <= 9)%Z.
Proof.
  unfold is_digit, digit_val. intros H. apply andb_true_iff in H as [H1 H2].
  apply Nat.leb_le in H1, H2. lia.
Qed.

Lemma decimal_from_ge (ds : text) a :
  forallb is_digit ds = true -> (0 <= a)%Z ->
  (a <= fold_left (fun a c => (a * 10 + digit_val c)%Z) ds a)%Z.
Proof.
  revert a. induction ds as [|c ds IH]; intros a Hd Ha; cbn [fold_left]; [lia |].
  cbn [forallb] in Hd. apply andb_true_iff in Hd as [Hc Hd].
  pose proof (digit_val_range c Hc). etrans; [| apply IH; [done | lia]]. lia.
Qed.

(** The digit loop computes the number the digits write. *)
Lemma digits_real_decimal (ds rest : text) a :
  forallb is_digit ds = true -> is_digit (peek rest 0) = false -> (0 <= a)%Z ->
  (fold_left (fun a c => (a * 10 + digit_val c)%Z) ds a < B)%Z ->
  digits_real (real_of_int a) (ds ++ rest)
  = (real_of_int (fold_left (fun a c => (a * 10 + digit_val c)%Z) ds a), length ds).
Proof.
  revert a. induction ds as [|c ds IH]; intros a Hd Hr Ha Hlt; cbn [app fold_left length].
  - destruct rest as [|c rest]; [done |]. change (peek (c :: rest) 0) with c in Hr.
    cbn [digits_real]. by rewrite Hr.
  - cbn [forallb] in Hd. apply andb_true_iff in Hd as [Hc Hd]. cbn [fold_left] in Hlt.
    pose proof (digit_val_range c Hc) as Hv.
    pose proof (decimal_from_ge ds (a * 10 + digit_val c) Hd ltac:(lia)) as Hge.
    cbn [digits_real]. rewrite Hc, exact_step by lia.
    rewrite IH by (try done; lia). done.
Qed.

End IntegerValue.

(** Integer literals are parsed to the number they write, as long as the
    configured real type, through which the value is computed, is exact
    on the integers below a bound [B] and the number is below [B]: after
    any blanks, an optional minus sign and decimal digits that are
    followed by no digit, dot or exponent mark give an integer token
    whose value is the number the digits write, negated after a minus
    sign, and the cursor is left behind the last digit.  Leading zeros
    are accepted. *)
Theorem prv_parse_number_integer {real : Type} {RT : RealType real} (B : Z)
    (txt : text) (p : nat) (ws : text) (neg : bool) (ds rest : text) :
  (forall a d : Z,
     (0 <= a)%Z -> (0 <= d <= 9)%Z -> (a * 10 + d < B)%Z ->
     real_add (real_mul (real_of_int a) real_ten) (real_of_int d)
     = real_of_int (a * 10 + d)) ->
  (forall a : Z, (0 <= a < B)%Z -> int_of_real (real_of_int a) = a) ->
  (forall a : Z, (0 <= a < B)%Z -> int_of_real (real_neg (real_of_int a)) = (- a)%Z) ->
  drop p txt = ws ++ print_int neg ds ++ rest ->
  all_blank ws = true ->
  ds <> [] -> forallb is_digit ds = true ->
  is_digit (peek rest 0) = false ->
  peek rest 0 <> "."%char -> peek rest 0 <> "e"%char -> peek rest 0 <> "E"%char ->
  (decimal ds < B)%Z ->
  prv_parse_number txt p
  = NumOk LWJSON_TYPE_NUM_INT
      (U_num_int (if neg then (- decimal ds)%Z else decimal ds))
      (p + length ws + length (print_int neg ds)).
Proof.
  intros Hstep Hback Hneg Hd Hws Hne Hds Hr Hdot He HE Hlt.
  destruct ds as [|c ds]; [done |]. clear Hne.
  pose proof Hds as Hds'. cbn [forallb] in Hds'. apply andb_true_iff in Hds' as [Hc _].
  set (sign := if neg then ["-"%char] else []) in *.
  assert (Hd' : drop p txt = ws ++ sign ++ (c :: ds) ++ rest).
  { rewrite Hd. unfold print_int. fold sign. by rewrite <- app_assoc. }
  set (h := match sign with [] => c | m :: _ => m end).
  assert (Hh : is_blank h = false /\ is_nul h = false).
  { unfold h, sign. destruct neg; [done |].
    split; [by apply is_digit_not_blank | by apply is_digit_not_nul]. }
  assert (Hskip : prv_skip_blank txt p = (lwjsonOK, p + length ws)).
  { destruct Hh as [Hh1 Hh2]. unfold h, sign in *. destruct neg.
    - apply (skip_at txt p ws "-"%char ((c :: ds) ++ rest)); done.
    - apply (skip_at txt p ws c (ds ++ rest)); done. }
  set (q := p + length ws).
  assert (Hq : drop q txt = sign ++ (c :: ds) ++ rest).
  { apply (drop_to txt p q ws); done. }
  set (s := q + length sign).
  assert (Hs : drop s txt = (c :: ds) ++ rest).
  { apply (drop_to txt q s sign); done. }
  assert (Hpq : peek txt q = h).
  { rewrite <- (Nat.add_0_r q), (peek_at txt q _ 0 Hq). unfold h, sign. by destruct neg. }
  assert (Hminus : Ascii.eqb (peek txt q) "-" = neg).
  { rewrite Hpq. unfold h, sign. destruct neg; [done |].
    destruct (Ascii.eqb_spec c "-"%char) as [-> |]; done. }
  assert (Hs' : (if neg then S q else q) = s).
  { unfold s, sign. destruct neg; simpl; lia. }
  assert (Hps : peek txt s = c) by (by apply (peek_at0 txt s c (ds ++ rest))).
  assert (Hend : peek txt (s + length (c :: ds)) = peek rest 0).
  { rewrite (peek_at txt s _ _ Hs). rewrite <- (Nat.add_0_r (length (c :: ds))).
    apply peek_app_r. }
  unfold prv_parse_number. rewrite Hskip. fold q.
  assert (Hnq : is_nul (peek txt q) = false) by (rewrite Hpq; apply Hh).
  rewrite Hnq, Hminus, Hs', Hps.
  rewrite (is_digit_not_nul c Hc).
  pose proof Hc as Hc'. unfold is_digit in Hc'. apply andb_true_iff in Hc' as [Hc1 Hc2].
  apply Nat.leb_le in Hc1, Hc2.
  replace (nat_of_ascii c <? 48) with false by (symmetry; apply Nat.ltb_ge; lia).
  replace (57 <? nat_of_ascii c) with false by (symmetry; apply Nat.ltb_ge; lia).
  cbn [orb].
  assert (Hzero : (nat_of_ascii c =? 48)
                  && ((nat_of_ascii (peek txt (S s)) <? 48)
                      && (57 <? nat_of_ascii (peek txt (S s)))) = false).
  { destruct (nat_of_ascii c =? 48); [| done]. cbn [andb].
    destruct (nat_of_ascii (peek txt (S s)) <? 48) eqn:H1; [| done].
    apply Nat.ltb_lt in H1. apply Nat.ltb_ge. lia. }
  rewrite Hzero, Hs.
  rewrite (digits_real_decimal B Hstep (c :: ds) rest 0) by (try done; lia).
  fold (decimal (c :: ds)).
  unfold number_fraction. rewrite Hend.
  destruct (Ascii.eqb_spec (peek rest 0) "."%char) as [|_]; [done |].
  unfold number_exponent. rewrite Hend.
  destruct (Ascii.eqb_spec (peek rest 0) "e"%char) as [|_]; [done |].
  destruct (Ascii.eqb_spec (peek rest 0) "E"%char) as [|_]; [done |].
  cbn [orb].
  assert (H0 : (0 <= decimal (c :: ds))%Z) by (apply (decimal_from_ge (c :: ds) 0); done).
  assert (Hlen : s + length (c :: ds) = p + length ws + length (print_int neg (c :: ds))).
  { unfold s, q, print_int. fold sign. rewrite length_app. lia. }
  rewrite Hlen. destruct neg; f_equal; f_equal; [apply Hneg | apply Hback]; lia.
Qed.

(** The binary64 configuration is exact on the integers below 100. *)
Lemma binary64_exact_back (a : Z) :
  (0 <= a < 100)%Z ->
  int_of_real (real_of_int (RealType := binary64) a) = a
  /\ int_of_real (real_neg (real_of_int (RealType := binary64) a)) = (- a)%Z.
Proof.
  intros Ha. rewrite <- (Z2Nat.id a) by lia.
  assert (Hk : Z.to_nat a < 100) by lia. revert Hk. generalize (Z.to_nat a). clear.
  intros k Hk.
  do 100 (destruct k as [|k]; [split; vm_compute; reflexivity |]). lia.
Qed.

Lemma binary64_exact_step (a d : Z) :
  (0 <= a)%Z -> (0 <= d <= 9)%Z -> (a * 10 + d < 100)%Z ->
  real_add (real_mul (real_of_int (RealType := binary64) a) real_ten) (real_of_int d)
  = real_of_int (a * 10 + d).
Proof.
  intros Ha Hd Hlt. rewrite <- (Z2Nat.id a), <- (Z2Nat.id d) by lia.
  assert (Hk : Z.to_nat a < 10) by lia. assert (Hj : Z.to_nat d < 10) by lia.
  revert Hk Hj. generalize (Z.to_nat a), (Z.to_nat d). clear.
  intros k j Hk Hj.
  do 10 (destruct k as [|k];
         [do 10 (destruct j as [|j]; [vm_compute; reflexivity |]); lia |]).
  lia.
Qed.

(** The literal "-42" after a blank and before a comma. *)
Lemma prv_parse_number_integer_witness :
  prv_parse_number (RT := binary64) (json " -42,") 0
  = NumOk LWJSON_TYPE_NUM_INT (U_num_int (if true then (- decimal (json "42"))%Z
                                          else decimal (json "42")))
      (0 + length (json " ") + length (print_int true (json "42"))).
Proof.
  apply (prv_parse_number_integer 100 (json " -42,") 0 (json " ") true (json "42")
           (json ",")).
  - exact binary64_exact_step.
  - intros a Ha. apply binary64_exact_back. exact Ha.
  - intros a Ha. apply binary64_exact_back. exact Ha.
  - reflexivity.
  - reflexivity.
  - discriminate.
  - reflexivity.
  - reflexivity.
  - discriminate.
  - discriminate.
  - discriminate.
  - vm_compute. reflexivity.
Defined.
